(** * The Compose sequence engine of libxkbcommon

    A shallow embedding of the compose table builder ([add_node],
    [add_production]), the parser driver ([parse], [do_include]) and the
    runtime state machine ([xkb_compose_state_feed] and its accessors),
    followed by the properties of the compose table and of the state
    machine.

    Conventions.
    - [uint32_t] indices and offsets are natural numbers; every place where
      the C code narrows a [darray] size to 32 bits goes through [u32].
    - A [darray] is a list; an access outside of it is undefined behaviour
      in C and is [None] here.
    - A loop that follows [next] links is bounded by the number of nodes of
      the table: a walk that visits more nodes than the table holds has
      entered a cycle, which makes the C loop spin forever; this too is
      [None].
    - The scanner is represented by the sequence of tokens that the
      successive lexer calls return on the rest of the file; a file on
      which a call of the lexer does not return has no such sequence.
    - [parse] may recurse without end through [include]; it takes fuel,
      and [None] is a run that has not returned within it.
    - The lexer itself is embedded in [Lexer], over the scanner
      primitives of scanner-utils.h, which are its parameters.
    - The objects that [calloc] and [free] manage are embedded in [Refs],
      with their reference counts.

    The file has five parts: the embedding of the code, the vocabulary
    of the properties, the lemmas on the compose table, on the parser and
    on the lexer, the claims C1 to C10 with their witnesses and
    counterexamples, and further properties X1 onwards of the table, the
    state machine, the parser, the constructors, the lexer and the
    reference counts. *)

From Stdlib.Strings Require Import Byte.
From stdpp Require Import base option list numbers strings.

Local Open Scope nat_scope.

(** ** Data model (compose.h) *)

Definition xkb_keysym_t : Type := N.

Definition XKB_KEY_NoSymbol : xkb_keysym_t := 0%N.

(** Narrowing of a size to [uint32_t]. *)
Definition u32 (n : nat) : nat := N.to_nat (N.of_nat n mod 4294967296)%N.

Record node : Type := Node {
  keysym : xkb_keysym_t;
  next : nat;
  successor : nat;
  utf8 : nat;
  ks : xkb_keysym_t
}.

(** [struct xkb_compose]: only the two arrays matter here; [compose_utf8]
    is the field [utf8] and [compose_tree] the field [tree]. *)
Record xkb_compose : Type := Compose {
  compose_utf8 : list byte;
  compose_tree : list node
}.

Definition set_next (n : node) (v : nat) : node :=
  {| keysym := keysym n; next := v; successor := successor n;
     utf8 := utf8 n; ks := ks n |}.

Definition set_successor (n : node) (v : nat) : node :=
  {| keysym := keysym n; next := next n; successor := v;
     utf8 := utf8 n; ks := ks n |}.

Definition set_utf8 (n : node) (v : nat) : node :=
  {| keysym := keysym n; next := next n; successor := successor n;
     utf8 := v; ks := ks n |}.

Definition set_ks (n : node) (v : xkb_keysym_t) : node :=
  {| keysym := keysym n; next := next n; successor := successor n;
     utf8 := utf8 n; ks := v |}.

(** [xkb_compose_new], on the path where the locale resolves and the
    allocation succeeds: one root node and a blob holding a single NUL. *)
Definition xkb_compose_new : xkb_compose :=
  {| compose_utf8 := [x00];
     compose_tree := [ {| keysym := XKB_KEY_NoSymbol; next := 0;
                          successor := 0; utf8 := 0;
                          ks := XKB_KEY_NoSymbol |} ] |}.

(** ** Trie builder (parser.c) *)

Definition MAX_LHS_LEN : nat := 10.
Definition MAX_INCLUDE_DEPTH : nat := 5.

(** [struct production]; [lhs] holds the first [len] entries of the array. *)
Record production : Type := Production {
  lhs : list xkb_keysym_t;
  prod_keysym : xkb_keysym_t;
  prod_string : list byte;
  has_keysym : bool;
  has_string : bool
}.

Definition len (p : production) : nat := length (lhs p).

(** Messages handed to the logging interface; [err_lexer] stands for the
    [scanner_err] with which the lexer precedes every [TOK_ERROR]. *)
Inductive message : Type :=
  | warn_prefix_override
  | warn_is_prefix
  | warn_already_exists
  | warn_too_many_keysyms
  | warn_empty_lhs
  | warn_two_strings
  | warn_empty_string
  | warn_string_too_long
  | warn_two_keysyms
  | warn_empty_rhs
  | err_lexer
  | err_unexpected_token
  | err_too_many_errors
  | err_failed_to_parse
  | err_include_depth
  | err_include_open.

(** [strlen]: the bytes before the first NUL. *)
Fixpoint strlen_prefix (s : list byte) : list byte :=
  match s with
  | [] => []
  | b :: s' => if Byte.eqb b x00 then [] else b :: strlen_prefix s'
  end.

Definition add_node (tree : list node) (k : xkb_keysym_t)
  : list node * nat :=
  let new := {| keysym := k; next := 0; successor := 0; utf8 := 0;
                ks := XKB_KEY_NoSymbol |} in
  let tree' := tree ++ [new] in
  (tree', u32 (length tree' - 1)).

(** The inner [while] loop of [add_production]: starting at [curr], follow
    [next] links until a node with keysym [k] is found, appending a fresh
    node at the end of the chain when there is none. *)
Fixpoint search_siblings (fuel : nat) (k : xkb_keysym_t)
    (tree : list node) (curr : nat) : option (list node * nat) :=
  nd ← tree !! curr;
  if N.eqb k (keysym nd) then Some (tree, curr)
  else match fuel with
       | 0 => None
       | S fuel' =>
           '(tree1, nd1) ←
             (if Nat.eqb (next nd) 0 then
                let '(tree', nx) := add_node tree k in
                nd' ← tree' !! curr;
                let nd'' := set_next nd' nx in
                Some (<[curr := nd'']> tree', nd'')
              else Some (tree, nd));
           search_siblings fuel' k tree1 (next nd1)
       end.

(** The second half of the loop body: give the node at [curr] a child list
    headed by a node for [k'] if it has none, overriding what the node
    held as a leaf, and yield [node->successor]. *)
Definition descend (tree : list node) (curr : nat) (k' : xkb_keysym_t)
  : option (list node * nat * list message) :=
  nd ← tree !! curr;
  if Nat.eqb (successor nd) 0 then
    let '(ndc, w) :=
      if negb (Nat.eqb (utf8 nd) 0) || negb (N.eqb (ks nd) 0)
      then (set_ks (set_utf8 nd 0) XKB_KEY_NoSymbol, [warn_prefix_override])
      else (nd, []) in
    let '(tree', succ) := add_node (<[curr := ndc]> tree) k' in
    nd' ← tree' !! curr;
    let nd'' := set_successor nd' succ in
    Some (<[curr := nd'']> tree', successor nd'', w)
  else Some (tree, successor nd, []).

(** The [for] loop over the left-hand side. *)
Fixpoint add_production_loop (ksyms : list xkb_keysym_t)
    (tree : list node) (curr : nat)
  : option (list node * nat * list message) :=
  match ksyms with
  | [] => Some (tree, curr, [])
  | k :: rest =>
      '(tree1, curr1) ← search_siblings (S (length tree)) k tree curr;
      match rest with
      | [] => Some (tree1, curr1, [])
      | k' :: _ =>
          '(tree2, curr2, w) ← descend tree1 curr1 k';
          '(tree3, curr3, w') ← add_production_loop rest tree2 curr2;
          Some (tree3, curr3, w ++ w')
      end
  end.

Definition add_production (compose : xkb_compose) (p : production)
  : option (xkb_compose * list message) :=
  '(tree, curr, w) ← add_production_loop (lhs p) (compose_tree compose) 0;
  nd ← tree !! curr;
  if negb (Nat.eqb (successor nd) 0) then
    Some ({| compose_utf8 := compose_utf8 compose; compose_tree := tree |},
          w ++ [warn_is_prefix])
  else if negb (Nat.eqb (utf8 nd) 0) || negb (N.eqb (ks nd) 0) then
    Some ({| compose_utf8 := compose_utf8 compose; compose_tree := tree |},
          w ++ [warn_already_exists])
  else
    let '(nd1, blob) :=
      if has_string p then
        (set_utf8 nd (u32 (length (compose_utf8 compose))),
         compose_utf8 compose ++ strlen_prefix (prod_string p) ++ [x00])
      else (nd, compose_utf8 compose) in
    let nd2 := if has_keysym p then set_ks nd1 (prod_keysym p) else nd1 in
    Some ({| compose_utf8 := blob; compose_tree := <[curr := nd2]> tree |},
          w).

(** ** Runtime state machine (state.c) *)

Record xkb_compose_state : Type := State {
  compose : xkb_compose;
  prev_context : nat;
  context : nat
}.

Inductive xkb_compose_status : Type :=
  | XKB_COMPOSE_NOTHING
  | XKB_COMPOSE_COMPOSING
  | XKB_COMPOSE_COMPOSED
  | XKB_COMPOSE_CANCELLED.

Definition xkb_compose_state_new (c : xkb_compose) : xkb_compose_state :=
  {| compose := c; prev_context := 0; context := 0 |}.

Definition xkb_compose_state_reset (state : xkb_compose_state)
  : xkb_compose_state :=
  {| compose := compose state; prev_context := 0; context := 0 |}.

(** The [while] loop of [xkb_compose_state_feed]. *)
Fixpoint feed_loop (fuel : nat) (tree : list node) (k : xkb_keysym_t)
    (ctx : nat) : option nat :=
  nd ← tree !! ctx;
  if negb (N.eqb (keysym nd) k) && negb (Nat.eqb (next nd) 0) then
    match fuel with
    | 0 => None
    | S fuel' => feed_loop fuel' tree k (next nd)
    end
  else Some ctx.

Definition xkb_compose_state_get_status (state : xkb_compose_state)
  : option xkb_compose_status :=
  let tree := compose_tree (compose state) in
  prev_node ← tree !! prev_context state;
  nd ← tree !! context state;
  if Nat.eqb (context state) 0 && negb (Nat.eqb (successor prev_node) 0)
  then Some XKB_COMPOSE_CANCELLED
  else if Nat.eqb (context state) 0 then Some XKB_COMPOSE_NOTHING
  else if negb (Nat.eqb (successor nd) 0) then Some XKB_COMPOSE_COMPOSING
  else Some XKB_COMPOSE_COMPOSED.

Definition xkb_compose_state_get_one_sym (state : xkb_compose_state)
  : option xkb_keysym_t :=
  nd ← compose_tree (compose state) !! context state;
  Some (ks nd).

(** The C string that starts at the head of [l]: the bytes before the
    first NUL; reading past the end of the array is undefined. *)
Fixpoint c_string (l : list byte) : option (list byte) :=
  match l with
  | [] => None
  | b :: l' => if Byte.eqb b x00 then Some []
               else s ← c_string l'; Some (b :: s)
  end.

(** [snprintf(buffer, size, "%s", s)] for a string whose length fits in an
    [int]: the bytes stored into the buffer and the value returned. *)
Definition snprintf_s (size : nat) (s : list byte) : list byte * Z :=
  (match size with
   | 0 => []
   | S m => take m s ++ [x00]
   end, Z.of_nat (length s)).

Section StateMachine.

(** The keysym module is an external collaborator. *)
Variable xkb_keysym_is_modifier : xkb_keysym_t → bool.
Variable xkb_keysym_to_utf8 : xkb_keysym_t → nat → list byte * Z.

Definition xkb_compose_state_feed (state : xkb_compose_state)
    (k : xkb_keysym_t) : option xkb_compose_state :=
  if xkb_keysym_is_modifier k then Some state
  else
    let tree := compose_tree (compose state) in
    nd ← tree !! context state;
    let ctx := if negb (Nat.eqb (successor nd) 0) then successor nd
               else 0 in
    ctx ← feed_loop (length tree) tree k ctx;
    nd ← tree !! ctx;
    let ctx := if negb (N.eqb (keysym nd) k) then 0 else ctx in
    Some {| compose := compose state;
            prev_context := context state;
            context := ctx |}.

Definition xkb_compose_state_get_utf8 (state : xkb_compose_state)
    (size : nat) : option (list byte * Z) :=
  nd ← compose_tree (compose state) !! context state;
  if Nat.eqb (utf8 nd) 0 && negb (N.eqb (ks nd) 0) then
    Some (xkb_keysym_to_utf8 (ks nd) size)
  else
    s ← c_string (drop (utf8 nd) (compose_utf8 (compose state)));
    Some (snprintf_s size s).

End StateMachine.

(** ** Parser driver (parser.c) *)

(** [enum rules_token], each token carrying the value that the lexer
    stores in [union lvalue] for it. *)
Inductive rules_token : Type :=
  | TOK_END_OF_FILE
  | TOK_END_OF_LINE
  | TOK_INCLUDE
  | TOK_INCLUDE_STRING (path : string)
  | TOK_LHS_KEYSYM (k : xkb_keysym_t)
  | TOK_COLON
  | TOK_STRING (s : list byte)
  | TOK_RHS_KEYSYM (k : xkb_keysym_t)
  | TOK_ERROR.

(** The scanner: the tokens that the coming lexer calls return.  At the end
    of the buffer [lex] keeps answering [TOK_END_OF_FILE], while
    [lex_include_string] finds no opening quote and answers [TOK_ERROR].
    A list stands for a file on which every call of the lexer returns;
    the lexer itself, which on some files does not, is [Lexer.lex]. *)
Definition scanner : Type := list rules_token.

Definition lex (s : scanner) : rules_token * scanner :=
  match s with
  | [] => (TOK_END_OF_FILE, [])
  | t :: s' => (t, s')
  end.

Definition lex_include_string (s : scanner) : rules_token * scanner :=
  match s with
  | [] => (TOK_ERROR, [])
  | t :: s' => (t, s')
  end.

Definition MAX_ERRORS : nat := 10.

(** The labels of [parse]. *)
Inductive label : Type :=
  | L_initial
  | L_initial_eol
  | L_include
  | L_include_eol (path : string)
  | L_lhs
  | L_rhs
  | L_unexpected
  | L_fail
  | L_skip
  | L_finished.

(** The variables of [parse], together with the objects it mutates. *)
Record parse_state : Type := ParseState {
  ps_tok : rules_token;
  ps_production : production;
  ps_num_errors : nat;
  ps_compose : xkb_compose;
  ps_scanner : scanner;
  ps_log : list message
}.

(** The state after a lexer call that returned [t] and left the scanner
    at [s]; a [TOK_ERROR] comes with the lexer's error message. *)
Definition with_tok (st : parse_state) (t : rules_token) (s : scanner)
  : parse_state :=
  {| ps_tok := t; ps_production := ps_production st;
     ps_num_errors := ps_num_errors st; ps_compose := ps_compose st;
     ps_scanner := s;
     ps_log := match t with
               | TOK_ERROR => ps_log st ++ [err_lexer]
               | _ => ps_log st
               end |}.

Definition with_production (st : parse_state) (p : production)
  : parse_state :=
  {| ps_tok := ps_tok st; ps_production := p;
     ps_num_errors := ps_num_errors st; ps_compose := ps_compose st;
     ps_scanner := ps_scanner st; ps_log := ps_log st |}.

Definition with_num_errors (st : parse_state) (n : nat) : parse_state :=
  {| ps_tok := ps_tok st; ps_production := ps_production st;
     ps_num_errors := n; ps_compose := ps_compose st;
     ps_scanner := ps_scanner st; ps_log := ps_log st |}.

Definition with_compose (st : parse_state) (c : xkb_compose)
    (lg : list message) : parse_state :=
  {| ps_tok := ps_tok st; ps_production := ps_production st;
     ps_num_errors := ps_num_errors st; ps_compose := c;
     ps_scanner := ps_scanner st; ps_log := lg |}.

Definition logging (st : parse_state) (m : list message) : parse_state :=
  with_compose st (ps_compose st) (ps_log st ++ m).

(** [production.len = 0; has_keysym = false; has_string = false]. *)
Definition clear_production (p : production) : production :=
  {| lhs := []; prod_keysym := prod_keysym p; prod_string := prod_string p;
     has_keysym := false; has_string := false |}.

(** [production.lhs[production.len++] = val.keysym]. *)
Definition push_lhs (p : production) (k : xkb_keysym_t) : production :=
  {| lhs := lhs p ++ [k]; prod_keysym := prod_keysym p;
     prod_string := prod_string p; has_keysym := has_keysym p;
     has_string := has_string p |}.

Definition copy_string (p : production) (s : list byte) (set : bool)
  : production :=
  {| lhs := lhs p; prod_keysym := prod_keysym p;
     prod_string := take 255 (strlen_prefix s);
     has_keysym := has_keysym p; has_string := set |}.

Definition store_keysym (p : production) (k : xkb_keysym_t) : production :=
  {| lhs := lhs p; prod_keysym := k; prod_string := prod_string p;
     has_keysym := true; has_string := has_string p |}.

(** [*val.string == '\0']; the list leaves out the NUL that ends the
    lexer's buffer. *)
Definition starts_with_nul (s : list byte) : bool :=
  match s with
  | [] => true
  | b :: _ => Byte.eqb b x00
  end.

(** What [parse] hands back: its [bool], and the state it leaves behind. *)
Definition parse_result : Type := bool * parse_state.

(** The state in which [parse] starts on a fresh scanner.  [tok] and the
    production are not initialised in C; they are written before they are
    read, so any value serves. *)
Definition parse_entry (c : xkb_compose) (s : scanner) (lg : list message)
  : parse_state :=
  {| ps_tok := TOK_END_OF_FILE;
     ps_production := {| lhs := []; prod_keysym := XKB_KEY_NoSymbol;
                         prod_string := []; has_keysym := false;
                         has_string := false |};
     ps_num_errors := 0; ps_compose := c; ps_scanner := s; ps_log := lg |}.

(** The value of [x++] and the value [x] has afterwards. *)
Definition post_increment (x : nat) : nat * nat := (x, x + 1).

Section Parser.

(** [fopen] followed by [map_file] and [scanner_init]: the tokens of the
    file at a path, if it can be opened and read. *)
Variable open_file : string → option scanner.

(** [do_include], given the function that parses the included file. *)
Definition do_include_with
    (parse : xkb_compose → scanner → list message → nat →
             option parse_result)
    (c : xkb_compose) (lg : list message) (path : string)
    (include_depth : nat) : option (bool * xkb_compose * list message) :=
  if MAX_INCLUDE_DEPTH <=? include_depth then
    Some (false, c, lg ++ [err_include_depth])
  else
    match open_file path with
    | None => Some (false, c, lg ++ [err_include_open])
    | Some new_s =>
        let '(arg, include_depth') := post_increment include_depth in
        '(ok, st) ← parse c new_s lg arg;
        Some (ok, ps_compose st, ps_log st)
    end.

(** The code at one label of [parse], up to its next [goto]; [goto] is the
    rest of the run from a label, and [parse] the recursive call made
    for an included file. *)
Section Labels.

Variable goto : label → parse_state → option parse_result.
Variable parse :
  xkb_compose → scanner → list message → nat → option parse_result.

(** The [TOK_END_OF_LINE] case of the [rhs] switch, which the
    [TOK_RHS_KEYSYM] case falls into. *)
Definition rhs_end_of_line (st : parse_state) : option parse_result :=
  let p := ps_production st in
  if negb (has_string p) && negb (has_keysym p) then
    goto L_skip (logging st [warn_empty_rhs])
  else
    match add_production (ps_compose st) p with
    | None => None
    | Some (c, w) => goto L_initial (with_compose st c (ps_log st ++ w))
    end.

Definition parse_step (l : label) (st : parse_state)
    (include_depth : nat) : option parse_result :=
  match l with
  | L_initial =>
      goto L_initial_eol
        (with_production st (clear_production (ps_production st)))
  | L_initial_eol =>
      let '(tok, s) := lex (ps_scanner st) in
      let st := with_tok st tok s in
      match tok with
      | TOK_END_OF_LINE => goto L_initial_eol st
      | TOK_END_OF_FILE => goto L_finished st
      | TOK_INCLUDE => goto L_include st
      | TOK_LHS_KEYSYM k =>
          goto L_lhs (with_production st (push_lhs (ps_production st) k))
      | _ => goto L_unexpected st
      end
  | L_include =>
      let '(tok, s) := lex_include_string (ps_scanner st) in
      let st := with_tok st tok s in
      match tok with
      | TOK_INCLUDE_STRING path => goto (L_include_eol path) st
      | _ => goto L_unexpected st
      end
  | L_include_eol path =>
      let '(tok, s) := lex (ps_scanner st) in
      let st := with_tok st tok s in
      match tok with
      | TOK_END_OF_LINE =>
          match do_include_with parse (ps_compose st) (ps_log st) path
                  include_depth with
          | None => None
          | Some (true, c, lg) => goto L_initial (with_compose st c lg)
          | Some (false, c, lg) => goto L_fail (with_compose st c lg)
          end
      | _ => goto L_unexpected st
      end
  | L_lhs =>
      let '(tok, s) := lex (ps_scanner st) in
      let st := with_tok st tok s in
      match tok with
      | TOK_LHS_KEYSYM k =>
          if MAX_LHS_LEN <? len (ps_production st) + 1 then
            goto L_skip (logging st [warn_too_many_keysyms])
          else
            goto L_lhs
              (with_production st (push_lhs (ps_production st) k))
      | TOK_COLON =>
          if len (ps_production st) <=? 0 then
            goto L_skip (logging st [warn_empty_lhs])
          else goto L_rhs st
      | _ => goto L_unexpected st
      end
  | L_rhs =>
      let '(tok, s) := lex (ps_scanner st) in
      let st := with_tok st tok s in
      match tok with
      | TOK_STRING str =>
          if has_string (ps_production st) then
            goto L_skip (logging st [warn_two_strings])
          else if starts_with_nul str then
            goto L_skip (logging st [warn_empty_string])
          else if 256 <=? length (strlen_prefix str) then
            goto L_skip
              (logging
                 (with_production st
                    (copy_string (ps_production st) str false))
                 [warn_string_too_long])
          else
            goto L_rhs
              (with_production st
                 (copy_string (ps_production st) str true))
      | TOK_RHS_KEYSYM k =>
          if has_keysym (ps_production st) then
            goto L_skip (logging st [warn_two_keysyms])
          else
            rhs_end_of_line
              (with_production st (store_keysym (ps_production st) k))
      | TOK_END_OF_LINE => rhs_end_of_line st
      | _ => goto L_unexpected st
      end
  | L_unexpected =>
      let st :=
        match ps_tok st with
        | TOK_ERROR => st
        | _ => logging st [err_unexpected_token]
        end in
      let st := with_num_errors st (ps_num_errors st + 1) in
      if ps_num_errors st <=? MAX_ERRORS then goto L_skip st
      else goto L_fail (logging st [err_too_many_errors])
  | L_fail => Some (false, logging st [err_failed_to_parse])
  | L_skip =>
      match ps_tok st with
      | TOK_END_OF_LINE | TOK_END_OF_FILE => goto L_initial st
      | _ =>
          let '(tok, s) := lex (ps_scanner st) in
          goto L_skip (with_tok st tok s)
      end
  | L_finished => Some (true, st)
  end.

End Labels.

(** [parse] entered at a label: every [goto] and every recursive call
    takes one unit of [fuel]. *)
Fixpoint parse_at (fuel : nat) (l : label) (st : parse_state)
    (include_depth : nat) {struct fuel} : option parse_result :=
  match fuel with
  | 0 => None
  | S fuel' =>
      parse_step
        (λ l' st', parse_at fuel' l' st' include_depth)
        (λ c s lg d, parse_at fuel' L_initial (parse_entry c s lg) d)
        l st include_depth
  end.

Definition parse (fuel : nat) (c : xkb_compose) (s : scanner)
    (lg : list message) (include_depth : nat) : option parse_result :=
  parse_at fuel L_initial (parse_entry c s lg) include_depth.

Definition do_include (fuel : nat) (c : xkb_compose) (lg : list message)
    (path : string) (include_depth : nat)
  : option (bool * xkb_compose * list message) :=
  do_include_with (parse fuel) c lg path include_depth.

Definition parse_string (fuel : nat) (c : xkb_compose) (s : scanner)
  : option parse_result :=
  parse fuel c s [] 0.

Definition XKB_COMPOSE_COMPILE_NO_FLAGS : Z := 0.
Definition XKB_COMPOSE_FORMAT_TEXT_V1 : Z := 1.

(** [xkb_compose_new_from_buffer], on the path where the locale
    resolves; [Some None] is the [NULL] result. *)
Definition xkb_compose_new_from_buffer (fuel : nat) (buffer : scanner)
    (format flags : Z) : option (option xkb_compose) :=
  if negb (Z.eqb (Z.land flags (Z.lnot XKB_COMPOSE_COMPILE_NO_FLAGS)) 0)
  then Some None
  else if negb (Z.eqb format XKB_COMPOSE_FORMAT_TEXT_V1) then Some None
  else
    match parse_string fuel xkb_compose_new buffer with
    | None => None
    | Some (ok, st) =>
        if ok then Some (Some (ps_compose st)) else Some None
    end.

End Parser.

(** ** The other constructors (compose.c) *)

(** An open [FILE]: the tokens of its contents, or [None] when [map_file]
    cannot read it. *)
Definition FILE : Type := option scanner.

Section Constructors.

Variable open_file : string → option scanner.

(** [fopen(path, "r")]. *)
Variable fopen : string → option FILE.

(** The candidate paths of paths.h; [get_locale_compose_file_path] is
    taken at the locale of the table. *)
Variable get_xcomposefile_path : option string.
Variable get_home_xcompose_file_path : option string.
Variable get_locale_compose_file_path : option string.

(** [parse_file]: its [bool] and the table as it leaves it. *)
Definition parse_file (fuel : nat) (c : xkb_compose) (file : FILE)
  : option (bool * xkb_compose) :=
  match file with
  | None => Some (false, c)
  | Some s =>
      match parse_string open_file fuel c s with
      | None => None
      | Some (ok, st) => Some (ok, ps_compose st)
      end
  end.

(** [xkb_compose_new_from_file], on the path where the locale
    resolves. *)
Definition xkb_compose_new_from_file (fuel : nat) (file : FILE)
    (format flags : Z) : option (option xkb_compose) :=
  if negb (Z.eqb (Z.land flags (Z.lnot XKB_COMPOSE_COMPILE_NO_FLAGS)) 0)
  then Some None
  else if negb (Z.eqb format XKB_COMPOSE_FORMAT_TEXT_V1) then Some None
  else
    match parse_file fuel xkb_compose_new file with
    | None => None
    | Some (ok, c) => if ok then Some (Some c) else Some None
    end.

(** [xkb_compose_new_from_locale], on the path where the locale
    resolves. *)
Definition xkb_compose_new_from_locale (fuel : nat) (flags : Z)
  : option (option xkb_compose) :=
  if negb (Z.eqb (Z.land flags (Z.lnot XKB_COMPOSE_COMPILE_NO_FLAGS)) 0)
  then Some None
  else
    let found_path (file : FILE) :=
      match parse_file fuel xkb_compose_new file with
      | None => None
      | Some (ok, c) => if ok then Some (Some c) else Some None
      end in
    match cpath ← get_xcomposefile_path; fopen cpath with
    | Some file => found_path file
    | None =>
        match path ← get_home_xcompose_file_path; fopen path with
        | Some file => found_path file
        | None =>
            match path ← get_locale_compose_file_path; fopen path with
            | Some file => found_path file
            | None => Some None
            end
        end
    end.

(** The first of the candidate paths that [fopen] opens. *)
Fixpoint first_opened (candidates : list (option string)) : option FILE :=
  match candidates with
  | [] => None
  | candidate :: rest =>
      match path ← candidate; fopen path with
      | Some file => Some file
      | None => first_opened rest
      end
  end.

End Constructors.

(** ** The lexer (parser.c)

    [lex] and [lex_include_string] over the characters of a file.  The
    scanner they drive (scanner-utils.h) is not part of the sources at
    hand: its type and its operations are parameters, as are the
    character classes, the keysym module, the UTF-8 check and the three
    paths of paths.h.  A loop takes fuel, and [None] is a loop that has
    not ended within it. *)
Module Lexer.

(** What the lexer reports with [scanner_err]. *)
Inductive lex_error : Type :=
  | unterminated_keysym
  | keysym_too_long
  | unrecognized_lhs_keysym
  | unterminated_string
  | string_too_long
  | invalid_utf8
  | identifier_too_long
  | unrecognized_rhs_keysym
  | unrecognized_token
  | include_without_path
  | home_not_set
  | home_too_long
  | locale_path_failed
  | locale_path_too_long
  | xlocaledir_too_long
  | unknown_format
  | unterminated_include
  | include_too_long.

(** What the lexer reports with [scanner_warn]. *)
Inductive lex_warning : Type :=
  | illegal_hex_escape
  | unknown_escape.

Inductive log_entry : Type :=
  | scanner_err (e : lex_error)
  | scanner_warn (w : lex_warning).

Section Lex.

(** [struct scanner] and the operations of scanner-utils.h.  An operation
    that advances the scanner returns the scanner it leaves; [hex] and
    [oct] return the byte they store through their pointer when they
    succeed. *)
Variable scanner_t : Type.
Variable peek : scanner_t → byte.
Variable next : scanner_t → byte * scanner_t.
Variable chr : scanner_t → byte → bool * scanner_t.
Variable eof : scanner_t → bool.
Variable eol : scanner_t → bool.
Variable buf_append : scanner_t → byte → bool * scanner_t.
Variable buf_appends : scanner_t → list byte → bool * scanner_t.
Variable hex : scanner_t → option byte * scanner_t.
Variable oct : scanner_t → option byte * scanner_t.

(** [s->token_line = s->line; s->token_column = s->column;
    s->buf_pos = 0] and [s->buf_pos = 0]. *)
Variable new_token : scanner_t → scanner_t.
Variable reset_buf : scanner_t → scanner_t.

(** The string in [s->buf], and [s->buf_pos]. *)
Variable buf : scanner_t → list byte.
Variable buf_pos : scanner_t → nat.

(** utils.h, keysym.h, utf8.h and paths.h. *)
Variable is_space : byte → bool.
Variable is_alpha : byte → bool.
Variable is_alnum : byte → bool.
Variable xkb_keysym_from_name : list byte → xkb_keysym_t.
Variable is_valid_utf8 : list byte → nat → bool.
Variable secure_getenv_HOME : option (list byte).
Variable get_xlocaledir_path : list byte.

(** A token, the scanner and the log as a lexer call leaves them. *)
Definition lex_result : Type := rules_token * scanner_t * list log_entry.

(** [scanner_err(s, ...); return TOK_ERROR;] *)
Definition lex_fail (s : scanner_t) (log : list log_entry) (e : lex_error)
  : option lex_result :=
  Some (TOK_ERROR, s, log ++ [scanner_err e]).

(** [while (is_space(peek(s))) if (next(s) == '\n') return
    TOK_END_OF_LINE;]: whether the function returns there, and the
    scanner. *)
Fixpoint skip_spaces (fuel : nat) (s : scanner_t)
  : option (bool * scanner_t) :=
  if is_space (peek s) then
    match fuel with
    | 0 => None
    | S fuel' =>
        let '(c, s) := next s in
        if Byte.eqb c x0a then Some (true, s) else skip_spaces fuel' s
    end
  else Some (false, s).

(** [while (!eof(s) && !eol(s)) next(s);] *)
Fixpoint skip_to_eol (fuel : nat) (s : scanner_t) : option scanner_t :=
  if negb (eof s) && negb (eol s) then
    match fuel with
    | 0 => None
    | S fuel' => skip_to_eol fuel' (next s).2
    end
  else Some s.

(** [while (peek(s) != '>' && !eol(s)) buf_append(s, next(s));] *)
Fixpoint keysym_literal (fuel : nat) (s : scanner_t) : option scanner_t :=
  if negb (Byte.eqb (peek s) x3e) && negb (eol s) then
    match fuel with
    | 0 => None
    | S fuel' =>
        let '(c, s) := next s in
        keysym_literal fuel' (buf_append s c).2
    end
  else Some s.

(** The body of the loop over a string literal, after the backslash. *)
Definition string_escape (s : scanner_t) (log : list log_entry)
  : scanner_t * list log_entry :=
  let '(b, s) := chr s x5c in
  if b then ((buf_append s x5c).2, log)
  else
    let '(b, s) := chr s x22 in
    if b then ((buf_append s x22).2, log)
    else
      let '(b, s) := chr s x78 in
      let '(b, s) := if b then (true, s) else chr s x58 in
      if b then
        match hex s with
        | (Some o, s) => ((buf_append s o).2, log)
        | (None, s) => (s, log ++ [scanner_warn illegal_hex_escape])
        end
      else
        match oct s with
        | (Some o, s) => ((buf_append s o).2, log)
        | (None, s) => (s, log ++ [scanner_warn unknown_escape])
        end.

(** The loop of [lex] over a string literal, which runs while the
    scanner is neither at the end of the file nor at the end of the line
    nor at a double quote. *)
Fixpoint string_literal (fuel : nat) (s : scanner_t)
    (log : list log_entry) : option (scanner_t * list log_entry) :=
  if negb (eof s) && negb (eol s) && negb (Byte.eqb (peek s) x22) then
    match fuel with
    | 0 => None
    | S fuel' =>
        let '(b, s) := chr s x5c in
        if b then
          let '(s, log) := string_escape s log in
          string_literal fuel' s log
        else
          let '(c, s) := next s in
          string_literal fuel' (buf_append s c).2 log
    end
  else Some (s, log).

(** [while (is_alnum(peek(s)) || peek(s) == '_')
    buf_append(s, next(s));] *)
Fixpoint identifier (fuel : nat) (s : scanner_t) : option scanner_t :=
  if is_alnum (peek s) || Byte.eqb (peek s) x5f then
    match fuel with
    | 0 => None
    | S fuel' =>
        let '(c, s) := next s in
        identifier fuel' (buf_append s c).2
    end
  else Some s.

(** [lex] from the new token on. *)
Definition lex_token (fuel : nat) (s : scanner_t) (log : list log_entry)
  : option lex_result :=
  let s := new_token s in
  let '(b, s) := chr s x3c in
  if b then
    match keysym_literal fuel s with
    | None => None
    | Some s =>
        let '(b, s) := chr s x3e in
        if negb b then lex_fail s log unterminated_keysym
        else
          let '(b, s) := buf_append s x00 in
          if negb b then lex_fail s log keysym_too_long
          else
            let k := xkb_keysym_from_name (buf s) in
            if N.eqb k XKB_KEY_NoSymbol
            then lex_fail s log unrecognized_lhs_keysym
            else Some (TOK_LHS_KEYSYM k, s, log)
    end
  else
    let '(b, s) := chr s x3a in
    if b then Some (TOK_COLON, s, log)
    else
      let '(b, s) := chr s x22 in
      if b then
        match string_literal fuel s log with
        | None => None
        | Some (s, log) =>
            let '(b, s) := chr s x22 in
            if negb b then lex_fail s log unterminated_string
            else
              let '(b, s) := buf_append s x00 in
              if negb b then lex_fail s log string_too_long
              else if negb (is_valid_utf8 (buf s) (buf_pos s - 1))
              then lex_fail s log invalid_utf8
              else Some (TOK_STRING (buf s), s, log)
        end
      else if is_alpha (peek s) || Byte.eqb (peek s) x5f then
        match identifier fuel (reset_buf s) with
        | None => None
        | Some s =>
            let '(b, s) := buf_append s x00 in
            if negb b then lex_fail s log identifier_too_long
            else if String.eqb (String.string_of_list_byte (buf s)) "include"
            then Some (TOK_INCLUDE, s, log)
            else
              let k := xkb_keysym_from_name (buf s) in
              if N.eqb k XKB_KEY_NoSymbol
              then lex_fail s log unrecognized_rhs_keysym
              else Some (TOK_RHS_KEYSYM k, s, log)
        end
      else
        match skip_to_eol fuel s with
        | None => None
        | Some s => lex_fail s log unrecognized_token
        end.

(** [lex]; the label [skip_more_whitespace_and_comments] is the
    recursive call. *)
Fixpoint lex (fuel : nat) (s : scanner_t) (log : list log_entry)
  : option lex_result :=
  match fuel with
  | 0 => None
  | S fuel' =>
      match skip_spaces fuel' s with
      | None => None
      | Some (true, s) => Some (TOK_END_OF_LINE, s, log)
      | Some (false, s) =>
          let '(b, s) := chr s x23 in
          if b then
            match skip_to_eol fuel' s with
            | None => None
            | Some s => lex fuel' s log
            end
          else if eof s then Some (TOK_END_OF_FILE, s, log)
          else lex_token fuel' s log
      end
  end.

(** The body of the loop over an include path, after the percent sign:
    the error it returns with, if any, and the scanner. *)
Definition include_expansion (locale_path : option (list byte))
    (s : scanner_t) : option lex_error * scanner_t :=
  let '(b, s) := chr s x25 in
  if b then (None, (buf_append s x25).2)
  else
    let '(b, s) := chr s x48 in
    if b then
      match secure_getenv_HOME with
      | None => (Some home_not_set, s)
      | Some home =>
          let '(b, s) := buf_appends s home in
          if negb b then (Some home_too_long, s) else (None, s)
      end
    else
      let '(b, s) := chr s x4c in
      if b then
        match locale_path with
        | None => (Some locale_path_failed, s)
        | Some path =>
            let '(b, s) := buf_appends s path in
            if negb b then (Some locale_path_too_long, s) else (None, s)
        end
      else
        let '(b, s) := chr s x53 in
        if b then
          let '(b, s) := buf_appends s get_xlocaledir_path in
          if negb b then (Some xlocaledir_too_long, s) else (None, s)
        else (Some unknown_format, s).

(** The loop of [lex_include_string] over the path, which runs while the
    scanner is neither at the end of the file nor at the end of the line
    nor at a double quote. *)
Fixpoint include_path (fuel : nat) (locale_path : option (list byte))
    (s : scanner_t) : option (option lex_error * scanner_t) :=
  if negb (eof s) && negb (eol s) && negb (Byte.eqb (peek s) x22) then
    match fuel with
    | 0 => None
    | S fuel' =>
        let '(b, s) := chr s x25 in
        if b then
          match include_expansion locale_path s with
          | (Some e, s) => Some (Some e, s)
          | (None, s) => include_path fuel' locale_path s
          end
        else
          let '(c, s) := next s in
          include_path fuel' locale_path (buf_append s c).2
    end
  else Some (None, s).

(** [lex_include_string]; [locale_path] is what
    [get_locale_compose_file_path] gives for the locale of the table. *)
Definition lex_include_string (fuel : nat)
    (locale_path : option (list byte)) (s : scanner_t)
    (log : list log_entry) : option lex_result :=
  match skip_spaces fuel s with
  | None => None
  | Some (true, s) => Some (TOK_END_OF_LINE, s, log)
  | Some (false, s) =>
      let s := new_token s in
      let '(b, s) := chr s x22 in
      if negb b then lex_fail s log include_without_path
      else
        match include_path fuel locale_path s with
        | None => None
        | Some (Some e, s) => lex_fail s log e
        | Some (None, s) =>
            let '(b, s) := chr s x22 in
            if negb b then lex_fail s log unterminated_include
            else
              let '(b, s) := buf_append s x00 in
              if negb b then lex_fail s log include_too_long
              else Some (TOK_INCLUDE_STRING (String.string_of_list_byte (buf s)),
                         s, log)
        end
  end.


(** ** What a lexer call guarantees *)

(** The entries that [scanner_warn] makes. *)
Definition warnings (l : list log_entry) : Prop :=
  Forall (λ m, ∃ w, m = scanner_warn w) l.

(** What a token of [lex] carries: a keysym that the keysym module
    knows, or the string of the buffer, which has passed the UTF-8
    check; [lex] does not make include paths. *)
Definition lex_token_valid (tok : rules_token) (s : scanner_t) : Prop :=
  match tok with
  | TOK_LHS_KEYSYM k | TOK_RHS_KEYSYM k =>
      k ≠ XKB_KEY_NoSymbol ∧ k = xkb_keysym_from_name (buf s)
  | TOK_STRING str =>
      str = buf s ∧ is_valid_utf8 (buf s) (buf_pos s - 1) = true
  | TOK_INCLUDE =>
      String.string_of_list_byte (buf s) = "include"%string
  | TOK_INCLUDE_STRING _ => False
  | _ => True
  end.

(** The log after a call that returned [tok]: warnings, and then one
    error exactly when the token is [TOK_ERROR]. *)
Definition lex_logged (tok : rules_token) (log log' : list log_entry)
  : Prop :=
  ∃ ws es, log' = log ++ ws ++ es ∧ warnings ws ∧
           match tok with
           | TOK_ERROR => ∃ e, es = [scanner_err e]
           | _ => es = []
           end.

(** The tokens that the calls of [lex] return one after the other on
    the rest of a file, up to its end: every call returns, the last of
    them with [TOK_END_OF_FILE], and at the end of the file [lex] goes on
    returning [TOK_END_OF_FILE].  A file on which a call does not return
    has no such tokens. *)
Inductive lexes : scanner_t → list log_entry → list rules_token → Prop :=
  | lexes_end fuel s log s' log' :
      lex fuel s log = Some (TOK_END_OF_FILE, s', log') →
      (∀ log0, ∃ fuel0,
         lex fuel0 s' log0 = Some (TOK_END_OF_FILE, s', log0)) →
      lexes s log []
  | lexes_token fuel s log tok s' log' toks :
      lex fuel s log = Some (tok, s', log') → tok ≠ TOK_END_OF_FILE →
      lexes s' log' toks → lexes s log (tok :: toks).

End Lex.

End Lexer.

(** ** Reference counts (compose.c, state.c)

    The objects the library allocates, by address: the tables with their
    reference count, the states with their reference count and the
    address of their table.  An address is never handed out twice;
    [None] marks an object that was freed, and an access to it is
    undefined.  The arrays of a table and the contexts of a state are
    modelled above; here only the fields that the functions below read
    are kept. *)
Module Refs.

Definition INT_MAX : Z := 2147483647.
Definition INT_MIN : Z := -2147483648.

Record heap : Type := Heap {
  tables : list (option Z);
  states : list (option (Z * nat))
}.

Definition load_table (h : heap) (c : nat) : option Z :=
  mjoin (tables h !! c).

Definition load_state (h : heap) (s : nat) : option (Z * nat) :=
  mjoin (states h !! s).

Definition store_table (h : heap) (c : nat) (v : option Z) : heap :=
  {| tables := <[c := v]> (tables h); states := states h |}.

Definition store_state (h : heap) (s : nat) (v : option (Z * nat))
  : heap :=
  {| tables := tables h; states := <[s := v]> (states h) |}.

(** [xkb_compose_new]; [resolved] and [calloc] tell whether
    [resolve_locale] and [calloc] succeed. *)
Definition xkb_compose_new (resolved calloc : bool) (h : heap)
  : heap * option nat :=
  if negb resolved then (h, None)
  else if negb calloc then (h, None)
  else ({| tables := tables h ++ [Some 1%Z]; states := states h |},
        Some (length (tables h))).

(** [compose->refcnt++]; a signed overflow is undefined. *)
Definition xkb_compose_ref (h : heap) (c : nat) : option heap :=
  r ← load_table h c;
  if Z.eqb r INT_MAX then None
  else Some (store_table h c (Some (r + 1)%Z)).

(** [xkb_compose_unref]: nothing for [NULL]; else the count is
    decremented, and the table is freed unless the count is still
    positive. *)
Definition xkb_compose_unref (h : heap) (c : option nat) : option heap :=
  match c with
  | None => Some h
  | Some c =>
      r ← load_table h c;
      if Z.eqb r INT_MIN then None
      else if Z.ltb 0 (r - 1) then Some (store_table h c (Some (r - 1)%Z))
      else Some (store_table h c None)
  end.

(** [xkb_compose_state_new]: the new state has the count 1 and takes a
    reference to its table. *)
Definition xkb_compose_state_new (calloc : bool) (h : heap) (c : nat)
  : option (heap * option nat) :=
  if negb calloc then Some (h, None)
  else
    h1 ← xkb_compose_ref h c;
    Some ({| tables := tables h1;
             states := states h1 ++ [Some (1%Z, c)] |},
          Some (length (states h1))).

Definition xkb_compose_state_ref (h : heap) (s : nat) : option heap :=
  '(r, c) ← load_state h s;
  if Z.eqb r INT_MAX then None
  else Some (store_state h s (Some ((r + 1)%Z, c))).

(** [xkb_compose_state_unref]: nothing for [NULL]; else the count is
    decremented, and unless it is still positive the reference to the
    table is given back and the state is freed. *)
Definition xkb_compose_state_unref (h : heap) (s : option nat)
  : option heap :=
  match s with
  | None => Some h
  | Some s =>
      '(r, c) ← load_state h s;
      if Z.eqb r INT_MIN then None
      else if Z.ltb 0 (r - 1)
      then Some (store_state h s (Some ((r - 1)%Z, c)))
      else
        h1 ← xkb_compose_unref (store_state h s (Some ((r - 1)%Z, c)))
               (Some c);
        Some (store_state h1 s None)
  end.

Definition xkb_compose_state_get_compose (h : heap) (s : nat)
  : option nat :=
  '(r, c) ← load_state h s; Some c.

(** ** Clients *)

(** The calls a client makes. *)
Inductive call : Type :=
  | New (resolved calloc : bool)
  | Ref (c : nat)
  | Unref (c : option nat)
  | StateNew (calloc : bool) (c : nat)
  | StateRef (s : nat)
  | StateUnref (s : option nat).

(** The heap a call leaves. *)
Definition run_call (h : heap) (a : call) : option heap :=
  match a with
  | New resolved calloc => Some (xkb_compose_new resolved calloc h).1
  | Ref c => xkb_compose_ref h c
  | Unref c => xkb_compose_unref h c
  | StateNew calloc c => fst <$> xkb_compose_state_new calloc h c
  | StateRef s => xkb_compose_state_ref h s
  | StateUnref s => xkb_compose_state_unref h s
  end.

(** The references a client holds: how many to each table and to each
    state. *)
Record holds : Type := Holds {
  own_table : nat → nat;
  own_state : nat → nat
}.

Definition upd (f : nat → nat) (i v : nat) : nat → nat :=
  λ j, if Nat.eqb j i then v else f j.

(** The calls the API allows a client that holds [o]: it gives back and
    duplicates only references it holds, makes states only of tables it
    holds, and no count overflows. *)
Definition permitted (h : heap) (o : holds) (a : call) : Prop :=
  match a with
  | New _ _ => True
  | Ref c => 0 < own_table o c ∧ load_table h c ≠ Some INT_MAX
  | Unref None => True
  | Unref (Some c) => 0 < own_table o c
  | StateNew calloc c =>
      0 < own_table o c ∧
      (calloc = true → load_table h c ≠ Some INT_MAX)
  | StateRef s =>
      0 < own_state o s ∧ ∀ c, load_state h s ≠ Some (INT_MAX, c)
  | StateUnref None => True
  | StateUnref (Some s) => 0 < own_state o s
  end.

(** The references the client holds after a call. *)
Definition holds_after (h : heap) (o : holds) (a : call) : holds :=
  match a with
  | New resolved calloc =>
      if resolved && calloc
      then {| own_table := upd (own_table o) (length (tables h)) 1;
              own_state := own_state o |}
      else o
  | Ref c =>
      {| own_table := upd (own_table o) c (own_table o c + 1);
         own_state := own_state o |}
  | Unref None => o
  | Unref (Some c) =>
      {| own_table := upd (own_table o) c (own_table o c - 1);
         own_state := own_state o |}
  | StateNew calloc c =>
      if calloc
      then {| own_table := own_table o;
              own_state := upd (own_state o) (length (states h)) 1 |}
      else o
  | StateRef s =>
      {| own_table := own_table o;
         own_state := upd (own_state o) s (own_state o s + 1) |}
  | StateUnref None => o
  | StateUnref (Some s) =>
      {| own_table := own_table o;
         own_state := upd (own_state o) s (own_state o s - 1) |}
  end.

(** The heaps a client reaches from the empty heap by permitted calls,
    with the references it then holds. *)
Inductive session : heap → holds → Prop :=
  | session_start :
      session {| tables := []; states := [] |}
              {| own_table := λ _, 0; own_state := λ _, 0 |}
  | session_call h o a h' :
      session h o → permitted h o a → run_call h a = Some h' →
      session h' (holds_after h o a).

(** Whether the object [x] is a state of table [c]. *)
Definition uses (c : nat) (x : option (Z * nat)) : bool :=
  match x with
  | Some (_, c') => Nat.eqb c' c
  | None => false
  end.

(** The number of states of table [c]. *)
Fixpoint users (c : nat) (l : list (option (Z * nat))) : nat :=
  match l with
  | [] => 0
  | x :: l' => (if uses c x then 1 else 0) + users c l'
  end.

(** The counts are the references held: that of a table counts the
    references of the client and one for each of its states, that of a
    state those of the client; an object is freed when nothing refers to
    it. *)
Definition counted (h : heap) (o : holds) : Prop :=
  (∀ c, match load_table h c with
        | Some r => r = Z.of_nat (own_table o c + users c (states h)) ∧
                    (0 < r)%Z
        | None => own_table o c = 0 ∧ users c (states h) = 0
        end) ∧
  (∀ s, match load_state h s with
        | Some (r, c) => r = Z.of_nat (own_state o s) ∧ (0 < r)%Z
        | None => own_state o s = 0
        end).

End Refs.

(** * Specification vocabulary *)

(** ** Index arithmetic *)

(** A size fits when narrowing it to 32 bits loses nothing. *)
Definition fits_u32 (n : nat) : Prop := (N.of_nat n <= 4294967296)%N.

(** ** Sibling chains *)

(** [sibling t i j]: node [j] is reached from node [i] by following one or
    more [next] links. *)
Inductive sibling (t : list node) : nat → nat → Prop :=
  | sibling_next i n :
      t !! i = Some n → next n ≠ 0 → sibling t i (next n)
  | sibling_more i j n :
      sibling t i j → t !! j = Some n → next n ≠ 0 → sibling t i (next n).

(** The nodes reached from [i] along [next] links, [i] first. *)
Fixpoint sibling_chain (fuel : nat) (t : list node) (i : nat) : list nat :=
  match fuel with
  | 0 => []
  | S fuel' =>
      match t !! i with
      | None => []
      | Some n =>
          i :: (if Nat.eqb (next n) 0 then []
                else sibling_chain fuel' t (next n))
      end
  end.

(** The keysym of node [i]. *)
Definition keysym_at (t : list node) (i : nat) : xkb_keysym_t :=
  from_option keysym XKB_KEY_NoSymbol (t !! i).

(** ** The invariant of the node array

    [bound] is the size of the UTF-8 blob the offsets point into. *)
Record tree_inv (bound : nat) (t : list node) : Prop := TreeInv {
  inv_root : ∃ r, t !! 0 = Some r ∧ keysym r = XKB_KEY_NoSymbol ∧
                  successor r = 0 ∧ utf8 r = 0 ∧ ks r = XKB_KEY_NoSymbol ∧
                  (next r = 0 ∧ length t = 1 ∨ next r = 1 ∧ 1 < length t);
  inv_next : ∀ i n, t !! i = Some n → next n ≠ 0 → i < next n < length t;
  inv_succ : ∀ i n, t !! i = Some n → successor n ≠ 0 →
                    i < successor n < length t;
  inv_keysym : ∀ i n, t !! i = Some n → i ≠ 0 → keysym n ≠ XKB_KEY_NoSymbol;
  inv_internal : ∀ i n, t !! i = Some n → successor n ≠ 0 →
                        utf8 n = 0 ∧ ks n = XKB_KEY_NoSymbol;
  inv_offset : ∀ i n, t !! i = Some n → utf8 n < bound;
  inv_next_inj : ∀ i j ni nj, t !! i = Some ni → t !! j = Some nj →
                   next ni ≠ 0 → next ni = next nj → i = j;
  inv_next_succ : ∀ i j ni nj, t !! i = Some ni → t !! j = Some nj →
                   next ni ≠ 0 → next ni ≠ successor nj;
  inv_distinct : ∀ i j ni nj, sibling t i j → t !! i = Some ni →
                   t !! j = Some nj → keysym ni ≠ keysym nj
}.

(** A node no [next] link points to: the head of a child list. *)
Definition chain_head (t : list node) (j : nat) : Prop :=
  ∀ i n, t !! i = Some n → next n ≠ 0 → next n ≠ j.

(** The node that [add_node] appends for keysym [k]. *)
Definition fresh_node (k : xkb_keysym_t) : node :=
  {| keysym := k; next := 0; successor := 0; utf8 := 0;
     ks := XKB_KEY_NoSymbol |}.

(** ** Built compose tables *)

(** What the lexer guarantees about a left-hand side that reaches
    [add_production]: it is not empty and holds real keysyms only. *)
Definition valid_lhs (p : production) : Prop :=
  lhs p ≠ [] ∧ Forall (λ k, k ≠ XKB_KEY_NoSymbol) (lhs p).

(** Both arrays are small enough for 32-bit indices and offsets. *)
Definition fits (c : xkb_compose) : Prop :=
  fits_u32 (length (compose_tree c)) ∧ fits_u32 (length (compose_utf8 c)).

(** The tables the library builds: the table of [xkb_compose_new], grown
    by calls to [add_production]. *)
Inductive built : xkb_compose → Prop :=
  | built_new : built xkb_compose_new
  | built_add c p c' w :
      built c → valid_lhs p → add_production c p = Some (c', w) →
      fits c' → built c'.

(** The invariant of a table: that of its node array, and a blob that
    starts and ends with a NUL. *)
Record compose_inv (c : xkb_compose) : Prop := ComposeInv {
  inv_tree : tree_inv (length (compose_utf8 c)) (compose_tree c);
  inv_blob_head : compose_utf8 c !! 0 = Some x00;
  inv_blob_last : last (compose_utf8 c) = Some x00
}.

(** ** States of the state machine *)

(** Both contexts lie in the node array. *)
Definition valid_state (state : xkb_compose_state) : Prop :=
  prev_context state < length (compose_tree (compose state)) ∧
  context state < length (compose_tree (compose state)).

(** States a client can reach: a fresh state, fed and reset at will. *)
Inductive reachable (is_modifier : xkb_keysym_t → bool) (c : xkb_compose)
  : xkb_compose_state → Prop :=
  | reachable_new : reachable is_modifier c (xkb_compose_state_new c)
  | reachable_feed state k state' :
      reachable is_modifier c state →
      xkb_compose_state_feed is_modifier state k = Some state' →
      reachable is_modifier c state'
  | reachable_reset state :
      reachable is_modifier c state →
      reachable is_modifier c (xkb_compose_state_reset state).

(** ** Runs of the parser *)

(** [parse], entered at label [l] in state [st], returns [r]. *)
Definition parse_returns (open_file : string → option scanner) (l : label)
    (st : parse_state) (d : nat) (r : parse_result) : Prop :=
  ∃ fuel, parse_at open_file fuel l st d = Some r.

(** The state in which the [skip] loop ends, [s] being the scanner of
    [st]. *)
Fixpoint skip_line (s : scanner) (st : parse_state) {struct s}
  : parse_state :=
  match ps_tok st with
  | TOK_END_OF_LINE | TOK_END_OF_FILE => st
  | _ =>
      match s with
      | [] => with_tok st TOK_END_OF_FILE []
      | t :: s' => skip_line s' (with_tok st t s')
      end
  end.

(** The tokens that have a [case] of their own in the [switch] at a label;
    every other token goes to [default]. *)
Definition expected (l : label) (tok : rules_token) : bool :=
  match l, tok with
  | L_initial_eol, (TOK_END_OF_LINE | TOK_END_OF_FILE | TOK_INCLUDE
                    | TOK_LHS_KEYSYM _) => true
  | L_include, TOK_INCLUDE_STRING _ => true
  | L_include_eol _, TOK_END_OF_LINE => true
  | L_lhs, (TOK_LHS_KEYSYM _ | TOK_COLON) => true
  | L_rhs, (TOK_STRING _ | TOK_RHS_KEYSYM _ | TOK_END_OF_LINE) => true
  | _, _ => false
  end.

(** The lexer called at a label that reads a token. *)
Definition lexer_at (l : label) : option (scanner → rules_token * scanner) :=
  match l with
  | L_initial_eol | L_include_eol _ | L_lhs | L_rhs => Some lex
  | L_include => Some lex_include_string
  | _ => None
  end.

(** The state after the error has been logged and counted. *)
Definition count_error (st : parse_state) : parse_state :=
  with_num_errors
    (match ps_tok st with
     | TOK_ERROR => st
     | _ => logging st [err_unexpected_token]
     end)
    (ps_num_errors st + 1).

(** The state in which the parser is back at [initial] after an error. *)
Definition recovered (st : parse_state) : parse_state :=
  skip_line (ps_scanner st) (count_error st).

(** The message logged for an unexpected token: the lexer's own for a
    [TOK_ERROR], the parser's for any other token. *)
Definition reported (tok : rules_token) : message :=
  match tok with
  | TOK_ERROR => err_lexer
  | _ => err_unexpected_token
  end.

(** The state with which [parse] gives up. *)
Definition aborted (st : parse_state) : parse_state :=
  logging (logging (count_error st) [err_too_many_errors])
          [err_failed_to_parse].

(** A token of a file without [include] lines, as the lexer produces it:
    a left-hand keysym is never [NoSymbol]. *)
Definition plain_token (t : rules_token) : Prop :=
  match t with
  | TOK_INCLUDE => False
  | TOK_LHS_KEYSYM k => k ≠ XKB_KEY_NoSymbol
  | _ => True
  end.

(** Room in both arrays for everything the rest of the file can add: at
    most [MAX_LHS_LEN] keysyms and 256 bytes per line. *)
Definition room (c : xkb_compose) (s : scanner) : Prop :=
  fits_u32 (length (compose_tree c) + 20 * (1 + length s)) ∧
  fits_u32 (length (compose_utf8 c) + 256 * (1 + length s)).

(** ** Measure and invariant of a run *)

(** The number of [goto]s a label is away from reading the next token. *)
Definition label_rank (l : label) (tok : rules_token) : nat :=
  match l with
  | L_finished | L_fail => 0
  | L_initial_eol => 1
  | L_initial => 2
  | L_skip =>
      match tok with
      | TOK_END_OF_LINE | TOK_END_OF_FILE => 3
      | _ => 4
      end
  | L_unexpected => 5
  | _ => 6
  end.

(** An upper bound on the [goto]s left before [parse] returns. *)
Definition weight (l : label) (st : parse_state) : nat :=
  7 * length (ps_scanner st) + label_rank l (ps_tok st).

(** What holds at every label of a run over a file without includes. *)
Record parse_inv (l : label) (st : parse_state) : Prop := ParseInv {
  pi_built : built (ps_compose st);
  pi_room : room (ps_compose st) (ps_scanner st);
  pi_tokens : Forall plain_token (ps_scanner st);
  pi_string : length (prod_string (ps_production st)) ≤ 255;
  pi_lhs : match l with
           | L_initial_eol => lhs (ps_production st) = []
           | L_lhs | L_rhs =>
               valid_lhs (ps_production st) ∧
               len (ps_production st) ≤ MAX_LHS_LEN
           | _ => True
           end;
  pi_errors : match l with
              | L_fail => ps_num_errors st = S MAX_ERRORS
              | _ => ps_num_errors st ≤ MAX_ERRORS
              end;
  pi_label : l ≠ L_include ∧ ∀ p, l ≠ L_include_eol p
}.

(** What a finished run leaves: a built table, and success exactly when
    the error count stayed within [MAX_ERRORS]. *)
Definition parse_post (r : parse_result) : Prop :=
  built (ps_compose r.2) ∧
  (r.1 = true ↔ ps_num_errors r.2 ≤ MAX_ERRORS).

(** ** Worked inputs *)

(** The production of the line [<A> : x]. *)
Definition production_A_x : production :=
  {| lhs := [65%N]; prod_keysym := 120%N; prod_string := [];
     has_keysym := true; has_string := false |}.

(** The production of the line [<A> <B> : "f" x]. *)
Definition production_AB_f : production :=
  {| lhs := [65%N; 66%N]; prod_keysym := 120%N; prod_string := [x66];
     has_keysym := true; has_string := true |}.

(** The table of a file that holds the single line [<A> : x]. *)
Definition table_A_x : xkb_compose :=
  {| compose_utf8 := [x00];
     compose_tree := [ Node 0%N 1 0 0 0%N; Node 65%N 0 0 0 120%N ] |}.

(** The table of a file that holds the single line [<A> <B> : "f" x]. *)
Definition table_AB_f : xkb_compose :=
  {| compose_utf8 := [x00; x66; x00];
     compose_tree := [ Node 0%N 1 0 0 0%N; Node 65%N 0 2 0 0%N;
                       Node 66%N 0 0 1 120%N ] |}.

(** No file can be opened. *)
Definition no_files : string → option scanner := λ _, None.

(** Shift_L is the only modifier. *)
Definition only_shift (k : xkb_keysym_t) : bool := N.eqb k 65505%N.

(** A keysym-to-UTF-8 conversion that knows the Latin-1 range. *)
Definition latin1_to_utf8 (k : xkb_keysym_t) (size : nat)
  : list byte * Z :=
  match Byte.of_N k with
  | Some b => snprintf_s size [b]
  | None => snprintf_s size []
  end.

(** ** Status *)

(** The status as the specification words it, from [context] and the
    [successor] fields of the previous and of the current node. *)
Definition status_of (ctx succ_prev succ_cur : nat) : xkb_compose_status :=
  if decide (ctx = 0) then
    if decide (succ_prev = 0) then XKB_COMPOSE_NOTHING
    else XKB_COMPOSE_CANCELLED
  else
    if decide (succ_cur = 0) then XKB_COMPOSE_COMPOSED
    else XKB_COMPOSE_COMPOSING.

(** ** Worked files *)

(** The line [include "<path>"]. *)
Definition include_line (path : string) : scanner :=
  [TOK_INCLUDE; TOK_INCLUDE_STRING path; TOK_END_OF_LINE].

(** A chain of files nested six deep: [f1] includes [f2], and so on down
    to [f6], which holds the line [<A> : x]. *)
Definition nested_files (path : string) : option scanner :=
  if String.eqb path "f1" then Some (include_line "f2")
  else if String.eqb path "f2" then Some (include_line "f3")
  else if String.eqb path "f3" then Some (include_line "f4")
  else if String.eqb path "f4" then Some (include_line "f5")
  else if String.eqb path "f5" then Some (include_line "f6")
  else if String.eqb path "f6" then
    Some [TOK_LHS_KEYSYM 65%N; TOK_COLON; TOK_RHS_KEYSYM 120%N;
          TOK_END_OF_LINE]
  else None.

(** A file that includes itself. *)
Definition looping_file (path : string) : option scanner :=
  if String.eqb path "loop" then Some (include_line "loop") else None.

(** The line [<A> : x "f"]. *)
Definition line_keysym_then_string : scanner :=
  [TOK_LHS_KEYSYM 65%N; TOK_COLON; TOK_RHS_KEYSYM 120%N; TOK_STRING [x66];
   TOK_END_OF_LINE].

(** The parser at [rhs] in the line [<A> : x "f"], about to read [x]. *)
Definition state_at_rhs : parse_state :=
  {| ps_tok := TOK_COLON;
     ps_production := {| lhs := [65%N]; prod_keysym := XKB_KEY_NoSymbol;
                         prod_string := []; has_keysym := false;
                         has_string := false |};
     ps_num_errors := 0; ps_compose := xkb_compose_new;
     ps_scanner := [TOK_RHS_KEYSYM 120%N; TOK_STRING [x66];
                    TOK_END_OF_LINE];
     ps_log := [] |}.

(** The state the parser is left in by the line [<A> : x "f"]. *)
Definition state_after_line : parse_state :=
  {| ps_tok := TOK_END_OF_FILE;
     ps_production := {| lhs := []; prod_keysym := 120%N;
                         prod_string := []; has_keysym := false;
                         has_string := false |};
     ps_num_errors := 1; ps_compose := table_A_x;
     ps_scanner := []; ps_log := [err_unexpected_token] |}.

(** A file of one line, a lone colon. *)
Definition line_colon : scanner := [TOK_COLON; TOK_END_OF_LINE].

(** ** The scenarios of test/compose.c *)

(** Four lines of the Compose file the test suite loads:
    [<dead_tilde> <space> : "~" asciitilde],
    [<dead_tilde> <dead_tilde> : "~" asciitilde],
    [<Multi_key> <A> <T> : "@" at] and
    [<Multi_key> <apostrophe> <A> : "Á" Aacute]. *)
Definition test_file : scanner :=
  [ TOK_LHS_KEYSYM 65107%N; TOK_LHS_KEYSYM 32%N; TOK_COLON;
    TOK_STRING [x7e]; TOK_RHS_KEYSYM 126%N; TOK_END_OF_LINE;
    TOK_LHS_KEYSYM 65107%N; TOK_LHS_KEYSYM 65107%N; TOK_COLON;
    TOK_STRING [x7e]; TOK_RHS_KEYSYM 126%N; TOK_END_OF_LINE;
    TOK_LHS_KEYSYM 65312%N; TOK_LHS_KEYSYM 65%N; TOK_LHS_KEYSYM 84%N;
    TOK_COLON; TOK_STRING [x40]; TOK_RHS_KEYSYM 64%N; TOK_END_OF_LINE;
    TOK_LHS_KEYSYM 65312%N; TOK_LHS_KEYSYM 39%N; TOK_LHS_KEYSYM 65%N;
    TOK_COLON; TOK_STRING [xc3; x81]; TOK_RHS_KEYSYM 193%N;
    TOK_END_OF_LINE ].

(** The table [xkb_compose_new_from_buffer] builds from these lines. *)
Definition test_table : xkb_compose :=
  match xkb_compose_new_from_buffer no_files 200 test_file
          XKB_COMPOSE_FORMAT_TEXT_V1 XKB_COMPOSE_COMPILE_NO_FLAGS with
  | Some (Some c) => c
  | _ => xkb_compose_new
  end.

(** Shift_L and Caps_Lock, the modifiers the test suite feeds. *)
Definition test_modifier (k : xkb_keysym_t) : bool :=
  N.eqb k 65505%N || N.eqb k 65509%N.

(** [test_compose_seq]: feed the keysyms to a state and collect, after
    each, the status, what [get_utf8] gives for a 64-byte buffer, and the
    keysym. *)
Fixpoint test_compose_seq (state : xkb_compose_state)
    (keys : list xkb_keysym_t)
  : option (list (xkb_compose_status * (list byte * Z) * xkb_keysym_t)) :=
  match keys with
  | [] => Some []
  | k :: keys' =>
      state' ← xkb_compose_state_feed test_modifier state k;
      status ← xkb_compose_state_get_status state';
      text ← xkb_compose_state_get_utf8 latin1_to_utf8 state' 64;
      sym ← xkb_compose_state_get_one_sym state';
      rest ← test_compose_seq state' keys';
      Some ((status, text, sym) :: rest)
  end.

(** ** Runs of the parser with includes *)

(** A token as the lexer produces it: a left-hand keysym is never
    [NoSymbol]. *)
Definition lexer_token (t : rules_token) : Prop :=
  match t with
  | TOK_LHS_KEYSYM k => k ≠ XKB_KEY_NoSymbol
  | _ => True
  end.

(** Neither array of [c'] is shorter than that of [c]. *)
Definition grown (c c' : xkb_compose) : Prop :=
  length (compose_tree c) ≤ length (compose_tree c') ∧
  length (compose_utf8 c) ≤ length (compose_utf8 c').

(** What holds at every label of a run, includes or not. *)
Definition run_inv (l : label) (st : parse_state) : Prop :=
  built (ps_compose st) ∧ Forall lexer_token (ps_scanner st) ∧
  match l with
  | L_initial_eol => lhs (ps_production st) = []
  | L_lhs | L_rhs => valid_lhs (ps_production st)
  | _ => True
  end.

(** ** Paths through the trie *)

(** [chain_to t k i j]: the walk along [next] links that starts at node
    [i] passes nodes with other keysyms and stops at node [j], whose
    keysym is [k]. *)
Inductive chain_to (t : list node) (k : xkb_keysym_t) : nat → nat → Prop :=
  | chain_here i n :
      t !! i = Some n → keysym n = k → chain_to t k i i
  | chain_step i n j :
      t !! i = Some n → keysym n ≠ k → next n ≠ 0 →
      chain_to t k (next n) j → chain_to t k i j.

(** [trie_path t keys i j]: from the child list headed by node [i], the
    keysyms [keys] lead, one level per keysym, to node [j]. *)
Inductive trie_path (t : list node) : list xkb_keysym_t → nat → nat → Prop :=
  | trie_path_last k i j : chain_to t k i j → trie_path t [k] i j
  | trie_path_more k keys i j n j' :
      chain_to t k i j → t !! j = Some n → successor n ≠ 0 →
      trie_path t keys (successor n) j' → trie_path t (k :: keys) i j'.

(** Every node of [t] is in [t'] with its keysym and with the links it
    had. *)
Definition links_kept (t t' : list node) : Prop :=
  ∀ i n, t !! i = Some n →
    ∃ n', t' !! i = Some n' ∧ keysym n' = keysym n ∧
          (next n ≠ 0 → next n' = next n) ∧
          (successor n ≠ 0 → successor n' = successor n).

(** Every node of [t] that holds a string or a keysym is in [t'] with the
    same result and without a successor. *)
Definition leaves_kept (t t' : list node) : Prop :=
  ∀ i n, t !! i = Some n → utf8 n ≠ 0 ∨ ks n ≠ XKB_KEY_NoSymbol →
    ∃ n', t' !! i = Some n' ∧ utf8 n' = utf8 n ∧ ks n' = ks n ∧
          successor n' = successor n.

(** A node as [add_node] makes it, whatever its [next] link. *)
Definition blank (n : node) : Prop :=
  successor n = 0 ∧ utf8 n = 0 ∧ ks n = XKB_KEY_NoSymbol.

(** [composes is_modifier state keys state']: fed one after another to
    [state], the keysyms [keys] give the status [COMPOSING] after each
    keysym but the last, and [COMPOSED] after the last, in [state']. *)
Inductive composes (is_modifier : xkb_keysym_t → bool)
  : xkb_compose_state → list xkb_keysym_t → xkb_compose_state → Prop :=
  | composes_last state k state' :
      xkb_compose_state_feed is_modifier state k = Some state' →
      xkb_compose_state_get_status state' = Some XKB_COMPOSE_COMPOSED →
      composes is_modifier state [k] state'
  | composes_more state k state1 keys state' :
      xkb_compose_state_feed is_modifier state k = Some state1 →
      xkb_compose_state_get_status state1 = Some XKB_COMPOSE_COMPOSING →
      composes is_modifier state1 keys state' →
      composes is_modifier state (k :: keys) state'.

(** ** Lines of a file *)

(** The tokens of the line that states a production: the keysyms of the
    left-hand side, the colon, the string and the keysym that the
    production has, and the end of the line. *)
Definition line_tokens (p : production) : scanner :=
  (TOK_LHS_KEYSYM <$> lhs p) ++
  [TOK_COLON] ++
  (if has_string p then [TOK_STRING (prod_string p)] else []) ++
  (if has_keysym p then [TOK_RHS_KEYSYM (prod_keysym p)] else []) ++
  [TOK_END_OF_LINE].

(** The tokens of a file that states the productions one per line. *)
Definition file_tokens (ps : list production) : scanner :=
  concat (line_tokens <$> ps).

(** A production that a line can state: between one and [MAX_LHS_LEN]
    keysyms on the left, a string or a keysym on the right, and a string
    that is not empty, holds no NUL and has at most 255 bytes. *)
Definition well_formed (p : production) : Prop :=
  1 ≤ len p ≤ MAX_LHS_LEN ∧
  (has_string p = true ∨ has_keysym p = true) ∧
  (has_string p = true →
   prod_string p ≠ [] ∧ (x00 ∉ prod_string p) ∧
   length (prod_string p) ≤ 255).

(** [add_production] on each production in turn. *)
Fixpoint add_productions (c : xkb_compose) (ps : list production)
  : option (xkb_compose * list message) :=
  match ps with
  | [] => Some (c, [])
  | p :: ps' =>
      '(c1, w1) ← add_production c p;
      '(c2, w2) ← add_productions c1 ps';
      Some (c2, w1 ++ w2)
  end.

(** [p] after the keysyms [keys] have been stored behind its left-hand
    side. *)
Definition extend_lhs (p : production) (keys : list xkb_keysym_t)
  : production :=
  {| lhs := lhs p ++ keys; prod_keysym := prod_keysym p;
     prod_string := prod_string p; has_keysym := has_keysym p;
     has_string := has_string p |}.

(** The warning for a string that [rhs] refuses. *)
Definition string_warning (str : list byte) : message :=
  if starts_with_nul str then warn_empty_string else warn_string_too_long.

(** ** Warnings that are never issued *)

(** A log without the two warnings that [parse] has code for but cannot
    reach. *)
Definition silent (lg : list message) : Prop :=
  (warn_two_keysyms ∉ lg) ∧ (warn_empty_lhs ∉ lg).

(** What holds at every label of a run: at [lhs] and [rhs] the left-hand
    side is not empty, and no keysym has been stored yet. *)
Definition silent_inv (l : label) (st : parse_state) : Prop :=
  silent (ps_log st) ∧
  match l with
  | L_initial_eol => has_keysym (ps_production st) = false
  | L_lhs | L_rhs =>
      has_keysym (ps_production st) = false ∧ lhs (ps_production st) ≠ []
  | _ => True
  end.

(** The messages of [add_production]. *)
Definition table_warning (m : message) : Prop :=
  m = warn_prefix_override ∨ m = warn_is_prefix ∨ m = warn_already_exists.

(** ** More worked inputs *)

(** The production of the line [<B> : y]. *)
Definition production_B_y : production :=
  {| lhs := [66%N]; prod_keysym := 121%N; prod_string := [];
     has_keysym := true; has_string := false |}.

(** The table of the two lines [<A> : x] and [<B> : y]. *)
Definition table_A_x_B_y : xkb_compose :=
  {| compose_utf8 := [x00];
     compose_tree := [ Node 0%N 1 0 0 0%N; Node 65%N 2 0 0 120%N;
                       Node 66%N 0 0 0 121%N ] |}.

(** The line [<A> : x y]. *)
Definition line_two_keysyms : scanner :=
  [TOK_LHS_KEYSYM 65%N; TOK_COLON; TOK_RHS_KEYSYM 120%N;
   TOK_RHS_KEYSYM 121%N; TOK_END_OF_LINE].

(** Ten keysyms. *)
Definition ten_keysyms : list xkb_keysym_t :=
  [97%N; 98%N; 99%N; 100%N; 101%N; 102%N; 103%N; 104%N; 105%N; 106%N].

(** A file whose first line includes a file that cannot be opened, and
    whose second line is [<A> : x]. *)
Definition file_missing_include : scanner :=
  include_line "missing" ++
  [TOK_LHS_KEYSYM 65%N; TOK_COLON; TOK_RHS_KEYSYM 120%N; TOK_END_OF_LINE].

(** ** The productions behind a table *)

(** The tables the library builds, with the productions they were given,
    oldest first; skipped productions are listed too. *)
Inductive built_from : list production → xkb_compose → Prop :=
  | built_from_new : built_from [] xkb_compose_new
  | built_from_add ps c p c' w :
      built_from ps c → valid_lhs p → add_production c p = Some (c', w) →
      fits c' → built_from (ps ++ [p]) c'.

(** No two nodes share a successor. *)
Definition succ_inj (t : list node) : Prop :=
  ∀ i j ni nj, t !! i = Some ni → t !! j = Some nj →
    successor ni ≠ 0 → successor ni = successor nj → i = j.

(** [t'] seen from [t]: what [t'] holds at an index of [t] is the node of
    [t], but for links to nodes appended since and for a result given up
    for a successor. *)
Definition reflected (t t' : list node) : Prop :=
  ∀ i n', t' !! i = Some n' → i < length t →
    ∃ n, t !! i = Some n ∧ keysym n = keysym n' ∧
         (next n' < length t → next n = next n') ∧
         (successor n' < length t → successor n = successor n') ∧
         (successor n' = 0 → utf8 n = utf8 n' ∧ ks n = ks n').

(** Node [n] of table [c] holds the right-hand side of [p]. *)
Definition stores (c : xkb_compose) (n : node) (p : production) : Prop :=
  ks n = (if has_keysym p then prod_keysym p else XKB_KEY_NoSymbol) ∧
  if has_string p
  then utf8 n ≠ 0 ∧
       c_string (drop (utf8 n) (compose_utf8 c)) =
         Some (strlen_prefix (prod_string p))
  else utf8 n = 0.

(** Every node without successor that a sequence leads to holds the
    right-hand side of a production of [ps] with that sequence as its
    left-hand side. *)
Definition backed (ps : list production) (c : xkb_compose) : Prop :=
  ∀ keys j n,
    trie_path (compose_tree c) keys 0 j → compose_tree c !! j = Some n →
    successor n = 0 → j ≠ 0 →
    ∃ p, p ∈ ps ∧ lhs p = keys ∧ stores c n p.

(** ** Files and the sequences they define *)

(** A production as the lexer hands it over: real keysyms on both
    sides. *)
Definition real_keysyms (p : production) : Prop :=
  Forall (λ k, k ≠ XKB_KEY_NoSymbol) (lhs p) ∧
  (has_keysym p = true → prod_keysym p ≠ XKB_KEY_NoSymbol).

(** ** An override *)

(** The production of the line [<A> <C> : z]. *)
Definition production_AC_z : production :=
  {| lhs := [65%N; 67%N]; prod_keysym := 122%N; prod_string := [];
     has_keysym := true; has_string := false |}.

(** The table of the lines [<A> : x], [<B> : y] and [<A> <C> : z]: the
    third line has overridden the first. *)
Definition table_B_y_AC_z : xkb_compose :=
  {| compose_utf8 := [x00];
     compose_tree := [ Node 0%N 1 0 0 0%N; Node 65%N 2 3 0 0%N;
                       Node 66%N 0 0 0 121%N; Node 67%N 0 0 0 122%N ] |}.

(** ** A scanner for the examples

    A cursor over a list of bytes with an unbounded buffer, on which the
    lexer can be run.  It stands in for scanner-utils.h in the examples
    only; no property of the lexer depends on it. *)
Module ByteScanner.

Record t : Type := Scanner {
  input : list byte;
  buffer : list byte
}.

Definition peek (s : t) : byte := hd x00 (input s).

Definition next (s : t) : byte * t :=
  (peek s, {| input := tail (input s); buffer := buffer s |}).

Definition chr (s : t) (c : byte) : bool * t :=
  if Byte.eqb (peek s) c then (true, (next s).2) else (false, s).

Definition eof (s : t) : bool :=
  match input s with [] => true | _ => false end.

Definition eol (s : t) : bool := Byte.eqb (peek s) x0a.

Definition buf_append (s : t) (c : byte) : bool * t :=
  (true, {| input := input s; buffer := buffer s ++ [c] |}).

Definition buf_appends (s : t) (str : list byte) : bool * t :=
  (true, {| input := input s; buffer := buffer s ++ str |}).

(** Escapes with digits are not in the examples. *)
Definition no_digits (s : t) : option byte * t := (None, s).

Definition new_token (s : t) : t := {| input := input s; buffer := [] |}.

Definition buf (s : t) : list byte := strlen_prefix (buffer s).

Definition buf_pos (s : t) : nat := length (buffer s).

Definition is_space (c : byte) : bool :=
  Byte.eqb c x20 || Byte.eqb c x09 || Byte.eqb c x0a.

Definition is_alpha (c : byte) : bool :=
  let n := Byte.to_N c in
  ((65 <=? n) && (n <=? 90) || (97 <=? n) && (n <=? 122))%N.

Definition is_alnum (c : byte) : bool :=
  let n := Byte.to_N c in
  (is_alpha c || (48 <=? n) && (n <=? 57))%N.

(** A keysym module that knows the one-letter names. *)
Definition keysym_from_name (name : list byte) : xkb_keysym_t :=
  match name with
  | [c] => if is_alpha c then Byte.to_N c else XKB_KEY_NoSymbol
  | _ => XKB_KEY_NoSymbol
  end.

Definition run_lex (fuel : nat) (s : t) (log : list Lexer.log_entry)
  : option (rules_token * t * list Lexer.log_entry) :=
  Lexer.lex t peek next chr eof eol buf_append no_digits no_digits
    new_token new_token buf buf_pos is_space is_alpha is_alnum
    keysym_from_name (λ _ _, true) fuel s log.

Definition run_lex_include_string (fuel : nat) (s : t)
    (log : list Lexer.log_entry)
  : option (rules_token * t * list Lexer.log_entry) :=
  Lexer.lex_include_string t peek next chr eof eol buf_append buf_appends
    new_token buf is_space None [] fuel None s log.

(** The bytes of [<A> : x], a comment and a newline. *)
Definition line_A_x : list byte :=
  String.list_byte_of_string "<A> : x # comment" ++ [x0a].

(** The bytes of [<Q9> : x] and a newline: [Q9] is no keysym name. *)
Definition line_unknown_keysym : list byte :=
  String.list_byte_of_string "<Q9> : x" ++ [x0a].

(** The bytes of a lone colon on a line of its own, followed by the line
    [<A> : x]. *)
Definition file_colon_A_x : list byte :=
  String.list_byte_of_string ":" ++ [x0a] ++
  String.list_byte_of_string "<A> : x" ++ [x0a].

(** The bytes of [<A], at which the buffer ends. *)
Definition open_keysym : list byte := [x3c; x41].

(** [Lexer.lexes] on this scanner. *)
Definition lexed : t → list Lexer.log_entry → list rules_token → Prop :=
  Lexer.lexes t peek next chr eof eol buf_append no_digits no_digits
    new_token new_token buf buf_pos is_space is_alpha is_alnum
    keysym_from_name (λ _ _, true).

(** The tokens of a buffer, as [lex] returns them up to the end of the
    file. *)
Fixpoint tokens (fuel : nat) (s : t) : list rules_token :=
  match fuel with
  | 0 => []
  | S fuel' =>
      match run_lex 100 s [] with
      | Some (TOK_END_OF_FILE, _, _) | None => []
      | Some (tok, s', _) => tok :: tokens fuel' s'
      end
  end.

End ByteScanner.

(** ** A client of one table and one state *)

Definition empty_heap : Refs.heap := {| Refs.tables := []; Refs.states := [] |}.

Definition no_holds : Refs.holds :=
  {| Refs.own_table := λ _, 0; Refs.own_state := λ _, 0 |}.

(** After [xkb_compose_new]. *)
Definition heap_table : Refs.heap :=
  {| Refs.tables := [Some 1%Z]; Refs.states := [] |}.

(** After [xkb_compose_state_new] on that table. *)
Definition heap_table_state : Refs.heap :=
  {| Refs.tables := [Some 2%Z]; Refs.states := [Some (1%Z, 0)] |}.

(** After the client has given back its reference to the table. *)
Definition heap_state_only : Refs.heap :=
  {| Refs.tables := [Some 1%Z]; Refs.states := [Some (1%Z, 0)] |}.

(** After the client has given back its reference to the state too. *)
Definition heap_freed : Refs.heap :=
  {| Refs.tables := [None]; Refs.states := [None] |}.

Definition holds_state_only : Refs.holds :=
  Refs.holds_after heap_table_state
    (Refs.holds_after heap_table
       (Refs.holds_after empty_heap no_holds (Refs.New true true))
       (Refs.StateNew true 0))
    (Refs.Unref (Some 0)).

Definition holds_nothing : Refs.holds :=
  Refs.holds_after heap_state_only holds_state_only
    (Refs.StateUnref (Some 0)).

(** * The compose table *)

(** ** Index arithmetic *)

Lemma u32_small n : (N.of_nat n < 4294967296)%N → u32 n = n.
Proof.
  intros H. unfold u32. rewrite N.mod_small by exact H. apply Nat2N.id.
Qed.

Lemma u32_snoc {A} (l : list A) (x : A) :
  fits_u32 (S (length l)) → u32 (length (l ++ [x]) - 1) = length l.
Proof.
  intros H. rewrite length_app. simpl.
  replace (length l + 1 - 1) with (length l) by lia.
  apply u32_small. unfold fits_u32 in H. lia.
Qed.

(** ** Sibling chains *)

Lemma sibling_target t i j :
  sibling t i j →
  ∃ m nm, t !! m = Some nm ∧ next nm = j ∧ j ≠ 0 ∧ (i = m ∨ sibling t i m).
Proof.
  destruct 1 as [i n Hi Hn | i j n Hs Hj Hn].
  - exists i, n. repeat split; auto.
  - exists j, n. repeat split; auto.
Qed.

Lemma sibling_source t i j : sibling t i j → is_Some (t !! i).
Proof. induction 1; eauto. Qed.

Lemma sibling_left t i n j :
  t !! i = Some n → next n ≠ 0 → sibling t (next n) j → sibling t i j.
Proof.
  intros Hi Hn Hs. remember (next n) as m eqn:Hm.
  induction Hs as [m n' Hj Hn' | m j' n'' _ IH Hj Hn'']; subst m.
  - eapply sibling_more; [eapply sibling_next|..]; eauto.
  - eapply sibling_more; eauto.
Qed.

Lemma sibling_lt bound t i j :
  tree_inv bound t → sibling t i j → i < j < length t.
Proof.
  intros Hinv. induction 1 as [i n Hi Hn | i j n _ IH Hj Hn].
  - eapply inv_next; eauto.
  - pose proof (inv_next _ _ Hinv _ _ Hj Hn). lia.
Qed.

Lemma chain_head_no_sibling t i j : chain_head t j → ¬ sibling t i j.
Proof.
  intros Hh Hs. apply sibling_target in Hs as (m & nm & Hm & Hj & Hnz & _).
  subst j. eapply Hh; eauto.
Qed.

(** If no node before [curr] on its chain carries [k] and [curr] does not
    either, the same holds for the node after [curr]. *)
Lemma sibling_step_fresh bound t curr n k :
  tree_inv bound t → t !! curr = Some n → next n ≠ 0 → keysym n ≠ k →
  (∀ i ni, sibling t i curr → t !! i = Some ni → keysym ni ≠ k) →
  ∀ i ni, sibling t i (next n) → t !! i = Some ni → keysym ni ≠ k.
Proof.
  intros Hinv Hc Hn Hk Hprev i ni Hs Hi.
  apply sibling_target in Hs as (m & nm & Hm & Hj & _ & Hor).
  assert (m = curr) as ->.
  { eapply (inv_next_inj _ _ Hinv); eauto. congruence. }
  destruct Hor as [-> | Hs].
  - congruence.
  - eauto.
Qed.

(** ** The three ways [add_production] changes the node array *)

Lemma lookup_update_snoc (t : list node) e x y i n :
  (<[e := x]> (t ++ [y])) !! i = Some n →
  (i = e ∧ n = x) ∨ (i ≠ e ∧ t !! i = Some n) ∨ (i = length t ∧ n = y).
Proof.
  intros H. destruct (decide (i = e)) as [-> | Hne].
  - left. split; [done |].
    assert (e < length (t ++ [y])) as Hlt.
    { apply lookup_lt_Some in H. by rewrite length_insert in H. }
    rewrite list_lookup_insert_eq in H by done. congruence.
  - rewrite list_lookup_insert_ne in H by congruence.
    right. destruct (decide (i < length t)) as [Hlt | Hge].
    + left. rewrite lookup_app_l in H by exact Hlt. auto.
    + right. rewrite lookup_app_r in H by lia.
      destruct (i - length t) as [| d] eqn:Hd; simpl in H; [| done].
      split; [lia | congruence].
Qed.

Lemma lookup_update (t : list node) e x i n :
  (<[e := x]> t) !! i = Some n →
  (i = e ∧ n = x ∧ e < length t) ∨ (i ≠ e ∧ t !! i = Some n).
Proof.
  intros H. destruct (decide (i = e)) as [-> | Hne].
  - left. assert (e < length t).
    { apply lookup_lt_Some in H. by rewrite length_insert in H. }
    rewrite list_lookup_insert_eq in H by done. split; [done | split; congruence].
  - right. rewrite list_lookup_insert_ne in H by congruence. auto.
Qed.

Tactic Notation "snoc_cases" ident(H) :=
  apply lookup_update_snoc in H;
  destruct H as [[? ->] | [[? H] | [? ->]]]; try subst.

Tactic Notation "upd_cases" ident(H) :=
  apply lookup_update in H; destruct H as [(? & -> & ?) | [? H]]; try subst.

Section AppendNext.

Variables (bound : nat) (t : list node) (e : nat) (ne : node)
          (k : xkb_keysym_t).
Hypothesis Hinv : tree_inv bound t.
Hypothesis Hbound : 0 < bound.
Hypothesis He : t !! e = Some ne.
Hypothesis Hlast : next ne = 0.
Hypothesis Hk : k ≠ XKB_KEY_NoSymbol.
Hypothesis Hfresh :
  ∀ i ni, i = e ∨ sibling t i e → t !! i = Some ni → keysym ni ≠ k.

Local Abbreviation t' :=
  (<[e := set_next ne (length t)]> (t ++ [fresh_node k])).

Lemma append_next_sibling i j :
  sibling t' i j →
  sibling t i j ∨ (j = length t ∧ (i = e ∨ sibling t i e)).
Proof.
  induction 1 as [i n Hi Hn | i j n _ IH Hj Hn].
  - snoc_cases Hi; simpl in *.
    + right. auto.
    + left. by eapply sibling_next.
    + done.
  - destruct IH as [IH | [-> _]].
    + snoc_cases Hj; simpl in *.
      * right. auto.
      * left. by eapply sibling_more.
      * done.
    + apply lookup_update_snoc in Hj as [[Heq _] | [[_ Hj] | [_ ->]]].
      * apply lookup_lt_Some in He. lia.
      * apply lookup_lt_Some in Hj. lia.
      * done.
Qed.

Lemma tree_inv_append_next : tree_inv bound t'.
Proof.
  pose proof (lookup_lt_Some _ _ _ He) as Hlt.
  assert (length t' = S (length t)) as Hlen.
  { rewrite length_insert, length_app. simpl. lia. }
  split.
  - destruct (inv_root _ _ Hinv) as (r & Hr & Hk0 & Hs0 & Hu0 & Hks0 & Hn0).
    destruct (decide (e = 0)) as [-> | Hne].
    + exists (set_next ne (length t)).
      rewrite list_lookup_insert_eq by (rewrite length_app; simpl; lia).
      assert (r = ne) as -> by congruence. simpl.
      repeat split; try done. right. lia.
    + exists r.
      rewrite list_lookup_insert_ne by done.
      rewrite lookup_app_l by lia.
      repeat split; try done. right. lia.
  - intros i n Hi Hn. rewrite Hlen. snoc_cases Hi; simpl in *.
    + lia.
    + pose proof (inv_next _ _ Hinv _ _ Hi Hn). lia.
    + done.
  - intros i n Hi Hn. rewrite Hlen. snoc_cases Hi; simpl in *.
    + pose proof (inv_succ _ _ Hinv _ _ He Hn). lia.
    + pose proof (inv_succ _ _ Hinv _ _ Hi Hn). lia.
    + done.
  - intros i n Hi Hn. snoc_cases Hi; simpl in *.
    + eapply inv_keysym; eauto.
    + eapply inv_keysym; eauto.
    + done.
  - intros i n Hi Hn. snoc_cases Hi; simpl in *.
    + eapply inv_internal; eauto.
    + eapply inv_internal; eauto.
    + done.
  - intros i n Hi. snoc_cases Hi; simpl in *.
    + eapply inv_offset; eauto.
    + eapply inv_offset; eauto.
    + done.
  - intros i j ni nj Hi Hj Hn Heq.
    snoc_cases Hi; snoc_cases Hj; simpl in *; try done; try lia.
    + assert (next nj ≠ 0) as Hnz by lia.
      pose proof (inv_next _ _ Hinv _ _ Hj Hnz). lia.
    + pose proof (inv_next _ _ Hinv _ _ Hi Hn). lia.
    + eapply (inv_next_inj _ _ Hinv); eauto.
  - intros i j ni nj Hi Hj Hn Heq.
    snoc_cases Hi; snoc_cases Hj; simpl in *; try done; try lia.
    + assert (successor ne ≠ 0) as Hnz by lia.
      pose proof (inv_succ _ _ Hinv _ _ He Hnz). lia.
    + assert (successor nj ≠ 0) as Hnz by lia.
      pose proof (inv_succ _ _ Hinv _ _ Hj Hnz). lia.
    + eapply (inv_next_succ _ _ Hinv i e); eauto.
    + eapply (inv_next_succ _ _ Hinv i j); eauto.
  - intros i j ni nj Hs Hi Hj.
    apply append_next_sibling in Hs as [Hs | [-> Hs]].
    + pose proof (sibling_lt _ _ _ _ Hinv Hs) as Hlt'.
      assert (∃ ni0, t !! i = Some ni0 ∧ keysym ni0 = keysym ni)
        as (ni0 & Hi0 & <-).
      { snoc_cases Hi; simpl; eauto. lia. }
      assert (∃ nj0, t !! j = Some nj0 ∧ keysym nj0 = keysym nj)
        as (nj0 & Hj0 & <-).
      { snoc_cases Hj; simpl; eauto. lia. }
      eapply inv_distinct; eauto.
    + assert (nj = fresh_node k) as ->.
      { snoc_cases Hj; try done;
          [lia | apply lookup_lt_Some in Hj; lia]. }
      simpl.
      assert (∃ ni0, t !! i = Some ni0 ∧ keysym ni0 = keysym ni)
        as (ni0 & Hi0 & <-).
      { destruct Hs as [-> | Hs].
        - snoc_cases Hi; simpl; eauto; lia.
        - pose proof (sibling_lt _ _ _ _ Hinv Hs).
          snoc_cases Hi; simpl; eauto. lia. }
      eapply Hfresh; eauto.
Qed.

End AppendNext.

Section AppendSuccessor.

Variables (bound : nat) (t : list node) (c : nat) (nc : node)
          (k : xkb_keysym_t).
Hypothesis Hinv : tree_inv bound t.
Hypothesis Hbound : 0 < bound.
Hypothesis Hc : t !! c = Some nc.
Hypothesis Hnotroot : c ≠ 0.
Hypothesis Hleaf : successor nc = 0.
Hypothesis Hutf8 : utf8 nc = 0.
Hypothesis Hks : ks nc = XKB_KEY_NoSymbol.
Hypothesis Hk : k ≠ XKB_KEY_NoSymbol.

Local Abbreviation t' :=
  (<[c := set_successor nc (length t)]> (t ++ [fresh_node k])).

Lemma append_successor_sibling i j : sibling t' i j → sibling t i j.
Proof.
  induction 1 as [i n Hi Hn | i j n _ IH Hj Hn].
  - snoc_cases Hi; simpl in *; try done.
    + by apply (sibling_next t c nc).
    + by apply sibling_next.
  - pose proof (sibling_lt _ _ _ _ Hinv IH) as Hlt.
    apply lookup_update_snoc in Hj as [[-> ->] | [[_ Hj] | [-> _]]];
      simpl in *.
    + by apply (sibling_more t i c nc).
    + by eapply sibling_more.
    + lia.
Qed.

Lemma tree_inv_append_successor : tree_inv bound t'.
Proof.
  pose proof (lookup_lt_Some _ _ _ Hc) as Hlt.
  assert (length t' = S (length t)) as Hlen.
  { rewrite length_insert, length_app. simpl. lia. }
  split.
  - destruct (inv_root _ _ Hinv) as (r & Hr & Hk0 & Hs0 & Hu0 & Hks0 & Hn0).
    exists r. rewrite list_lookup_insert_ne by done.
    rewrite lookup_app_l by lia.
    repeat split; try done. right. lia.
  - intros i n Hi Hn. rewrite Hlen. snoc_cases Hi; simpl in *; try done.
    + pose proof (inv_next _ _ Hinv _ _ Hc Hn). lia.
    + pose proof (inv_next _ _ Hinv _ _ Hi Hn). lia.
  - intros i n Hi Hn. rewrite Hlen. snoc_cases Hi; simpl in *; try done.
    + lia.
    + pose proof (inv_succ _ _ Hinv _ _ Hi Hn). lia.
  - intros i n Hi Hn. snoc_cases Hi; simpl in *; try done;
      eapply inv_keysym; eauto.
  - intros i n Hi Hn. snoc_cases Hi; simpl in *; try done.
    eapply inv_internal; eauto.
  - intros i n Hi. snoc_cases Hi; simpl in *; try done.
    + lia.
    + eapply inv_offset; eauto.
  - intros i j ni nj Hi Hj Hn Heq.
    snoc_cases Hi; snoc_cases Hj; simpl in *; try done; try lia;
      eapply (inv_next_inj _ _ Hinv); eauto.
  - intros i j ni nj Hi Hj Hn Heq.
    snoc_cases Hi; snoc_cases Hj; simpl in *; try done; try lia.
    + pose proof (inv_next _ _ Hinv _ _ Hc Hn). lia.
    + eapply (inv_next_succ _ _ Hinv c j); eauto.
    + pose proof (inv_next _ _ Hinv _ _ Hi Hn). lia.
    + eapply (inv_next_succ _ _ Hinv i j); eauto.
  - intros i j ni nj Hs Hi Hj.
    apply append_successor_sibling in Hs.
    pose proof (sibling_lt _ _ _ _ Hinv Hs) as Hlt'.
    assert (∃ ni0, t !! i = Some ni0 ∧ keysym ni0 = keysym ni)
      as (ni0 & Hi0 & <-).
    { snoc_cases Hi; simpl; eauto. lia. }
    assert (∃ nj0, t !! j = Some nj0 ∧ keysym nj0 = keysym nj)
      as (nj0 & Hj0 & <-).
    { snoc_cases Hj; simpl; eauto. lia. }
    eapply inv_distinct; eauto.
Qed.

End AppendSuccessor.

Section UpdateLeaf.

Variables (bound : nat) (t : list node) (c : nat) (nc nc' : node).
Hypothesis Hinv : tree_inv bound t.
Hypothesis Hc : t !! c = Some nc.
Hypothesis Hkeysym : keysym nc' = keysym nc.
Hypothesis Hnext : next nc' = next nc.
Hypothesis Hsucc : successor nc' = successor nc.
Hypothesis Hoffset : utf8 nc' < bound.
Hypothesis Hleaf :
  c ≠ 0 ∧ successor nc = 0 ∨ utf8 nc' = 0 ∧ ks nc' = XKB_KEY_NoSymbol.

Local Abbreviation t' := (<[c := nc']> t).

Lemma update_leaf_sibling i j : sibling t' i j → sibling t i j.
Proof.
  induction 1 as [i n Hi Hn | i j n _ IH Hj Hn].
  - upd_cases Hi.
    + rewrite Hnext in *. by apply sibling_next.
    + by apply sibling_next.
  - upd_cases Hj.
    + rewrite Hnext in *. by eapply sibling_more.
    + by eapply sibling_more.
Qed.

Lemma tree_inv_update_leaf : tree_inv bound t'.
Proof.
  pose proof (lookup_lt_Some _ _ _ Hc) as Hlt.
  assert (length t' = length t) as Hlen by apply length_insert.
  split.
  - destruct (inv_root _ _ Hinv) as (r & Hr & Hk0 & Hs0 & Hu0 & Hks0 & Hn0).
    destruct (decide (c = 0)) as [-> | Hne].
    + exists nc'. rewrite list_lookup_insert_eq by done.
      assert (r = nc) as -> by congruence.
      destruct Hleaf as [[? _] | [? ?]]; [done |].
      rewrite Hlen, Hkeysym, Hnext, Hsucc. repeat split; done.
    + exists r. rewrite list_lookup_insert_ne by done.
      rewrite Hlen. repeat split; done.
  - intros i n Hi Hn. rewrite Hlen. upd_cases Hi.
    + rewrite Hnext in *. eapply inv_next; eauto.
    + eapply inv_next; eauto.
  - intros i n Hi Hn. rewrite Hlen. upd_cases Hi.
    + rewrite Hsucc in *. eapply inv_succ; eauto.
    + eapply inv_succ; eauto.
  - intros i n Hi Hn. upd_cases Hi.
    + rewrite Hkeysym. eapply inv_keysym; eauto.
    + eapply inv_keysym; eauto.
  - intros i n Hi Hn. upd_cases Hi.
    + rewrite Hsucc in Hn. destruct Hleaf as [[_ ?] | ?]; done.
    + eapply inv_internal; eauto.
  - intros i n Hi. upd_cases Hi; [done |]. eapply inv_offset; eauto.
  - intros i j ni nj Hi Hj Hn Heq.
    upd_cases Hi; upd_cases Hj; rewrite ?Hnext in *; try done;
      eapply (inv_next_inj _ _ Hinv); eauto.
  - intros i j ni nj Hi Hj Hn.
    upd_cases Hi; upd_cases Hj; rewrite ?Hnext, ?Hsucc in *;
      eapply (inv_next_succ _ _ Hinv); eauto.
  - intros i j ni nj Hs Hi Hj.
    apply update_leaf_sibling in Hs.
    assert (∃ ni0, t !! i = Some ni0 ∧ keysym ni0 = keysym ni)
      as (ni0 & Hi0 & <-).
    { upd_cases Hi; eauto. }
    assert (∃ nj0, t !! j = Some nj0 ∧ keysym nj0 = keysym nj)
      as (nj0 & Hj0 & <-).
    { upd_cases Hj; eauto. }
    eapply inv_distinct; eauto.
Qed.

End UpdateLeaf.

(** ** The sibling search *)

Lemma search_siblings_unfold fuel k t curr :
  search_siblings fuel k t curr =
  nd ← t !! curr;
  if N.eqb k (keysym nd) then Some (t, curr)
  else match fuel with
       | 0 => None
       | S fuel' =>
           '(tree1, nd1) ←
             (if Nat.eqb (next nd) 0 then
                let '(tree', nx) := add_node t k in
                nd' ← tree' !! curr;
                let nd'' := set_next nd' nx in
                Some (<[curr := nd'']> tree', nd'')
              else Some (t, nd));
           search_siblings fuel' k tree1 (next nd1)
       end.
Proof. destruct fuel; reflexivity. Qed.

Lemma search_siblings_found fuel k t curr :
  t !! curr = Some (fresh_node k) →
  search_siblings fuel k t curr = Some (t, curr).
Proof.
  intros H. rewrite search_siblings_unfold, H. simpl.
  by rewrite N.eqb_refl.
Qed.

Lemma search_siblings_length fuel k : ∀ t curr t' curr',
  search_siblings fuel k t curr = Some (t', curr') → length t ≤ length t'.
Proof.
  induction fuel as [| fuel IH]; intros t curr t' curr' H;
    rewrite search_siblings_unfold in H;
    destruct (t !! curr) as [nd |] eqn:Hnd; simpl in H; try done;
    destruct (N.eqb k (keysym nd)); try done.
  - by inversion H.
  - by inversion H.
  - destruct (Nat.eqb (next nd) 0).
    + unfold add_node in H.
      destruct ((t ++ [Node k 0 0 0 XKB_KEY_NoSymbol]) !! curr)
        as [nd' |]; simpl in H; [| done].
      apply IH in H. rewrite length_insert, length_app in H. lia.
    + simpl in H. by apply IH in H.
Qed.

Lemma search_siblings_inv bound fuel k : ∀ t curr t' curr',
  tree_inv bound t → 0 < bound → k ≠ XKB_KEY_NoSymbol →
  (∀ i ni, sibling t i curr → t !! i = Some ni → keysym ni ≠ k) →
  search_siblings fuel k t curr = Some (t', curr') →
  fits_u32 (length t') →
  tree_inv bound t' ∧ (∃ n', t' !! curr' = Some n' ∧ keysym n' = k).
Proof.
  induction fuel as [| fuel IH]; intros t curr t' curr' Hinv Hb Hk Hprev H Hfit;
    rewrite search_siblings_unfold in H;
    destruct (t !! curr) as [nd |] eqn:Hnd; simpl in H; try done;
    destruct (N.eqb k (keysym nd)) eqn:Heq; try done.
  - inversion H; subst. apply N.eqb_eq in Heq. eauto.
  - inversion H; subst. apply N.eqb_eq in Heq. eauto.
  - apply N.eqb_neq in Heq.
    destruct (Nat.eqb (next nd) 0) eqn:Hnext.
    + apply Nat.eqb_eq in Hnext.
      pose proof (lookup_lt_Some _ _ _ Hnd) as Hlt.
      assert (fits_u32 (S (length t))) as Hfit1.
      { pose proof H as Hlen. unfold add_node in Hlen.
        rewrite lookup_app_l, Hnd in Hlen by done. simpl in Hlen.
        apply search_siblings_length in Hlen.
        rewrite length_insert, length_app in Hlen. simpl in Hlen.
        unfold fits_u32 in *. lia. }
      rewrite (u32_snoc _ _ Hfit1) in H.
      rewrite lookup_app_l, Hnd in H by done. simpl in H.
      rewrite search_siblings_found in H.
      * inversion H; subst. split.
        -- apply tree_inv_append_next; try done.
           intros i ni [-> | Hs] Hi; [congruence | eauto].
        -- exists (fresh_node k). split; [| done].
           rewrite list_lookup_insert_ne by lia.
           rewrite lookup_app_r by lia.
           by replace (length t - length t) with 0 by lia.
      * rewrite list_lookup_insert_ne by lia.
        rewrite lookup_app_r by lia.
        by replace (length t - length t) with 0 by lia.
    + apply Nat.eqb_neq in Hnext. simpl in H.
      apply (IH t (next nd) t' curr' Hinv Hb Hk); [| done | done].
      eapply sibling_step_fresh; eauto.
Qed.

(** ** The loop over the left-hand side *)

Lemma chain_head_successor bound t j nj :
  tree_inv bound t → t !! j = Some nj → chain_head t (successor nj).
Proof.
  intros Hinv Hj i n Hi Hn. eapply inv_next_succ; eauto.
Qed.

Lemma chain_head_root t : chain_head t 0.
Proof. intros i n _ Hn. exact Hn. Qed.

Lemma descend_length t curr k' t' curr' w :
  descend t curr k' = Some (t', curr', w) → length t ≤ length t'.
Proof.
  unfold descend. intros H.
  destruct (t !! curr) as [nd |] eqn:Hnd; simpl in H; [| done].
  destruct (Nat.eqb (successor nd) 0).
  - destruct (negb (Nat.eqb (utf8 nd) 0) || negb (N.eqb (ks nd) 0));
      simpl in H;
      match type of H with
      | context [ (?l ++ [?x]) !! curr ] =>
          destruct ((l ++ [x]) !! curr); simpl in H; [| done]
      end;
      inversion H; subst;
      rewrite length_insert, length_app, length_insert; lia.
  - inversion H; by subst.
Qed.

Lemma descend_inv bound t curr k' t' curr' w :
  tree_inv bound t → 0 < bound → curr ≠ 0 → k' ≠ XKB_KEY_NoSymbol →
  descend t curr k' = Some (t', curr', w) →
  fits_u32 (length t') →
  tree_inv bound t' ∧ chain_head t' curr'.
Proof.
  intros Hinv Hb Hcurr Hk H Hfit.
  pose proof (descend_length _ _ _ _ _ _ H) as Hlen.
  unfold descend in H.
  destruct (t !! curr) as [nd |] eqn:Hnd; simpl in H; [| done].
  pose proof (lookup_lt_Some _ _ _ Hnd) as Hlt.
  destruct (Nat.eqb (successor nd) 0) eqn:Hsucc.
  - apply Nat.eqb_eq in Hsucc.
    set (ndc := if negb (Nat.eqb (utf8 nd) 0) || negb (N.eqb (ks nd) 0)
                then set_ks (set_utf8 nd 0) XKB_KEY_NoSymbol else nd).
    assert (keysym ndc = keysym nd ∧ next ndc = next nd ∧
            successor ndc = successor nd ∧ utf8 ndc = 0 ∧
            ks ndc = XKB_KEY_NoSymbol) as (Hc1 & Hc2 & Hc3 & Hc4 & Hc5).
    { unfold ndc.
      destruct (Nat.eqb (utf8 nd) 0) eqn:E1;
        destruct (N.eqb (ks nd) 0) eqn:E2; simpl; repeat split; try done.
      - by apply Nat.eqb_eq.
      - by apply N.eqb_eq. }
    assert (tree_inv bound (<[curr := ndc]> t)) as Hinv1.
    { eapply tree_inv_update_leaf; eauto. rewrite Hc4. done. }
    assert (∃ w0,
      Some (<[curr := set_successor ndc (length t)]>
              (<[curr := ndc]> t ++ [fresh_node k']),
            length t, w0) = Some (t', curr', w)) as [w0 Heq].
    { assert (fits_u32 (S (length (<[curr := ndc]> t)))) as Hfit1.
      { rewrite length_insert.
        assert (S (length t) ≤ length t') as Hle.
        { clear -H Hlt.
          destruct (negb (Nat.eqb (utf8 nd) 0) || negb (N.eqb (ks nd) 0));
            simpl in H;
            match type of H with
            | context [ (?l ++ [?x]) !! curr ] =>
                destruct ((l ++ [x]) !! curr); simpl in H; [| done]
            end;
            inversion H; subst;
            rewrite length_insert, length_app, length_insert; simpl; lia. }
        unfold fits_u32 in *. lia. }
      unfold ndc in *.
      destruct (negb (Nat.eqb (utf8 nd) 0) || negb (N.eqb (ks nd) 0));
        simpl in H; rewrite (u32_snoc _ _ Hfit1) in H;
        rewrite lookup_app_l in H by (by rewrite length_insert);
        rewrite list_lookup_insert_eq in H by done; simpl in H;
        rewrite length_insert in H; eauto. }
    inversion Heq; subst t' curr' w0. clear Heq.
    assert (tree_inv bound
              (<[curr := set_successor ndc (length (<[curr := ndc]> t))]>
                 (<[curr := ndc]> t ++ [fresh_node k']))) as Hinv2.
    { apply tree_inv_append_successor; try done.
      - by apply list_lookup_insert_eq.
      - congruence. }
    rewrite length_insert in Hinv2. split; [done |].
    eapply (chain_head_successor _ _ curr
              (set_successor ndc (length t))); [done |].
    rewrite list_lookup_insert_eq; [done |].
    rewrite length_app, length_insert. lia.
  - inversion H; subst. split; [done |].
    eapply chain_head_successor; eauto.
Qed.

Lemma add_production_loop_cons k rest t curr :
  add_production_loop (k :: rest) t curr =
  '(tree1, curr1) ← search_siblings (S (length t)) k t curr;
  match rest with
  | [] => Some (tree1, curr1, [])
  | k' :: _ =>
      '(tree2, curr2, w) ← descend tree1 curr1 k';
      '(tree3, curr3, w') ← add_production_loop rest tree2 curr2;
      Some (tree3, curr3, w ++ w')
  end.
Proof. reflexivity. Qed.

Lemma add_production_loop_length ksyms : ∀ t curr t' curr' w,
  add_production_loop ksyms t curr = Some (t', curr', w) →
  length t ≤ length t'.
Proof.
  induction ksyms as [| k rest IH]; intros t curr t' curr' w H.
  - simpl in H. by inversion H.
  - rewrite add_production_loop_cons in H.
    destruct (search_siblings (S (length t)) k t curr)
      as [[t1 curr1] |] eqn:Hsearch; [| done].
    apply search_siblings_length in Hsearch. cbn [mbind option_bind] in H.
    destruct rest as [| k' rest'].
    + inversion H; by subst.
    + destruct (descend t1 curr1 k') as [[[t2 curr2] w2] |] eqn:Hd;
        [| done].
      apply descend_length in Hd. cbn [mbind option_bind] in H.
      destruct (add_production_loop (k' :: rest') t2 curr2)
        as [[[t3 curr3] w3] |] eqn:Hrec; [| done].
      apply IH in Hrec. cbn [mbind option_bind] in H.
      inversion H; subst. lia.
Qed.

Lemma add_production_loop_inv bound ksyms : ∀ t curr t' curr' w,
  tree_inv bound t → 0 < bound →
  Forall (λ k, k ≠ XKB_KEY_NoSymbol) ksyms → ksyms ≠ [] →
  chain_head t curr →
  add_production_loop ksyms t curr = Some (t', curr', w) →
  fits_u32 (length t') →
  tree_inv bound t' ∧ curr' ≠ 0 ∧ is_Some (t' !! curr').
Proof.
  induction ksyms as [| k rest IH];
    intros t curr t' curr' w Hinv Hb Hks Hne Hhead H Hfit; [done |].
  rewrite add_production_loop_cons in H.
  apply Forall_cons in Hks as [Hk Hks].
  destruct (search_siblings (S (length t)) k t curr)
    as [[t1 curr1] |] eqn:Hsearch; [| done].
  cbn [mbind option_bind] in H.
  assert (fits_u32 (length t1)) as Hfit1.
  { destruct rest as [| k' rest'].
    - inversion H; by subst.
    - destruct (descend t1 curr1 k') as [[[t2 curr2] w2] |] eqn:Hd;
        [| done].
      apply descend_length in Hd. cbn [mbind option_bind] in H.
      destruct (add_production_loop (k' :: rest') t2 curr2)
        as [[[t3 curr3] w3] |] eqn:Hrec; [| done].
      apply add_production_loop_length in Hrec.
      cbn [mbind option_bind] in H. inversion H; subst.
      unfold fits_u32 in *. lia. }
  eapply search_siblings_inv in Hsearch as [Hinv1 (n1 & Hn1 & Hkey)];
    eauto; cycle 1.
  { intros i ni Hs _. by apply chain_head_no_sibling in Hs. }
  assert (curr1 ≠ 0) as Hcurr1.
  { intros ->. destruct (inv_root _ _ Hinv1) as (r & Hr & Hk0 & _).
    congruence. }
  destruct rest as [| k' rest'].
  - inversion H; subst. eauto.
  - destruct (descend t1 curr1 k') as [[[t2 curr2] w2] |] eqn:Hd; [| done].
    cbn [mbind option_bind] in H.
    destruct (add_production_loop (k' :: rest') t2 curr2)
      as [[[t3 curr3] w3] |] eqn:Hrec; [| done].
    cbn [mbind option_bind] in H. inversion H; subst.
    pose proof (add_production_loop_length _ _ _ _ _ _ Hrec) as Hlen.
    apply Forall_cons in Hks as Hks'. destruct Hks' as [Hk' _].
    assert (fits_u32 (length t2)) as Hfit2
      by (unfold fits_u32 in *; lia).
    eapply descend_inv in Hd as [Hinv2 Hhead2]; [| done ..].
    eapply IH; eauto.
Qed.

(** ** Built tables satisfy the invariant *)

Lemma tree_inv_bound_mono bound bound' t :
  bound ≤ bound' → tree_inv bound t → tree_inv bound' t.
Proof.
  intros Hle [H1 H2 H3 H4 H5 H6 H7 H8 H9]. split; try done.
  intros i n Hi. specialize (H6 i n Hi). lia.
Qed.

Lemma compose_inv_new : compose_inv xkb_compose_new.
Proof.
  split; try done. simpl. split.
  - exists (Node XKB_KEY_NoSymbol 0 0 0 XKB_KEY_NoSymbol).
    repeat split; auto.
  - intros [| i] n Hi Hn; simpl in Hi; [| done]. by inversion Hi; subst.
  - intros [| i] n Hi Hn; simpl in Hi; [| done]. by inversion Hi; subst.
  - intros [| i] n Hi Hn; simpl in Hi; done.
  - intros [| i] n Hi Hn; simpl in Hi; [| done]. by inversion Hi; subst.
  - intros [| i] n Hi; simpl in Hi; [| done]. inversion Hi; subst.
    simpl. lia.
  - intros [| i] j ni nj Hi Hj Hn; simpl in Hi; [| done].
    by inversion Hi; subst.
  - intros [| i] j ni nj Hi Hj Hn; simpl in Hi; [| done].
    by inversion Hi; subst.
  - intros i j ni nj Hs. apply sibling_target in Hs
      as ([| m] & nm & Hm & Hnm & Hnz & _); simpl in Hm; [| done].
    inversion Hm; subst. done.
Qed.

Lemma add_production_inv c p c' w :
  compose_inv c → valid_lhs p → add_production c p = Some (c', w) →
  fits c' → compose_inv c'.
Proof.
  intros [Hinv Hhead Hlast] [Hne Hks] H [Hfit_t Hfit_b].
  assert (0 < length (compose_utf8 c)) as Hb.
  { by eapply lookup_lt_Some. }
  unfold add_production in H.
  destruct (add_production_loop (lhs p) (compose_tree c) 0)
    as [[[t curr] w0] |] eqn:Hloop; [| done].
  cbn [mbind option_bind] in H.
  destruct (t !! curr) as [nd |] eqn:Hnd; [| done].
  cbn [mbind option_bind] in H.
  assert (length t = length (compose_tree c')) as Hlen.
  { destruct (negb (Nat.eqb (successor nd) 0)); [by inversion H |].
    destruct (negb (Nat.eqb (utf8 nd) 0) || negb (N.eqb (ks nd) 0));
      [by inversion H |].
    destruct (has_string p); inversion H; simpl;
      by rewrite length_insert. }
  eapply add_production_loop_inv in Hloop as (Hinv1 & Hcurr & _);
    eauto using chain_head_root; [| by rewrite Hlen].
  destruct (Nat.eqb (successor nd) 0) eqn:Hsucc; simpl in H;
    [| by inversion H; subst].
  apply Nat.eqb_eq in Hsucc.
  destruct (negb (Nat.eqb (utf8 nd) 0) || negb (N.eqb (ks nd) 0));
    [by inversion H; subst |].
  destruct (has_string p).
  - inversion H; subst c' w0. clear H. simpl in *.
    assert (length (compose_utf8 c) <
            length (compose_utf8 c ++ strlen_prefix (prod_string p) ++ [x00]))
      as Hgrow.
    { rewrite !length_app. simpl. lia. }
    assert (u32 (length (compose_utf8 c)) = length (compose_utf8 c)) as Hu.
    { apply u32_small. unfold fits_u32 in Hfit_b. lia. }
    split; simpl.
    + eapply tree_inv_update_leaf; eauto.
      * eapply tree_inv_bound_mono; [| done]. lia.
      * by destruct (has_keysym p).
      * by destruct (has_keysym p).
      * by destruct (has_keysym p).
      * destruct (has_keysym p); simpl; lia.
    + by rewrite lookup_app_l.
    + rewrite app_assoc. apply last_snoc.
  - inversion H; subst c' w0. clear H. simpl in *.
    split; simpl; try done.
    eapply tree_inv_update_leaf; eauto;
      try (by destruct (has_keysym p)).
    destruct (has_keysym p); simpl; eapply inv_offset; eauto.
Qed.

Lemma built_inv c : built c → compose_inv c.
Proof.
  induction 1 as [| c p c' w _ IH Hp Hadd Hfit].
  - apply compose_inv_new.
  - eapply add_production_inv; eauto.
Qed.

(** ** Sibling chains as lists *)

Lemma sibling_chain_elem bound t : tree_inv bound t →
  ∀ fuel i j, j ∈ sibling_chain fuel t i → j = i ∨ sibling t i j.
Proof.
  intros Hinv. induction fuel as [| fuel IH]; intros i j Hj; simpl in Hj.
  - by apply elem_of_nil in Hj.
  - destruct (t !! i) as [n |] eqn:Hi; [| by apply elem_of_nil in Hj].
    apply elem_of_cons in Hj as [-> | Hj]; [by left |]. right.
    destruct (Nat.eqb (next n) 0) eqn:Hn; [by apply elem_of_nil in Hj |].
    apply Nat.eqb_neq in Hn.
    apply IH in Hj as [-> | Hs].
    + by apply sibling_next.
    + eapply sibling_left; eauto.
Qed.

Lemma sibling_chain_distinct bound t : tree_inv bound t →
  ∀ fuel i, NoDup (keysym_at t <$> sibling_chain fuel t i).
Proof.
  intros Hinv. induction fuel as [| fuel IH]; intros i; simpl.
  - constructor.
  - destruct (t !! i) as [n |] eqn:Hi; [| constructor].
    rewrite fmap_cons. constructor.
    + destruct (Nat.eqb (next n) 0) eqn:Hn; [by apply not_elem_of_nil |].
      apply Nat.eqb_neq in Hn.
      intros Hin. apply list_elem_of_fmap in Hin as (j & Hkey & Hj).
      assert (sibling t i j) as Hs.
      { apply (sibling_chain_elem _ _ Hinv) in Hj as [-> | Hs].
        - by apply sibling_next.
        - eapply sibling_left; eauto. }
      destruct (sibling_lt _ _ _ _ Hinv Hs) as [_ Hlt].
      apply lookup_lt_is_Some in Hlt as [nj Hnj].
      unfold keysym_at in Hkey. rewrite Hi, Hnj in Hkey. simpl in Hkey.
      by eapply (inv_distinct _ _ Hinv i j).
    + destruct (Nat.eqb (next n) 0); [constructor | apply IH].
Qed.

(** With as much fuel as the table has nodes the list is the whole chain:
    its last node has no [next]. *)
Lemma sibling_chain_complete bound t : tree_inv bound t →
  ∀ fuel i, i < length t → length t ≤ fuel + i →
  ∃ j n, last (sibling_chain fuel t i) = Some j ∧ t !! j = Some n ∧
         next n = 0.
Proof.
  intros Hinv. induction fuel as [| fuel IH]; intros i Hi Hfuel; [lia |].
  simpl. apply lookup_lt_is_Some in Hi as [n Hn]. rewrite Hn.
  destruct (Nat.eqb (next n) 0) eqn:Hnext.
  - apply Nat.eqb_eq in Hnext. exists i, n. auto.
  - apply Nat.eqb_neq in Hnext.
    pose proof (inv_next _ _ Hinv _ _ Hn Hnext) as [Hlt Hlen].
    destruct (IH (next n)) as (j & nj & Hlast & Hj & Hz); [done | lia |].
    exists j, nj. split; [| done].
    destruct fuel as [| fuel']; [lia |]. 
    simpl in *. destruct (t !! next n); [| done]. done.
Qed.

(** ** The state machine on built tables *)

Lemma feed_loop_total bound t k : tree_inv bound t →
  ∀ fuel ctx, ctx < length t → length t ≤ fuel + ctx + 1 →
  ∃ ctx', feed_loop fuel t k ctx = Some ctx' ∧ ctx' < length t.
Proof.
  intros Hinv. induction fuel as [| fuel IH]; intros ctx Hctx Hfuel;
    simpl; apply lookup_lt_is_Some in Hctx as Hn; destruct Hn as [n Hn];
    rewrite Hn; simpl;
    destruct (negb (N.eqb (keysym n) k) && negb (Nat.eqb (next n) 0))
      eqn:Hcond; eauto.
  - apply andb_true_iff in Hcond as [_ Hnext].
    apply negb_true_iff, Nat.eqb_neq in Hnext.
    pose proof (inv_next _ _ Hinv _ _ Hn Hnext). lia.
  - apply andb_true_iff in Hcond as [_ Hnext].
    apply negb_true_iff, Nat.eqb_neq in Hnext.
    pose proof (inv_next _ _ Hinv _ _ Hn Hnext).
    apply IH; lia.
Qed.

Section StateMachineFacts.

Variable xkb_keysym_is_modifier : xkb_keysym_t → bool.
Variable xkb_keysym_to_utf8 : xkb_keysym_t → nat → list byte * Z.

Local Abbreviation feed :=
  (xkb_compose_state_feed xkb_keysym_is_modifier).
Local Abbreviation get_utf8 :=
  (xkb_compose_state_get_utf8 xkb_keysym_to_utf8).

(** [feed] always returns on a built table and keeps the state inside
    the node array. *)
Lemma feed_total state k :
  built (compose state) → valid_state state →
  ∃ state', feed state k = Some state' ∧ valid_state state' ∧
            compose state' = compose state.
Proof.
  intros Hb [Hprev Hctx]. apply built_inv in Hb as [Hinv _ _].
  unfold xkb_compose_state_feed.
  destruct (xkb_keysym_is_modifier k);
    [exists state; repeat split; done |].
  apply lookup_lt_is_Some in Hctx as Hn. destruct Hn as [n Hn].
  rewrite Hn. cbn [mbind option_bind].
  set (start := if negb (Nat.eqb (successor n) 0) then successor n else 0).
  assert (start < length (compose_tree (compose state))) as Hstart.
  { unfold start. destruct (Nat.eqb (successor n) 0) eqn:Hs; simpl.
    - lia.
    - apply Nat.eqb_neq in Hs.
      pose proof (inv_succ _ _ Hinv _ _ Hn Hs). lia. }
  destruct (feed_loop_total _ _ k Hinv
              (length (compose_tree (compose state))) start)
    as (ctx' & Hloop & Hctx'); [done | lia |].
  rewrite Hloop. cbn [mbind option_bind].
  apply lookup_lt_is_Some in Hctx' as Hn'. destruct Hn' as [n' Hn'].
  rewrite Hn'. cbn [mbind option_bind].
  eexists. split; [done |]. split; [| done].
  split; simpl; [done |].
  destruct (negb (N.eqb (keysym n') k)); lia.
Qed.

End StateMachineFacts.

Lemma reachable_valid is_modifier c state :
  built c → reachable is_modifier c state →
  compose state = c ∧ valid_state state.
Proof.
  intros Hb. induction 1 as [| state k state' _ [Hc Hv] Hfeed
                             | state _ [Hc Hv]].
  - split; [done |]. apply built_inv in Hb as [Hinv _ _].
    destruct (inv_root _ _ Hinv) as (r & Hr & _).
    apply lookup_lt_Some in Hr. by split.
  - subst c.
    destruct (feed_total is_modifier state k Hb Hv)
      as (state'' & Hfeed' & Hv' & Hc').
    rewrite Hfeed in Hfeed'. inversion Hfeed'; subst. done.
  - split; [done |]. subst c. apply built_inv in Hb as [Hinv _ _].
    destruct (inv_root _ _ Hinv) as (r & Hr & _).
    apply lookup_lt_Some in Hr. by split.
Qed.

(** ** Strings of the UTF-8 blob *)

Lemma c_string_defined (l : list byte) :
  last l = Some x00 → is_Some (c_string l).
Proof.
  induction l as [| b l IH]; intros Hlast; [done |].
  simpl. destruct (Byte.eqb b x00) eqn:Hb; [by eauto |].
  destruct l as [| b' l'].
  - simpl in Hlast. inversion Hlast; subst. done.
  - destruct IH as [s Hs]; [done |]. rewrite Hs. by eauto.
Qed.

Lemma last_drop {A} (l : list A) n x :
  n < length l → last l = Some x → last (drop n l) = Some x.
Proof.
  revert l. induction n as [| n IH]; intros l Hn Hl; [by rewrite drop_0 |].
  destruct l as [| a l]; [done |]. simpl in *.
  apply IH; [lia |]. destruct l; [simpl in Hn; lia | done].
Qed.

Lemma blob_string_defined c i n :
  compose_inv c → compose_tree c !! i = Some n →
  is_Some (c_string (drop (utf8 n) (compose_utf8 c))).
Proof.
  intros [Hinv _ Hlast] Hi. apply c_string_defined, last_drop; [| done].
  eapply inv_offset; eauto.
Qed.

Lemma blob_string_zero c :
  compose_inv c → c_string (drop 0 (compose_utf8 c)) = Some [].
Proof.
  intros [_ Hhead _]. rewrite drop_0.
  destruct (compose_utf8 c) as [| b l]; [done |].
  simpl in Hhead. by inversion Hhead; subst.
Qed.

(** ** [add_production] returns on built tables *)

Lemma fits_u32_le n m : n ≤ m → fits_u32 m → fits_u32 n.
Proof. unfold fits_u32. lia. Qed.

Lemma search_siblings_total bound k t : tree_inv bound t →
  fits_u32 (S (length t)) →
  ∀ fuel curr, curr < length t → length t ≤ fuel + curr →
  ∃ t' curr', search_siblings fuel k t curr = Some (t', curr') ∧
              length t' ≤ S (length t).
Proof.
  intros Hinv Hfit. induction fuel as [| fuel IH]; intros curr Hcurr Hfuel;
    [lia |].
  rewrite search_siblings_unfold.
  apply lookup_lt_is_Some in Hcurr as Hnd. destruct Hnd as [nd Hnd].
  rewrite Hnd. cbn [mbind option_bind].
  destruct (N.eqb k (keysym nd)); [by eauto |].
  destruct (Nat.eqb (next nd) 0) eqn:Hnext.
  - simpl. rewrite (u32_snoc _ _ Hfit).
    rewrite lookup_app_l, Hnd by done. simpl.
    rewrite search_siblings_found.
    + do 2 eexists. split; [done |].
      rewrite length_insert, length_app. simpl. lia.
    + rewrite list_lookup_insert_ne by lia.
      rewrite lookup_app_r by lia.
      by replace (length t - length t) with 0 by lia.
  - apply Nat.eqb_neq in Hnext. cbn [mbind option_bind].
    pose proof (inv_next _ _ Hinv _ _ Hnd Hnext).
    apply IH; lia.
Qed.

Lemma descend_total t curr k' :
  is_Some (t !! curr) → fits_u32 (S (length t)) →
  ∃ t' curr' w, descend t curr k' = Some (t', curr', w) ∧
                length t' ≤ S (length t).
Proof.
  intros [nd Hnd] Hfit. unfold descend. rewrite Hnd.
  cbn [mbind option_bind].
  pose proof (lookup_lt_Some _ _ _ Hnd) as Hlt.
  destruct (Nat.eqb (successor nd) 0); [| by eauto 6].
  destruct (negb (Nat.eqb (utf8 nd) 0) || negb (N.eqb (ks nd) 0)); simpl;
    rewrite u32_snoc by (by rewrite length_insert);
    rewrite lookup_app_l by (by rewrite length_insert);
    rewrite list_lookup_insert_eq by done; simpl;
    do 3 eexists; (split; [done |]);
    rewrite length_insert, length_app, length_insert; simpl; lia.
Qed.

Lemma descend_target bound t curr k' t' curr' w :
  tree_inv bound t →
  descend t curr k' = Some (t', curr', w) →
  fits_u32 (length t') → curr ≠ 0 → curr' < length t'.
Proof.
  intros Hinv H Hfit Hcurr. unfold descend in H.
  destruct (t !! curr) as [nd |] eqn:Hnd; [| done].
  cbn [mbind option_bind] in H.
  pose proof (lookup_lt_Some _ _ _ Hnd) as Hlt.
  destruct (Nat.eqb (successor nd) 0) eqn:Hsucc.
  - assert (S (length t) ≤ length t') as Hle.
    { destruct (negb (Nat.eqb (utf8 nd) 0) || negb (N.eqb (ks nd) 0));
        simpl in H;
        match type of H with
        | context [ (?l ++ [?x]) !! curr ] =>
            destruct ((l ++ [x]) !! curr); simpl in H; [| done]
        end;
        inversion H; subst;
        rewrite length_insert, length_app, length_insert; simpl; lia. }
    assert (fits_u32 (S (length t))) as Hfit1 by (by eapply fits_u32_le).
    destruct (negb (Nat.eqb (utf8 nd) 0) || negb (N.eqb (ks nd) 0));
      simpl in H;
      rewrite u32_snoc in H by (by rewrite length_insert);
      rewrite lookup_app_l in H by (by rewrite length_insert);
      rewrite list_lookup_insert_eq in H by done; simpl in H;
      inversion H; subst;
      rewrite !length_insert, length_app, !length_insert; simpl; lia.
  - apply Nat.eqb_neq in Hsucc. inversion H; subst.
    by apply (inv_succ _ _ Hinv _ _ Hnd).
Qed.

Lemma add_production_loop_total bound ksyms : ∀ t curr,
  tree_inv bound t → 0 < bound →
  Forall (λ k, k ≠ XKB_KEY_NoSymbol) ksyms →
  chain_head t curr → curr < length t →
  fits_u32 (length t + 2 * length ksyms) →
  ∃ t' curr' w, add_production_loop ksyms t curr = Some (t', curr', w) ∧
                length t' ≤ length t + 2 * length ksyms.
Proof.
  induction ksyms as [| k rest IH]; intros t curr Hinv Hb Hks Hhead Hcurr Hfit.
  - simpl. do 3 eexists. split; [done | lia].
  - apply Forall_cons in Hks as [Hk Hks]. simpl length in *.
    rewrite add_production_loop_cons.
    destruct (search_siblings_total _ k _ Hinv) with
      (fuel := S (length t)) (curr := curr)
      as (t1 & curr1 & Hsearch & Hlen1);
      [eapply fits_u32_le; [| exact Hfit]; lia | done | lia |].
    rewrite Hsearch. cbn [mbind option_bind].
    assert (fits_u32 (length t1)) as Hfit1
      by (eapply fits_u32_le; [| exact Hfit]; lia).
    eapply search_siblings_inv in Hsearch as [Hinv1 (n1 & Hn1 & Hkey)];
      eauto; cycle 1.
    { intros i ni Hs _. by apply chain_head_no_sibling in Hs. }
    destruct rest as [| k' rest'].
    + do 3 eexists. split; [done | lia].
    + assert (curr1 ≠ 0) as Hcurr1.
      { intros ->. destruct (inv_root _ _ Hinv1) as (r & Hr & Hk0 & _).
        congruence. }
      destruct (descend_total t1 curr1 k') as (t2 & curr2 & w2 & Hd & Hlen2);
        [by eauto | eapply fits_u32_le; [| exact Hfit]; simpl; lia |].
      rewrite Hd. cbn [mbind option_bind].
      assert (fits_u32 (length t2)) as Hfit2
        by (eapply fits_u32_le; [| exact Hfit]; simpl; lia).
      pose proof (descend_target _ _ _ _ _ _ _ Hinv1 Hd Hfit2 Hcurr1)
        as Hcurr2.
      apply Forall_cons in Hks as Hks'. destruct Hks' as [Hk' _].
      eapply descend_inv in Hd as [Hinv2 Hhead2]; [| done ..].
      destruct (IH t2 curr2) as (t3 & curr3 & w3 & Hrec & Hlen3);
        [done .. | eapply fits_u32_le; [| exact Hfit]; simpl in *; lia |].
      rewrite Hrec. cbn [mbind option_bind].
      do 3 eexists. split; [done |]. simpl in *. lia.
Qed.

Lemma strlen_prefix_length s : length (strlen_prefix s) ≤ length s.
Proof.
  induction s as [| b s IH]; simpl; [lia |].
  destruct (Byte.eqb b x00); simpl; lia.
Qed.

Lemma add_production_total c p :
  compose_inv c → valid_lhs p →
  fits_u32 (length (compose_tree c) + 2 * len p) →
  fits_u32 (length (compose_utf8 c) + length (prod_string p) + 1) →
  ∃ c' w, add_production c p = Some (c', w) ∧ fits c' ∧
    length (compose_tree c') ≤ length (compose_tree c) + 2 * len p ∧
    length (compose_utf8 c') ≤
      length (compose_utf8 c) + length (prod_string p) + 1.
Proof.
  intros Hc [Hne Hks] Hfit_t Hfit_b. pose proof Hc as [Hinv Hhead Hlast].
  assert (0 < length (compose_utf8 c)) as Hb by (by eapply lookup_lt_Some).
  destruct (inv_root _ _ Hinv) as (r & Hr & _).
  destruct (add_production_loop_total (length (compose_utf8 c)) (lhs p)
              (compose_tree c) 0)
    as (t & curr & w & Hloop & Hlen);
    [done | done | done | apply chain_head_root | by eapply lookup_lt_Some
     | done |].
  unfold add_production. rewrite Hloop. cbn [mbind option_bind].
  assert (fits_u32 (length t)) as Hfit1
    by (eapply fits_u32_le; [| exact Hfit_t]; unfold len; lia).
  eapply add_production_loop_inv in Hloop as (Hinv1 & Hcurr & [nd Hnd]);
    eauto using chain_head_root.
  rewrite Hnd. cbn [mbind option_bind].
  pose proof (strlen_prefix_length (prod_string p)) as Hstr.
  assert (fits_u32 (length (compose_utf8 c))) as Hfit_b0
    by (eapply fits_u32_le; [| exact Hfit_b]; lia).
  unfold fits.
  destruct (negb (Nat.eqb (successor nd) 0)).
  { do 2 eexists. split; [done |]. simpl. unfold len in *.
    repeat split; try done; lia. }
  destruct (negb (Nat.eqb (utf8 nd) 0) || negb (N.eqb (ks nd) 0)).
  { do 2 eexists. split; [done |]. simpl. unfold len in *.
    repeat split; try done; lia. }
  destruct (has_string p); do 2 eexists; (split; [done |]); simpl;
    rewrite ?length_insert, ?length_app; simpl; unfold len in *;
    repeat split; try done; try lia.
  eapply fits_u32_le; [| exact Hfit_b]. lia.
Qed.

(** * The parser *)

(** ** Fuel *)

Section ParserFacts.

Variable open_file : string → option scanner.

Local Abbreviation run := (parse_at open_file).
Local Abbreviation returns := (parse_returns open_file).

Lemma do_include_with_mono
    (p p' : xkb_compose → scanner → list message → nat →
            option parse_result) c lg path d r :
  (∀ c s lg d r, p c s lg d = Some r → p' c s lg d = Some r) →
  do_include_with open_file p c lg path d = Some r →
  do_include_with open_file p' c lg path d = Some r.
Proof.
  intros Hp. unfold do_include_with, post_increment.
  destruct (MAX_INCLUDE_DEPTH <=? d); [done |].
  destruct (open_file path) as [s |]; [| done].
  destruct (p c s lg d) as [[ok st] |] eqn:E; [| done].
  apply Hp in E. by rewrite E.
Qed.

Lemma parse_step_mono
    (g g' : label → parse_state → option parse_result)
    (p p' : xkb_compose → scanner → list message → nat →
            option parse_result) l st d r :
  (∀ l st r, g l st = Some r → g' l st = Some r) →
  (∀ c s lg d r, p c s lg d = Some r → p' c s lg d = Some r) →
  parse_step open_file g p l st d = Some r →
  parse_step open_file g' p' l st d = Some r.
Proof.
  intros Hg Hp. unfold parse_step, rhs_end_of_line.
  destruct l; intros H; try (by eauto).
  - destruct (lex (ps_scanner st)) as [tok s]. destruct tok; eauto.
  - destruct (lex_include_string (ps_scanner st)) as [tok s].
    destruct tok; eauto.
  - destruct (lex (ps_scanner st)) as [tok s]. destruct tok; eauto.
    destruct (do_include_with open_file p _ _ _ _)
      as [[[ok c] lg] |] eqn:E; [| done].
    apply (do_include_with_mono p p') in E; [| done]. rewrite E.
    destruct ok; eauto.
  - destruct (lex (ps_scanner st)) as [tok s].
    destruct tok; eauto; repeat case_match; eauto.
  - destruct (lex (ps_scanner st)) as [tok s].
    destruct tok; eauto; repeat case_match; eauto; done.
  - repeat case_match; eauto.
  - repeat case_match; eauto.
Qed.

Lemma parse_at_S fuel l st d r :
  run fuel l st d = Some r → run (S fuel) l st d = Some r.
Proof.
  revert l st d r. induction fuel as [| fuel IH]; intros l st d r H;
    [done |].
  simpl in H. change (run (S (S fuel)) l st d) with
    (parse_step open_file
       (λ l' st', run (S fuel) l' st' d)
       (λ c s lg d', run (S fuel) L_initial (parse_entry c s lg) d')
       l st d).
  eapply parse_step_mono; [| | exact H].
  - intros l' st' r' Hr. by apply IH.
  - intros c s lg d' r' Hr. by apply IH.
Qed.

Lemma parse_at_le fuel fuel' l st d r :
  fuel ≤ fuel' → run fuel l st d = Some r → run fuel' l st d = Some r.
Proof.
  induction 1 as [| fuel' _ IH]; [done |].
  intros H. by apply parse_at_S, IH.
Qed.

Lemma parse_returns_unique l st d r r' :
  returns l st d r → returns l st d r' → r = r'.
Proof.
  intros [f H] [f' H'].
  apply (parse_at_le f (f `max` f')) in H; [| lia].
  apply (parse_at_le f' (f `max` f')) in H'; [| lia].
  congruence.
Qed.

(** One [goto]: the run from [l] is the code at [l] followed by the
    runs from the labels it jumps to. *)
Lemma parse_returns_step l st d r :
  returns l st d r ↔
  ∃ fuel,
    parse_step open_file
      (λ l' st', run fuel l' st' d)
      (λ c s lg d', run fuel L_initial (parse_entry c s lg) d')
      l st d = Some r.
Proof.
  split.
  - intros [[| fuel] H]; [done |]. by exists fuel.
  - intros [fuel H]. by exists (S fuel).
Qed.

End ParserFacts.

(** ** Jumps between labels *)

Section ParserJumps.

Variable open_file : string → option scanner.

Local Abbreviation run := (parse_at open_file).
Local Abbreviation returns := (parse_returns open_file).

Lemma parse_returns_jump l st d l' st' :
  (∀ g p, parse_step open_file g p l st d = g l' st') →
  ∀ r, returns l st d r ↔ returns l' st' d r.
Proof.
  intros Hjump r. rewrite parse_returns_step. split.
  - intros [fuel H]. rewrite Hjump in H. by exists fuel.
  - intros [fuel H]. exists fuel. by rewrite Hjump.
Qed.

Lemma unexpected_token_jump l lx st d tok s :
  lexer_at l = Some lx → lx (ps_scanner st) = (tok, s) →
  expected l tok = false →
  ∀ r, returns l st d r ↔ returns L_unexpected (with_tok st tok s) d r.
Proof.
  intros Hlx Hlex Hexp. apply parse_returns_jump. intros g p.
  destruct l; simpl in Hlx; inversion Hlx; subst lx; simpl;
    rewrite Hlex; destruct tok; simpl in Hexp; done.
Qed.

Lemma unexpected_counts st d :
  ps_num_errors st < MAX_ERRORS →
  ∀ r, returns L_unexpected st d r ↔ returns L_skip (count_error st) d r.
Proof.
  intros Hn. apply parse_returns_jump. intros g p.
  unfold parse_step, count_error.
  destruct (ps_tok st); simpl;
    (destruct (ps_num_errors st + 1 <=? MAX_ERRORS) eqn:E;
     [done | apply Nat.leb_gt in E; lia]).
Qed.

Lemma skip_resumes : ∀ s st d,
  ps_scanner st = s →
  ∀ r, returns L_skip st d r ↔ returns L_initial (skip_line s st) d r.
Proof.
  induction s as [| t s IH]; intros st d Hs r.
  - destruct (ps_tok st) eqn:Htok; simpl; rewrite Htok;
      try (apply parse_returns_jump; intros g p; simpl; by rewrite Htok).
    all: etransitivity;
      [apply (parse_returns_jump _ _ _ L_skip
                (with_tok st TOK_END_OF_FILE []));
       intros g p; simpl; rewrite Htok, Hs; reflexivity |];
      apply parse_returns_jump; intros g p; reflexivity.
  - destruct (ps_tok st) eqn:Htok; simpl; rewrite Htok;
      try (apply parse_returns_jump; intros g p; simpl; by rewrite Htok).
    all: etransitivity;
      [apply (parse_returns_jump _ _ _ L_skip (with_tok st t s));
       intros g p; simpl; rewrite Htok, Hs; reflexivity |];
      by apply IH.
Qed.

Lemma count_error_tok st : ps_tok (count_error st) = ps_tok st.
Proof.
  unfold count_error. destruct (ps_tok st) eqn:E; simpl; by rewrite ?E.
Qed.

Lemma count_error_scanner st :
  ps_scanner (count_error st) = ps_scanner st.
Proof. unfold count_error. by destruct (ps_tok st). Qed.

(** After an unexpected token, with fewer than [MAX_ERRORS] errors so
    far, the run continues from [initial] past the end of the line. *)
Lemma unexpected_recovers st d :
  ps_num_errors st < MAX_ERRORS →
  ∀ r, returns L_unexpected st d r ↔ returns L_initial (recovered st) d r.
Proof.
  intros Hn r. rewrite (unexpected_counts st d Hn).
  rewrite (skip_resumes (ps_scanner st) (count_error st) d).
  - done.
  - apply count_error_scanner.
Qed.

Lemma unexpected_aborts st d :
  MAX_ERRORS ≤ ps_num_errors st →
  returns L_unexpected st d (false, aborted st).
Proof.
  intros Hn. exists 2. simpl. unfold aborted, count_error.
  destruct (ps_tok st); simpl;
    (destruct (ps_num_errors st + 1 <=? MAX_ERRORS) eqn:E;
     [apply Nat.leb_le in E; lia | done]).
Qed.

End ParserJumps.

(** ** A file without includes is parsed to its end *)

Lemma room_tail c t s : room c (t :: s) → room c s.
Proof.
  intros [H1 H2].
  split; [eapply fits_u32_le; [| exact H1] | eapply fits_u32_le; [| exact H2]];
    simpl; lia.
Qed.

Lemma take_length_le {A} (l : list A) n : length (take n l) ≤ n.
Proof. rewrite length_take. lia. Qed.

Section ParseTotal.

Variable open_file : string → option scanner.

Local Abbreviation run := (parse_at open_file).

Lemma rhs_end_of_line_total n d st t s :
  (∀ l st, weight l st < n → parse_inv l st →
           ∃ r, run n l st d = Some r ∧ parse_post r) →
  7 * length s + 7 ≤ n →
  ps_scanner st = s →
  built (ps_compose st) → room (ps_compose st) (t :: s) →
  Forall plain_token s →
  length (prod_string (ps_production st)) ≤ 255 →
  valid_lhs (ps_production st) → len (ps_production st) ≤ MAX_LHS_LEN →
  ps_num_errors st ≤ MAX_ERRORS →
  ∃ r, rhs_end_of_line (λ l' st', run n l' st' d) st = Some r ∧
       parse_post r.
Proof.
  intros IH Hn Hs Hb Hroom Htoks Hstr Hlhs Hlen Herr.
  unfold rhs_end_of_line.
  destruct (negb (has_string (ps_production st)) &&
            negb (has_keysym (ps_production st))).
  - apply IH.
    + unfold weight. simpl. rewrite Hs.
      destruct (ps_tok st); simpl; lia.
    + split; simpl; rewrite ?Hs; try done. by eapply room_tail.
  - destruct Hroom as [Hroom_t Hroom_b].
    destruct (add_production_total (ps_compose st) (ps_production st))
      as (c' & w & Hadd & Hfit & Hlen_t & Hlen_b);
      [by apply built_inv | done
       | eapply fits_u32_le; [| exact Hroom_t];
         unfold MAX_LHS_LEN in *; simpl; lia
       | eapply fits_u32_le; [| exact Hroom_b]; simpl; lia |].
    rewrite Hadd. apply IH.
    + unfold weight. simpl. rewrite Hs. lia.
    + split; simpl; rewrite ?Hs; try done.
      * by eapply built_add.
      * split; [eapply fits_u32_le; [| exact Hroom_t]
               | eapply fits_u32_le; [| exact Hroom_b]];
          unfold MAX_LHS_LEN in *; simpl in *; lia.
Qed.

Lemma parse_total_aux d : ∀ n l st,
  weight l st < n → parse_inv l st →
  ∃ r, run n l st d = Some r ∧ parse_post r.
Proof.
  induction n as [| n IH]; intros l st Hw Hinv; [lia |].
  change (run (S n) l st d) with
    (parse_step open_file
       (λ l' st', run n l' st' d)
       (λ c s lg d', run n L_initial (parse_entry c s lg) d')
       l st d).
  destruct Hinv as [Hb Hroom Htoks Hstr Hlhs Herr [Hl1 Hl2]].
  unfold weight in Hw.
  destruct l; simpl in Hw, Herr, Hlhs; try done.
  - (* initial *)
    simpl. apply IH; [unfold weight; simpl; lia |].
    split; simpl; done.
  - (* initial_eol *)
    simpl. destruct (ps_scanner st) as [| t s] eqn:Hs; simpl.
    + apply IH; [unfold weight; simpl; lia |].
      split; simpl; done.
    + apply Forall_cons in Htoks as [Ht Htoks]. simpl in Hw.
      pose proof (room_tail _ _ _ Hroom) as Hroom'.
      destruct t; simpl in Ht; try done;
        (apply IH; [unfold weight; simpl; lia |]);
        split; simpl; try done.
      unfold valid_lhs, len, MAX_LHS_LEN. simpl. rewrite Hlhs. simpl.
      repeat split; [done | by repeat constructor | lia].
  - (* include_eol *) by destruct (Hl2 path).
  - (* lhs *)
    destruct Hlhs as [[Hne Hks] Hlen].
    simpl. destruct (ps_scanner st) as [| t s] eqn:Hs; simpl.
    + apply IH; [unfold weight; simpl; lia |].
      split; simpl; done.
    + apply Forall_cons in Htoks as [Ht Htoks]. simpl in Hw.
      pose proof (room_tail _ _ _ Hroom) as Hroom'.
      destruct t; simpl in Ht; try done;
        try (apply IH; [unfold weight; simpl; lia |];
             split; simpl; done).
      * destruct (MAX_LHS_LEN <? len (ps_production st) + 1) eqn:E;
          (apply IH; [unfold weight; simpl; lia |]);
          split; simpl; try done.
        apply Nat.ltb_ge in E.
        unfold valid_lhs, len in *. simpl. rewrite length_app. simpl.
        repeat split; [by destruct (lhs (ps_production st)) | | lia].
        apply Forall_app. split; [done | by repeat constructor].
      * destruct (len (ps_production st) <=? 0) eqn:E;
          (apply IH; [unfold weight; simpl; lia |]);
          split; simpl; done.
  - (* rhs *)
    destruct Hlhs as [Hvalid Hlen].
    unfold parse_step.
    destruct (ps_scanner st) as [| t s] eqn:Hs; cbn [lex].
    + apply IH; [unfold weight; simpl; lia |].
      split; simpl; done.
    + apply Forall_cons in Htoks as [Ht Htoks]. simpl in Hw.
      pose proof (room_tail _ _ _ Hroom) as Hroom'.
      destruct t; simpl in Ht; try done;
        try (apply IH; [unfold weight; simpl; lia |];
             split; simpl; done).
      * eapply rhs_end_of_line_total; eauto; simpl; lia.
      * cbn [ps_production with_tok].
        destruct (has_string (ps_production st));
          [| destruct (starts_with_nul s0);
             [| destruct (256 <=? length (strlen_prefix s0))]];
          (apply IH; [unfold weight; simpl; lia |]);
          split; cbn -[Nat.leb take]; try done; apply take_length_le.
      * cbn [ps_production with_tok].
        destruct (has_keysym (ps_production st)).
        -- apply IH; [unfold weight; simpl; lia |].
           split; simpl; done.
        -- eapply rhs_end_of_line_total; eauto; simpl; lia.
  - (* unexpected *)
    simpl.
    assert (∀ st', ps_scanner st' = ps_scanner st →
                   ps_compose st' = ps_compose st →
                   ps_production st' = ps_production st →
                   ps_tok st' = ps_tok st →
                   ps_num_errors st' = ps_num_errors st →
      ∃ r, (if ps_num_errors st' + 1 <=? MAX_ERRORS
            then run n L_skip
                   (with_num_errors st' (ps_num_errors st' + 1)) d
            else run n L_fail
                   (logging (with_num_errors st' (ps_num_errors st' + 1))
                            [err_too_many_errors]) d) = Some r ∧
           parse_post r) as Hgo.
    { intros st' E1 E2 E3 E4 E5.
      destruct (ps_num_errors st' + 1 <=? MAX_ERRORS) eqn:E.
      - apply Nat.leb_le in E. apply IH.
        + unfold weight. simpl. rewrite E1, E4.
          destruct (ps_tok st); lia.
        + split; simpl; rewrite ?E1, ?E2, ?E3; done.
      - apply Nat.leb_gt in E. apply IH.
        + unfold weight. simpl. rewrite E1. lia.
        + split; simpl; rewrite ?E1, ?E2, ?E3; try done. lia. }
    destruct (ps_tok st) eqn:Htok; apply Hgo; simpl; done.
  - (* fail *)
    simpl. eexists. split; [done |]. split; simpl; [done |].
    rewrite Herr. unfold MAX_ERRORS. split; [done | lia].
  - (* skip *)
    simpl.
    destruct (ps_scanner st) as [| t s] eqn:Hs; simpl;
      destruct (ps_tok st) eqn:Htok; simpl in Hw;
      (apply IH;
         [unfold weight; simpl; rewrite ?Hs, ?Htok; simpl; try lia;
          destruct t; simpl; lia |]);
      split; simpl; rewrite ?Hs; try done;
      try (by eapply room_tail); try (by eapply Forall_cons_1).
  - (* finished *)
    simpl. eexists. split; [done |]. split; simpl; [done |]. done.
Qed.

(** A file without [include] lines whose left-hand keysyms are real is
    parsed to its end: [parse] returns, the table it leaves is built,
    and it reports success exactly when it counted at most [MAX_ERRORS]
    errors. *)
Lemma parse_total c s lg d :
  built c → room c s → Forall plain_token s →
  ∃ fuel r, parse open_file fuel c s lg d = Some r ∧ parse_post r.
Proof.
  intros Hb Hroom Htoks.
  exists (S (weight L_initial (parse_entry c s lg))).
  apply parse_total_aux; [lia |].
  split; simpl; try done; unfold MAX_ERRORS; lia.
Qed.

End ParseTotal.

(** ** Runs with includes *)

Lemma grown_refl c : grown c c.
Proof. by split. Qed.

Lemma grown_trans c1 c2 c3 : grown c1 c2 → grown c2 c3 → grown c1 c3.
Proof. intros [? ?] [? ?]. split; lia. Qed.

Lemma fits_grown c c' : grown c c' → fits c' → fits c.
Proof.
  intros [Ht Hb] [Hft Hfb]. split; eapply fits_u32_le; eauto.
Qed.

Lemma add_production_grows c p c' w :
  add_production c p = Some (c', w) → grown c c'.
Proof.
  unfold add_production. intros H.
  destruct (add_production_loop (lhs p) (compose_tree c) 0)
    as [[[t curr] w0] |] eqn:Hloop; [| done].
  apply add_production_loop_length in Hloop.
  cbn [mbind option_bind] in H.
  destruct (t !! curr) as [nd |]; [| done].
  cbn [mbind option_bind] in H.
  destruct (negb (Nat.eqb (successor nd) 0)); [by inversion H; subst |].
  destruct (negb (Nat.eqb (utf8 nd) 0) || negb (N.eqb (ks nd) 0));
    [by inversion H; subst |].
  destruct (has_string p); inversion H; subst; split; simpl;
    rewrite ?length_insert, ?length_app; lia.
Qed.

Section Runs.

Variable open_file : string → option scanner.

Local Abbreviation run := (parse_at open_file).

(** A run never shrinks the table. *)
Lemma parse_grows : ∀ fuel l st d r,
  run fuel l st d = Some r → grown (ps_compose st) (ps_compose r.2).
Proof.
  induction fuel as [| fuel IH]; intros l st d r H; [done |].
  change (run (S fuel) l st d) with
    (parse_step open_file
       (λ l' st', run fuel l' st' d)
       (λ c s lg d', run fuel L_initial (parse_entry c s lg) d')
       l st d) in H.
  assert (∀ l' st', run fuel l' st' d = Some r →
                    ps_compose st' = ps_compose st →
                    grown (ps_compose st) (ps_compose r.2)) as Hgo.
  { intros l' st' Hr <-. by eapply IH. }
  unfold parse_step in H.
  destruct l.
  - eapply Hgo; eauto.
  - destruct (lex (ps_scanner st)) as [tok s]. destruct tok;
      (eapply Hgo; [exact H | done]).
  - destruct (lex_include_string (ps_scanner st)) as [tok s]. destruct tok;
      (eapply Hgo; [exact H | done]).
  - destruct (lex (ps_scanner st)) as [tok s]. destruct tok;
      try (eapply Hgo; [exact H | done]).
    unfold do_include_with, post_increment in H.
    destruct (MAX_INCLUDE_DEPTH <=? d);
      [eapply Hgo; [exact H | done] |].
    destruct (open_file path) as [new_s |];
      [| eapply Hgo; [exact H | done]].
    cbn [ps_compose ps_log with_tok] in H.
    destruct (run fuel L_initial (parse_entry (ps_compose st) new_s _) d)
      as [[ok st_in] |] eqn:Hin; [| done].
    cbn [mbind option_bind] in H. apply IH in Hin. simpl in Hin.
    destruct ok; apply IH in H; simpl in H;
      by eapply grown_trans.
  - destruct (lex (ps_scanner st)) as [tok s]. destruct tok;
      try (eapply Hgo; [exact H | done]).
    + destruct (MAX_LHS_LEN <? len _ + 1); (eapply Hgo; [exact H | done]).
    + destruct (len _ <=? 0); (eapply Hgo; [exact H | done]).
  - assert (∀ st', ps_compose st' = ps_compose st →
              rhs_end_of_line (λ l' st', run fuel l' st' d) st' = Some r →
              grown (ps_compose st) (ps_compose r.2)) as Hrhs.
    { intros st' Hc Hr. unfold rhs_end_of_line in Hr.
      destruct (negb (has_string (ps_production st')) &&
                negb (has_keysym (ps_production st')));
        [eapply Hgo; [exact Hr | done] |].
      destruct (add_production (ps_compose st') (ps_production st'))
        as [[c w] |] eqn:Hadd; [| done].
      apply add_production_grows in Hadd. rewrite Hc in Hadd.
      apply IH in Hr. simpl in Hr. by eapply grown_trans. }
    destruct (lex (ps_scanner st)) as [tok s]. destruct tok;
      try (eapply Hgo; [exact H | done]).
    + eapply Hrhs; [| exact H]; done.
    + cbn [ps_production with_tok] in H.
      destruct (has_string (ps_production st));
        [| destruct (starts_with_nul s0);
           [| destruct (256 <=? length (strlen_prefix s0))]];
        (eapply Hgo; [exact H | done]).
    + cbn [ps_production with_tok] in H.
      destruct (has_keysym (ps_production st));
        [eapply Hgo; [exact H | done] | eapply Hrhs; [| exact H]; done].
  - destruct (ps_tok st);
      match type of H with
      | (if ?b then _ else _) = _ =>
          destruct b; (eapply Hgo; [exact H | done])
      end.
  - inversion H; subst. apply grown_refl.
  - destruct (ps_tok st); try (eapply Hgo; [exact H | done]);
      destruct (lex (ps_scanner st)) as [tok' s'];
      (eapply Hgo; [exact H | done]).
  - inversion H; subst. apply grown_refl.
Qed.

End Runs.

Lemma lex_tokens s0 tok s :
  Forall lexer_token s0 → lex s0 = (tok, s) →
  lexer_token tok ∧ Forall lexer_token s.
Proof.
  intros Hs0 H. destruct s0 as [| t s0']; simpl in H; inversion H; subst.
  - by split.
  - by apply Forall_cons in Hs0.
Qed.

Lemma lex_include_string_tokens s0 tok s :
  Forall lexer_token s0 → lex_include_string s0 = (tok, s) →
  lexer_token tok ∧ Forall lexer_token s.
Proof.
  intros Hs0 H. destruct s0 as [| t s0']; simpl in H; inversion H; subst.
  - by split.
  - by apply Forall_cons in Hs0.
Qed.

Section RunsBuild.

Variable open_file : string → option scanner.
Hypothesis Hfiles :
  ∀ path s, open_file path = Some s → Forall lexer_token s.

Local Abbreviation run := (parse_at open_file).

(** Whatever a run returns, from a built table and over files as the
    lexer tokenises them, is a built table, provided it fits 32-bit
    indices. *)
Lemma parse_built : ∀ fuel l st d r,
  run_inv l st → run fuel l st d = Some r → fits (ps_compose r.2) →
  built (ps_compose r.2).
Proof.
  induction fuel as [| fuel IH]; intros l st d r Hinv H Hfit; [done |].
  change (run (S fuel) l st d) with
    (parse_step open_file
       (λ l' st', run fuel l' st' d)
       (λ c s lg d', run fuel L_initial (parse_entry c s lg) d')
       l st d) in H.
  destruct Hinv as (Hb & Htoks & Hlhs).
  assert (∀ l' st', run fuel l' st' d = Some r → run_inv l' st' →
                    built (ps_compose r.2)) as Hgo.
  { intros l' st' Hr Hi. by eapply IH. }
  assert (∀ st', ps_compose st' = ps_compose st →
            Forall lexer_token (ps_scanner st') →
            valid_lhs (ps_production st') →
            rhs_end_of_line (λ l' st', run fuel l' st' d) st' = Some r →
            built (ps_compose r.2)) as Hrhs.
  { intros st' Hc Hs' Hv Hr. unfold rhs_end_of_line in Hr.
    destruct (negb (has_string (ps_production st')) &&
              negb (has_keysym (ps_production st'))).
    - eapply Hgo; [exact Hr |]. repeat split; simpl; try done.
      by rewrite Hc.
    - destruct (add_production (ps_compose st') (ps_production st'))
        as [[c w] |] eqn:Hadd; [| done].
      eapply Hgo; [exact Hr |]. repeat split; simpl; try done.
      eapply built_add; [| exact Hv | exact Hadd |].
      + by rewrite Hc.
      + apply (parse_grows open_file) in Hr. simpl in Hr.
        by eapply fits_grown. }
  unfold parse_step in H.
  destruct l; simpl in Hlhs.
  - eapply Hgo; [exact H |]. by repeat split.
  - destruct (lex (ps_scanner st)) as [tok s] eqn:Hlex.
    destruct (lex_tokens _ _ _ Htoks Hlex) as [Htok Hs].
    destruct tok; (eapply Hgo; [exact H |]); repeat split; simpl; try done.
    all: rewrite Hlhs; simpl; by repeat constructor.
  - destruct (lex_include_string (ps_scanner st)) as [tok s] eqn:Hlex.
    destruct (lex_include_string_tokens _ _ _ Htoks Hlex) as [Htok Hs].
    destruct tok; (eapply Hgo; [exact H |]); by repeat split.
  - destruct (lex (ps_scanner st)) as [tok s] eqn:Hlex.
    destruct (lex_tokens _ _ _ Htoks Hlex) as [Htok Hs].
    destruct tok; try (eapply Hgo; [exact H |]; by repeat split).
    unfold do_include_with, post_increment in H.
    destruct (MAX_INCLUDE_DEPTH <=? d);
      [eapply Hgo; [exact H |]; by repeat split |].
    destruct (open_file path) as [new_s |] eqn:Hopen;
      [| eapply Hgo; [exact H |]; by repeat split].
    cbn [ps_compose ps_log with_tok] in H.
    destruct (run fuel L_initial (parse_entry (ps_compose st) new_s _) d)
      as [[ok st_in] |] eqn:Hin; [| done].
    cbn [mbind option_bind] in H.
    assert (built (ps_compose st_in)) as Hb_in.
    { change (ps_compose st_in) with (ps_compose (ok, st_in).2).
      eapply IH; [| exact Hin |].
      - repeat split; simpl; try done. by eapply Hfiles.
      - simpl. destruct ok; apply (parse_grows open_file) in H; simpl in H;
          by eapply fits_grown. }
    destruct ok; (eapply Hgo; [exact H |]); by repeat split.
  - destruct (lex (ps_scanner st)) as [tok s] eqn:Hlex.
    destruct (lex_tokens _ _ _ Htoks Hlex) as [Htok Hs].
    destruct Hlhs as [Hne Hks].
    destruct tok; try (eapply Hgo; [exact H |]; by repeat split).
    + destruct (MAX_LHS_LEN <? len _ + 1);
        (eapply Hgo; [exact H |]); repeat split; simpl; try done.
      * by destruct (lhs (ps_production st)).
      * apply Forall_app. split; [done | by repeat constructor].
    + destruct (len _ <=? 0); (eapply Hgo; [exact H |]); by repeat split.
  - destruct (lex (ps_scanner st)) as [tok s] eqn:Hlex.
    destruct (lex_tokens _ _ _ Htoks Hlex) as [Htok Hs].
    destruct tok; try (eapply Hgo; [exact H |]; by repeat split).
    + eapply Hrhs; [| | | exact H]; done.
    + cbn [ps_production with_tok] in H.
      destruct Hlhs as [Hne Hks].
      destruct (has_string (ps_production st));
        [| destruct (starts_with_nul s0);
           [| destruct (256 <=? length (strlen_prefix s0))]];
        (eapply Hgo; [exact H |]); by repeat split.
    + cbn [ps_production with_tok] in H.
      destruct (has_keysym (ps_production st)).
      * eapply Hgo; [exact H |]. by repeat split.
      * eapply Hrhs; [| | | exact H]; done.
  - destruct (ps_tok st);
      match type of H with
      | (if ?b then _ else _) = _ =>
          destruct b; (eapply Hgo; [exact H |]; by repeat split)
      end.
  - inversion H; subst. done.
  - destruct (ps_tok st);
      try (eapply Hgo; [exact H |]; by repeat split);
      destruct (lex (ps_scanner st)) as [tok' s'] eqn:Hlex;
      destruct (lex_tokens _ _ _ Htoks Hlex) as [Htok Hs];
      (eapply Hgo; [exact H |]; by repeat split).
  - inversion H; subst. done.
Qed.

(** A table compiled from a buffer, with whatever files it includes, is
    a built table whenever it fits 32-bit indices. *)
Lemma new_from_buffer_built fuel buffer format flags c :
  Forall lexer_token buffer →
  xkb_compose_new_from_buffer open_file fuel buffer format flags
    = Some (Some c) →
  fits c → built c.
Proof.
  intros Htoks H Hfit. unfold xkb_compose_new_from_buffer in H.
  destruct (negb _); [done |]. destruct (negb _); [done |].
  unfold parse_string, parse in H.
  destruct (parse_at _ _ _ _ _) as [[ok st] |] eqn:Hrun; [| done].
  destruct ok; [| done]. inversion H; subst c.
  change (ps_compose st) with (ps_compose (true, st).2).
  eapply parse_built; [| exact Hrun | exact Hfit].
  repeat split; simpl; [apply built_new | done].
Qed.

End RunsBuild.

(** * The lexer *)

Section LexLemmas.


Variable scanner_t : Type.
Variable peek : scanner_t → byte.
Variable next : scanner_t → byte * scanner_t.
Variable chr : scanner_t → byte → bool * scanner_t.
Variable eof : scanner_t → bool.
Variable eol : scanner_t → bool.
Variable buf_append : scanner_t → byte → bool * scanner_t.
Variable buf_appends : scanner_t → list byte → bool * scanner_t.
Variable hex : scanner_t → option byte * scanner_t.
Variable oct : scanner_t → option byte * scanner_t.
Variable new_token : scanner_t → scanner_t.
Variable reset_buf : scanner_t → scanner_t.
Variable buf : scanner_t → list byte.
Variable buf_pos : scanner_t → nat.
Variable is_space : byte → bool.
Variable is_alpha : byte → bool.
Variable is_alnum : byte → bool.
Variable xkb_keysym_from_name : list byte → xkb_keysym_t.
Variable is_valid_utf8 : list byte → nat → bool.
Variable secure_getenv_HOME : option (list byte).
Variable get_xlocaledir_path : list byte.

Local Abbreviation lex :=
  (Lexer.lex scanner_t peek next chr eof eol buf_append hex oct new_token
     reset_buf buf buf_pos is_space is_alpha is_alnum xkb_keysym_from_name
     is_valid_utf8).
Local Abbreviation lex_token :=
  (Lexer.lex_token scanner_t peek next chr eof eol buf_append hex oct
     new_token reset_buf buf buf_pos is_alpha is_alnum xkb_keysym_from_name
     is_valid_utf8).
Local Abbreviation string_literal :=
  (Lexer.string_literal scanner_t peek next chr eof eol buf_append hex oct).
Local Abbreviation string_escape :=
  (Lexer.string_escape scanner_t chr buf_append hex oct).
Local Abbreviation lex_include_string :=
  (Lexer.lex_include_string scanner_t peek next chr eof eol buf_append
     buf_appends new_token buf is_space secure_getenv_HOME
     get_xlocaledir_path).
Local Abbreviation valid :=
  (Lexer.lex_token_valid scanner_t buf buf_pos xkb_keysym_from_name
     is_valid_utf8).

Local Abbreviation lexes :=
  (Lexer.lexes scanner_t peek next chr eof eol buf_append hex oct new_token
     reset_buf buf buf_pos is_space is_alpha is_alnum xkb_keysym_from_name
     is_valid_utf8).

Lemma warnings_nil : Lexer.warnings [].
Proof. constructor. Qed.

Lemma warnings_app ws ws' :
  Lexer.warnings ws → Lexer.warnings ws' → Lexer.warnings (ws ++ ws').
Proof. intros H H'. by apply Forall_app. Qed.

Lemma warnings_one w : Lexer.warnings [Lexer.scanner_warn w].
Proof. constructor; [by exists w | constructor]. Qed.

Lemma string_escape_log s log s' log' :
  string_escape s log = (s', log') →
  ∃ ws, log' = log ++ ws ∧ Lexer.warnings ws.
Proof.
  unfold Lexer.string_escape. intros H.
  repeat case_match; simplify_eq;
    first [ exists []; split; [by rewrite app_nil_r | apply warnings_nil]
          | eexists; split; [done | apply warnings_one] ].
Qed.

Lemma string_literal_log : ∀ fuel s log s' log',
  string_literal fuel s log = Some (s', log') →
  ∃ ws, log' = log ++ ws ∧ Lexer.warnings ws.
Proof.
  induction fuel as [| fuel IH]; intros s log s' log' H; simpl in H.
  - case_match; [done |]. simplify_eq. exists [].
    split; [by rewrite app_nil_r | apply warnings_nil].
  - destruct (negb (eof s) && negb (eol s) && negb (Byte.eqb (peek s) x22));
      cycle 1.
    { simplify_eq. exists [].
      split; [by rewrite app_nil_r | apply warnings_nil]. }
    destruct (chr s x5c) as [[] s1].
    + destruct (string_escape s1 log) as [s2 log2] eqn:Hesc.
      apply string_escape_log in Hesc as (ws1 & -> & Hws1).
      apply IH in H as (ws2 & -> & Hws2).
      exists (ws1 ++ ws2). split; [by rewrite app_assoc |].
      by apply warnings_app.
    + destruct (next s1) as [c s2]. by apply IH in H.
Qed.


Lemma lex_logged_same tok log :
  tok ≠ TOK_ERROR → Lexer.lex_logged tok log log.
Proof.
  intros H. exists [], []. split; [by rewrite !app_nil_r |].
  split; [apply warnings_nil |]. by destruct tok.
Qed.

Lemma lex_logged_fail log e :
  Lexer.lex_logged TOK_ERROR log (log ++ [Lexer.scanner_err e]).
Proof.
  exists [], [Lexer.scanner_err e]. split; [done |].
  split; [apply warnings_nil | by exists e].
Qed.

Lemma lex_logged_after tok log ws log' :
  Lexer.warnings ws → Lexer.lex_logged tok (log ++ ws) log' → Lexer.lex_logged tok log log'.
Proof.
  intros Hws (ws' & es & -> & Hws' & Hes). exists (ws ++ ws'), es.
  split; [by rewrite !app_assoc |]. split; [by apply warnings_app | done].
Qed.

Lemma lex_token_sound fuel s log tok s' log' :
  lex_token fuel s log = Some (tok, s', log') →
  valid tok s' ∧ Lexer.lex_logged tok log log'.
Proof.
  unfold Lexer.lex_token, Lexer.lex_fail. intros H.
  destruct (chr (new_token s) x3c) as [[] s1].
  { repeat case_match; simplify_eq;
      (split; [| first [apply lex_logged_fail | by apply lex_logged_same]]);
      simpl; try done.
    split; [| done]. by apply N.eqb_neq. }
  destruct (chr s1 x3a) as [[] s2].
  { simplify_eq. split; [done | by apply lex_logged_same]. }
  destruct (chr s2 x22) as [[] s3].
  { destruct (string_literal fuel s3 log) as [[s4 log4] |] eqn:Hstr;
      [| done].
    apply string_literal_log in Hstr as (ws & -> & Hws).
    repeat case_match; simplify_eq;
      (split; [| eapply lex_logged_after; [exact Hws |];
                 first [apply lex_logged_fail | by apply lex_logged_same]]);
      simpl; try done.
    split; [done |]. by apply negb_false_iff. }
  repeat case_match; simplify_eq;
    (split; [| first [apply lex_logged_fail | by apply lex_logged_same]]);
    simpl; try done.
  - by apply String.eqb_eq.
  - split; [| done]. by apply N.eqb_neq.
Qed.

Lemma lex_sound : ∀ fuel s log tok s' log',
  lex fuel s log = Some (tok, s', log') →
  valid tok s' ∧ Lexer.lex_logged tok log log'.
Proof.
  induction fuel as [| fuel IH]; intros s log tok s' log' H; [done |].
  simpl in H.
  destruct (Lexer.skip_spaces _ _ _ _ fuel s) as [[[] s1] |]; [| | done].
  { simplify_eq. split; [done | by apply lex_logged_same]. }
  destruct (chr s1 x23) as [[] s2].
  { destruct (Lexer.skip_to_eol _ _ _ _ fuel s2) as [s3 |]; [| done].
    by apply IH in H. }
  destruct (eof s2).
  { simplify_eq. split; [done | by apply lex_logged_same]. }
  by apply lex_token_sound in H.
Qed.

(** The tokens of a file are such as [lex] makes them, and none of them
    is the end of the file. *)
Lemma lexes_tokens s log toks :
  lexes s log toks →
  Forall lexer_token toks ∧ (TOK_END_OF_FILE ∉ toks).
Proof.
  induction 1 as [| fuel s log tok s' log' toks Hlex Hne _ [IH1 IH2]].
  - split; [constructor | apply not_elem_of_nil].
  - apply lex_sound in Hlex as [Hv _]. split.
    + apply Forall_cons. split; [| done].
      destruct tok; try done. by destruct Hv.
    + apply not_elem_of_cons. split; [congruence | done].
Qed.

End LexLemmas.

(** * The claims *)

(** ** Worked tables *)

Lemma built_table_A_x : built table_A_x.
Proof.
  apply (built_add xkb_compose_new production_A_x table_A_x []).
  - apply built_new.
  - split; [done |]. by repeat constructor.
  - reflexivity.
  - split; unfold fits_u32; simpl; lia.
Qed.

Lemma built_table_AB_f : built table_AB_f.
Proof.
  apply (built_add xkb_compose_new production_AB_f table_AB_f []).
  - apply built_new.
  - split; [done |]. by repeat constructor.
  - reflexivity.
  - split; unfold fits_u32; simpl; lia.
Qed.

(** ** The scenarios of test/compose.c *)

(** dead_tilde, space: composing, then composed to ["~"] and asciitilde;
    and the same again from the composed state. *)
Lemma scenario_dead_tilde_space :
  test_compose_seq (xkb_compose_state_new test_table)
    [65107%N; 32%N; 65107%N; 32%N] =
  Some [ (XKB_COMPOSE_COMPOSING, ([x00], 0%Z), XKB_KEY_NoSymbol);
         (XKB_COMPOSE_COMPOSED, ([x7e; x00], 1%Z), 126%N);
         (XKB_COMPOSE_COMPOSING, ([x00], 0%Z), XKB_KEY_NoSymbol);
         (XKB_COMPOSE_COMPOSED, ([x7e; x00], 1%Z), 126%N) ].
Proof. vm_compute. reflexivity. Qed.

(** Multi_key, Shift_L, A, Caps_Lock, T: the modifiers are passed over
    and the sequence composes ["@"] and at. *)
Lemma scenario_modifiers :
  test_compose_seq (xkb_compose_state_new test_table)
    [65312%N; 65505%N; 65%N; 65509%N; 84%N] =
  Some [ (XKB_COMPOSE_COMPOSING, ([x00], 0%Z), XKB_KEY_NoSymbol);
         (XKB_COMPOSE_COMPOSING, ([x00], 0%Z), XKB_KEY_NoSymbol);
         (XKB_COMPOSE_COMPOSING, ([x00], 0%Z), XKB_KEY_NoSymbol);
         (XKB_COMPOSE_COMPOSING, ([x00], 0%Z), XKB_KEY_NoSymbol);
         (XKB_COMPOSE_COMPOSED, ([x40; x00], 1%Z), 64%N) ].
Proof. vm_compute. reflexivity. Qed.

(** 7, a, b: nothing, three times. *)
Lemma scenario_nothing :
  test_compose_seq (xkb_compose_state_new test_table)
    [55%N; 97%N; 98%N] =
  Some [ (XKB_COMPOSE_NOTHING, ([x00], 0%Z), XKB_KEY_NoSymbol);
         (XKB_COMPOSE_NOTHING, ([x00], 0%Z), XKB_KEY_NoSymbol);
         (XKB_COMPOSE_NOTHING, ([x00], 0%Z), XKB_KEY_NoSymbol) ].
Proof. vm_compute. reflexivity. Qed.

(** Multi_key, apostrophe, 7, 7: composing twice, cancelled, nothing. *)
Lemma scenario_cancelled :
  test_compose_seq (xkb_compose_state_new test_table)
    [65312%N; 39%N; 55%N; 55%N] =
  Some [ (XKB_COMPOSE_COMPOSING, ([x00], 0%Z), XKB_KEY_NoSymbol);
         (XKB_COMPOSE_COMPOSING, ([x00], 0%Z), XKB_KEY_NoSymbol);
         (XKB_COMPOSE_CANCELLED, ([x00], 0%Z), XKB_KEY_NoSymbol);
         (XKB_COMPOSE_NOTHING, ([x00], 0%Z), XKB_KEY_NoSymbol) ].
Proof. vm_compute. reflexivity. Qed.

(** ** The table root *)

Lemma feed_loop_unfold fuel t k ctx :
  feed_loop fuel t k ctx =
  nd ← t !! ctx;
  if negb (N.eqb (keysym nd) k) && negb (Nat.eqb (next nd) 0) then
    match fuel with
    | 0 => None
    | S fuel' => feed_loop fuel' t k (next nd)
    end
  else Some ctx.
Proof. destruct fuel; reflexivity. Qed.

(** C3, as the code has it.  In every built table the root has
    [keysym = NoSymbol] and [successor = 0]; it is its [next] field that is
    either 0 or the index of the first top-level alternative, the node
    with index 1, which a fresh state reaches when fed that node's
    keysym. *)
Theorem root_node (is_modifier : xkb_keysym_t → bool) (c : xkb_compose) :
  built c →
  ∃ r, compose_tree c !! 0 = Some r ∧
       keysym r = XKB_KEY_NoSymbol ∧ successor r = 0 ∧
       (next r = 0 ∨
        next r = 1 ∧
        ∃ n1, compose_tree c !! 1 = Some n1 ∧
              keysym n1 ≠ XKB_KEY_NoSymbol ∧
              (is_modifier (keysym n1) = false →
               xkb_compose_state_feed is_modifier
                 (xkb_compose_state_new c) (keysym n1) =
               Some {| compose := c; prev_context := 0; context := 1 |})).
Proof.
  intros Hb. apply built_inv in Hb as [Hinv _ _].
  destruct (inv_root _ _ Hinv) as (r & Hr & Hk & Hs & Hu & Hks & Hn).
  exists r. repeat split; try done.
  destruct Hn as [[Hn _] | [Hn Hlen]]; [by left | right].
  split; [done |].
  apply lookup_lt_is_Some in Hlen as [n1 Hn1]. exists n1.
  split; [done |]. split; [by eapply inv_keysym |].
  intros Hmod. unfold xkb_compose_state_feed. rewrite Hmod.
  cbn [compose context xkb_compose_state_new].
  rewrite Hr. cbn [mbind option_bind]. rewrite Hs.
  cbn [Nat.eqb negb].
  pose proof (lookup_lt_Some _ _ _ Hn1) as Hlt1.
  destruct (length (compose_tree c)) as [| fuel] eqn:Hlen'; [lia |].
  assert (N.eqb XKB_KEY_NoSymbol (keysym n1) = false) as Hne.
  { apply N.eqb_neq. intros E. symmetry in E. revert E.
    by eapply (inv_keysym _ _ Hinv 1). }
  rewrite feed_loop_unfold, Hr. cbn [mbind option_bind].
  rewrite Hk, Hne, Hn. cbn [Nat.eqb negb andb].
  rewrite feed_loop_unfold, Hn1. cbn [mbind option_bind].
  rewrite N.eqb_refl. cbn [negb andb mbind option_bind].
  rewrite Hn1. cbn [mbind option_bind]. by rewrite N.eqb_refl.
Qed.

(** The root of the table built from the line [<A> : x]. *)
Lemma root_node_witness :
  built table_A_x ∧
  ∃ r, compose_tree table_A_x !! 0 = Some r ∧
       keysym r = XKB_KEY_NoSymbol ∧ successor r = 0 ∧
       (next r = 0 ∨
        next r = 1 ∧
        ∃ n1, compose_tree table_A_x !! 1 = Some n1 ∧
              keysym n1 ≠ XKB_KEY_NoSymbol ∧
              (only_shift (keysym n1) = false →
               xkb_compose_state_feed only_shift
                 (xkb_compose_state_new table_A_x) (keysym n1) =
               Some {| compose := table_A_x; prev_context := 0;
                       context := 1 |})).
Proof.
  split; [exact built_table_A_x |].
  exact (root_node only_shift table_A_x built_table_A_x).
Defined.

(** C3 as stated fails: after the line [<A> : x] the root of the built
    table has [next = 1], not 0, while its [successor] is still 0. *)
Lemma root_next_counterexample :
  add_production xkb_compose_new production_A_x = Some (table_A_x, []) ∧
  built table_A_x ∧
  ¬ (∃ r, compose_tree table_A_x !! 0 = Some r ∧
          keysym r = XKB_KEY_NoSymbol ∧ next r = 0).
Proof.
  split; [reflexivity |]. split; [exact built_table_A_x |].
  intros (r & Hr & _ & Hn). simpl in Hr. inversion Hr; subst r.
  simpl in Hn. discriminate.
Qed.

(** ** Status *)

(** C4.  For a state whose two contexts lie in the node array,
    [get_status] returns, and its value is a function of [context] and of
    the [successor] fields of the two nodes looked up, nothing else:
    CANCELLED iff [context = 0] and the previous node has a successor,
    NOTHING iff [context = 0] and it has none, COMPOSING iff
    [context ≠ 0] and the current node has a successor, COMPOSED iff
    [context ≠ 0] and it has none. *)
Theorem get_status_spec (state : xkb_compose_state) (prev_node nd : node) :
  compose_tree (compose state) !! prev_context state = Some prev_node →
  compose_tree (compose state) !! context state = Some nd →
  ∃ status,
    xkb_compose_state_get_status state = Some status ∧
    status = status_of (context state) (successor prev_node)
               (successor nd) ∧
    (status = XKB_COMPOSE_CANCELLED ↔
       context state = 0 ∧ successor prev_node ≠ 0) ∧
    (status = XKB_COMPOSE_NOTHING ↔
       context state = 0 ∧ successor prev_node = 0) ∧
    (status = XKB_COMPOSE_COMPOSING ↔
       context state ≠ 0 ∧ successor nd ≠ 0) ∧
    (status = XKB_COMPOSE_COMPOSED ↔
       context state ≠ 0 ∧ successor nd = 0).
Proof.
  intros Hprev Hnd.
  exists (status_of (context state) (successor prev_node) (successor nd)).
  split; [| split; [done |]].
  - unfold xkb_compose_state_get_status, status_of.
    rewrite Hprev, Hnd. cbn [mbind option_bind].
    destruct (decide (context state = 0)) as [-> | Hc].
    + cbn [Nat.eqb andb].
      destruct (decide (successor prev_node = 0)) as [-> | Hp]; [done |].
      apply Nat.eqb_neq in Hp. by rewrite Hp.
    + apply Nat.eqb_neq in Hc. rewrite Hc. cbn [andb].
      destruct (decide (successor nd = 0)) as [-> | Hs]; [done |].
      apply Nat.eqb_neq in Hs. by rewrite Hs.
  - unfold status_of.
    destruct (decide (context state = 0));
      destruct (decide (successor prev_node = 0));
      destruct (decide (successor nd = 0));
      repeat split; try (intros [? ?]); done.
Qed.

(** The status after [A] has been fed to the table of [<A> <B> : "f" x]. *)
Lemma get_status_spec_witness :
  compose_tree table_AB_f !! 0 = Some (Node 0%N 1 0 0 0%N) ∧
  compose_tree table_AB_f !! 1 = Some (Node 65%N 0 2 0 0%N) ∧
  ∃ status,
    xkb_compose_state_get_status (State table_AB_f 0 1) = Some status ∧
    status = status_of 1 0 2 ∧
    (status = XKB_COMPOSE_CANCELLED ↔ 1 = 0 ∧ 0 ≠ 0) ∧
    (status = XKB_COMPOSE_NOTHING ↔ 1 = 0 ∧ 0 = 0) ∧
    (status = XKB_COMPOSE_COMPOSING ↔ 1 ≠ 0 ∧ 2 ≠ 0) ∧
    (status = XKB_COMPOSE_COMPOSED ↔ 1 ≠ 0 ∧ 2 = 0).
Proof.
  split; [reflexivity |]. split; [reflexivity |].
  exact (get_status_spec (State table_AB_f 0 1)
           (Node 0%N 1 0 0 0%N) (Node 65%N 0 2 0 0%N) eq_refl eq_refl).
Defined.

(** ** Modifiers *)

(** C7.  Feeding a keysym that the keysym module classifies as a modifier
    returns the state as it was: [prev_context], [context] and the status
    are unchanged. *)
Theorem feed_modifier_unchanged (is_modifier : xkb_keysym_t → bool)
    (state : xkb_compose_state) (k : xkb_keysym_t) :
  is_modifier k = true →
  ∃ state',
    xkb_compose_state_feed is_modifier state k = Some state' ∧
    prev_context state' = prev_context state ∧
    context state' = context state ∧
    xkb_compose_state_get_status state' =
      xkb_compose_state_get_status state.
Proof.
  intros Hmod. exists state. unfold xkb_compose_state_feed.
  by rewrite Hmod.
Qed.

(** Shift_L fed in the middle of the sequence [<A> <B>]. *)
Lemma feed_modifier_unchanged_witness :
  only_shift 65505%N = true ∧
  ∃ state',
    xkb_compose_state_feed only_shift (State table_AB_f 0 1) 65505%N
      = Some state' ∧
    prev_context state' = 0 ∧ context state' = 1 ∧
    xkb_compose_state_get_status state' =
      xkb_compose_state_get_status (State table_AB_f 0 1).
Proof.
  split; [reflexivity |].
  exact (feed_modifier_unchanged only_shift (State table_AB_f 0 1)
           65505%N eq_refl).
Defined.

(** ** Internal nodes and leaves *)

(** The prefix-override step: when the node to descend from is a leaf
    that holds a string or a keysym, [descend] warns, clears both fields
    and only then links the fresh child. *)
Lemma descend_overrides_leaf t curr nd k' :
  t !! curr = Some nd → successor nd = 0 →
  utf8 nd ≠ 0 ∨ ks nd ≠ XKB_KEY_NoSymbol →
  fits_u32 (S (length t)) →
  ∃ t' nd',
    descend t curr k' = Some (t', length t, [warn_prefix_override]) ∧
    t' !! curr = Some nd' ∧ successor nd' = length t ∧
    utf8 nd' = 0 ∧ ks nd' = XKB_KEY_NoSymbol.
Proof.
  intros Hnd Hs Hleaf Hfit. unfold descend. rewrite Hnd.
  cbn [mbind option_bind]. rewrite Hs. cbn [Nat.eqb].
  pose proof (lookup_lt_Some _ _ _ Hnd) as Hlt.
  assert (negb (Nat.eqb (utf8 nd) 0) || negb (N.eqb (ks nd) 0) = true)
    as ->.
  { apply orb_true_iff. destruct Hleaf as [Hu | Hk]; [left | right];
      apply negb_true_iff; [by apply Nat.eqb_neq | by apply N.eqb_neq]. }
  unfold add_node.
  rewrite u32_snoc by (by rewrite length_insert).
  rewrite lookup_app_l by (by rewrite length_insert).
  rewrite list_lookup_insert_eq by done. cbn [mbind option_bind].
  rewrite length_insert. do 2 eexists. split; [reflexivity |].
  rewrite list_lookup_insert_eq
    by (rewrite length_app, length_insert; lia).
  done.
Qed.

(** C6.  In every built table a node that has a successor carries neither
    a string nor a keysym.  [built] is closed under [add_production], so
    every call preserves this; the one step that gives a successor to a
    node holding a string or a keysym, the prefix override in [descend],
    warns and clears both fields before it links the child. *)
Theorem internal_nodes_are_not_leaves (c : xkb_compose) (i : nat)
    (n : node) :
  built c → compose_tree c !! i = Some n → successor n ≠ 0 →
  (utf8 n = 0 ∧ ks n = XKB_KEY_NoSymbol) ∧
  (∀ curr nd k',
     compose_tree c !! curr = Some nd → successor nd = 0 →
     utf8 nd ≠ 0 ∨ ks nd ≠ XKB_KEY_NoSymbol →
     fits_u32 (S (length (compose_tree c))) →
     ∃ t' nd',
       descend (compose_tree c) curr k' =
         Some (t', length (compose_tree c), [warn_prefix_override]) ∧
       t' !! curr = Some nd' ∧
       successor nd' = length (compose_tree c) ∧
       utf8 nd' = 0 ∧ ks nd' = XKB_KEY_NoSymbol).
Proof.
  intros Hb Hi Hs. split.
  - apply built_inv in Hb as [Hinv _ _]. by eapply inv_internal.
  - intros curr nd k'. apply descend_overrides_leaf.
Qed.

(** The node of [A] in the table of [<A> <B> : "f" x]. *)
Lemma internal_nodes_are_not_leaves_witness :
  built table_AB_f ∧
  compose_tree table_AB_f !! 1 = Some (Node 65%N 0 2 0 0%N) ∧
  2 ≠ 0 ∧
  (0 = 0 ∧ 0%N = XKB_KEY_NoSymbol).
Proof.
  split; [exact built_table_AB_f |]. split; [reflexivity |].
  split; [lia |].
  exact (proj1 (internal_nodes_are_not_leaves table_AB_f 1
                  (Node 65%N 0 2 0 0%N)
                  built_table_AB_f eq_refl ltac:(simpl; lia))).
Defined.

(** ** Distinct siblings *)

(** C9.  In every built table the keysyms along the chain of [next] links
    that starts at any node [h] are pairwise distinct: the list of the
    chain's keysyms has no duplicate, the list is the whole chain (its
    last node has no [next]), and any two nodes of which one is reached
    from the other by [next] links carry different keysyms. *)
Theorem sibling_keysyms_distinct (c : xkb_compose) (h : nat) :
  built c → h < length (compose_tree c) →
  NoDup (keysym_at (compose_tree c) <$>
         sibling_chain (length (compose_tree c)) (compose_tree c) h) ∧
  (∃ j n, last (sibling_chain (length (compose_tree c)) (compose_tree c) h)
            = Some j ∧
          compose_tree c !! j = Some n ∧ next n = 0) ∧
  (∀ j, sibling (compose_tree c) h j →
        keysym_at (compose_tree c) h ≠ keysym_at (compose_tree c) j).
Proof.
  intros Hb Hh. apply built_inv in Hb as [Hinv _ _].
  split; [by eapply sibling_chain_distinct |]. split.
  - eapply sibling_chain_complete; eauto. lia.
  - intros j Hs.
    destruct (sibling_lt _ _ _ _ Hinv Hs) as [_ Hj].
    apply lookup_lt_is_Some in Hh as [nh Hnh].
    apply lookup_lt_is_Some in Hj as [nj Hnj].
    unfold keysym_at. rewrite Hnh, Hnj. simpl.
    by eapply inv_distinct.
Qed.

(** The top-level chain of the table of [<A> <B> : "f" x]. *)
Lemma sibling_keysyms_distinct_witness :
  built table_AB_f ∧ 0 < length (compose_tree table_AB_f) ∧
  NoDup (keysym_at (compose_tree table_AB_f) <$>
         sibling_chain 3 (compose_tree table_AB_f) 0).
Proof.
  split; [exact built_table_AB_f |]. split; [simpl; lia |].
  exact (proj1 (sibling_keysyms_distinct table_AB_f 0 built_table_AB_f
                  ltac:(simpl; lia))).
Defined.

(** ** Result accessors *)

Lemma built_internal c i n :
  built c → compose_tree c !! i = Some n → successor n ≠ 0 →
  utf8 n = 0 ∧ ks n = XKB_KEY_NoSymbol.
Proof.
  intros Hb Hi Hs. apply built_inv in Hb as [Hinv _ _].
  by eapply inv_internal.
Qed.

Lemma get_utf8_delegates
    (to_utf8 : xkb_keysym_t → nat → list byte * Z) state size nd :
  compose_tree (compose state) !! context state = Some nd →
  utf8 nd = 0 → ks nd ≠ XKB_KEY_NoSymbol →
  xkb_compose_state_get_utf8 to_utf8 state size =
    Some (to_utf8 (ks nd) size).
Proof.
  intros Hnd Hu Hk. unfold xkb_compose_state_get_utf8. rewrite Hnd.
  cbn [mbind option_bind]. rewrite Hu. apply N.eqb_neq in Hk.
  unfold XKB_KEY_NoSymbol in Hk. by rewrite Hk.
Qed.

Lemma get_utf8_copies
    (to_utf8 : xkb_keysym_t → nat → list byte * Z) state size nd :
  built (compose state) →
  compose_tree (compose state) !! context state = Some nd →
  ¬ (utf8 nd = 0 ∧ ks nd ≠ XKB_KEY_NoSymbol) →
  ∃ s, c_string (drop (utf8 nd) (compose_utf8 (compose state))) = Some s ∧
       xkb_compose_state_get_utf8 to_utf8 state size =
         Some (match size with
               | 0 => []
               | S m => take m s ++ [x00]
               end, Z.of_nat (length s)).
Proof.
  intros Hb Hnd Hnot. apply built_inv in Hb.
  unfold xkb_compose_state_get_utf8. rewrite Hnd.
  cbn [mbind option_bind].
  destruct (blob_string_defined _ _ _ Hb Hnd) as [s Hs].
  exists s. split; [done |].
  destruct (Nat.eqb (utf8 nd) 0 && negb (N.eqb (ks nd) 0)) eqn:E.
  - apply andb_true_iff in E as [E1 E2].
    apply Nat.eqb_eq in E1. apply negb_true_iff, N.eqb_neq in E2.
    by destruct Hnot.
  - rewrite Hs. done.
Qed.

(** The string that [c_string] reads: the bytes before the first NUL. *)
Lemma c_string_split (l s : list byte) :
  c_string l = Some s → ∃ after, l = s ++ x00 :: after ∧ (x00 ∉ s).
Proof.
  revert s. induction l as [| b l IH]; intros s H; simpl in H; [done |].
  destruct (Byte.eqb b x00) eqn:E.
  - apply Byte.byte_dec_bl in E. subst b. inversion H; subst s.
    exists l. split; [done | apply not_elem_of_nil].
  - destruct (c_string l) as [s' |]; simpl in H; [| done].
    inversion H; subst s. destruct (IH s' eq_refl) as (after & -> & Hs').
    exists after. split; [done |]. apply not_elem_of_cons. split; [| done].
    intros <-. by vm_compute in E.
Qed.

(** C8.  Let [nd] be the current node of a state over a built table.  If
    [nd] has no string but has a keysym, [get_utf8] is the keysym module's
    [xkb_keysym_to_utf8] on that keysym and the same buffer size.
    Otherwise the blob holds, from offset [utf8 nd] on, a string [s]
    without NUL followed by a NUL, and [get_utf8] stores the first
    [size - 1] bytes of [s] followed by a NUL (nothing when [size = 0])
    and returns the full length of [s]; a buffer with room for [s] and
    its NUL receives all of it. *)
Theorem get_utf8_spec
    (to_utf8 : xkb_keysym_t → nat → list byte * Z)
    (state : xkb_compose_state) (size : nat) (nd : node) :
  built (compose state) →
  compose_tree (compose state) !! context state = Some nd →
  (utf8 nd = 0 ∧ ks nd ≠ XKB_KEY_NoSymbol →
   xkb_compose_state_get_utf8 to_utf8 state size =
     Some (to_utf8 (ks nd) size)) ∧
  (¬ (utf8 nd = 0 ∧ ks nd ≠ XKB_KEY_NoSymbol) →
   ∃ before s after,
     compose_utf8 (compose state) = before ++ s ++ x00 :: after ∧
     length before = utf8 nd ∧ (x00 ∉ s) ∧
     xkb_compose_state_get_utf8 to_utf8 state size =
       Some (match size with
             | 0 => []
             | S m => take m s ++ [x00]
             end, Z.of_nat (length s)) ∧
     (length s < size →
      xkb_compose_state_get_utf8 to_utf8 state size =
        Some (s ++ [x00], Z.of_nat (length s)))).
Proof.
  intros Hb Hnd. split.
  - intros [Hu Hk]. by apply get_utf8_delegates.
  - intros Hnot.
    destruct (get_utf8_copies to_utf8 state size nd Hb Hnd Hnot)
      as (s & Hs & Hget).
    destruct (c_string_split _ _ Hs) as (after & Hdrop & Hnul).
    pose proof (built_inv _ Hb) as [Hinv _ _].
    pose proof (inv_offset _ _ Hinv _ _ Hnd) as Hoff.
    exists (take (utf8 nd) (compose_utf8 (compose state))), s, after.
    split; [by rewrite <- Hdrop, take_drop |].
    split; [rewrite length_take; lia |]. split; [done |].
    split; [done |]. intros Hfit. rewrite Hget.
    destruct size as [| m]; [lia |]. by rewrite take_ge by lia.
Qed.

(** The leaf of the table of [<A> <B> : "f" x], whose string is the byte
    [f] at offset 1 of the blob, read into a one-byte buffer: only the
    NUL is stored, and the length 1 is returned. *)
Lemma get_utf8_spec_witness :
  built table_AB_f ∧
  compose_tree table_AB_f !! 2 = Some (Node 66%N 0 0 1 120%N) ∧
  ¬ (1 = 0 ∧ 120%N ≠ XKB_KEY_NoSymbol) ∧
  compose_utf8 table_AB_f = [x00] ++ [x66] ++ x00 :: [] ∧
  xkb_compose_state_get_utf8 latin1_to_utf8 (State table_AB_f 1 2) 1
    = Some ([x00], 1%Z).
Proof.
  assert (¬ (1 = 0 ∧ 120%N ≠ XKB_KEY_NoSymbol)) as Hnot
    by (intros [H _]; lia).
  split; [exact built_table_AB_f |]. split; [reflexivity |].
  split; [exact Hnot |]. split; [reflexivity |].
  destruct (proj2 (get_utf8_spec latin1_to_utf8 (State table_AB_f 1 2) 1
                     (Node 66%N 0 0 1 120%N) built_table_AB_f eq_refl)
              Hnot)
    as (before & s & after & Hblob & Hlen & Hnul & Hget & _).
  assert (s = [x66]) as ->; [| exact Hget].
  destruct before as [| b0 [| b1 before]]; simpl in Hlen; try lia.
  simpl in Hblob. inversion Hblob as [[Hb0 Hrest]].
  destruct s as [| c0 [| c1 s]].
  - inversion Hrest.
  - by inversion Hrest.
  - inversion Hrest; subst. exfalso. apply Hnul. right. by left.
Defined.

(** C10.  When the context of a state over a built table is 0, or is a
    node that has a successor, [get_utf8] returns 0 and stores the empty
    string (its NUL, when the buffer has room for one), and [get_one_sym]
    returns [NoSymbol].  These are the states whose status is not
    COMPOSED. *)
Theorem accessors_empty_outside_composed
    (to_utf8 : xkb_keysym_t → nat → list byte * Z)
    (state : xkb_compose_state) (size : nat) (nd : node) :
  built (compose state) →
  compose_tree (compose state) !! context state = Some nd →
  context state = 0 ∨ successor nd ≠ 0 →
  xkb_compose_state_get_utf8 to_utf8 state size =
    Some (match size with 0 => [] | S _ => [x00] end, 0%Z) ∧
  xkb_compose_state_get_one_sym state = Some XKB_KEY_NoSymbol ∧
  (∀ status, xkb_compose_state_get_status state = Some status →
             status ≠ XKB_COMPOSE_COMPOSED).
Proof.
  intros Hb Hnd Hctx. pose proof (built_inv _ Hb) as Hc.
  assert (utf8 nd = 0 ∧ ks nd = XKB_KEY_NoSymbol) as [Hu Hk].
  { destruct Hctx as [Hz | Hs].
    - destruct Hc as [Hinv _ _].
      destruct (inv_root _ _ Hinv) as (r & Hr & _ & _ & Hu & Hk & _).
      rewrite Hz in Hnd. assert (r = nd) as -> by congruence. done.
    - by eapply built_internal. }
  split; [| split].
  - assert (¬ (utf8 nd = 0 ∧ ks nd ≠ XKB_KEY_NoSymbol)) as Hnot
      by (intros [_ H]; exact (H Hk)).
    destruct (get_utf8_copies to_utf8 state size nd Hb Hnd Hnot)
      as (s & Hs & ->).
    rewrite Hu in Hs. rewrite (blob_string_zero _ Hc) in Hs.
    inversion Hs; subst s. destruct size; [done | by rewrite take_nil].
  - unfold xkb_compose_state_get_one_sym. rewrite Hnd. simpl. by rewrite Hk.
  - intros status Hstatus. unfold xkb_compose_state_get_status in Hstatus.
    destruct (compose_tree (compose state) !! prev_context state)
      as [pn |]; [| done].
    rewrite Hnd in Hstatus. cbn [mbind option_bind] in Hstatus.
    destruct Hctx as [Hz | Hs].
    + rewrite Hz in Hstatus. cbn [Nat.eqb andb] in Hstatus.
      destruct (negb (Nat.eqb (successor pn) 0));
        inversion Hstatus; done.
    + apply Nat.eqb_neq in Hs. rewrite Hs in Hstatus.
      cbn [negb] in Hstatus.
      destruct (Nat.eqb (context state) 0 &&
                negb (Nat.eqb (successor pn) 0));
        [by inversion Hstatus |].
      destruct (Nat.eqb (context state) 0); by inversion Hstatus.
Qed.

(** The accessors after [A] has been fed to the table of
    [<A> <B> : "f" x]. *)
Lemma accessors_empty_outside_composed_witness :
  built table_AB_f ∧
  compose_tree table_AB_f !! 1 = Some (Node 65%N 0 2 0 0%N) ∧
  (1 = 0 ∨ 2 ≠ 0) ∧
  xkb_compose_state_get_utf8 latin1_to_utf8 (State table_AB_f 0 1) 64 =
    Some ([x00], 0%Z) ∧
  xkb_compose_state_get_one_sym (State table_AB_f 0 1) =
    Some XKB_KEY_NoSymbol ∧
  (∀ status,
     xkb_compose_state_get_status (State table_AB_f 0 1) = Some status →
     status ≠ XKB_COMPOSE_COMPOSED).
Proof.
  split; [exact built_table_AB_f |]. split; [reflexivity |].
  split; [right; lia |].
  apply (accessors_empty_outside_composed latin1_to_utf8
           (State table_AB_f 0 1) 64 (Node 65%N 0 2 0 0%N)).
  - exact built_table_AB_f.
  - reflexivity.
  - right. simpl. lia.
Defined.

(** ** Include depth *)

Lemma do_include_with_same_depth (open_file : string → option scanner)
    parse c lg path s d :
  d < MAX_INCLUDE_DEPTH → open_file path = Some s →
  do_include_with open_file parse c lg path d =
  '(ok, st) ← parse c s lg d; Some (ok, ps_compose st, ps_log st).
Proof.
  intros Hd Hopen. unfold do_include_with, post_increment.
  apply Nat.leb_gt in Hd. by rewrite Hd, Hopen.
Qed.

Lemma looping_file_diverges : ∀ fuel c lg,
  parse looping_file fuel c (include_line "loop") lg 0 = None.
Proof.
  induction fuel as [fuel IH] using lt_wf_ind. intros c lg.
  destruct fuel as [| [| [| [| fuel]]]]; try reflexivity.
  unfold parse in *. simpl.
  rewrite (do_include_with_same_depth looping_file _ c lg "loop"
             (include_line "loop") 0);
    [| unfold MAX_INCLUDE_DEPTH; lia | reflexivity].
  cbn beta. rewrite IH by lia. reflexivity.
Qed.

(** C1 fails on the code.  [do_include] hands its own [include_depth] to
    the recursive [parse] (the [++] acts on a copy that is never read
    again), so the depth stays 0 all the way down: a chain of includes
    nested six deep is parsed with success, and a file that includes
    itself is never rejected, the recursion just never returns. *)
Theorem include_depth_never_grows :
  (∃ st, parse_string nested_files 40 xkb_compose_new (include_line "f1")
           = Some (true, st) ∧ ps_compose st = table_A_x) ∧
  (∀ fuel, parse_string looping_file fuel xkb_compose_new
             (include_line "loop") = None).
Proof.
  split.
  - eexists. split; [vm_compute; reflexivity | reflexivity].
  - intros fuel. apply looping_file_diverges.
Qed.

(** ** The right-hand keysym *)




(** ** Unexpected tokens *)

Lemma skip_line_facts s : ∀ st,
  ps_num_errors (skip_line s st) = ps_num_errors st ∧
  ps_compose (skip_line s st) = ps_compose st ∧
  (ps_tok (skip_line s st) = TOK_END_OF_LINE ∨
   ps_tok (skip_line s st) = TOK_END_OF_FILE) ∧
  ∃ extra, ps_log (skip_line s st) = ps_log st ++ extra ∧
           Forall (λ m, m = err_lexer) extra.
Proof.
  induction s as [| t s IH]; intros st.
  - destruct (ps_tok st) eqn:Htok; simpl; rewrite Htok; simpl;
      repeat split; auto;
      exists []; by rewrite app_nil_r.
  - destruct (ps_tok st) eqn:Htok; simpl; rewrite Htok; simpl;
      try (repeat split; auto; exists []; by rewrite app_nil_r).
    all: destruct (IH (with_tok st t s)) as (H1 & H2 & H3 & extra & H4 & H5);
      repeat split; try done;
      rewrite H4; destruct t; simpl; try (by exists extra);
      exists (err_lexer :: extra); rewrite <- app_assoc;
      split; [done | by constructor].
Qed.

Lemma recovered_facts st tok s :
  ps_num_errors (recovered (with_tok st tok s)) = ps_num_errors st + 1 ∧
  ps_compose (recovered (with_tok st tok s)) = ps_compose st ∧
  (ps_tok (recovered (with_tok st tok s)) = TOK_END_OF_LINE ∨
   ps_tok (recovered (with_tok st tok s)) = TOK_END_OF_FILE) ∧
  ∃ extra,
    ps_log (recovered (with_tok st tok s)) =
      ps_log st ++ [reported tok] ++ extra ∧
    Forall (λ m, m = err_lexer) extra.
Proof.
  unfold recovered.
  destruct (skip_line_facts (ps_scanner (with_tok st tok s))
              (count_error (with_tok st tok s)))
    as (H1 & H2 & H3 & extra & H4 & H5).
  rewrite H1, H2, H4. repeat split; try done.
  - unfold count_error. by destruct tok.
  - exists extra. split; [| done]. rewrite app_assoc. f_equal.
    unfold count_error. by destruct tok.
Qed.

Lemma new_from_buffer_failure open_file fuel buffer st :
  parse_string open_file fuel xkb_compose_new buffer = Some (false, st) →
  xkb_compose_new_from_buffer open_file fuel buffer
    XKB_COMPOSE_FORMAT_TEXT_V1 XKB_COMPOSE_COMPILE_NO_FLAGS = Some None.
Proof.
  intros H. unfold xkb_compose_new_from_buffer. simpl. by rewrite H.
Qed.

Section ReadToTheEnd.

Variable open_file : string → option scanner.

Local Abbreviation run := (parse_at open_file).

(** A run over a file without [include] lines ends in one of two ways:
    at [finished], with the whole file read, or at [fail], on the error
    after the tenth. *)
Lemma parse_reads_to_end : ∀ fuel l st d r,
  (TOK_INCLUDE ∉ ps_scanner st) → (TOK_END_OF_FILE ∉ ps_scanner st) →
  (l = L_finished → ps_scanner st = []) →
  match l with
  | L_fail => ps_num_errors st = S MAX_ERRORS
  | _ => ps_num_errors st ≤ MAX_ERRORS
  end →
  l ≠ L_include → (∀ p, l ≠ L_include_eol p) →
  run fuel l st d = Some r →
  (r.1 = true → ps_scanner r.2 = []) ∧
  (r.1 = false → ps_num_errors r.2 = S MAX_ERRORS).
Proof.
  induction fuel as [| fuel IH]; intros l st d r Hinc Heof Hfin Herr Hl1 Hl2 H;
    [done |].
  change (run (S fuel) l st d) with
    (parse_step open_file
       (λ l' st', run fuel l' st' d)
       (λ c s lg d', run fuel L_initial (parse_entry c s lg) d')
       l st d) in H.
  assert (∀ t s, ps_scanner st = t :: s →
            t ≠ TOK_INCLUDE ∧ t ≠ TOK_END_OF_FILE ∧
            (TOK_INCLUDE ∉ s) ∧ (TOK_END_OF_FILE ∉ s)) as Hcons.
  { intros t s Hs. rewrite Hs in Hinc, Heof.
    apply not_elem_of_cons in Hinc as [? ?].
    apply not_elem_of_cons in Heof as [? ?]. done. }
  assert (∀ st', (TOK_INCLUDE ∉ ps_scanner st') →
            (TOK_END_OF_FILE ∉ ps_scanner st') →
            ps_num_errors st' ≤ MAX_ERRORS →
            rhs_end_of_line (λ l' st', run fuel l' st' d) st' = Some r →
            (r.1 = true → ps_scanner r.2 = []) ∧
            (r.1 = false → ps_num_errors r.2 = S MAX_ERRORS)) as Hrhs.
  { intros st' H1 H2 H3 Hr. unfold rhs_end_of_line in Hr.
    destruct (negb (has_string (ps_production st')) &&
              negb (has_keysym (ps_production st'))).
    - by eapply (IH L_skip); [.. | exact Hr].
    - destruct (add_production (ps_compose st') (ps_production st'))
        as [[c w] |]; [| done].
      by eapply (IH L_initial); [.. | exact Hr]. }
  unfold parse_step in H.
  destruct l; simpl in Herr; try done.
  - (* initial *)
    by eapply (IH L_initial_eol); [.. | exact H].
  - (* initial_eol *)
    destruct (ps_scanner st) as [| t s] eqn:Hs; cbn [lex] in H.
    + eapply (IH L_finished); [.. | exact H]; simpl; try done.
      all: apply not_elem_of_nil.
    + destruct (Hcons t s eq_refl) as (Ht1 & Ht2 & Hs1 & Hs2).
      destruct t; try done;
        by (eapply IH; [.. | exact H]).
  - (* include_eol *) by destruct (Hl2 path).
  - (* lhs *)
    destruct (ps_scanner st) as [| t s] eqn:Hs; cbn [lex] in H.
    + eapply (IH L_unexpected); [.. | exact H]; simpl; try done.
      all: apply not_elem_of_nil.
    + destruct (Hcons t s eq_refl) as (Ht1 & Ht2 & Hs1 & Hs2).
      destruct t; try done;
        try by (eapply IH; [.. | exact H]).
      * destruct (MAX_LHS_LEN <? len _ + 1);
          by (eapply IH; [.. | exact H]).
      * destruct (len _ <=? 0);
          by (eapply IH; [.. | exact H]).
  - (* rhs *)
    destruct (ps_scanner st) as [| t s] eqn:Hs; cbn [lex] in H.
    + eapply (IH L_unexpected); [.. | exact H]; simpl; try done.
      all: apply not_elem_of_nil.
    + destruct (Hcons t s eq_refl) as (Ht1 & Ht2 & Hs1 & Hs2).
      destruct t; try done;
        try by (eapply IH; [.. | exact H]).
      * by eapply Hrhs; [.. | exact H].
      * cbn [ps_production with_tok] in H.
        destruct (has_string (ps_production st));
          [| destruct (starts_with_nul s0);
             [| destruct (256 <=? length (strlen_prefix s0))]];
          by (eapply IH; [.. | exact H]).
      * cbn [ps_production with_tok] in H.
        destruct (has_keysym (ps_production st)).
        -- by (eapply IH; [.. | exact H]).
        -- by eapply Hrhs; [.. | exact H].
  - (* unexpected *)
    destruct (ps_tok st);
      match type of H with
      | (if ?b then _ else _) = _ =>
          destruct b eqn:E;
            [apply Nat.leb_le in E | apply Nat.leb_gt in E];
            simpl in E;
            (eapply IH; [.. | exact H]; simpl; try done;
             unfold MAX_ERRORS in *; lia)
      end.
  - (* fail *)
    inversion H; subst. simpl. by split.
  - (* skip *)
    destruct (ps_tok st);
      try by (eapply IH; [.. | exact H]).
    all: destruct (ps_scanner st) as [| t rest] eqn:Hs; cbn [lex] in H;
      [eapply (IH L_skip); [.. | exact H]; simpl; try done;
       apply not_elem_of_nil
      | destruct (Hcons t rest eq_refl) as (Ht1 & Ht2 & Hs1 & Hs2);
        by (eapply IH; [.. | exact H]) ].
  - (* finished *)
    inversion H; subst. simpl. split; [by auto | done].
Qed.

End ReadToTheEnd.

Lemma keysym_literal_open : ∀ fuel buffer,
  Lexer.keysym_literal ByteScanner.t ByteScanner.peek ByteScanner.next
    ByteScanner.eol ByteScanner.buf_append fuel
    (ByteScanner.Scanner [] buffer) = None.
Proof.
  induction fuel as [| fuel IH]; intros buffer; [done |].
  simpl. apply IH.
Qed.

(** On [<A] at the end of the buffer no call of [lex] returns: the loop
    over the name of the keysym stops at [>] and at a newline only. *)
Lemma lex_open_keysym fuel log :
  ByteScanner.run_lex fuel
    (ByteScanner.Scanner ByteScanner.open_keysym []) log = None.
Proof.
  destruct fuel as [| fuel]; [done |].
  unfold ByteScanner.run_lex. cbn [Lexer.lex].
  destruct fuel as [| fuel]; [done |].
  cbn [Lexer.skip_spaces]. simpl.
  unfold Lexer.lex_token. simpl. by rewrite keysym_literal_open.
Qed.

Section UnexpectedTokens.

Variable scanner_t : Type.
Variable peek : scanner_t → byte.
Variable next : scanner_t → byte * scanner_t.
Variable chr : scanner_t → byte → bool * scanner_t.
Variable eof : scanner_t → bool.
Variable eol : scanner_t → bool.
Variable buf_append : scanner_t → byte → bool * scanner_t.
Variable hex : scanner_t → option byte * scanner_t.
Variable oct : scanner_t → option byte * scanner_t.
Variable new_token : scanner_t → scanner_t.
Variable reset_buf : scanner_t → scanner_t.
Variable buf : scanner_t → list byte.
Variable buf_pos : scanner_t → nat.
Variable is_space : byte → bool.
Variable is_alpha : byte → bool.
Variable is_alnum : byte → bool.
Variable xkb_keysym_from_name : list byte → xkb_keysym_t.
Variable is_valid_utf8 : list byte → nat → bool.

Variable open_file : string → option scanner.

Local Abbreviation lexes :=
  (Lexer.lexes scanner_t peek next chr eof eol buf_append hex oct new_token
     reset_buf buf buf_pos is_space is_alpha is_alnum xkb_keysym_from_name
     is_valid_utf8).

(** A file without [include] lines on which every call of [lex] returns
    is parsed to its end. *)
Lemma lexed_file_parses (file : scanner_t) (log : list Lexer.log_entry)
    (c : xkb_compose) (buffer : scanner) (lg : list message) (d : nat) :
  lexes file log buffer → (TOK_INCLUDE ∉ buffer) →
  built c → room c buffer →
  ∃ fuel ok st',
    parse open_file fuel c buffer lg d = Some (ok, st') ∧
    built (ps_compose st') ∧
    (ok = true ↔ ps_num_errors st' ≤ MAX_ERRORS) ∧
    (ok = true → ps_scanner st' = []) ∧
    (ok = false → ps_num_errors st' = S MAX_ERRORS).
Proof.
  intros Hlex Hinc Hb Hroom.
  apply lexes_tokens in Hlex as [Htoks Heof].
  assert (Forall plain_token buffer) as Hplain.
  { apply Forall_forall. intros tok Hin.
    pose proof (proj1 (Forall_forall _ _) Htoks tok Hin) as Htok.
    destruct tok; try done. }
  destruct (parse_total open_file c buffer lg d Hb Hroom Hplain)
    as (fuel & [ok st'] & Hparse & Hbuilt & Hok).
  exists fuel, ok, st'. split; [done |]. split; [done |]. split; [done |].
  eapply (parse_reads_to_end open_file fuel L_initial
            (parse_entry c buffer lg) d (ok, st'));
    simpl; try done.
  unfold MAX_ERRORS. lia.
Qed.


End UnexpectedTokens.

Lemma lexed_file_colon_A_x :
  ByteScanner.lexed
    (ByteScanner.Scanner ByteScanner.file_colon_A_x []) []
    (line_colon ++
     [TOK_LHS_KEYSYM 65%N; TOK_COLON; TOK_RHS_KEYSYM 120%N;
      TOK_END_OF_LINE]).
Proof.
  unfold ByteScanner.lexed, line_colon. simpl.
  repeat (eapply (Lexer.lexes_token _ _ _ _ _ _ _ _ _ _ _ _ _ _ _ _ _ _ 20);
          [vm_compute; reflexivity | done |]).
  eapply (Lexer.lexes_end _ _ _ _ _ _ _ _ _ _ _ _ _ _ _ _ _ _ 20);
    [vm_compute; reflexivity |].
  intros log0. by exists 1.
Qed.



(** * Further properties *)

(** ** Paths through the trie *)

Lemma links_kept_refl t : links_kept t t.
Proof. intros i n Hi. eauto. Qed.

Lemma links_kept_trans t1 t2 t3 :
  links_kept t1 t2 → links_kept t2 t3 → links_kept t1 t3.
Proof.
  intros H12 H23 i n Hi.
  destruct (H12 i n Hi) as (n2 & Hi2 & Hk2 & Hn2 & Hs2).
  destruct (H23 i n2 Hi2) as (n3 & Hi3 & Hk3 & Hn3 & Hs3).
  exists n3. repeat split; [done | congruence | |].
  - intros Hn. rewrite Hn3; [by apply Hn2 |]. rewrite Hn2; done.
  - intros Hs. rewrite Hs3; [by apply Hs2 |]. rewrite Hs2; done.
Qed.

Lemma leaves_kept_refl t : leaves_kept t t.
Proof. intros i n Hi _. eauto. Qed.

Lemma leaves_kept_trans t1 t2 t3 :
  leaves_kept t1 t2 → leaves_kept t2 t3 → leaves_kept t1 t3.
Proof.
  intros H12 H23 i n Hi Hd.
  destruct (H12 i n Hi Hd) as (n2 & Hi2 & Hu2 & Hk2 & Hs2).
  destruct (H23 i n2 Hi2) as (n3 & Hi3 & Hu3 & Hk3 & Hs3).
  { by rewrite Hu2, Hk2. }
  exists n3. repeat split; [done | congruence ..].
Qed.

Lemma chain_to_end t k i j :
  chain_to t k i j → ∃ n, t !! j = Some n ∧ keysym n = k.
Proof. induction 1; eauto. Qed.

Lemma chain_to_kept t t' k i j :
  links_kept t t' → chain_to t k i j → chain_to t' k i j.
Proof.
  intros Hk. induction 1 as [i n Hi Hn | i n j Hi Hn Hnext _ IH].
  - destruct (Hk i n Hi) as (n' & Hi' & Hk' & _).
    eapply chain_here; [done | congruence].
  - destruct (Hk i n Hi) as (n' & Hi' & Hk' & Hn' & _).
    eapply chain_step; [done | congruence | |]; rewrite Hn'; done.
Qed.

Lemma trie_path_kept t t' keys i j :
  links_kept t t' → trie_path t keys i j → trie_path t' keys i j.
Proof.
  intros Hk. induction 1 as [k i j Hc | k keys i j n j' Hc Hj Hs _ IH].
  - apply trie_path_last. by eapply chain_to_kept.
  - destruct (Hk j n Hj) as (n' & Hj' & _ & _ & Hs').
    eapply trie_path_more; [by eapply chain_to_kept | done | |];
      rewrite Hs'; done.
Qed.

(** The node a link is set in, and the node appended. *)
Lemma lookup_set_snoc (t : list node) e x y :
  e < length t →
  (<[e := x]> (t ++ [y])) !! e = Some x ∧
  (<[e := x]> (t ++ [y])) !! length t = Some y.
Proof.
  intros He. split.
  - apply list_lookup_insert_eq. rewrite length_app. simpl. lia.
  - rewrite list_lookup_insert_ne by lia.
    rewrite lookup_app_r by lia.
    by replace (length t - length t) with 0 by lia.
Qed.

Lemma links_kept_set_snoc (t : list node) e ne x y :
  t !! e = Some ne → keysym x = keysym ne →
  (next ne ≠ 0 → next x = next ne) →
  (successor ne ≠ 0 → successor x = successor ne) →
  links_kept t (<[e := x]> (t ++ [y])).
Proof.
  intros He Hk Hn Hs i n Hi.
  pose proof (lookup_lt_Some _ _ _ He) as Hlt.
  destruct (decide (i = e)) as [-> | Hie].
  - exists x. rewrite He in Hi. inversion Hi; subst n.
    split; [by apply lookup_set_snoc | done].
  - exists n. rewrite list_lookup_insert_ne by done.
    rewrite lookup_app_l by (by eapply lookup_lt_Some). done.
Qed.

Lemma leaves_kept_set_snoc (t : list node) e ne x y :
  t !! e = Some ne →
  (utf8 ne ≠ 0 ∨ ks ne ≠ XKB_KEY_NoSymbol →
   utf8 x = utf8 ne ∧ ks x = ks ne ∧ successor x = successor ne) →
  leaves_kept t (<[e := x]> (t ++ [y])).
Proof.
  intros He Hx i n Hi Hd.
  pose proof (lookup_lt_Some _ _ _ He) as Hlt.
  destruct (decide (i = e)) as [-> | Hie].
  - exists x. rewrite He in Hi. inversion Hi; subst n.
    split; [by apply lookup_set_snoc | by apply Hx].
  - exists n. rewrite list_lookup_insert_ne by done.
    rewrite lookup_app_l by (by eapply lookup_lt_Some). done.
Qed.

(** What the search along a sibling chain leaves: the old nodes with
    their links and results, and a walk from [curr] to the node found,
    which is either an old node of an unchanged array or the one node
    appended. *)
Lemma search_siblings_spec fuel k : ∀ t curr t' curr',
  search_siblings fuel k t curr = Some (t', curr') →
  fits_u32 (length t') →
  links_kept t t' ∧ leaves_kept t t' ∧ chain_to t' k curr curr' ∧
  (t' = t ∨
   curr' = length t ∧ length t' = S (length t) ∧
   t' !! curr' = Some (fresh_node k)).
Proof.
  induction fuel as [| fuel IH]; intros t curr t' curr' H Hfit;
    rewrite search_siblings_unfold in H;
    destruct (t !! curr) as [nd |] eqn:Hnd; simpl in H; try done;
    destruct (N.eqb k (keysym nd)) eqn:Heq; try done.
  - inversion H; subst. apply N.eqb_eq in Heq.
    repeat split; auto using links_kept_refl, leaves_kept_refl.
    by eapply chain_here.
  - inversion H; subst. apply N.eqb_eq in Heq.
    repeat split; auto using links_kept_refl, leaves_kept_refl.
    by eapply chain_here.
  - apply N.eqb_neq in Heq.
    destruct (Nat.eqb (next nd) 0) eqn:Hnext.
    + apply Nat.eqb_eq in Hnext.
      pose proof (lookup_lt_Some _ _ _ Hnd) as Hlt.
      assert (fits_u32 (S (length t))) as Hfit1.
      { pose proof H as Hlen. unfold add_node in Hlen.
        rewrite lookup_app_l, Hnd in Hlen by done. simpl in Hlen.
        apply search_siblings_length in Hlen.
        rewrite length_insert, length_app in Hlen. simpl in Hlen.
        unfold fits_u32 in *. lia. }
      unfold add_node in H.
      rewrite (u32_snoc _ _ Hfit1) in H.
      rewrite lookup_app_l, Hnd in H by done. simpl in H.
      destruct (lookup_set_snoc t curr (set_next nd (length t))
                  (fresh_node k) Hlt) as [Hat Hnew].
      rewrite search_siblings_found in H by exact Hnew.
      inversion H; subst t' curr'. clear H.
      split; [| split; [| split]].
      * eapply links_kept_set_snoc; eauto. simpl. intros. lia.
      * eapply leaves_kept_set_snoc; eauto.
      * eapply chain_step; [exact Hat | simpl; congruence | simpl; lia |].
        simpl. by eapply chain_here.
      * right. split; [done |]. split; [| done].
        rewrite length_insert, length_app. simpl. lia.
    + apply Nat.eqb_neq in Hnext. simpl in H.
      destruct (IH _ _ _ _ H Hfit) as (Hk & Hl & Hc & Hsh).
      split; [done |]. split; [done |]. split; [| done].
      destruct (Hk curr nd Hnd) as (n' & Hn' & Hkey & Hnx & _).
      eapply chain_step; [done | congruence | |]; rewrite Hnx; done.
Qed.

(** What [descend] leaves: the old nodes with their links, the node at
    [curr] with the successor returned, and the old results unless the
    override is reported. *)
Lemma descend_spec t curr k' t' curr' w :
  descend t curr k' = Some (t', curr', w) →
  fits_u32 (length t') →
  links_kept t t' ∧
  (∃ n', t' !! curr = Some n' ∧ successor n' = curr' ∧ curr' ≠ 0) ∧
  (w = [] ∨ w = [warn_prefix_override]) ∧
  (w = [] → leaves_kept t t') ∧
  (t' = t ∧ w = [] ∨
   curr' = length t ∧ length t' = S (length t) ∧
   t' !! curr' = Some (fresh_node k')).
Proof.
  intros H Hfit.
  pose proof (descend_length _ _ _ _ _ _ H) as Hlen.
  unfold descend in H.
  destruct (t !! curr) as [nd |] eqn:Hnd; simpl in H; [| done].
  pose proof (lookup_lt_Some _ _ _ Hnd) as Hlt.
  destruct (Nat.eqb (successor nd) 0) eqn:Hsucc.
  - apply Nat.eqb_eq in Hsucc.
    set (ndc := if negb (Nat.eqb (utf8 nd) 0) || negb (N.eqb (ks nd) 0)
                then set_ks (set_utf8 nd 0) XKB_KEY_NoSymbol else nd).
    set (w0 := if negb (Nat.eqb (utf8 nd) 0) || negb (N.eqb (ks nd) 0)
               then [warn_prefix_override] else []).
    assert (keysym ndc = keysym nd ∧ next ndc = next nd ∧
            successor ndc = successor nd ∧
            (w0 = [] → utf8 ndc = utf8 nd ∧ ks ndc = ks nd) ∧
            (w0 = [] ∨ w0 = [warn_prefix_override]))
      as (Hc1 & Hc2 & Hc3 & Hc4 & Hc5).
    { unfold ndc, w0.
      destruct (negb (Nat.eqb (utf8 nd) 0) || negb (N.eqb (ks nd) 0));
        simpl; repeat split; auto; done. }
    assert (Some (<[curr := set_successor ndc (length t)]>
                    (<[curr := ndc]> t ++ [fresh_node k']),
                  length t, w0) = Some (t', curr', w)) as Heq.
    { assert (fits_u32 (S (length (<[curr := ndc]> t)))) as Hfit1.
      { rewrite length_insert.
        assert (S (length t) ≤ length t') as Hle.
        { clear -H Hlt.
          destruct (negb (Nat.eqb (utf8 nd) 0) || negb (N.eqb (ks nd) 0));
            simpl in H;
            match type of H with
            | context [ (?l ++ [?x]) !! curr ] =>
                destruct ((l ++ [x]) !! curr); simpl in H; [| done]
            end;
            inversion H; subst;
            rewrite length_insert, length_app, length_insert; simpl; lia. }
        unfold fits_u32 in *. lia. }
      unfold ndc, w0 in *.
      destruct (negb (Nat.eqb (utf8 nd) 0) || negb (N.eqb (ks nd) 0));
        simpl in H; rewrite (u32_snoc _ _ Hfit1) in H;
        rewrite lookup_app_l in H by (by rewrite length_insert);
        rewrite list_lookup_insert_eq in H by done; simpl in H;
        rewrite length_insert in H; exact H. }
    inversion Heq; subst t' curr' w. clear Heq H.
    assert (length (<[curr := ndc]> t) = length t) as Hl1
      by apply length_insert.
    assert (curr < length (<[curr := ndc]> t)) as Hlt1 by lia.
    destruct (lookup_set_snoc (<[curr := ndc]> t) curr
                (set_successor ndc (length t)) (fresh_node k') Hlt1)
      as [Hat Hnew].
    rewrite Hl1 in Hnew.
    assert (∀ i n, t !! i = Some n →
              ∃ n', (<[curr := set_successor ndc (length t)]>
                       (<[curr := ndc]> t ++ [fresh_node k'])) !! i
                    = Some n' ∧
                    (i = curr ∧ n = nd ∧
                     n' = set_successor ndc (length t) ∨
                     i ≠ curr ∧ n' = n)) as Hall.
    { intros i n Hi. destruct (decide (i = curr)) as [-> | Hne].
      - exists (set_successor ndc (length t)). split; [done |].
        left. rewrite Hnd in Hi. by inversion Hi.
      - exists n. split; [| by right].
        rewrite list_lookup_insert_ne by done.
        rewrite lookup_app_l
          by (rewrite length_insert; by eapply lookup_lt_Some).
        by rewrite list_lookup_insert_ne. }
    split; [| split; [| split; [| split]]].
    + intros i n Hi.
      destruct (Hall i n Hi) as (n' & Hn' & [(E1 & E2 & E3) | [_ E2]]);
        exists n'; subst; [| done].
      split; [exact Hat |]. simpl.
      repeat split; [done | done | intros; lia].
    + eexists. split; [exact Hat |]. simpl. split; [done | lia].
    + done.
    + intros Hw i n Hi Hd.
      destruct (Hall i n Hi) as (n' & Hn' & [(-> & -> & ->) | [_ ->]]).
      * destruct (Hc4 Hw) as [Hu Hk]. unfold w0 in Hw.
        destruct Hd as [Hd | Hd].
        -- apply Nat.eqb_neq in Hd. rewrite Hd in Hw. done.
        -- apply N.eqb_neq in Hd. unfold XKB_KEY_NoSymbol in Hd.
           rewrite Hd in Hw. rewrite orb_true_r in Hw. done.
      * eauto.
    + right. split; [done |]. split; [| exact Hnew].
      rewrite length_insert, length_app, Hl1. simpl. lia.
  - apply Nat.eqb_neq in Hsucc. inversion H; subst t' curr' w.
    split; [apply links_kept_refl |]. split; [eauto |].
    split; [by left |]. split; [intros _; apply leaves_kept_refl |].
    by left.
Qed.

(** What the loop over the left-hand side leaves: the old nodes with
    their links, a path along the left-hand side to the node returned,
    no message but the override, and the old results when there is no
    message. *)
Lemma add_production_loop_spec ksyms : ∀ t curr t' curr' w,
  ksyms ≠ [] →
  add_production_loop ksyms t curr = Some (t', curr', w) →
  fits_u32 (length t') →
  links_kept t t' ∧ trie_path t' ksyms curr curr' ∧
  Forall (λ m, m = warn_prefix_override) w ∧
  (w = [] → leaves_kept t t').
Proof.
  induction ksyms as [| k rest IH]; intros t curr t' curr' w Hne H Hfit;
    [done |].
  rewrite add_production_loop_cons in H.
  destruct (search_siblings (S (length t)) k t curr)
    as [[t1 curr1] |] eqn:Hsearch; [| done].
  cbn [mbind option_bind] in H.
  destruct rest as [| k' rest'].
  - inversion H; subst t1 curr1 w. clear H.
    destruct (search_siblings_spec _ _ _ _ _ _ Hsearch Hfit)
      as (Hk & Hl & Hc & _).
    split; [done |]. split; [by apply trie_path_last |]. by split.
  - destruct (descend t1 curr1 k') as [[[t2 curr2] w2] |] eqn:Hd; [| done].
    cbn [mbind option_bind] in H.
    destruct (add_production_loop (k' :: rest') t2 curr2)
      as [[[t3 curr3] w3] |] eqn:Hrec; [| done].
    cbn [mbind option_bind] in H. inversion H; subst t3 curr3 w. clear H.
    pose proof (add_production_loop_length _ _ _ _ _ _ Hrec) as Hlen3.
    pose proof (descend_length _ _ _ _ _ _ Hd) as Hlen2.
    assert (fits_u32 (length t2)) as Hfit2
      by (unfold fits_u32 in *; lia).
    assert (fits_u32 (length t1)) as Hfit1
      by (unfold fits_u32 in *; lia).
    destruct (search_siblings_spec _ _ _ _ _ _ Hsearch Hfit1)
      as (Hk1 & Hl1 & Hc1 & _).
    destruct (descend_spec _ _ _ _ _ _ Hd Hfit2)
      as (Hk2 & (n2 & Hn2 & Hs2 & Hnz2) & Hw2 & Hl2 & _).
    destruct (IH t2 curr2 t' curr' w3 ltac:(done) Hrec Hfit)
      as (Hk3 & Hp3 & Hw3 & Hl3).
    split; [| split; [| split]].
    + eauto using links_kept_trans.
    + destruct (Hk3 curr1 n2 Hn2) as (n3 & Hn3 & _ & _ & Hs3).
      eapply trie_path_more.
      * eapply chain_to_kept; [| exact Hc1].
        eauto using links_kept_trans.
      * exact Hn3.
      * rewrite Hs3; lia.
      * rewrite Hs3 by lia. by rewrite Hs2.
    + apply Forall_app. split; [| done].
      destruct Hw2 as [-> | ->]; by repeat constructor.
    + intros Hw. apply app_eq_nil in Hw as [-> ->].
      eauto using leaves_kept_trans.
Qed.

Lemma chain_to_le bound t k i j :
  tree_inv bound t → chain_to t k i j → i ≤ j.
Proof.
  intros Hinv. induction 1 as [| i n j Hi _ Hn _ IH]; [done |].
  pose proof (inv_next _ _ Hinv i n Hi Hn). lia.
Qed.

(** Either the loop changes nothing, or it ends on a node it has appended,
    which is blank. *)
Lemma add_production_loop_fresh bound ksyms : ∀ t curr t' curr' w,
  tree_inv bound t → 0 < bound →
  Forall (λ k, k ≠ XKB_KEY_NoSymbol) ksyms → ksyms ≠ [] →
  chain_head t curr →
  add_production_loop ksyms t curr = Some (t', curr', w) →
  fits_u32 (length t') →
  curr ≤ curr' ∧
  (t' = t ∧ w = [] ∨
   length t ≤ curr' ∧ ∃ n, t' !! curr' = Some n ∧ blank n).
Proof.
  induction ksyms as [| k rest IH];
    intros t curr t' curr' w Hinv Hb Hks Hne Hhead H Hfit; [done |].
  pose proof H as Hloop.
  rewrite add_production_loop_cons in H.
  apply Forall_cons in Hks as [Hk Hks].
  destruct (search_siblings (S (length t)) k t curr)
    as [[t1 curr1] |] eqn:Hsearch; [| done].
  cbn [mbind option_bind] in H.
  assert (fits_u32 (length t1)) as Hfit1.
  { destruct rest as [| k' rest'].
    - inversion H; by subst.
    - destruct (descend t1 curr1 k') as [[[t2 curr2] w2] |] eqn:Hd;
        [| done].
      apply descend_length in Hd. cbn [mbind option_bind] in H.
      destruct (add_production_loop (k' :: rest') t2 curr2)
        as [[[t3 curr3] w3] |] eqn:Hrec; [| done].
      apply add_production_loop_length in Hrec.
      cbn [mbind option_bind] in H. inversion H; subst.
      unfold fits_u32 in *. lia. }
  destruct (search_siblings_spec _ _ _ _ _ _ Hsearch Hfit1)
    as (_ & _ & Hc1 & Hsh1).
  pose proof (search_siblings_length _ _ _ _ _ _ Hsearch) as Hlen1.
  eapply search_siblings_inv in Hsearch as [Hinv1 (n1 & Hn1 & Hkey)];
    eauto; cycle 1.
  { intros i ni Hs _. by apply chain_head_no_sibling in Hs. }
  pose proof (chain_to_le _ _ _ _ _ Hinv1 Hc1) as Hle1.
  assert (curr1 ≠ 0) as Hcurr1.
  { intros ->. destruct (inv_root _ _ Hinv1) as (r & Hr & Hk0 & _).
    congruence. }
  destruct rest as [| k' rest'].
  - inversion H; subst t1 curr1 w. clear H. split; [done |].
    destruct Hsh1 as [-> | (-> & _ & Hnew)]; [by left |].
    right. split; [done |]. eexists. split; [exact Hnew |]. done.
  - destruct (descend t1 curr1 k') as [[[t2 curr2] w2] |] eqn:Hd; [| done].
    cbn [mbind option_bind] in H.
    destruct (add_production_loop (k' :: rest') t2 curr2)
      as [[[t3 curr3] w3] |] eqn:Hrec; [| done].
    cbn [mbind option_bind] in H. inversion H; subst t3 curr3 w. clear H.
    pose proof (add_production_loop_length _ _ _ _ _ _ Hrec) as Hlen3.
    pose proof (descend_length _ _ _ _ _ _ Hd) as Hlen2.
    apply Forall_cons in Hks as Hks'. destruct Hks' as [Hk' _].
    assert (fits_u32 (length t2)) as Hfit2
      by (unfold fits_u32 in *; lia).
    destruct (descend_spec _ _ _ _ _ _ Hd Hfit2)
      as (_ & (n2 & Hn2 & Hs2 & Hnz2) & _ & _ & Hsh2).
    eapply descend_inv in Hd as [Hinv2 Hhead2]; [| done ..].
    pose proof (inv_succ _ _ Hinv2 curr1 n2 Hn2 ltac:(lia)) as Hlt2.
    destruct (add_production_loop_inv _ _ _ _ _ _ _ Hinv2 Hb Hks
                ltac:(done) Hhead2 Hrec Hfit) as (_ & _ & Hin3).
    apply lookup_lt_is_Some in Hin3.
    destruct (IH t2 curr2 t' curr' w3 Hinv2 Hb Hks ltac:(done) Hhead2
                Hrec Hfit) as (Hle3 & Hsh3).
    split; [lia |].
    destruct Hsh3 as [[-> ->] | (Hge & n3 & Hn3 & Hbl)].
    + destruct Hsh2 as [[-> ->] | (E2 & El2 & Hnew2)].
      * destruct Hsh1 as [-> | (E1 & _ & Hnew1)]; [by left |].
        subst curr1. rewrite Hnew1 in Hn2. inversion Hn2; subst n2.
        simpl in Hs2. lia.
      * right. assert (curr' = curr2) as -> by lia.
        split; [lia |]. eexists. split; [exact Hnew2 |]. done.
    + right. split; [lia |]. eauto.
Qed.

(** ** The state machine along a path *)

Lemma feed_loop_chain bound t k i j :
  tree_inv bound t → chain_to t k i j →
  ∀ fuel, length t ≤ fuel + i + 1 → feed_loop fuel t k i = Some j.
Proof.
  intros Hinv. induction 1 as [i n Hi Hk | i n j Hi Hk Hn _ IH];
    intros fuel Hfuel; rewrite feed_loop_unfold, Hi; simpl.
  - apply N.eqb_eq in Hk. by rewrite Hk.
  - apply N.eqb_neq in Hk. rewrite Hk.
    pose proof (inv_next _ _ Hinv i n Hi Hn) as Hlt.
    apply Nat.eqb_neq in Hn. rewrite Hn. simpl.
    destruct fuel as [| fuel]; [lia |]. apply IH. lia.
Qed.

Lemma feed_loop_found t k : ∀ fuel i j n,
  feed_loop fuel t k i = Some j → t !! j = Some n → keysym n = k →
  chain_to t k i j.
Proof.
  induction fuel as [| fuel IH]; intros i j n H Hj Hk;
    rewrite feed_loop_unfold in H;
    destruct (t !! i) as [ni |] eqn:Hi; simpl in H; try done;
    destruct (N.eqb (keysym ni) k) eqn:Hki; simpl in H.
  - inversion H; subst. apply N.eqb_eq in Hki. by eapply chain_here.
  - destruct (Nat.eqb (next ni) 0) eqn:Hni; simpl in H; [| done].
    inversion H; subst. by eapply chain_here.
  - inversion H; subst. apply N.eqb_eq in Hki. by eapply chain_here.
  - destruct (Nat.eqb (next ni) 0) eqn:Hni; simpl in H.
    + inversion H; subst. by eapply chain_here.
    + apply N.eqb_neq in Hki. apply Nat.eqb_neq in Hni.
      eapply chain_step; eauto.
Qed.

Section Paths.

Variable is_modifier : xkb_keysym_t → bool.

Local Abbreviation feed := (xkb_compose_state_feed is_modifier).

(** A keysym found among the children of the current node becomes the
    context. *)
Lemma feed_chain bound c prev ctx n k j :
  tree_inv bound (compose_tree c) →
  compose_tree c !! ctx = Some n →
  chain_to (compose_tree c) k (successor n) j →
  is_modifier k = false →
  feed (State c prev ctx) k = Some (State c ctx j).
Proof.
  intros Hinv Hn Hc Hmod. unfold xkb_compose_state_feed.
  rewrite Hmod. simpl. rewrite Hn. simpl.
  replace (if negb (Nat.eqb (successor n) 0) then successor n else 0)
    with (successor n).
  2: { destruct (Nat.eqb (successor n) 0) eqn:E; simpl; [| done].
       by apply Nat.eqb_eq in E. }
  rewrite (feed_loop_chain _ _ _ _ _ Hinv Hc) by lia. simpl.
  destruct (chain_to_end _ _ _ _ Hc) as (nj & Hj & Hk).
  rewrite Hj. simpl. apply N.eqb_eq in Hk. by rewrite Hk.
Qed.

Lemma get_status_context c prev ctx np n :
  compose_tree c !! prev = Some np → compose_tree c !! ctx = Some n →
  ctx ≠ 0 →
  xkb_compose_state_get_status (State c prev ctx) =
  Some (if Nat.eqb (successor n) 0 then XKB_COMPOSE_COMPOSED
        else XKB_COMPOSE_COMPOSING).
Proof.
  intros Hp Hn Hctx. unfold xkb_compose_state_get_status. simpl.
  rewrite Hp, Hn. simpl. apply Nat.eqb_neq in Hctx. rewrite Hctx. simpl.
  by destruct (Nat.eqb (successor n) 0).
Qed.

Lemma chain_to_nonzero bound t k i j :
  tree_inv bound t → k ≠ XKB_KEY_NoSymbol → chain_to t k i j → j ≠ 0.
Proof.
  intros Hinv Hk Hc ->. destruct (chain_to_end _ _ _ _ Hc) as (n & Hn & Hkn).
  destruct (inv_root _ _ Hinv) as (r & Hr & Hkr & _). congruence.
Qed.

(** Fed along a path that ends on a node without successor, the state
    machine composes and ends on that node. *)
Lemma composes_along_path bound c keys start j :
  tree_inv bound (compose_tree c) →
  trie_path (compose_tree c) keys start j →
  Forall (λ k, is_modifier k = false) keys →
  Forall (λ k, k ≠ XKB_KEY_NoSymbol) keys →
  ∀ prev ctx n nj,
    compose_tree c !! ctx = Some n → successor n = start →
    compose_tree c !! j = Some nj → successor nj = 0 →
    ∃ prev', composes is_modifier (State c prev ctx) keys (State c prev' j).
Proof.
  intros Hinv. induction 1 as [k i j Hc | k keys i j nj1 j' Hc Hj1 Hs1 _ IH];
    intros Hmod Hks prev ctx n nj Hn Hstart Hj Hsj;
    apply Forall_cons in Hmod as [Hm Hmod];
    apply Forall_cons in Hks as [Hk Hks]; subst i.
  - exists ctx. apply composes_last.
    + by eapply feed_chain.
    + rewrite (get_status_context _ _ _ n nj) by
        eauto using chain_to_nonzero.
      by rewrite Hsj.
  - destruct (IH Hmod Hks ctx j nj1 nj Hj1 eq_refl Hj Hsj) as [prev' Hrun].
    exists prev'. eapply composes_more; [| | exact Hrun].
    + by eapply feed_chain.
    + rewrite (get_status_context _ _ _ n nj1) by
        eauto using chain_to_nonzero.
      apply Nat.eqb_neq in Hs1. by rewrite Hs1.
Qed.

End Paths.

(** ** A production and the sequence it stores *)

Lemma links_kept_insert (t : list node) e ne x :
  t !! e = Some ne → keysym x = keysym ne → next x = next ne →
  successor x = successor ne → links_kept t (<[e := x]> t).
Proof.
  intros He Hk Hn Hs i n Hi.
  pose proof (lookup_lt_Some _ _ _ He) as Hlt.
  destruct (decide (i = e)) as [-> | Hie].
  - exists x. rewrite He in Hi. inversion Hi; subst n.
    rewrite list_lookup_insert_eq by done. by rewrite Hk, Hn, Hs.
  - exists n. by rewrite list_lookup_insert_ne.
Qed.

Lemma c_string_strlen_prefix s rest :
  c_string (strlen_prefix s ++ x00 :: rest) = Some (strlen_prefix s).
Proof.
  induction s as [| b s IH]; simpl; [done |].
  destruct (Byte.eqb b x00) eqn:E; simpl; [done |].
  by rewrite E, IH.
Qed.

(** The node on which a production that is not skipped is stored. *)
Lemma add_production_stored c p c' w :
  compose_inv c → valid_lhs p → add_production c p = Some (c', w) →
  fits c' → warn_is_prefix ∉ w → warn_already_exists ∉ w →
  ∃ curr nd,
    trie_path (compose_tree c') (lhs p) 0 curr ∧
    compose_tree c' !! curr = Some nd ∧ successor nd = 0 ∧
    ks nd = (if has_keysym p then prod_keysym p else XKB_KEY_NoSymbol) ∧
    utf8 nd = (if has_string p then length (compose_utf8 c) else 0) ∧
    compose_utf8 c' =
      (if has_string p
       then compose_utf8 c ++ strlen_prefix (prod_string p) ++ [x00]
       else compose_utf8 c).
Proof.
  intros [Hinv Hhead Hlast] [Hne Hks] H [Hfit_t Hfit_b] Hw1 Hw2.
  unfold add_production in H.
  destruct (add_production_loop (lhs p) (compose_tree c) 0)
    as [[[t curr] w0] |] eqn:Hloop; [| done].
  cbn [mbind option_bind] in H.
  destruct (t !! curr) as [nd |] eqn:Hnd; [| done].
  cbn [mbind option_bind] in H.
  destruct (Nat.eqb (successor nd) 0) eqn:Hsucc; simpl in H; cycle 1.
  { inversion H; subst. exfalso. apply Hw1. apply elem_of_app. right. by left. }
  apply Nat.eqb_eq in Hsucc.
  destruct (Nat.eqb (utf8 nd) 0) eqn:Hu; simpl in H; cycle 1.
  { inversion H; subst. exfalso. apply Hw2. apply elem_of_app. right. by left. }
  destruct (N.eqb (ks nd) 0) eqn:Hk; simpl in H; cycle 1.
  { inversion H; subst. exfalso. apply Hw2. apply elem_of_app. right. by left. }
  apply Nat.eqb_eq in Hu. apply N.eqb_eq in Hk.
  pose proof (lookup_lt_Some _ _ _ Hnd) as Hlt.
  assert (length t = length (compose_tree c')) as Hlen.
  { destruct (has_string p); inversion H; simpl;
      by rewrite length_insert. }
  destruct (add_production_loop_spec _ _ _ _ _ _ Hne Hloop
              ltac:(by rewrite Hlen)) as (_ & Hpath & _ & _).
  set (nd1 := if has_string p
              then set_utf8 nd (u32 (length (compose_utf8 c))) else nd).
  set (nd2 := if has_keysym p then set_ks nd1 (prod_keysym p) else nd1).
  assert (compose_tree c' = <[curr := nd2]> t ∧
          compose_utf8 c' =
            (if has_string p
             then compose_utf8 c ++ strlen_prefix (prod_string p) ++ [x00]
             else compose_utf8 c)) as [Ht Hb].
  { unfold nd2, nd1. destruct (has_string p); by inversion H. }
  assert (keysym nd2 = keysym nd ∧ next nd2 = next nd ∧
          successor nd2 = successor nd) as (E1 & E2 & E3).
  { unfold nd2, nd1. by destruct (has_keysym p), (has_string p). }
  exists curr, nd2. rewrite Ht.
  split; [| split; [| split; [| split; [| split]]]].
  - eapply trie_path_kept; [| exact Hpath].
    by eapply links_kept_insert.
  - by apply list_lookup_insert_eq.
  - congruence.
  - unfold nd2, nd1. by destruct (has_keysym p), (has_string p).
  - assert (has_string p = true →
            u32 (length (compose_utf8 c)) = length (compose_utf8 c)) as Hu32.
    { intros E. apply u32_small. rewrite Hb, E in Hfit_b.
      unfold fits_u32 in Hfit_b. rewrite !length_app in Hfit_b.
      simpl in Hfit_b. lia. }
    unfold nd2, nd1.
    destruct (has_keysym p), (has_string p); simpl; auto.
  - done.
Qed.

(** X1.  Round trip through the table: when [add_production] stores a
    production (it reports neither that the sequence is a prefix of
    another nor that it already exists), feeding the keysyms of its
    left-hand side, none of them a modifier, to a fresh state over the
    new table gives COMPOSING after each keysym but the last and COMPOSED
    after the last.  [get_one_sym] then returns the keysym of the
    production ([NoSymbol] when it has none), and [get_utf8] returns its
    string, or, when it has a keysym and no string, what the keysym
    module converts the keysym to. *)
Theorem add_production_then_feed
    (is_modifier : xkb_keysym_t → bool)
    (to_utf8 : xkb_keysym_t → nat → list byte * Z)
    (c : xkb_compose) (p : production) (c' : xkb_compose)
    (w : list message) (size : nat) :
  built c → valid_lhs p → add_production c p = Some (c', w) → fits c' →
  Forall (λ k, is_modifier k = false) (lhs p) →
  warn_is_prefix ∉ w → warn_already_exists ∉ w →
  ∃ state',
    composes is_modifier (xkb_compose_state_new c') (lhs p) state' ∧
    xkb_compose_state_get_one_sym state' =
      Some (if has_keysym p then prod_keysym p else XKB_KEY_NoSymbol) ∧
    (has_string p = true →
     xkb_compose_state_get_utf8 to_utf8 state' size =
       Some (snprintf_s size (strlen_prefix (prod_string p)))) ∧
    (has_string p = false → has_keysym p = true →
     prod_keysym p ≠ XKB_KEY_NoSymbol →
     xkb_compose_state_get_utf8 to_utf8 state' size =
       Some (to_utf8 (prod_keysym p) size)).
Proof.
  intros Hb Hp Hadd Hfit Hmod Hw1 Hw2.
  pose proof (built_inv _ Hb) as Hinv.
  assert (built c') as Hb' by (by eapply built_add).
  destruct (built_inv _ Hb') as [Hinv' _ _].
  destruct (add_production_stored _ _ _ _ Hinv Hp Hadd Hfit Hw1 Hw2)
    as (curr & nd & Hpath & Hnd & Hsucc & Hks & Hutf8 & Hblob).
  destruct (inv_root _ _ Hinv') as (r & Hr & _ & Hrs & _).
  destruct Hp as [_ Hkeys].
  destruct (composes_along_path is_modifier _ c' (lhs p) 0 curr Hinv' Hpath
              Hmod Hkeys 0 0 r nd Hr Hrs Hnd Hsucc) as [prev' Hrun].
  exists (State c' prev' curr). split; [exact Hrun |].
  unfold xkb_compose_state_get_one_sym, xkb_compose_state_get_utf8.
  simpl. rewrite Hnd. simpl. rewrite Hks, Hutf8, Hblob.
  split; [done |]. split.
  - intros E. rewrite E.
    pose proof (lookup_lt_Some _ _ _ (inv_blob_head _ Hinv)) as Hpos.
    assert (Nat.eqb (length (compose_utf8 c)) 0 = false) as ->
      by (apply Nat.eqb_neq; lia).
    simpl. rewrite drop_app_length.
    change (strlen_prefix (prod_string p) ++ [x00])
      with (strlen_prefix (prod_string p) ++ x00 :: []).
    by rewrite c_string_strlen_prefix.
  - intros E1 E2 Hk. rewrite E1, E2. simpl.
    apply N.eqb_neq in Hk. unfold XKB_KEY_NoSymbol in Hk. by rewrite Hk.
Qed.

Lemma add_production_then_feed_witness :
  ∃ state',
    composes only_shift (xkb_compose_state_new table_AB_f)
      [65%N; 66%N] state' ∧
    xkb_compose_state_get_one_sym state' = Some 120%N ∧
    (true = true →
     xkb_compose_state_get_utf8 latin1_to_utf8 state' 64 =
       Some ([x66; x00], 1%Z)).
Proof.
  destruct (add_production_then_feed only_shift latin1_to_utf8
              xkb_compose_new production_AB_f table_AB_f [] 64)
    as (state' & H1 & H2 & H3 & _).
  - exact built_new.
  - split; [done | by repeat constructor].
  - reflexivity.
  - split; vm_compute; by intros.
  - by repeat constructor.
  - apply not_elem_of_nil.
  - apply not_elem_of_nil.
  - exists state'. split; [exact H1 |]. split; [exact H2 | exact H3].
Defined.

(** ** Skipped productions *)

Lemma not_override_nil w :
  Forall (λ m, m = warn_prefix_override) w → warn_prefix_override ∉ w →
  w = [].
Proof.
  intros Hall Hnot. destruct w as [| m w]; [done |].
  apply Forall_cons in Hall as [-> _]. exfalso. apply Hnot. by left.
Qed.

(** X3.  A production that [add_production] skips leaves the table as it
    was: when the call reports that the sequence is a prefix of another,
    or that it already exists, the table returned is the table given, and
    that warning is the only message. *)
Theorem add_production_skip_unchanged (c : xkb_compose) (p : production)
    (c' : xkb_compose) (w : list message) :
  built c → valid_lhs p → add_production c p = Some (c', w) → fits c' →
  warn_is_prefix ∈ w ∨ warn_already_exists ∈ w →
  c' = c ∧ (w = [warn_is_prefix] ∨ w = [warn_already_exists]).
Proof.
  intros Hb [Hne Hks] H [Hfit_t Hfit_b] Hw.
  destruct (built_inv _ Hb) as [Hinv Hhead Hlast].
  assert (0 < length (compose_utf8 c)) as Hpos
    by (by eapply lookup_lt_Some).
  unfold add_production in H.
  destruct (add_production_loop (lhs p) (compose_tree c) 0)
    as [[[t curr] w0] |] eqn:Hloop; [| done].
  cbn [mbind option_bind] in H.
  destruct (t !! curr) as [nd |] eqn:Hnd; [| done].
  cbn [mbind option_bind] in H.
  assert (length t = length (compose_tree c')) as Hlen.
  { destruct (negb (Nat.eqb (successor nd) 0)); [by inversion H |].
    destruct (negb (Nat.eqb (utf8 nd) 0) || negb (N.eqb (ks nd) 0));
      [by inversion H |].
    destruct (has_string p); inversion H; simpl;
      by rewrite length_insert. }
  destruct (add_production_loop_spec _ _ _ _ _ _ Hne Hloop
              ltac:(by rewrite Hlen)) as (_ & _ & Hw0 & _).
  destruct (add_production_loop_fresh _ _ _ _ _ _ _ Hinv Hpos Hks Hne
              (chain_head_root _) Hloop ltac:(by rewrite Hlen))
    as (_ & Hsh).
  assert (c = {| compose_utf8 := compose_utf8 c;
                 compose_tree := compose_tree c |}) as Hc by (by destruct c).
  destruct (Nat.eqb (successor nd) 0) eqn:Hsucc; simpl in H.
  - destruct (negb (Nat.eqb (utf8 nd) 0) || negb (N.eqb (ks nd) 0))
      eqn:Hdata.
    + inversion H; subst c' w. clear H.
      destruct Hsh as [[-> ->] | (_ & n & Hn & _ & Hu & Hk)].
      * split; [by rewrite Hc at 2 | by right].
      * rewrite Hnd in Hn. inversion Hn; subst n.
        rewrite Hu, Hk in Hdata. done.
    + exfalso. assert (w = w0) as ->.
      { destruct (has_string p); by inversion H. }
      destruct Hw as [Hw | Hw];
        eapply Forall_forall in Hw0; [| exact Hw | | exact Hw]; done.
  - inversion H; subst c' w. clear H.
    destruct Hsh as [[-> ->] | (_ & n & Hn & Hs & _)].
    + split; [by rewrite Hc at 2 | by left].
    + rewrite Hnd in Hn. inversion Hn; subst n.
      rewrite Hs in Hsucc. done.
Qed.

Lemma add_production_skip_unchanged_witness :
  add_production table_A_x production_A_x =
    Some (table_A_x, [warn_already_exists]) ∧
  table_A_x = table_A_x ∧
  ([warn_already_exists] = [warn_is_prefix] ∨
   [warn_already_exists] = [warn_already_exists]).
Proof.
  split; [reflexivity |].
  apply (add_production_skip_unchanged table_A_x production_A_x
           table_A_x [warn_already_exists]).
  - exact built_table_A_x.
  - split; [done | by repeat constructor].
  - reflexivity.
  - split; vm_compute; by intros.
  - right. by left.
Defined.

(** ** Sequences stored before a production is added *)

Lemma leaves_kept_insert (t : list node) e ne x :
  t !! e = Some ne → utf8 ne = 0 → ks ne = XKB_KEY_NoSymbol →
  leaves_kept t (<[e := x]> t).
Proof.
  intros He Hu Hk i n Hi Hd.
  destruct (decide (i = e)) as [-> | Hie].
  - rewrite He in Hi. inversion Hi; subst n. destruct Hd; done.
  - exists n. by rewrite list_lookup_insert_ne.
Qed.

(** What [add_production] keeps of the table: the nodes with their links,
    the blob as a prefix of the new one, and, unless it reports an
    override, the results stored. *)
Lemma add_production_kept c p c' w :
  valid_lhs p → add_production c p = Some (c', w) → fits c' →
  links_kept (compose_tree c) (compose_tree c') ∧
  (warn_prefix_override ∉ w →
   leaves_kept (compose_tree c) (compose_tree c')) ∧
  ∃ extra, compose_utf8 c' = compose_utf8 c ++ extra.
Proof.
  intros [Hne Hks] H [Hfit_t Hfit_b].
  unfold add_production in H.
  destruct (add_production_loop (lhs p) (compose_tree c) 0)
    as [[[t curr] w0] |] eqn:Hloop; [| done].
  cbn [mbind option_bind] in H.
  destruct (t !! curr) as [nd |] eqn:Hnd; [| done].
  cbn [mbind option_bind] in H.
  assert (length t = length (compose_tree c')) as Hlen.
  { destruct (negb (Nat.eqb (successor nd) 0)); [by inversion H |].
    destruct (negb (Nat.eqb (utf8 nd) 0) || negb (N.eqb (ks nd) 0));
      [by inversion H |].
    destruct (has_string p); inversion H; simpl;
      by rewrite length_insert. }
  destruct (add_production_loop_spec _ _ _ _ _ _ Hne Hloop
              ltac:(by rewrite Hlen)) as (Hk & _ & Hw0 & Hl).
  assert (∀ w1, warn_prefix_override ∉ w0 ++ w1 →
                leaves_kept (compose_tree c) t) as Hl'.
  { intros w1 Hnot. apply Hl. apply not_override_nil; [done |].
    intros Hin. apply Hnot. apply elem_of_app. by left. }
  destruct (Nat.eqb (successor nd) 0) eqn:Hsucc; simpl in H; cycle 1.
  { inversion H; subst c' w. simpl.
    split; [done |]. split; [apply Hl' |]. exists []. by rewrite app_nil_r. }
  destruct (negb (Nat.eqb (utf8 nd) 0) || negb (N.eqb (ks nd) 0))
    eqn:Hdata.
  { inversion H; subst c' w. simpl.
    split; [done |]. split; [apply Hl' |]. exists []. by rewrite app_nil_r. }
  apply orb_false_iff in Hdata as [Hu Hk0].
  apply negb_false_iff, Nat.eqb_eq in Hu.
  apply negb_false_iff, N.eqb_eq in Hk0.
  set (nd1 := if has_string p
              then set_utf8 nd (u32 (length (compose_utf8 c))) else nd).
  set (nd2 := if has_keysym p then set_ks nd1 (prod_keysym p) else nd1).
  assert (compose_tree c' = <[curr := nd2]> t ∧ w = w0 ∧
          ∃ extra, compose_utf8 c' = compose_utf8 c ++ extra)
    as (Ht & -> & Hextra).
  { unfold nd2, nd1. destruct (has_string p); inversion H; simpl;
      repeat split; eauto.
    exists []. by rewrite app_nil_r. }
  assert (keysym nd2 = keysym nd ∧ next nd2 = next nd ∧
          successor nd2 = successor nd) as (E1 & E2 & E3).
  { unfold nd2, nd1. by destruct (has_keysym p), (has_string p). }
  rewrite Ht. split; [| split; [| done]].
  - eapply links_kept_trans; [exact Hk |]. by eapply links_kept_insert.
  - intros Hnot. eapply leaves_kept_trans.
    + apply Hl. by apply not_override_nil.
    + by eapply leaves_kept_insert.
Qed.

Lemma c_string_app l r s : c_string l = Some s → c_string (l ++ r) = Some s.
Proof.
  revert s. induction l as [| b l IH]; intros s H; simpl in *; [done |].
  destruct (Byte.eqb b x00); [done |].
  destruct (c_string l) as [s' |] eqn:E; simpl in H; [| done].
  by rewrite (IH s' eq_refl).
Qed.

Section Kept.

Variable is_modifier : xkb_keysym_t → bool.

Local Abbreviation feed := (xkb_compose_state_feed is_modifier).

Lemma feed_cases state k state1 :
  feed state k = Some state1 →
  is_modifier k = true ∧ state1 = state ∨
  is_modifier k = false ∧
  ∃ n j nj,
    compose_tree (compose state) !! context state = Some n ∧
    feed_loop (length (compose_tree (compose state)))
      (compose_tree (compose state)) k (successor n) = Some j ∧
    compose_tree (compose state) !! j = Some nj ∧
    state1 = State (compose state) (context state)
               (if negb (N.eqb (keysym nj) k) then 0 else j).
Proof.
  unfold xkb_compose_state_feed. intros H.
  destruct (is_modifier k); [left; by inversion H | right].
  split; [done |].
  destruct (compose_tree (compose state) !! context state)
    as [n |] eqn:Hn; simpl in H; [| done].
  replace (if negb (Nat.eqb (successor n) 0) then successor n else 0)
    with (successor n) in H.
  2: { destruct (Nat.eqb (successor n) 0) eqn:E; simpl; [| done].
       by apply Nat.eqb_eq in E. }
  destruct (feed_loop _ _ k (successor n)) as [j |] eqn:Hj;
    simpl in H; [| done].
  destruct (compose_tree (compose state) !! j) as [nj |] eqn:Hnj;
    simpl in H; [| done].
  inversion H. eauto 10.
Qed.

Lemma get_status_cases state status :
  xkb_compose_state_get_status state = Some status →
  status = XKB_COMPOSE_COMPOSING ∨ status = XKB_COMPOSE_COMPOSED →
  context state ≠ 0 ∧
  is_Some (compose_tree (compose state) !! prev_context state) ∧
  ∃ n, compose_tree (compose state) !! context state = Some n ∧
       (status = XKB_COMPOSE_COMPOSING → successor n ≠ 0) ∧
       (status = XKB_COMPOSE_COMPOSED → successor n = 0).
Proof.
  unfold xkb_compose_state_get_status. intros H Hst.
  destruct (compose_tree (compose state) !! prev_context state)
    as [np |] eqn:Hp; simpl in H; [| done].
  destruct (compose_tree (compose state) !! context state)
    as [n |] eqn:Hn; simpl in H; [| done].
  destruct (Nat.eqb (context state) 0) eqn:Hctx; simpl in H.
  { destruct (negb (Nat.eqb (successor np) 0)); inversion H; subst;
      by destruct Hst. }
  apply Nat.eqb_neq in Hctx. split; [done |]. split; [eauto |].
  exists n. split; [done |].
  destruct (Nat.eqb (successor n) 0) eqn:Hs; simpl in H;
    inversion H; subst; split; try done.
  - intros _. by apply Nat.eqb_eq.
  - intros _. by apply Nat.eqb_neq.
Qed.

(** A keysym that is found is found again in a table that has kept the
    links. *)
Lemma feed_kept bound c c' prev ctx k state1 n n' status :
  tree_inv bound (compose_tree c') →
  links_kept (compose_tree c) (compose_tree c') →
  compose_tree c !! ctx = Some n → compose_tree c' !! ctx = Some n' →
  successor n' = successor n →
  feed (State c prev ctx) k = Some state1 →
  xkb_compose_state_get_status state1 = Some status →
  status = XKB_COMPOSE_COMPOSING ∨ status = XKB_COMPOSE_COMPOSED →
  feed (State c' prev ctx) k =
    Some (State c' (prev_context state1) (context state1)) ∧
  compose state1 = c.
Proof.
  intros Hinv' Hk Hn Hn' Hs Hfeed Hstatus Hst.
  destruct (get_status_cases _ _ Hstatus Hst) as (Hctx1 & _ & _).
  destruct (feed_cases _ _ _ Hfeed)
    as [[Hmod ->] | (Hmod & n0 & j & nj & Hn0 & Hloop & Hnj & ->)];
    simpl in *.
  - split; [| done]. unfold xkb_compose_state_feed. by rewrite Hmod.
  - rewrite Hn in Hn0. inversion Hn0; subst n0. split; [| done].
    destruct (N.eqb (keysym nj) k) eqn:Hkey; simpl in *; [| done].
    apply N.eqb_eq in Hkey.
    eapply feed_chain; [done | done | | done].
    rewrite Hs. eapply chain_to_kept; [exact Hk |].
    by eapply feed_loop_found.
Qed.

End Kept.

Section KeptSequences.

Variable is_modifier : xkb_keysym_t → bool.

Lemma status_kept c c' state status n' :
  links_kept (compose_tree c) (compose_tree c') →
  compose state = c →
  xkb_compose_state_get_status state = Some status →
  status = XKB_COMPOSE_COMPOSING ∨ status = XKB_COMPOSE_COMPOSED →
  compose_tree c' !! context state = Some n' →
  (status = XKB_COMPOSE_COMPOSED → successor n' = 0) →
  xkb_compose_state_get_status
    (State c' (prev_context state) (context state)) = Some status ∧
  ∃ n, compose_tree c !! context state = Some n ∧
       (status = XKB_COMPOSE_COMPOSING → successor n' = successor n).
Proof.
  intros Hk <- Hstatus Hst Hn' Hleaf.
  destruct (get_status_cases _ _ Hstatus Hst)
    as (Hctx & [np Hp] & n & Hn & Hcing & Hced).
  destruct (Hk _ _ Hp) as (np' & Hp' & _).
  destruct (Hk _ _ Hn) as (n'' & Hn'' & _ & _ & Hs'').
  rewrite Hn' in Hn''. inversion Hn''; subst n''.
  rewrite (get_status_context _ _ _ np' n') by done.
  split; [| exists n; split; [done | by intros; apply Hs''; auto]].
  destruct Hst as [-> | ->].
  - rewrite Hs'' by auto. specialize (Hcing eq_refl).
    apply Nat.eqb_neq in Hcing. by rewrite Hcing.
  - by rewrite Hleaf.
Qed.

(** A sequence that composes still composes, and ends on the same node,
    in a table that has kept the links and, for that node, the lack of a
    successor. *)
Lemma composes_kept bound c c' :
  tree_inv bound (compose_tree c') →
  links_kept (compose_tree c) (compose_tree c') →
  ∀ state keys state_end,
    composes is_modifier state keys state_end → compose state = c →
    ∀ n n',
      compose_tree c !! context state = Some n →
      compose_tree c' !! context state = Some n' →
      successor n' = successor n →
      (∀ ne', compose_tree c' !! context state_end = Some ne' →
              successor ne' = 0) →
      composes is_modifier (State c' (prev_context state) (context state))
        keys (State c' (prev_context state_end) (context state_end)) ∧
      compose state_end = c.
Proof.
  intros Hinv' Hk.
  induction 1 as [state k state1 Hfeed Hstatus
                 | state k state1 keys state_end Hfeed Hstatus _ IH];
    intros Hc n n' Hn Hn' Hs Hleaf; destruct state as [c0 prev ctx];
    simpl in *; subst c0.
  - destruct (feed_kept is_modifier _ _ _ _ _ _ _ _ _ _ Hinv' Hk Hn Hn'
                Hs Hfeed Hstatus ltac:(by right)) as [Hfeed' Hc1].
    split; [| done]. apply composes_last; [done |].
    destruct (get_status_cases _ _ Hstatus ltac:(by right))
      as (_ & _ & n1 & Hn1 & _).
    rewrite Hc1 in Hn1.
    destruct (Hk _ _ Hn1) as (n1' & Hn1' & _).
    eapply status_kept; eauto.
  - destruct (feed_kept is_modifier _ _ _ _ _ _ _ _ _ _ Hinv' Hk Hn Hn'
                Hs Hfeed Hstatus ltac:(by left)) as [Hfeed' Hc1].
    destruct (get_status_cases _ _ Hstatus ltac:(by left))
      as (_ & _ & n1 & Hn1 & _).
    rewrite Hc1 in Hn1.
    destruct (Hk _ _ Hn1) as (n1' & Hn1' & _).
    destruct (status_kept _ _ _ _ _ Hk Hc1 Hstatus ltac:(by left) Hn1'
                ltac:(done)) as (Hstatus' & n1'' & Hn1'' & Hs1).
    rewrite Hn1 in Hn1''. inversion Hn1''; subst n1''.
    destruct (IH Hc1 n1 n1' Hn1 Hn1' (Hs1 eq_refl) Hleaf) as [Hrun Hce].
    split; [| done]. eapply composes_more; eauto.
Qed.

End KeptSequences.

(** X2.  A sequence that composes over a built table and ends on a node
    that holds a string or a keysym still composes after one more
    [add_production], ends on the same node, and has the same keysym and
    the same string, unless that call reports the override of a
    prefix. *)
Theorem add_production_keeps_results
    (is_modifier : xkb_keysym_t → bool)
    (to_utf8 : xkb_keysym_t → nat → list byte * Z)
    (c : xkb_compose) (q : production) (c' : xkb_compose)
    (w : list message) (keys : list xkb_keysym_t)
    (state : xkb_compose_state) (n : node) (size : nat) :
  built c → valid_lhs q → add_production c q = Some (c', w) → fits c' →
  warn_prefix_override ∉ w →
  composes is_modifier (xkb_compose_state_new c) keys state →
  compose_tree c !! context state = Some n →
  utf8 n ≠ 0 ∨ ks n ≠ XKB_KEY_NoSymbol →
  ∃ state',
    composes is_modifier (xkb_compose_state_new c') keys state' ∧
    context state' = context state ∧
    xkb_compose_state_get_one_sym state' =
      xkb_compose_state_get_one_sym state ∧
    xkb_compose_state_get_utf8 to_utf8 state' size =
      xkb_compose_state_get_utf8 to_utf8 state size.
Proof.
  intros Hb Hq Hadd Hfit Hw Hrun Hn Hdata.
  pose proof (built_inv _ Hb) as Hinv.
  destruct Hinv as [Htree Hhead Hlast].
  assert (built c') as Hb' by (by eapply built_add).
  destruct (built_inv _ Hb') as [Htree' _ _].
  destruct (add_production_kept _ _ _ _ Hq Hadd Hfit)
    as (Hk & Hl & extra & Hblob).
  specialize (Hl Hw).
  destruct (inv_root _ _ Htree) as (r & Hr & _ & Hrs & _).
  destruct (inv_root _ _ Htree') as (r' & Hr' & _ & Hrs' & _).
  destruct (Hl _ _ Hn Hdata) as (n' & Hn' & Hu' & Hk' & Hs').
  assert (successor n = 0) as Hsn.
  { destruct (decide (successor n = 0)) as [| Hnz]; [done |].
    destruct (inv_internal _ _ Htree _ _ Hn Hnz) as [Hu0 Hk0].
    destruct Hdata; done. }
  destruct (composes_kept is_modifier _ c c' Htree' Hk _ _ _ Hrun eq_refl
              r r' Hr Hr' ltac:(congruence)) as [Hrun' Hc].
  { intros ne' Hne'. rewrite Hn' in Hne'. inversion Hne'; subst ne'.
    congruence. }
  destruct state as [c0 prev ctx]. simpl in *. subst c0.
  exists (State c' prev ctx). split; [exact Hrun' |]. split; [done |].
  unfold xkb_compose_state_get_one_sym, xkb_compose_state_get_utf8.
  simpl. rewrite Hn, Hn'. simpl. rewrite Hu', Hk'. split; [done |].
  destruct (Nat.eqb (utf8 n) 0 && negb (N.eqb (ks n) 0));
    [done |].
  pose proof (inv_offset _ _ Htree _ _ Hn) as Hoff.
  destruct (blob_string_defined c ctx n
              (ComposeInv _ Htree Hhead Hlast) Hn) as [s Hs].
  rewrite Hblob, drop_app_le by lia.
  by rewrite (c_string_app _ _ _ Hs), Hs.
Qed.

Lemma add_production_keeps_results_witness :
  add_production table_A_x production_B_y = Some (table_A_x_B_y, []) ∧
  composes only_shift (xkb_compose_state_new table_A_x) [65%N]
    (State table_A_x 0 1) ∧
  ∃ state',
    composes only_shift (xkb_compose_state_new table_A_x_B_y) [65%N]
      state' ∧
    context state' = 1 ∧
    xkb_compose_state_get_one_sym state' = Some 120%N ∧
    xkb_compose_state_get_utf8 latin1_to_utf8 state' 8 =
      Some ([x78; x00], 1%Z).
Proof.
  assert (composes only_shift (xkb_compose_state_new table_A_x) [65%N]
            (State table_A_x 0 1)) as Hrun.
  { by apply composes_last. }
  split; [reflexivity |]. split; [exact Hrun |].
  apply (add_production_keeps_results only_shift latin1_to_utf8
           table_A_x production_B_y table_A_x_B_y [] [65%N]
           (State table_A_x 0 1) (Node 65%N 0 0 0 120%N) 8).
  - exact built_table_A_x.
  - split; [done | by repeat constructor].
  - reflexivity.
  - split; vm_compute; by intros.
  - apply not_elem_of_nil.
  - exact Hrun.
  - reflexivity.
  - by right.
Defined.

(** ** Growth of the table *)

(** The loop appends at most one node for each keysym, and none for the
    first keysym when it starts on a node just appended for it. *)
Lemma add_production_loop_nodes ksyms : ∀ t curr t' curr' w,
  add_production_loop ksyms t curr = Some (t', curr', w) →
  fits_u32 (length t') →
  length t' ≤ length t + length ksyms ∧
  (∀ k, head ksyms = Some k → t !! curr = Some (fresh_node k) →
        length t' + 1 ≤ length t + length ksyms).
Proof.
  induction ksyms as [| k rest IH]; intros t curr t' curr' w H Hfit.
  { inversion H; subst. split; [simpl; lia | done]. }
  rewrite add_production_loop_cons in H.
  destruct (search_siblings (S (length t)) k t curr)
    as [[t1 curr1] |] eqn:Hsearch; [| done].
  cbn [mbind option_bind] in H.
  assert (fits_u32 (length t1) ∧ length t1 ≤ length t') as [Hfit1 Hle1].
  { destruct rest as [| k' rest'].
    - inversion H; by subst.
    - destruct (descend t1 curr1 k') as [[[t2 curr2] w2] |] eqn:Hd;
        [| done].
      apply descend_length in Hd. cbn [mbind option_bind] in H.
      destruct (add_production_loop (k' :: rest') t2 curr2)
        as [[[t3 curr3] w3] |] eqn:Hrec; [| done].
      apply add_production_loop_length in Hrec.
      cbn [mbind option_bind] in H. inversion H; subst.
      unfold fits_u32 in *. split; lia. }
  assert (length t1 ≤ S (length t)) as Hlen1.
  { destruct (search_siblings_spec _ _ _ _ _ _ Hsearch Hfit1)
      as (_ & _ & _ & [-> | (_ & -> & _)]); lia. }
  assert (∀ k0, head (k :: rest) = Some k0 →
                t !! curr = Some (fresh_node k0) → t1 = t) as Hfresh.
  { intros k0 Hk0 Hcurr. simpl in Hk0. inversion Hk0; subst k0.
    rewrite search_siblings_found in Hsearch by done.
    by inversion Hsearch. }
  destruct rest as [| k' rest'].
  - inversion H; subst t1 curr1 w. simpl. split; [lia |].
    intros k0 Hk0 Hcurr. rewrite (Hfresh k0 Hk0 Hcurr). lia.
  - destruct (descend t1 curr1 k') as [[[t2 curr2] w2] |] eqn:Hd; [| done].
    cbn [mbind option_bind] in H.
    destruct (add_production_loop (k' :: rest') t2 curr2)
      as [[[t3 curr3] w3] |] eqn:Hrec; [| done].
    cbn [mbind option_bind] in H. inversion H; subst t3 curr3 w. clear H.
    pose proof (add_production_loop_length _ _ _ _ _ _ Hrec) as Hlen3.
    assert (fits_u32 (length t2)) as Hfit2
      by (unfold fits_u32 in *; lia).
    destruct (IH _ _ _ _ _ Hrec Hfit) as [Hb3 Hf3].
    assert (length t' ≤ length t1 + length (k' :: rest')) as Hb.
    { destruct (descend_spec _ _ _ _ _ _ Hd Hfit2)
        as (_ & _ & _ & _ & [[-> _] | (_ & Hl2 & Hnew2)]); [done |].
      specialize (Hf3 k' eq_refl Hnew2). lia. }
    simpl in *. split; [lia |].
    intros k0 Hk0 Hcurr. rewrite (Hfresh k0 Hk0 Hcurr) in Hb. lia.
Qed.

(** X4.  [add_production] never shrinks the node array, appends at most
    one node for each keysym of the left-hand side, and leaves the blob as
    it was or followed by the string of the production and its NUL. *)
Theorem add_production_growth (c : xkb_compose) (p : production)
    (c' : xkb_compose) (w : list message) :
  add_production c p = Some (c', w) → fits c' →
  length (compose_tree c) ≤ length (compose_tree c') ∧
  length (compose_tree c') ≤ length (compose_tree c) + len p ∧
  (compose_utf8 c' = compose_utf8 c ∨
   has_string p = true ∧
   compose_utf8 c' =
     compose_utf8 c ++ strlen_prefix (prod_string p) ++ [x00]).
Proof.
  intros H [Hfit_t _]. unfold add_production in H.
  destruct (add_production_loop (lhs p) (compose_tree c) 0)
    as [[[t curr] w0] |] eqn:Hloop; [| done].
  cbn [mbind option_bind] in H.
  destruct (t !! curr) as [nd |] eqn:Hnd; [| done].
  cbn [mbind option_bind] in H.
  assert (length t = length (compose_tree c') ∧
          (compose_utf8 c' = compose_utf8 c ∨
           has_string p = true ∧
           compose_utf8 c' =
             compose_utf8 c ++ strlen_prefix (prod_string p) ++ [x00]))
    as [Hlen Hblob].
  { destruct (negb (Nat.eqb (successor nd) 0));
      [inversion H; auto |].
    destruct (negb (Nat.eqb (utf8 nd) 0) || negb (N.eqb (ks nd) 0));
      [inversion H; auto |].
    destruct (has_string p); inversion H; simpl;
      rewrite length_insert; auto. }
  pose proof (add_production_loop_length _ _ _ _ _ _ Hloop) as Hge.
  destruct (add_production_loop_nodes _ _ _ _ _ _ Hloop
              ltac:(by rewrite Hlen)) as [Hle _].
  unfold len. rewrite <- Hlen. done.
Qed.

Lemma add_production_growth_witness :
  add_production xkb_compose_new production_AB_f = Some (table_AB_f, []) ∧
  length (compose_tree xkb_compose_new) ≤ length (compose_tree table_AB_f) ∧
  length (compose_tree table_AB_f) ≤
    length (compose_tree xkb_compose_new) + len production_AB_f.
Proof.
  split; [reflexivity |].
  destruct (add_production_growth xkb_compose_new production_AB_f
              table_AB_f [] eq_refl) as (H1 & H2 & _).
  - split; vm_compute; by intros.
  - by split.
Defined.

(** ** The state machine on built tables *)

Section Safety.

Variable is_modifier : xkb_keysym_t → bool.
Variable to_utf8 : xkb_keysym_t → nat → list byte * Z.

Lemma accessors_defined state size :
  built (compose state) → valid_state state →
  is_Some (xkb_compose_state_get_status state) ∧
  is_Some (xkb_compose_state_get_one_sym state) ∧
  is_Some (xkb_compose_state_get_utf8 to_utf8 state size).
Proof.
  intros Hb [Hprev Hctx]. pose proof (built_inv _ Hb) as Hinv.
  apply lookup_lt_is_Some in Hprev as [np Hp].
  apply lookup_lt_is_Some in Hctx as [n Hn].
  unfold xkb_compose_state_get_status, xkb_compose_state_get_one_sym,
    xkb_compose_state_get_utf8.
  rewrite Hp, Hn. simpl. split; [| split; [eauto |]].
  - destruct (Nat.eqb (context state) 0 && _); [eauto |].
    destruct (Nat.eqb (context state) 0); [eauto |].
    destruct (negb _); eauto.
  - destruct (Nat.eqb (utf8 n) 0 && _); [eauto |].
    destruct (blob_string_defined _ _ _ Hinv Hn) as [s ->]. simpl. eauto.
Qed.

(** X5.  On a built table every operation of the state machine is
    defined in every state a client can reach by [feed] and [reset] from
    a fresh state: no access leaves the node array or the blob, the loop
    of [feed] ends, and the state [feed] returns is again such a
    state. *)
Theorem state_machine_defined (c : xkb_compose)
    (state : xkb_compose_state) (k : xkb_keysym_t) (size : nat) :
  built c → reachable is_modifier c state →
  (∃ state', xkb_compose_state_feed is_modifier state k = Some state' ∧
             reachable is_modifier c state') ∧
  is_Some (xkb_compose_state_get_status state) ∧
  is_Some (xkb_compose_state_get_one_sym state) ∧
  is_Some (xkb_compose_state_get_utf8 to_utf8 state size).
Proof.
  intros Hb Hr. destruct (reachable_valid _ _ _ Hb Hr) as [<- Hv].
  split; [| by apply accessors_defined].
  destruct (feed_total is_modifier state k Hb Hv) as (state' & Hf & _ & _).
  exists state'. split; [done |]. by eapply reachable_feed.
Qed.

End Safety.

Lemma state_machine_defined_witness :
  (∃ state', xkb_compose_state_feed only_shift
               (xkb_compose_state_new table_AB_f) 65%N = Some state' ∧
             reachable only_shift table_AB_f state') ∧
  is_Some (xkb_compose_state_get_status (xkb_compose_state_new table_AB_f)) ∧
  is_Some (xkb_compose_state_get_one_sym
             (xkb_compose_state_new table_AB_f)) ∧
  is_Some (xkb_compose_state_get_utf8 latin1_to_utf8
             (xkb_compose_state_new table_AB_f) 8).
Proof.
  apply (state_machine_defined only_shift latin1_to_utf8 table_AB_f).
  - exact built_table_AB_f.
  - apply reachable_new.
Defined.

(** X6.  After [xkb_compose_state_reset] the status is NOTHING,
    [get_one_sym] gives [NoSymbol] and [get_utf8] the empty string,
    whatever the state was. *)
Theorem reset_gives_nothing
    (to_utf8 : xkb_keysym_t → nat → list byte * Z)
    (state : xkb_compose_state) (size : nat) :
  built (compose state) →
  xkb_compose_state_get_status (xkb_compose_state_reset state) =
    Some XKB_COMPOSE_NOTHING ∧
  xkb_compose_state_get_one_sym (xkb_compose_state_reset state) =
    Some XKB_KEY_NoSymbol ∧
  xkb_compose_state_get_utf8 to_utf8 (xkb_compose_state_reset state) size =
    Some (snprintf_s size []).
Proof.
  intros Hb. pose proof (built_inv _ Hb) as Hinv.
  destruct (inv_root _ _ (inv_tree _ Hinv))
    as (r & Hr & _ & Hs & Hu & Hk & _).
  unfold xkb_compose_state_get_status, xkb_compose_state_get_one_sym,
    xkb_compose_state_get_utf8, xkb_compose_state_reset.
  simpl. rewrite Hr. simpl. rewrite Hs, Hu, Hk. simpl.
  split; [done |]. split; [done |].
  by rewrite (blob_string_zero _ Hinv).
Qed.

Lemma reset_gives_nothing_witness :
  xkb_compose_state_get_status
    (xkb_compose_state_reset (State table_AB_f 1 2)) =
    Some XKB_COMPOSE_NOTHING ∧
  xkb_compose_state_get_one_sym
    (xkb_compose_state_reset (State table_AB_f 1 2)) =
    Some XKB_KEY_NoSymbol ∧
  xkb_compose_state_get_utf8 latin1_to_utf8
    (xkb_compose_state_reset (State table_AB_f 1 2)) 8 =
    Some ([x00], 0%Z).
Proof.
  exact (reset_gives_nothing latin1_to_utf8 (State table_AB_f 1 2) 8
           built_table_AB_f).
Defined.

Section Restart.

Variable is_modifier : xkb_keysym_t → bool.

Local Abbreviation feed := (xkb_compose_state_feed is_modifier).

(** X7.  Unless a sequence is in progress (the status is COMPOSING), a
    keysym that is not a modifier is looked up from the top of the table:
    it leads to the context it leads to from a fresh state, and the
    context before it becomes the previous context. *)
Theorem feed_restarts (c : xkb_compose) (state state' : xkb_compose_state)
    (status : xkb_compose_status) (k : xkb_keysym_t) :
  built c → reachable is_modifier c state →
  xkb_compose_state_get_status state = Some status →
  status ≠ XKB_COMPOSE_COMPOSING →
  is_modifier k = false →
  feed state k = Some state' →
  ∃ fresh', feed (xkb_compose_state_new c) k = Some fresh' ∧
            context state' = context fresh' ∧
            prev_context state' = context state.
Proof.
  intros Hb Hr Hstatus Hnot Hmod Hfeed.
  destruct (reachable_valid _ _ _ Hb Hr) as [<- Hv].
  pose proof (built_inv _ Hb) as Hinv.
  destruct (inv_root _ _ (inv_tree _ Hinv)) as (r & Hr0 & _ & Hs0 & _).
  assert (∃ n, compose_tree (compose state) !! context state = Some n ∧
               successor n = 0) as (n & Hn & Hs).
  { unfold xkb_compose_state_get_status in Hstatus.
    destruct (compose_tree (compose state) !! prev_context state)
      as [np |]; simpl in Hstatus; [| done].
    destruct (compose_tree (compose state) !! context state)
      as [n |] eqn:Hn; simpl in Hstatus; [| done].
    exists n. split; [done |].
    destruct (Nat.eqb (context state) 0) eqn:Hctx.
    - apply Nat.eqb_eq in Hctx. rewrite Hctx in Hn. congruence.
    - simpl in Hstatus.
      destruct (Nat.eqb (successor n) 0) eqn:E; simpl in Hstatus.
      + by apply Nat.eqb_eq.
      + inversion Hstatus; subst. done. }
  unfold xkb_compose_state_feed in *. rewrite Hmod in *. simpl in *.
  rewrite Hn in Hfeed. rewrite Hr0. simpl in *.
  rewrite Hs in Hfeed. rewrite Hs0. simpl in *.
  destruct (feed_loop _ _ k 0) as [j |]; simpl in *; [| done].
  destruct (compose_tree (compose state) !! j) as [nj |]; simpl in *;
    [| done].
  inversion Hfeed; subst state'. simpl. eauto.
Qed.

(** X8.  The status after feeding a keysym that is not a modifier is
    CANCELLED exactly when the keysym broke a sequence in progress: the
    status before was COMPOSING and the keysym was not found, so that the
    context is back at 0. *)
Theorem cancelled_iff_sequence_broken (c : xkb_compose)
    (state state' : xkb_compose_state) (k : xkb_keysym_t) :
  built c → reachable is_modifier c state →
  is_modifier k = false →
  feed state k = Some state' →
  (xkb_compose_state_get_status state' = Some XKB_COMPOSE_CANCELLED ↔
   xkb_compose_state_get_status state = Some XKB_COMPOSE_COMPOSING ∧
   context state' = 0).
Proof.
  intros Hb Hr Hmod Hfeed.
  destruct (reachable_valid _ _ _ Hb Hr) as [<- [Hprev Hctx]].
  pose proof (built_inv _ Hb) as Hinv.
  destruct (inv_root _ _ (inv_tree _ Hinv)) as (r & Hr0 & _ & Hs0 & _).
  apply lookup_lt_is_Some in Hprev as [np Hp].
  destruct (feed_cases _ _ _ _ Hfeed)
    as [[Hm _] | (_ & n & j & nj & Hn & Hloop & Hnj & ->)];
    [congruence |].
  unfold xkb_compose_state_get_status. simpl.
  rewrite Hp, Hn. simpl.
  set (ctx' := if negb (N.eqb (keysym nj) k) then 0 else j).
  assert (is_Some (compose_tree (compose state) !! ctx')) as [n' Hn'].
  { unfold ctx'. destruct (negb _); eauto. }
  rewrite Hn'. simpl.
  destruct (Nat.eqb ctx' 0) eqn:Hc'; simpl.
  - apply Nat.eqb_eq in Hc'.
    destruct (Nat.eqb (successor n) 0) eqn:Hsn; simpl.
    + split; [done |]. intros [H _].
      destruct (Nat.eqb (context state) 0 && _); [done |].
      destruct (Nat.eqb (context state) 0); done.
    + split; [| done]. intros _. split; [| done].
      destruct (Nat.eqb (context state) 0) eqn:Hc0; simpl; [| done].
      apply Nat.eqb_eq in Hc0. rewrite Hc0, Hr0 in Hn.
      inversion Hn; subst n. rewrite Hs0 in Hsn. done.
  - apply Nat.eqb_neq in Hc'.
    split; [by destruct (negb (Nat.eqb (successor n') 0)) |].
    intros [_ H]. done.
Qed.

End Restart.

Lemma reachable_after_A_B :
  reachable only_shift table_AB_f (State table_AB_f 1 2).
Proof.
  apply (reachable_feed only_shift table_AB_f (State table_AB_f 0 1) 66%N
           (State table_AB_f 1 2)); [| reflexivity].
  apply (reachable_feed only_shift table_AB_f
           (xkb_compose_state_new table_AB_f) 65%N (State table_AB_f 0 1));
    [apply reachable_new | reflexivity].
Qed.

Lemma reachable_after_A :
  reachable only_shift table_AB_f (State table_AB_f 0 1).
Proof.
  apply (reachable_feed only_shift table_AB_f
           (xkb_compose_state_new table_AB_f) 65%N (State table_AB_f 0 1));
    [apply reachable_new | reflexivity].
Qed.

Lemma feed_restarts_witness :
  xkb_compose_state_get_status (State table_AB_f 1 2) =
    Some XKB_COMPOSE_COMPOSED ∧
  ∃ fresh',
    xkb_compose_state_feed only_shift (xkb_compose_state_new table_AB_f)
      65%N = Some fresh' ∧
    context (State table_AB_f 2 1) = context fresh' ∧
    prev_context (State table_AB_f 2 1) = 2.
Proof.
  split; [reflexivity |].
  apply (feed_restarts only_shift table_AB_f (State table_AB_f 1 2)
           (State table_AB_f 2 1) XKB_COMPOSE_COMPOSED 65%N).
  - exact built_table_AB_f.
  - exact reachable_after_A_B.
  - reflexivity.
  - done.
  - reflexivity.
  - reflexivity.
Defined.

Lemma cancelled_iff_sequence_broken_witness :
  xkb_compose_state_feed only_shift (State table_AB_f 0 1) 67%N =
    Some (State table_AB_f 1 0) ∧
  (xkb_compose_state_get_status (State table_AB_f 1 0) =
     Some XKB_COMPOSE_CANCELLED ↔
   xkb_compose_state_get_status (State table_AB_f 0 1) =
     Some XKB_COMPOSE_COMPOSING ∧
   context (State table_AB_f 1 0) = 0).
Proof.
  split; [reflexivity |].
  apply (cancelled_iff_sequence_broken only_shift table_AB_f
           (State table_AB_f 0 1) (State table_AB_f 1 0) 67%N).
  - exact built_table_AB_f.
  - exact reachable_after_A.
  - reflexivity.
  - reflexivity.
Defined.

(** ** Well-formed files *)

Lemma strlen_prefix_no_nul s : x00 ∉ s → strlen_prefix s = s.
Proof.
  induction s as [| b s IH]; intros Hs; simpl; [done |].
  apply not_elem_of_cons in Hs as [Hb Hs].
  destruct (Byte.eqb b x00) eqn:E.
  - apply Byte.byte_dec_bl in E. congruence.
  - by rewrite IH.
Qed.

(** [add_production] reads the string only when [has_string] is set and
    the keysym only when [has_keysym] is set. *)
Lemma add_production_ext c p p' :
  lhs p = lhs p' → has_string p = has_string p' →
  has_keysym p = has_keysym p' →
  (has_string p = true →
   strlen_prefix (prod_string p) = strlen_prefix (prod_string p')) →
  (has_keysym p = true → prod_keysym p = prod_keysym p') →
  add_production c p = add_production c p'.
Proof.
  intros Hl Hs Hk Hstr Hks. unfold add_production.
  rewrite <- Hl, <- Hs, <- Hk.
  destruct (add_production_loop (lhs p) (compose_tree c) 0)
    as [[[t curr] w] |]; [| done].
  cbn [mbind option_bind].
  destruct (t !! curr) as [nd |]; [| done]. cbn [mbind option_bind].
  destruct (negb (Nat.eqb (successor nd) 0)); [done |].
  destruct (negb (Nat.eqb (utf8 nd) 0) || negb (N.eqb (ks nd) 0));
    [done |].
  destruct (has_string p); [rewrite Hstr by done |];
    (destruct (has_keysym p); [rewrite Hks by done |]); done.
Qed.

Section Lines.

Variable open_file : string → option scanner.

Local Abbreviation returns := (parse_returns open_file).

(** The loop at [lhs]: the keysyms are stored one after another as long
    as the left-hand side has room. *)
Lemma read_lhs d : ∀ keys st rest,
  ps_scanner st = (TOK_LHS_KEYSYM <$> keys) ++ rest →
  len (ps_production st) + length keys ≤ MAX_LHS_LEN →
  ∃ tok,
    ∀ r, returns L_lhs st d r ↔
         returns L_lhs
           {| ps_tok := tok;
              ps_production := extend_lhs (ps_production st) keys;
              ps_num_errors := ps_num_errors st;
              ps_compose := ps_compose st;
              ps_scanner := rest;
              ps_log := ps_log st |} d r.
Proof.
  induction keys as [| k keys IH]; intros st rest Hs Hlen.
  - exists (ps_tok st). intros r. simpl in Hs.
    destruct st as [tok p n c s lg]. simpl in *. subst s.
    unfold extend_lhs. rewrite app_nil_r. by destruct p.
  - simpl in Hs, Hlen.
    set (st1 := with_production (with_tok st (TOK_LHS_KEYSYM k)
                                   ((TOK_LHS_KEYSYM <$> keys) ++ rest))
                  (push_lhs (ps_production st) k)).
    destruct (IH st1 rest) as [tok Htok].
    + done.
    + unfold st1, len in *. simpl. rewrite length_app. simpl. lia.
    + exists tok. intros r.
      rewrite (parse_returns_jump open_file L_lhs st d L_lhs st1).
      * rewrite Htok. unfold st1, extend_lhs. simpl.
        by rewrite <- app_assoc.
      * intros g q. unfold parse_step. rewrite Hs. cbn [lex].
        cbn [ps_production with_tok].
        destruct (MAX_LHS_LEN <? len (ps_production st) + 1) eqn:E;
          [| done].
        apply Nat.ltb_lt in E. lia.
Qed.


(** The left-hand side of a line, read from [initial]. *)
Lemma read_line_lhs d st keys rest :
  keys ≠ [] → length keys ≤ MAX_LHS_LEN →
  ps_scanner st = (TOK_LHS_KEYSYM <$> keys) ++ rest →
  ∃ tok,
    ∀ r, returns L_initial st d r ↔
         returns L_lhs
           {| ps_tok := tok;
              ps_production :=
                extend_lhs (clear_production (ps_production st)) keys;
              ps_num_errors := ps_num_errors st;
              ps_compose := ps_compose st;
              ps_scanner := rest;
              ps_log := ps_log st |} d r.
Proof.
  intros Hne Hlen Hs. destruct keys as [| k1 keys]; [done |].
  rewrite fmap_cons, <- app_comm_cons in Hs. simpl in Hlen.
  set (st0 := with_production st (clear_production (ps_production st))).
  set (st1 := with_production
                (with_tok st0 (TOK_LHS_KEYSYM k1)
                   ((TOK_LHS_KEYSYM <$> keys) ++ rest))
                (push_lhs (ps_production st0) k1)).
  destruct (read_lhs d keys st1 rest) as [tok Hread].
  { done. }
  { unfold st1, st0, len. simpl. lia. }
  exists tok. intros r.
  rewrite (parse_returns_jump open_file L_initial st d L_initial_eol st0)
    by done.
  rewrite (parse_returns_jump open_file L_initial_eol st0 d L_lhs st1).
  - by rewrite Hread.
  - intros g q. unfold parse_step. unfold st0 at 1.
    cbn [ps_scanner with_production]. by rewrite Hs.
Qed.

Lemma clear_production_idem st p :
  ps_production st = clear_production p →
  with_production st (clear_production (ps_production st)) = st.
Proof. intros H. destruct st. simpl in *. by subst. Qed.

(** A string that [rhs] accepts. *)
Lemma read_string d st str s :
  ps_scanner st = TOK_STRING str :: s →
  has_string (ps_production st) = false →
  str ≠ [] → x00 ∉ str → length str ≤ 255 →
  ∀ r, returns L_rhs st d r ↔
       returns L_rhs
         (with_production (with_tok st (TOK_STRING str) s)
            (copy_string (ps_production st) str true)) d r.
Proof.
  intros Hs Hhas Hne Hnul Hlen. apply parse_returns_jump. intros g q.
  unfold parse_step. rewrite Hs. cbn [lex ps_production with_tok].
  rewrite Hhas.
  assert (starts_with_nul str = false) as ->.
  { destruct str as [| b str]; [done |]. simpl.
    apply not_elem_of_cons in Hnul as [Hb _].
    destruct (Byte.eqb b x00) eqn:E; [| done].
    apply Byte.byte_dec_bl in E. congruence. }
  rewrite (strlen_prefix_no_nul _ Hnul).
  destruct (256 <=? length str) eqn:E; [| done].
  apply Nat.leb_le in E. lia.
Qed.

(** The end of a line at [rhs]: an optional keysym and the end of the
    line, after which the production is added and the parser is back at
    [initial]. *)
Lemma read_rhs_end d st (hk : bool) k rest c1 w1 :
  ps_scanner st =
    (if hk then [TOK_RHS_KEYSYM k] else []) ++ TOK_END_OF_LINE :: rest →
  has_keysym (ps_production st) = false →
  has_string (ps_production st) = true ∨ hk = true →
  add_production (ps_compose st)
    (if hk then store_keysym (ps_production st) k else ps_production st)
    = Some (c1, w1) →
  ∃ st',
    ps_compose st' = c1 ∧ ps_log st' = ps_log st ++ w1 ∧
    ps_num_errors st' = ps_num_errors st ∧ ps_scanner st' = rest ∧
    ∀ r, returns L_rhs st d r ↔ returns L_initial st' d r.
Proof.
  intros Hs Hhk Hsome Hadd. destruct hk; simpl in Hs.
  - set (st1 := with_production
                  (with_tok st (TOK_RHS_KEYSYM k) (TOK_END_OF_LINE :: rest))
                  (store_keysym (ps_production st) k)).
    set (st2 := with_compose st1 c1 (ps_log st1 ++ w1)).
    set (st3 := with_production st2 (clear_production (ps_production st2))).
    set (st4 := with_tok st3 TOK_END_OF_LINE rest).
    exists st4. do 4 (split; [done |]). intros r.
    rewrite (parse_returns_jump open_file L_rhs st d L_initial st2).
    2: { intros g q. unfold parse_step. rewrite Hs.
         cbn [lex ps_production with_tok]. rewrite Hhk.
         unfold rhs_end_of_line. cbn [ps_production with_production
           ps_compose with_tok store_keysym has_keysym has_string].
         rewrite andb_false_r. by rewrite Hadd. }
    rewrite (parse_returns_jump open_file L_initial st2 d L_initial_eol st3)
      by done.
    rewrite (parse_returns_jump open_file L_initial_eol st3 d
               L_initial_eol st4) by done.
    rewrite (parse_returns_jump open_file L_initial st4 d L_initial_eol st4);
      [done |].
    intros g q. unfold parse_step.
    by rewrite (clear_production_idem st4 (ps_production st2)).
  - set (st1 := with_tok st TOK_END_OF_LINE rest).
    set (st2 := with_compose st1 c1 (ps_log st1 ++ w1)).
    exists st2. do 4 (split; [done |]).
    apply parse_returns_jump. intros g q. unfold parse_step. rewrite Hs.
    cbn [lex ps_production with_tok]. unfold rhs_end_of_line.
    cbn [ps_production ps_compose with_tok].
    destruct Hsome as [Hstr | ?]; [| done]. rewrite Hstr.
    cbn [negb andb]. by rewrite Hadd.
Qed.


(** A well-formed line: its production is added, nothing is counted as an
    error, and the parser is back at [initial] behind the line. *)
Lemma parse_line d st p rest c1 w1 :
  well_formed p → ps_scanner st = line_tokens p ++ rest →
  add_production (ps_compose st) p = Some (c1, w1) →
  ∃ st',
    ps_compose st' = c1 ∧ ps_log st' = ps_log st ++ w1 ∧
    ps_num_errors st' = ps_num_errors st ∧ ps_scanner st' = rest ∧
    ∀ r, returns L_initial st d r ↔ returns L_initial st' d r.
Proof.
  intros ((Hlen1 & Hlen2) & Hsome & Hstr) Hs Hadd.
  unfold len in Hlen1, Hlen2.
  destruct (lhs p) as [| k1 keys] eqn:Hlhs; [simpl in Hlen1; lia |].
  unfold line_tokens in Hs. rewrite Hlhs in Hs.
  rewrite fmap_cons in Hs. rewrite <- !app_assoc in Hs.
  rewrite <- app_comm_cons in Hs.
  set (tail2 := (if has_string p then [TOK_STRING (prod_string p)] else [])
                ++ (if has_keysym p then [TOK_RHS_KEYSYM (prod_keysym p)]
                    else []) ++ [TOK_END_OF_LINE] ++ rest) in Hs.
  set (st0 := with_production st (clear_production (ps_production st))).
  set (st1 := with_production
                (with_tok st0 (TOK_LHS_KEYSYM k1)
                   ((TOK_LHS_KEYSYM <$> keys) ++ [TOK_COLON] ++ tail2))
                (push_lhs (ps_production st0) k1)).
  destruct (read_lhs d keys st1 ([TOK_COLON] ++ tail2)) as [tok Hread].
  { done. }
  { unfold st1, st0, len. simpl in *. lia. }
  set (st2 := {| ps_tok := tok;
                 ps_production := extend_lhs (ps_production st1) keys;
                 ps_num_errors := ps_num_errors st1;
                 ps_compose := ps_compose st1;
                 ps_scanner := [TOK_COLON] ++ tail2;
                 ps_log := ps_log st1 |}) in Hread.
  set (st3 := with_tok st2 TOK_COLON tail2).
  assert (∀ r, returns L_initial st d r ↔ returns L_rhs st3 d r) as Hhead.
  { intros r.
    rewrite (parse_returns_jump open_file L_initial st d L_initial_eol st0)
      by done.
    rewrite (parse_returns_jump open_file L_initial_eol st0 d L_lhs st1).
    2: { intros g q. unfold parse_step. unfold st0 at 1.
         cbn [ps_scanner with_production]. by rewrite Hs. }
    rewrite Hread. apply parse_returns_jump. intros g q. done. }
  set (st4 := if has_string p
              then with_production
                     (with_tok st3 (TOK_STRING (prod_string p))
                        ((if has_keysym p
                          then [TOK_RHS_KEYSYM (prod_keysym p)] else [])
                         ++ [TOK_END_OF_LINE] ++ rest))
                     (copy_string (ps_production st3) (prod_string p) true)
              else st3).
  assert (∀ r, returns L_rhs st3 d r ↔ returns L_rhs st4 d r) as Hstring.
  { intros r. unfold st4. destruct (has_string p) eqn:E; [| done].
    destruct (Hstr eq_refl) as (H1 & H2 & H3).
    apply read_string; try done.
    all: unfold st3, tail2; by rewrite ?E. }
  assert (ps_compose st4 = ps_compose st ∧ ps_log st4 = ps_log st ∧
          ps_num_errors st4 = ps_num_errors st ∧
          lhs (ps_production st4) = lhs p ∧
          has_keysym (ps_production st4) = false ∧
          has_string (ps_production st4) = has_string p ∧
          (has_string p = true →
           prod_string (ps_production st4) =
             take 255 (strlen_prefix (prod_string p))) ∧
          ps_scanner st4 =
            (if has_keysym p then [TOK_RHS_KEYSYM (prod_keysym p)] else [])
            ++ TOK_END_OF_LINE :: rest)
    as (F1 & F2 & F3 & F4 & F5 & F6 & F7 & F8).
  { unfold st4, tail2. destruct (has_string p); simpl;
      by rewrite ?Hlhs. }
  destruct (read_rhs_end d st4 (has_keysym p) (prod_keysym p) rest c1 w1)
    as (st' & G1 & G2 & G3 & G4 & G5).
  { done. }
  { done. }
  { rewrite F6. destruct Hsome; auto. }
  { rewrite F1, <- Hadd. apply add_production_ext.
    - by destruct (has_keysym p).
    - by destruct (has_keysym p).
    - destruct (has_keysym p); simpl; [done | by rewrite F5].
    - intros E. assert (has_string p = true) as E'.
      { destruct (has_keysym p); simpl in E; by rewrite <- F6. }
      destruct (Hstr E') as (_ & H2 & H3).
      assert (prod_string (if has_keysym p
                           then store_keysym (ps_production st4)
                                  (prod_keysym p)
                           else ps_production st4) =
              take 255 (strlen_prefix (prod_string p))) as ->.
      { destruct (has_keysym p); simpl; by apply F7. }
      rewrite (strlen_prefix_no_nul _ H2).
      rewrite take_ge by lia. by apply strlen_prefix_no_nul.
    - intros E. destruct (has_keysym p); simpl in *; [done |].
      by rewrite F5 in E. }
  exists st'. rewrite G2, G3, F2, F3.
  do 4 (split; [done |]). intros r. by rewrite Hhead, Hstring, G5.
Qed.


Lemma parse_lines d : ∀ ps st c' w,
  Forall well_formed ps → ps_scanner st = file_tokens ps →
  add_productions (ps_compose st) ps = Some (c', w) →
  ∃ st',
    returns L_initial st d (true, st') ∧ ps_compose st' = c' ∧
    ps_log st' = ps_log st ++ w ∧ ps_num_errors st' = ps_num_errors st.
Proof.
  induction ps as [| p ps IH]; intros st c' w Hwf Hs Hadd.
  - simpl in Hadd. inversion Hadd; subst c' w. clear Hadd.
    set (st0 := with_production st (clear_production (ps_production st))).
    set (st1 := with_tok st0 TOK_END_OF_FILE []).
    exists st1. rewrite app_nil_r. split; [| done].
    rewrite (parse_returns_jump open_file L_initial st d L_initial_eol st0)
      by done.
    rewrite (parse_returns_jump open_file L_initial_eol st0 d
               L_finished st1).
    + by exists 1.
    + intros g q. unfold parse_step. unfold st0 at 1.
      cbn [ps_scanner with_production]. by rewrite Hs.
  - apply Forall_cons in Hwf as [Hp Hwf].
    simpl in Hadd.
    destruct (add_production (ps_compose st) p) as [[c1 w1] |] eqn:Hadd1;
      [| done].
    cbn [mbind option_bind] in Hadd.
    destruct (add_productions c1 ps) as [[c2 w2] |] eqn:Hadd2; [| done].
    cbn [mbind option_bind] in Hadd. inversion Hadd; subst c' w.
    destruct (parse_line d st p (file_tokens ps) c1 w1 Hp Hs Hadd1)
      as (st1 & G1 & G2 & G3 & G4 & G5).
    destruct (IH st1 c2 w2 Hwf G4) as (st' & H1 & H2 & H3 & H4).
    { by rewrite G1. }
    exists st'. rewrite G5. split; [done |]. split; [done |].
    rewrite H3, H4, G2, G3. by rewrite app_assoc.
Qed.

(** X9.  A file of well-formed lines is parsed to its end with success
    and without an error counted, and the table it leaves is the one
    [add_production] makes of the productions of the lines, added in the
    order of the lines; the log gains the warnings of these calls and
    nothing else. *)
Theorem parse_well_formed_file (c : xkb_compose) (ps : list production)
    (lg : list message) (d : nat) (c' : xkb_compose) (w : list message) :
  Forall well_formed ps → add_productions c ps = Some (c', w) →
  ∃ fuel st,
    parse open_file fuel c (file_tokens ps) lg d = Some (true, st) ∧
    ps_compose st = c' ∧ ps_log st = lg ++ w ∧ ps_num_errors st = 0.
Proof.
  intros Hwf Hadd.
  destruct (parse_lines d ps (parse_entry c (file_tokens ps) lg) c' w
              Hwf eq_refl Hadd) as (st & [fuel Hrun] & H1 & H2 & H3).
  by exists fuel, st.
Qed.

End Lines.

Lemma well_formed_production_A_x : well_formed production_A_x.
Proof.
  split; [unfold len, MAX_LHS_LEN; simpl; lia |].
  split; [by right | done].
Qed.

Lemma well_formed_production_AB_f : well_formed production_AB_f.
Proof.
  split; [unfold len, MAX_LHS_LEN; simpl; lia |].
  split; [by left |]. intros _.
  split; [done |]. split; [| simpl; lia].
  apply not_elem_of_cons. split; [done | apply not_elem_of_nil].
Qed.

Lemma parse_well_formed_file_witness :
  Forall well_formed [production_AB_f; production_A_x] ∧
  add_productions xkb_compose_new [production_AB_f; production_A_x] =
    Some (table_AB_f, [warn_is_prefix]) ∧
  ∃ fuel st,
    parse no_files fuel xkb_compose_new
      (file_tokens [production_AB_f; production_A_x]) [] 0
      = Some (true, st) ∧
    ps_compose st = table_AB_f ∧
    ps_log st = [] ++ [warn_is_prefix] ∧ ps_num_errors st = 0.
Proof.
  assert (Forall well_formed [production_AB_f; production_A_x]) as Hwf.
  { apply Forall_cons. split; [exact well_formed_production_AB_f |].
    apply Forall_cons. split; [exact well_formed_production_A_x |].
    apply Forall_nil_2. }
  split; [exact Hwf |]. split; [reflexivity |].
  exact (parse_well_formed_file no_files xkb_compose_new
           [production_AB_f; production_A_x] [] 0 table_AB_f
           [warn_is_prefix] Hwf eq_refl).
Defined.

(** ** Warnings that are never issued *)

Lemma silent_app lg w :
  silent lg → warn_two_keysyms ∉ w → warn_empty_lhs ∉ w → silent (lg ++ w).
Proof.
  intros [H1 H2] H3 H4. split; intros H; apply elem_of_app in H;
    destruct H; done.
Qed.

Lemma silent_table lg w : silent lg → Forall table_warning w → silent (lg ++ w).
Proof.
  intros Hlg Hw. apply silent_app; [done | |]; intros H;
    eapply Forall_forall in Hw; eauto; by destruct Hw as [? | [? | ?]].
Qed.

Lemma add_production_loop_messages ksyms : ∀ t curr t' curr' w,
  add_production_loop ksyms t curr = Some (t', curr', w) →
  Forall table_warning w.
Proof.
  induction ksyms as [| k rest IH]; intros t curr t' curr' w H.
  - inversion H. constructor.
  - rewrite add_production_loop_cons in H.
    destruct (search_siblings (S (length t)) k t curr)
      as [[t1 curr1] |]; [| done].
    cbn [mbind option_bind] in H.
    destruct rest as [| k' rest']; [inversion H; constructor |].
    destruct (descend t1 curr1 k') as [[[t2 curr2] w2] |] eqn:Hd; [| done].
    cbn [mbind option_bind] in H.
    destruct (add_production_loop (k' :: rest') t2 curr2)
      as [[[t3 curr3] w3] |] eqn:Hrec; [| done].
    cbn [mbind option_bind] in H. inversion H; subst.
    apply Forall_app. split; [| by eapply IH].
    unfold descend in Hd.
    destruct (t1 !! curr1) as [nd |]; simpl in Hd; [| done].
    destruct (Nat.eqb (successor nd) 0); [| inversion Hd; constructor].
    destruct (negb (Nat.eqb (utf8 nd) 0) || negb (N.eqb (ks nd) 0));
      simpl in Hd;
      match type of Hd with
      | context [ (?l ++ [?x]) !! curr1 ] =>
          destruct ((l ++ [x]) !! curr1); simpl in Hd; [| done]
      end;
      inversion Hd; subst;
      first [ by constructor
            | apply Forall_cons; split; [by left | constructor] ].
Qed.

Lemma add_production_messages c p c' w :
  add_production c p = Some (c', w) → Forall table_warning w.
Proof.
  unfold add_production. intros H.
  destruct (add_production_loop (lhs p) (compose_tree c) 0)
    as [[[t curr] w0] |] eqn:Hloop; [| done].
  apply add_production_loop_messages in Hloop.
  cbn [mbind option_bind] in H.
  destruct (t !! curr) as [nd |]; [| done]. cbn [mbind option_bind] in H.
  destruct (negb (Nat.eqb (successor nd) 0)).
  { inversion H; subst. apply Forall_app. split; [done |].
    apply Forall_cons. split; [by right; left | constructor]. }
  destruct (negb (Nat.eqb (utf8 nd) 0) || negb (N.eqb (ks nd) 0)).
  { inversion H; subst. apply Forall_app. split; [done |].
    apply Forall_cons. split; [by right; right | constructor]. }
  destruct (has_string p); by inversion H; subst.
Qed.

Section Silent.

Variable open_file : string → option scanner.

Local Abbreviation run := (parse_at open_file).

Lemma silent_tok st tok s :
  silent (ps_log st) → silent (ps_log (with_tok st tok s)).
Proof.
  intros H. destruct tok; simpl; try done.
  apply silent_app; [done | |]; intros Hin;
    apply list_elem_of_singleton in Hin; done.
Qed.

Lemma silent_one lg m :
  silent lg → m ≠ warn_two_keysyms → m ≠ warn_empty_lhs → silent (lg ++ [m]).
Proof.
  intros H H1 H2. apply silent_app; [done | |]; intros Hin;
    apply list_elem_of_singleton in Hin; done.
Qed.

Lemma parse_silent : ∀ fuel l st d r,
  silent_inv l st → run fuel l st d = Some r → silent (ps_log r.2).
Proof.
  induction fuel as [| fuel IH]; intros l st d r Hinv H; [done |].
  change (run (S fuel) l st d) with
    (parse_step open_file
       (λ l' st', run fuel l' st' d)
       (λ c s lg d', run fuel L_initial (parse_entry c s lg) d')
       l st d) in H.
  destruct Hinv as [Hlog Hprod].
  assert (∀ l' st', run fuel l' st' d = Some r → silent_inv l' st' →
                    silent (ps_log r.2)) as Hgo.
  { intros l' st' Hr Hi. by eapply IH. }
  assert (∀ st', silent (ps_log st') →
            rhs_end_of_line (λ l' st', run fuel l' st' d) st' = Some r →
            silent (ps_log r.2)) as Hrhs.
  { intros st' Hs' Hr. unfold rhs_end_of_line in Hr.
    destruct (negb (has_string (ps_production st')) &&
              negb (has_keysym (ps_production st'))).
    - eapply Hgo; [exact Hr |]. split; [| done].
      by apply silent_one.
    - destruct (add_production (ps_compose st') (ps_production st'))
        as [[c w] |] eqn:Hadd; [| done].
      eapply Hgo; [exact Hr |]. split; [| done]. simpl.
      apply silent_table; [done |]. by eapply add_production_messages. }
  unfold parse_step in H.
  destruct l; simpl in Hprod.
  - eapply Hgo; [exact H |]. by split.
  - destruct (lex (ps_scanner st)) as [tok s].
    pose proof (silent_tok st tok s Hlog) as Hlog'.
    destruct tok; (eapply Hgo; [exact H |]); split; simpl; try done.
    split; [done |]. by destruct (lhs (ps_production st)).
  - destruct (lex_include_string (ps_scanner st)) as [tok s].
    pose proof (silent_tok st tok s Hlog) as Hlog'.
    destruct tok; (eapply Hgo; [exact H |]); by split.
  - destruct (lex (ps_scanner st)) as [tok s].
    pose proof (silent_tok st tok s Hlog) as Hlog'.
    destruct tok; try (eapply Hgo; [exact H |]; by split).
    unfold do_include_with, post_increment in H.
    destruct (MAX_INCLUDE_DEPTH <=? d).
    { eapply Hgo; [exact H |]. split; [| done]. by apply silent_one. }
    destruct (open_file path) as [new_s |]; cycle 1.
    { eapply Hgo; [exact H |]. split; [| done]. by apply silent_one. }
    cbn [ps_compose ps_log with_tok] in H.
    destruct (run fuel L_initial (parse_entry (ps_compose st) new_s _) d)
      as [[ok st_in] |] eqn:Hin; [| done].
    cbn [mbind option_bind] in H.
    assert (silent (ps_log st_in)) as Hlog_in.
    { change (ps_log st_in) with (ps_log (ok, st_in).2).
      eapply IH; [| exact Hin]. by split. }
    destruct ok; (eapply Hgo; [exact H |]); by split.
  - destruct (lex (ps_scanner st)) as [tok s].
    pose proof (silent_tok st tok s Hlog) as Hlog'.
    destruct Hprod as [Hk Hne].
    destruct tok; try (eapply Hgo; [exact H |]; by split).
    + destruct (MAX_LHS_LEN <? len _ + 1);
        (eapply Hgo; [exact H |]); split; simpl; try done.
      * by apply silent_one.
      * split; [done |]. by destruct (lhs (ps_production st)).
    + cbn [ps_production with_tok] in H.
      assert ((len (ps_production st) <=? 0) = false) as E.
      { apply Nat.leb_gt. unfold len.
        destruct (lhs (ps_production st)); [done | simpl; lia]. }
      rewrite E in H. eapply Hgo; [exact H |]. by split.
  - destruct (lex (ps_scanner st)) as [tok s].
    pose proof (silent_tok st tok s Hlog) as Hlog'.
    destruct Hprod as [Hk Hne].
    destruct tok; try (eapply Hgo; [exact H |]; by split).
    + eapply Hrhs; [| exact H]; done.
    + cbn [ps_production with_tok] in H.
      destruct (has_string (ps_production st));
        [| destruct (starts_with_nul s0);
           [| destruct (256 <=? length (strlen_prefix s0))]];
        (eapply Hgo; [exact H |]); split; simpl; try done;
        by apply silent_one.
    + cbn [ps_production with_tok] in H. rewrite Hk in H.
      eapply Hrhs; [| exact H]; done.
  - destruct (ps_tok st);
      match type of H with
      | (if ?b then _ else _) = _ =>
          destruct b; (eapply Hgo; [exact H |]; split; simpl; try done;
                       repeat apply silent_one; done)
      end.
  - inversion H; subst. simpl. by apply silent_one.
  - destruct (ps_tok st);
      try (eapply Hgo; [exact H |]; by split);
      destruct (lex (ps_scanner st)) as [tok' s'];
      pose proof (silent_tok st tok' s' Hlog) as Hlog';
      (eapply Hgo; [exact H |]; by split).
  - inversion H; subst. done.
Qed.

(** X10.  Two warnings that [parse] has code for are never issued,
    whatever the file and the files it includes: the one for a second
    keysym on the right-hand side ([rhs] adds the production as soon as it
    has read a keysym, and [initial] clears the flag), and the one for a
    colon after an empty left-hand side ([lhs] is entered only with a
    keysym stored). *)
Theorem parse_never_warns_two_keysyms_or_empty_lhs
    (fuel : nat) (c : xkb_compose) (s : scanner) (lg : list message)
    (d : nat) (r : parse_result) :
  warn_two_keysyms ∉ lg → warn_empty_lhs ∉ lg →
  parse open_file fuel c s lg d = Some r →
  (warn_two_keysyms ∉ ps_log r.2) ∧ (warn_empty_lhs ∉ ps_log r.2).
Proof.
  intros H1 H2 Hrun. eapply parse_silent; [| exact Hrun].
  split; [by split | done].
Qed.

End Silent.

Lemma parse_never_warns_two_keysyms_or_empty_lhs_witness :
  ∃ r, parse no_files 20 xkb_compose_new line_two_keysyms [] 0 = Some r ∧
       (warn_two_keysyms ∉ ps_log r.2) ∧ (warn_empty_lhs ∉ ps_log r.2) ∧
       err_unexpected_token ∈ ps_log r.2.
Proof.
  eexists. split; [reflexivity |].
  destruct (parse_never_warns_two_keysyms_or_empty_lhs no_files 20
              xkb_compose_new line_two_keysyms [] 0 _
              (not_elem_of_nil _) (not_elem_of_nil _) eq_refl)
    as [H1 H2].
  split; [exact H1 |]. split; [exact H2 |]. simpl. by left.
Defined.

(** ** Lines that are skipped, and includes *)

Section SkippedLines.

Variable open_file : string → option scanner.

Local Abbreviation returns := (parse_returns open_file).

(** X11.  A line with an eleventh keysym on its left-hand side is
    skipped with a warning: the parser resumes at [initial] behind the
    end of the line, with the table and the error count it had before
    the line. *)
Theorem too_many_keysyms_skipped (st : parse_state) (d : nat)
    (keys : list xkb_keysym_t) (k : xkb_keysym_t) (rest : scanner) :
  length keys = MAX_LHS_LEN →
  ps_scanner st = (TOK_LHS_KEYSYM <$> keys) ++ TOK_LHS_KEYSYM k :: rest →
  ∃ st_w,
    ps_tok st_w = TOK_LHS_KEYSYM k ∧ ps_scanner st_w = rest ∧
    ps_compose st_w = ps_compose st ∧
    ps_num_errors st_w = ps_num_errors st ∧
    ps_log st_w = ps_log st ++ [warn_too_many_keysyms] ∧
    (∀ r, returns L_initial st d r ↔
          returns L_initial (skip_line rest st_w) d r) ∧
    ps_compose (skip_line rest st_w) = ps_compose st ∧
    ps_num_errors (skip_line rest st_w) = ps_num_errors st.
Proof.
  intros Hlen Hs.
  destruct (read_line_lhs open_file d st keys (TOK_LHS_KEYSYM k :: rest))
    as [tok Hread]; [by destruct keys | lia | done |].
  set (st2 := {| ps_tok := tok;
                 ps_production :=
                   extend_lhs (clear_production (ps_production st)) keys;
                 ps_num_errors := ps_num_errors st;
                 ps_compose := ps_compose st;
                 ps_scanner := TOK_LHS_KEYSYM k :: rest;
                 ps_log := ps_log st |}) in Hread.
  set (st_w := logging (with_tok st2 (TOK_LHS_KEYSYM k) rest)
                 [warn_too_many_keysyms]).
  exists st_w. do 5 (split; [done |]).
  destruct (skip_line_facts rest st_w) as (H1 & H2 & _).
  split; [| by rewrite H1, H2].
  intros r. rewrite Hread.
  rewrite (parse_returns_jump open_file L_lhs st2 d L_skip st_w).
  - by apply skip_resumes.
  - intros g q. unfold parse_step. cbn [ps_scanner st2 lex].
    cbn [ps_production with_tok].
    assert (len (ps_production st2) = length keys) as -> by done.
    by rewrite Hlen.
Qed.

(** X12.  A line whose right-hand side string is empty, or has 256
    bytes or more, is skipped with a warning: the parser resumes at
    [initial] behind the end of the line, with the table and the error
    count it had before the line. *)
Theorem bad_string_skipped (st : parse_state) (d : nat)
    (keys : list xkb_keysym_t) (str : list byte) (rest : scanner) :
  keys ≠ [] → length keys ≤ MAX_LHS_LEN →
  ps_scanner st =
    (TOK_LHS_KEYSYM <$> keys) ++ TOK_COLON :: TOK_STRING str :: rest →
  starts_with_nul str = true ∨ 256 ≤ length (strlen_prefix str) →
  ∃ st_w,
    ps_tok st_w = TOK_STRING str ∧ ps_scanner st_w = rest ∧
    ps_compose st_w = ps_compose st ∧
    ps_num_errors st_w = ps_num_errors st ∧
    ps_log st_w = ps_log st ++ [string_warning str] ∧
    (∀ r, returns L_initial st d r ↔
          returns L_initial (skip_line rest st_w) d r) ∧
    ps_compose (skip_line rest st_w) = ps_compose st ∧
    ps_num_errors (skip_line rest st_w) = ps_num_errors st.
Proof.
  intros Hne Hlen Hs Hbad.
  destruct (read_line_lhs open_file d st keys
              (TOK_COLON :: TOK_STRING str :: rest))
    as [tok Hread]; [done | done | done |].
  set (st2 := {| ps_tok := tok;
                 ps_production :=
                   extend_lhs (clear_production (ps_production st)) keys;
                 ps_num_errors := ps_num_errors st;
                 ps_compose := ps_compose st;
                 ps_scanner := TOK_COLON :: TOK_STRING str :: rest;
                 ps_log := ps_log st |}) in Hread.
  set (st3 := with_tok st2 TOK_COLON (TOK_STRING str :: rest)).
  set (st4 := with_tok st3 (TOK_STRING str) rest).
  set (st_w := logging
                 (if starts_with_nul str then st4
                  else with_production st4
                         (copy_string (ps_production st4) str false))
                 [string_warning str]).
  exists st_w.
  do 5 (split; [unfold st_w; by destruct (starts_with_nul str) |]).
  destruct (skip_line_facts rest st_w) as (H1 & H2 & _).
  split; [| rewrite H1, H2; unfold st_w;
            by destruct (starts_with_nul str)].
  intros r. rewrite Hread.
  rewrite (parse_returns_jump open_file L_lhs st2 d L_rhs st3).
  2: { intros g q. unfold parse_step. cbn [ps_scanner st2 lex].
       cbn [ps_production with_tok].
       assert (len (ps_production st2) = length keys) as -> by done.
       by destruct keys. }
  rewrite (parse_returns_jump open_file L_rhs st3 d L_skip st_w).
  - apply skip_resumes. unfold st_w. by destruct (starts_with_nul str).
  - intros g q. unfold parse_step. cbn [ps_scanner st3 with_tok lex].
    cbn [ps_production with_tok].
    assert (has_string (ps_production st3) = false) as -> by done.
    unfold st_w, string_warning.
    destruct (starts_with_nul str) eqn:E.
    + done.
    + destruct Hbad as [? | Hbad]; [done |].
      apply Nat.leb_le in Hbad. by rewrite Hbad.
Qed.

End SkippedLines.

Section Includes.

Variable open_file : string → option scanner.

Local Abbreviation run := (parse_at open_file).
Local Abbreviation returns := (parse_returns open_file).

(** An [include] line up to the end of the line. *)
Lemma read_include d st path rest :
  ps_scanner st = include_line path ++ rest →
  ∃ st2,
    ps_compose st2 = ps_compose st ∧ ps_log st2 = ps_log st ∧
    ps_num_errors st2 = ps_num_errors st ∧
    ps_scanner st2 = TOK_END_OF_LINE :: rest ∧
    ∀ r, returns L_initial st d r ↔ returns (L_include_eol path) st2 d r.
Proof.
  intros Hs. unfold include_line in Hs. simpl in Hs.
  set (st0 := with_production st (clear_production (ps_production st))).
  set (st1 := with_tok st0 TOK_INCLUDE
                (TOK_INCLUDE_STRING path :: TOK_END_OF_LINE :: rest)).
  set (st2 := with_tok st1 (TOK_INCLUDE_STRING path)
                (TOK_END_OF_LINE :: rest)).
  exists st2. do 4 (split; [done |]). intros r.
  rewrite (parse_returns_jump open_file L_initial st d L_initial_eol st0)
    by done.
  rewrite (parse_returns_jump open_file L_initial_eol st0 d L_include st1).
  2: { intros g q. unfold parse_step. unfold st0 at 1.
       cbn [ps_scanner with_production]. by rewrite Hs. }
  by rewrite (parse_returns_jump open_file L_include st1 d
                (L_include_eol path) st2).
Qed.

(** X13.  An [include] line that names a file that cannot be opened
    makes [parse] return false at once: the rest of the file is not read,
    the table is as it was before the line, and the log gains the error
    of [do_include] and the final error of [parse]. *)
Theorem include_unopenable_fails (st : parse_state) (d : nat)
    (path : string) (rest : scanner) :
  d < MAX_INCLUDE_DEPTH → open_file path = None →
  ps_scanner st = include_line path ++ rest →
  ∃ st',
    parse_returns open_file L_initial st d (false, st') ∧
    ps_compose st' = ps_compose st ∧
    ps_log st' = ps_log st ++ [err_include_open; err_failed_to_parse] ∧
    ps_scanner st' = rest.
Proof.
  intros Hd Hopen Hs.
  destruct (read_include d st path rest Hs)
    as (st2 & G1 & G2 & G3 & G4 & G5).
  set (st3 := with_tok st2 TOK_END_OF_LINE rest).
  set (st4 := with_compose st3 (ps_compose st3)
                (ps_log st3 ++ [err_include_open])).
  exists (logging st4 [err_failed_to_parse]).
  split; [| split; [| split]].
  - rewrite G5.
    rewrite (parse_returns_jump open_file (L_include_eol path) st2 d
               L_fail st4).
    + by exists 1.
    + intros g q. unfold parse_step. rewrite G4. cbn [lex].
      unfold do_include_with. rewrite Hopen.
      destruct (MAX_INCLUDE_DEPTH <=? d) eqn:E; [| done].
      apply Nat.leb_le in E. lia.
  - simpl. done.
  - simpl. rewrite G2. by rewrite <- app_assoc.
  - done.
Qed.

(** X14.  An [include] line that names a file that can be opened: when
    the parse of that file succeeds, the parser goes on behind the line
    with the table and the log the included file has left and with its
    own error count unchanged; when it fails, [parse] returns false with
    that table. *)
Theorem include_continues (st : parse_state) (d : nat) (path : string)
    (s rest : scanner) (ok : bool) (st_in : parse_state) :
  d < MAX_INCLUDE_DEPTH → open_file path = Some s →
  ps_scanner st = include_line path ++ rest →
  parse_returns open_file L_initial
    (parse_entry (ps_compose st) s (ps_log st)) d (ok, st_in) →
  ∃ st',
    ps_compose st' = ps_compose st_in ∧ ps_log st' = ps_log st_in ∧
    ps_num_errors st' = ps_num_errors st ∧ ps_scanner st' = rest ∧
    if ok
    then ∀ r, parse_returns open_file L_initial st d r ↔
              parse_returns open_file L_initial st' d r
    else parse_returns open_file L_initial st d
           (false, logging st' [err_failed_to_parse]).
Proof.
  intros Hd Hopen Hs Hin.
  destruct (read_include d st path rest Hs)
    as (st2 & G1 & G2 & G3 & G4 & G5).
  set (st3 := with_tok st2 TOK_END_OF_LINE rest).
  set (st' := with_compose st3 (ps_compose st_in) (ps_log st_in)).
  exists st'. do 4 (split; [done |]).
  assert (∀ fuel g r,
    parse_step open_file g
      (λ c s lg d', run fuel L_initial (parse_entry c s lg) d')
      (L_include_eol path) st2 d = Some r →
    run fuel L_initial (parse_entry (ps_compose st) s (ps_log st)) d
      = Some (ok, st_in) ∧
    g (if ok then L_initial else L_fail) st' = Some r) as Hfwd.
  { intros fuel g r H. unfold parse_step in H. rewrite G4 in H.
    cbn [lex] in H. unfold do_include_with, post_increment in H.
    rewrite Hopen in H.
    destruct (MAX_INCLUDE_DEPTH <=? d) eqn:E;
      [apply Nat.leb_le in E; lia |].
    cbn [ps_compose ps_log with_tok] in H. rewrite G1, G2 in H.
    destruct (run fuel L_initial
                (parse_entry (ps_compose st) s (ps_log st)) d)
      as [[ok' st_in'] |] eqn:Hrun; [| done].
    assert ((ok', st_in') = (ok, st_in)) as Heq.
    { eapply parse_returns_unique; [| exact Hin]. by exists fuel. }
    inversion Heq; subst ok' st_in'. split; [done |].
    cbn [mbind option_bind] in H. by destruct ok. }
  assert (∀ fuel g r,
    run fuel L_initial (parse_entry (ps_compose st) s (ps_log st)) d
      = Some (ok, st_in) →
    g (if ok then L_initial else L_fail) st' = Some r →
    parse_step open_file g
      (λ c s lg d', run fuel L_initial (parse_entry c s lg) d')
      (L_include_eol path) st2 d = Some r) as Hbwd.
  { intros fuel g r Hrun H. unfold parse_step. rewrite G4.
    cbn [lex]. unfold do_include_with, post_increment.
    rewrite Hopen.
    destruct (MAX_INCLUDE_DEPTH <=? d) eqn:E;
      [apply Nat.leb_le in E; lia |].
    cbn [ps_compose ps_log with_tok]. rewrite G1, G2, Hrun.
    cbn [mbind option_bind]. by destruct ok. }
  destruct Hin as [fuel_in Hrun_in].
  destruct ok.
  - intros r. rewrite G5, parse_returns_step. split.
    + intros [fuel H]. apply Hfwd in H as [_ H]. by exists fuel.
    + intros [fuel H]. exists (fuel `max` fuel_in). apply Hbwd.
      * eapply parse_at_le; [| exact Hrun_in]. lia.
      * eapply parse_at_le; [| exact H]. lia.
  - apply G5, parse_returns_step. exists (S fuel_in). apply Hbwd.
    + eapply parse_at_le; [| exact Hrun_in]. lia.
    + done.
Qed.

End Includes.

Lemma too_many_keysyms_skipped_witness :
  ∃ st_w,
    ps_log st_w = [warn_too_many_keysyms] ∧
    (∀ r, parse_returns no_files L_initial
            (parse_entry xkb_compose_new
               ((TOK_LHS_KEYSYM <$> ten_keysyms) ++
                TOK_LHS_KEYSYM 107%N ::
                [TOK_COLON; TOK_RHS_KEYSYM 120%N; TOK_END_OF_LINE]) [])
            0 r ↔
          parse_returns no_files L_initial
            (skip_line [TOK_COLON; TOK_RHS_KEYSYM 120%N; TOK_END_OF_LINE]
               st_w) 0 r) ∧
    ps_compose
      (skip_line [TOK_COLON; TOK_RHS_KEYSYM 120%N; TOK_END_OF_LINE] st_w)
      = xkb_compose_new.
Proof.
  destruct (too_many_keysyms_skipped no_files
              (parse_entry xkb_compose_new
                 ((TOK_LHS_KEYSYM <$> ten_keysyms) ++
                  TOK_LHS_KEYSYM 107%N ::
                  [TOK_COLON; TOK_RHS_KEYSYM 120%N; TOK_END_OF_LINE]) [])
              0 ten_keysyms 107%N
              [TOK_COLON; TOK_RHS_KEYSYM 120%N; TOK_END_OF_LINE])
    as (st_w & _ & _ & _ & _ & H5 & H6 & H7 & _);
    [reflexivity | reflexivity |].
  exists st_w. split; [exact H5 |]. split; [exact H6 | exact H7].
Defined.

Lemma bad_string_skipped_witness :
  ∃ st_w,
    ps_log st_w = [warn_empty_string] ∧
    (∀ r, parse_returns no_files L_initial
            (parse_entry xkb_compose_new
               [TOK_LHS_KEYSYM 65%N; TOK_COLON; TOK_STRING [];
                TOK_END_OF_LINE] []) 0 r ↔
          parse_returns no_files L_initial
            (skip_line [TOK_END_OF_LINE] st_w) 0 r) ∧
    ps_compose (skip_line [TOK_END_OF_LINE] st_w) = xkb_compose_new.
Proof.
  destruct (bad_string_skipped no_files
              (parse_entry xkb_compose_new
                 [TOK_LHS_KEYSYM 65%N; TOK_COLON; TOK_STRING [];
                  TOK_END_OF_LINE] [])
              0 [65%N] [] [TOK_END_OF_LINE])
    as (st_w & _ & _ & _ & _ & H5 & H6 & H7 & _).
  - done.
  - unfold MAX_LHS_LEN. simpl. lia.
  - reflexivity.
  - by left.
  - exists st_w. split; [exact H5 |]. split; [exact H6 | exact H7].
Defined.

Lemma include_unopenable_fails_witness :
  ∃ st',
    parse_returns no_files L_initial
      (parse_entry xkb_compose_new
         (include_line "f" ++ line_keysym_then_string) []) 0 (false, st') ∧
    ps_compose st' = xkb_compose_new ∧
    ps_log st' = [] ++ [err_include_open; err_failed_to_parse] ∧
    ps_scanner st' = line_keysym_then_string.
Proof.
  apply (include_unopenable_fails no_files
           (parse_entry xkb_compose_new
              (include_line "f" ++ line_keysym_then_string) [])
           0 "f" line_keysym_then_string).
  - unfold MAX_INCLUDE_DEPTH. lia.
  - reflexivity.
  - reflexivity.
Defined.

Lemma include_continues_witness :
  ∃ st_in st',
    parse_returns nested_files L_initial
      (parse_entry xkb_compose_new
         [TOK_LHS_KEYSYM 65%N; TOK_COLON; TOK_RHS_KEYSYM 120%N;
          TOK_END_OF_LINE] []) 0 (true, st_in) ∧
    ps_compose st' = table_A_x ∧ ps_num_errors st' = 0 ∧
    ∀ r, parse_returns nested_files L_initial
           (parse_entry xkb_compose_new (include_line "f6") []) 0 r ↔
         parse_returns nested_files L_initial st' 0 r.
Proof.
  assert (∃ st_in,
    parse_returns nested_files L_initial
      (parse_entry xkb_compose_new
         [TOK_LHS_KEYSYM 65%N; TOK_COLON; TOK_RHS_KEYSYM 120%N;
          TOK_END_OF_LINE] []) 0 (true, st_in) ∧
    ps_compose st_in = table_A_x) as (st_in & Hin & Hc).
  { eexists. split; [exists 20; reflexivity | reflexivity]. }
  destruct (include_continues nested_files
              (parse_entry xkb_compose_new (include_line "f6") [])
              0 "f6"
              [TOK_LHS_KEYSYM 65%N; TOK_COLON; TOK_RHS_KEYSYM 120%N;
               TOK_END_OF_LINE] [] true st_in)
    as (st' & H1 & _ & H3 & _ & H5).
  - unfold MAX_INCLUDE_DEPTH. lia.
  - reflexivity.
  - by rewrite app_nil_r.
  - exact Hin.
  - exists st_in, st'. split; [exact Hin |].
    split; [by rewrite H1 |]. split; [exact H3 | exact H5].
Defined.

(** ** Sequences and the productions behind them *)

(** ** One sequence per node *)

Lemma chain_to_sibling t k i j : chain_to t k i j → i = j ∨ sibling t i j.
Proof.
  induction 1 as [| i n j Hi _ Hn _ IH]; [by left |]. right.
  destruct IH as [<- | Hs].
  - by eapply sibling_next.
  - by eapply sibling_left.
Qed.

Lemma sibling_head_unique bound t h h' j :
  tree_inv bound t → chain_head t h → chain_head t h' →
  sibling t h j → sibling t h' j → h = h'.
Proof.
  intros Hinv Hh Hh' Hs. revert h' Hh'.
  induction Hs as [h n Hi Hn | h j n Hs IH Hj Hn]; intros h' Hh' Hs';
    apply sibling_target in Hs' as (m & nm & Hm & Hnm & Hnz & Hor).
  - assert (m = h) as ->.
    { eapply (inv_next_inj _ _ Hinv); eauto; congruence. }
    destruct Hor as [-> | Hs']; [done |].
    by apply chain_head_no_sibling in Hs'.
  - assert (m = j) as ->.
    { eapply (inv_next_inj _ _ Hinv); eauto; congruence. }
    destruct Hor as [-> | Hs']; [| by apply IH].
    by apply chain_head_no_sibling in Hs.
Qed.

Lemma chain_to_head_unique bound t k k' h h' j :
  tree_inv bound t → chain_head t h → chain_head t h' →
  chain_to t k h j → chain_to t k' h' j → h = h'.
Proof.
  intros Hinv Hh Hh' Hc Hc'.
  apply chain_to_sibling in Hc as [-> | Hs];
    apply chain_to_sibling in Hc' as [-> | Hs']; [done | | |].
  - by apply chain_head_no_sibling in Hs'.
  - by apply chain_head_no_sibling in Hs.
  - by eapply sibling_head_unique.
Qed.

(** A path taken apart at its last keysym. *)
Lemma trie_path_last_step t keys i j :
  trie_path t keys i j →
  ∃ front k h,
    keys = front ++ [k] ∧ chain_to t k h j ∧
    (front = [] ∧ h = i ∨
     ∃ a na, trie_path t front i a ∧ t !! a = Some na ∧
             successor na ≠ 0 ∧ h = successor na).
Proof.
  induction 1 as [k i j Hc | k keys i j n j' Hc Hj Hs _ IH].
  - exists [], k, i. split; [done |]. split; [done | by left].
  - destruct IH as (front & k' & h & -> & Hc' & Hor).
    exists (k :: front), k', h. split; [done |]. split; [done |]. right.
    destruct Hor as [[-> ->] | (a & na & Hp & Ha & Hsa & ->)].
    + exists j, n. split; [by apply trie_path_last | done].
    + exists a, na. split; [| done]. by eapply trie_path_more.
Qed.

Lemma trie_path_unique bound t :
  tree_inv bound t → succ_inj t →
  ∀ keys keys' j,
    trie_path t keys 0 j → trie_path t keys' 0 j → keys = keys'.
Proof.
  intros Hinv Hinj keys.
  induction keys as [| k0 front0 IH] using rev_ind; intros keys' j H1 H2.
  { inversion H1. }
  apply trie_path_last_step in H1
    as (front & k & h & E & Hc & Hor).
  apply app_inj_tail in E as [<- <-].
  apply trie_path_last_step in H2
    as (front' & k' & h' & -> & Hc' & Hor').
  destruct (chain_to_end _ _ _ _ Hc) as (nj & Hj & Hk).
  destruct (chain_to_end _ _ _ _ Hc') as (nj' & Hj' & Hk').
  assert (k0 = k') as -> by congruence.
  assert (chain_head t h) as Hh.
  { destruct Hor as [[_ ->] | (a & na & _ & Ha & _ & ->)];
      [apply chain_head_root | by eapply chain_head_successor]. }
  assert (chain_head t h') as Hh'.
  { destruct Hor' as [[_ ->] | (a & na & _ & Ha & _ & ->)];
      [apply chain_head_root | by eapply chain_head_successor]. }
  assert (h = h') as <- by (by eapply chain_to_head_unique).
  destruct Hor as [[-> ->] | (a & na & Hp & Ha & Hsa & ->)];
    destruct Hor' as [[-> E] | (a' & na' & Hp' & Ha' & Hsa' & E)];
    [done | congruence | congruence |].
  assert (a = a') as <- by (eapply Hinj; eauto).
  f_equal. by eapply IH.
Qed.

(** ** What a change of the node array leaves of the old one *)

Lemma reflected_refl t : reflected t t.
Proof. intros i n Hi _. eauto 10. Qed.

Lemma reflected_trans t1 t2 t3 :
  length t1 ≤ length t2 → 0 < length t1 →
  reflected t1 t2 → reflected t2 t3 → reflected t1 t3.
Proof.
  intros Hle Hpos H12 H23 i n3 Hi Hlt.
  destruct (H23 i n3 Hi ltac:(lia)) as (n2 & Hi2 & Hk2 & Hn2 & Hs2 & Hd2).
  destruct (H12 i n2 Hi2 Hlt) as (n1 & Hi1 & Hk1 & Hn1 & Hs1 & Hd1).
  exists n1. split; [done |]. split; [congruence |].
  split; [| split].
  - intros H. rewrite <- Hn2 by lia. apply Hn1. rewrite Hn2; lia.
  - intros H. rewrite <- Hs2 by lia. apply Hs1. rewrite Hs2; lia.
  - intros H. destruct (Hd2 H) as [<- <-]. apply Hd1.
    rewrite Hs2; lia.
Qed.

Lemma reflected_set_snoc (t : list node) e ne x y :
  t !! e = Some ne → keysym x = keysym ne →
  (next x < length t → next ne = next x) →
  (successor x < length t → successor ne = successor x) →
  (successor x = 0 → utf8 ne = utf8 x ∧ ks ne = ks x) →
  reflected t (<[e := x]> (t ++ [y])).
Proof.
  intros He Hk Hn Hs Hd i n' Hi Hlt. snoc_cases Hi.
  - exists ne. eauto.
  - exists n'. eauto 10.
  - lia.
Qed.

Lemma reflected_insert (t : list node) e ne x :
  t !! e = Some ne → keysym x = keysym ne → next x = next ne →
  successor x = successor ne → successor ne ≠ 0 ∨ x = ne →
  reflected t (<[e := x]> t).
Proof.
  intros He Hk Hn Hs Hd i n' Hi Hlt. upd_cases Hi.
  - exists ne. split; [done |]. split; [done |].
    split; [by rewrite Hn |]. split; [by rewrite Hs |].
    intros H. destruct Hd as [Hd | ->]; [congruence | done].
  - exists n'. eauto 10.
Qed.

Lemma succ_inj_set_snoc (t : list node) e ne x y :
  succ_inj t → t !! e = Some ne → successor y = 0 →
  successor x = successor ne ∨
  successor ne = 0 ∧ (∀ i n, t !! i = Some n → successor n ≠ successor x) →
  succ_inj (<[e := x]> (t ++ [y])).
Proof.
  intros Hinj He Hy Hx i j ni nj Hi Hj Hnz Heq.
  snoc_cases Hi; snoc_cases Hj; try done; try congruence.
  - destruct Hx as [Hx | [_ Hx]].
    + eapply Hinj; eauto; congruence.
    + exfalso. eapply Hx; eauto.
  - destruct Hx as [Hx | [_ Hx]].
    + eapply Hinj; eauto; congruence.
    + exfalso. eapply Hx; eauto.
  - by eapply Hinj.
Qed.

Lemma succ_inj_insert (t : list node) e ne x :
  succ_inj t → t !! e = Some ne → successor x = successor ne →
  succ_inj (<[e := x]> t).
Proof.
  intros Hinj He Hx i j ni nj Hi Hj Hnz Heq.
  upd_cases Hi; upd_cases Hj; try done.
  - eapply Hinj; eauto; congruence.
  - eapply Hinj; eauto; congruence.
  - by eapply Hinj.
Qed.

Lemma trie_path_le bound t keys i j :
  tree_inv bound t → trie_path t keys i j → i ≤ j.
Proof.
  intros Hinv. induction 1 as [k i j Hc | k keys i j n j' Hc Hj Hs _ IH].
  - by eapply chain_to_le.
  - pose proof (chain_to_le _ _ _ _ _ Hinv Hc).
    pose proof (inv_succ _ _ Hinv _ _ Hj Hs). lia.
Qed.

Lemma chain_to_reflected bound t t' k i j :
  tree_inv bound t' → reflected t t' →
  chain_to t' k i j → j < length t → chain_to t k i j.
Proof.
  intros Hinv Hr. induction 1 as [i n Hi Hk | i n j Hi Hk Hn Hc IH];
    intros Hlt.
  - destruct (Hr i n Hi Hlt) as (m & Hm & Hkm & _).
    eapply chain_here; [done | congruence].
  - pose proof (inv_next _ _ Hinv _ _ Hi Hn) as Hin.
    pose proof (chain_to_le _ _ _ _ _ Hinv Hc) as Hle.
    destruct (Hr i n Hi ltac:(lia)) as (m & Hm & Hkm & Hnm & _).
    specialize (Hnm ltac:(lia)).
    eapply chain_step; [done | congruence | congruence |].
    rewrite Hnm. by apply IH.
Qed.

Lemma trie_path_reflected bound t t' keys i j :
  tree_inv bound t' → reflected t t' →
  trie_path t' keys i j → j < length t → trie_path t keys i j.
Proof.
  intros Hinv Hr.
  induction 1 as [k i j Hc | k keys i j n j' Hc Hj Hs Hp IH]; intros Hlt.
  - apply trie_path_last. by eapply chain_to_reflected.
  - pose proof (inv_succ _ _ Hinv _ _ Hj Hs) as Hin.
    pose proof (trie_path_le _ _ _ _ _ Hinv Hp) as Hle.
    destruct (Hr j n Hj ltac:(lia)) as (m & Hm & _ & _ & Hsm & _).
    specialize (Hsm ltac:(lia)).
    eapply trie_path_more; [| exact Hm | congruence |].
    + eapply chain_to_reflected; eauto. lia.
    + rewrite Hsm. by apply IH.
Qed.

(** ** The shape of the changes *)

Lemma search_siblings_here fuel k t curr n :
  t !! curr = Some n → keysym n = k →
  search_siblings fuel k t curr = Some (t, curr).
Proof.
  intros H Hk. rewrite search_siblings_unfold, H. simpl.
  by rewrite Hk, N.eqb_refl.
Qed.

(** The search either leaves the array alone or sets one [next] link to
    the one node it appends. *)
Lemma search_siblings_shape fuel k : ∀ t curr t' curr',
  search_siblings fuel k t curr = Some (t', curr') →
  fits_u32 (length t') →
  t' = t ∨
  ∃ e ne, t !! e = Some ne ∧ next ne = 0 ∧
          t' = <[e := set_next ne (length t)]> (t ++ [fresh_node k]).
Proof.
  induction fuel as [| fuel IH]; intros t curr t' curr' H Hfit;
    rewrite search_siblings_unfold in H;
    destruct (t !! curr) as [nd |] eqn:Hnd; simpl in H; try done;
    destruct (N.eqb k (keysym nd)) eqn:Heq; try done.
  - inversion H; subst. by left.
  - inversion H; subst. by left.
  - destruct (Nat.eqb (next nd) 0) eqn:Hnext.
    + apply Nat.eqb_eq in Hnext.
      pose proof (lookup_lt_Some _ _ _ Hnd) as Hlt.
      assert (fits_u32 (S (length t))) as Hfit1.
      { pose proof H as Hlen. unfold add_node in Hlen.
        rewrite lookup_app_l, Hnd in Hlen by done. simpl in Hlen.
        apply search_siblings_length in Hlen.
        rewrite length_insert, length_app in Hlen. simpl in Hlen.
        unfold fits_u32 in *. lia. }
      unfold add_node in H.
      rewrite (u32_snoc _ _ Hfit1) in H.
      rewrite lookup_app_l, Hnd in H by done. simpl in H.
      destruct (lookup_set_snoc t curr (set_next nd (length t))
                  (fresh_node k) Hlt) as [Hat Hnew].
      rewrite search_siblings_found in H by exact Hnew.
      inversion H; subst t' curr'. right. by exists curr, nd.
    + simpl in H. by eapply IH.
Qed.

(** [descend] either leaves the array alone or sets one [successor] link
    to the one node it appends. *)
Lemma descend_shape t curr k' t' curr' w :
  descend t curr k' = Some (t', curr', w) →
  fits_u32 (length t') →
  ∃ nd, t !! curr = Some nd ∧
    (successor nd ≠ 0 ∧ t' = t ∨
     successor nd = 0 ∧
     ∃ ndc, keysym ndc = keysym nd ∧ next ndc = next nd ∧
       t' = <[curr := set_successor ndc (length t)]>
              (t ++ [fresh_node k'])).
Proof.
  intros H Hfit.
  pose proof (descend_length _ _ _ _ _ _ H) as Hlen.
  unfold descend in H.
  destruct (t !! curr) as [nd |] eqn:Hnd; simpl in H; [| done].
  pose proof (lookup_lt_Some _ _ _ Hnd) as Hlt.
  exists nd. split; [done |].
  destruct (Nat.eqb (successor nd) 0) eqn:Hsucc; cycle 1.
  { apply Nat.eqb_neq in Hsucc. inversion H; subst. by left. }
  apply Nat.eqb_eq in Hsucc. right. split; [done |].
  set (ndc := if negb (Nat.eqb (utf8 nd) 0) || negb (N.eqb (ks nd) 0)
              then set_ks (set_utf8 nd 0) XKB_KEY_NoSymbol else nd).
  exists ndc.
  assert (keysym ndc = keysym nd ∧ next ndc = next nd) as [Hc1 Hc2].
  { unfold ndc.
    by destruct (negb (Nat.eqb (utf8 nd) 0) || negb (N.eqb (ks nd) 0)). }
  split; [done |]. split; [done |].
  assert (fits_u32 (S (length (<[curr := ndc]> t)))) as Hfit1.
  { rewrite length_insert.
    assert (S (length t) ≤ length t') as Hle.
    { clear -H Hlt.
      destruct (negb (Nat.eqb (utf8 nd) 0) || negb (N.eqb (ks nd) 0));
        simpl in H;
        match type of H with
        | context [ (?l ++ [?x]) !! curr ] =>
            destruct ((l ++ [x]) !! curr); simpl in H; [| done]
        end;
        inversion H; subst;
        rewrite length_insert, length_app, length_insert; simpl; lia. }
    unfold fits_u32 in *. lia. }
  assert (t' = <[curr := set_successor ndc (length t)]>
                 (<[curr := ndc]> t ++ [fresh_node k'])) as ->.
  { unfold ndc in *.
    destruct (negb (Nat.eqb (utf8 nd) 0) || negb (N.eqb (ks nd) 0));
      simpl in H; rewrite (u32_snoc _ _ Hfit1) in H;
      rewrite lookup_app_l in H by (by rewrite length_insert);
      rewrite list_lookup_insert_eq in H by done; simpl in H;
      rewrite length_insert in H; by inversion H. }
  rewrite <- insert_app_l by done. apply list_insert_insert_eq.
Qed.

Lemma search_siblings_reflected fuel k t curr t' curr' :
  search_siblings fuel k t curr = Some (t', curr') →
  fits_u32 (length t') →
  reflected t t' ∧ (succ_inj t → succ_inj t').
Proof.
  intros H Hfit.
  destruct (search_siblings_shape _ _ _ _ _ _ H Hfit)
    as [-> | (e & ne & He & Hn & ->)].
  { split; [apply reflected_refl | done]. }
  split.
  - apply (reflected_set_snoc t e ne); simpl; [done | done | | done | done].
    intros; lia.
  - intros Hinj. apply (succ_inj_set_snoc t e ne); auto.
Qed.

Lemma descend_reflected bound t curr k' t' curr' w :
  tree_inv bound t → descend t curr k' = Some (t', curr', w) →
  fits_u32 (length t') →
  reflected t t' ∧ (succ_inj t → succ_inj t').
Proof.
  intros Hinv H Hfit.
  destruct (descend_shape _ _ _ _ _ _ H Hfit)
    as (nd & Hnd & [[_ ->] | (Hs & ndc & Hk & Hn & ->)]).
  { split; [apply reflected_refl | done]. }
  pose proof (lookup_lt_Some _ _ _ Hnd) as Hlt.
  split.
  - apply (reflected_set_snoc t curr nd); simpl;
      [done | done | congruence | intros; lia | intros; lia].
  - intros Hinj. apply (succ_inj_set_snoc t curr nd); [done | done | done |].
    right.
    split; [done |]. simpl. intros i n Hi E.
    assert (successor n ≠ 0) as Hnz by lia.
    pose proof (inv_succ _ _ Hinv _ _ Hi Hnz). lia.
Qed.

(** A node other than the one the search ends on is an old node, and is
    not a first node that carries the keysym. *)
Lemma search_siblings_others fuel k t curr t' curr' i n' :
  search_siblings fuel k t curr = Some (t', curr') →
  fits_u32 (length t') →
  t' !! i = Some n' → i ≠ curr' →
  i < length t ∧ (i = curr → keysym n' ≠ k).
Proof.
  intros H Hfit Hi Hne.
  destruct (search_siblings_spec _ _ _ _ _ _ H Hfit)
    as (Hk & _ & _ & Hsh).
  split.
  - destruct Hsh as [-> | (-> & Hlen & _)].
    + by eapply lookup_lt_Some.
    + apply lookup_lt_Some in Hi. lia.
  - intros -> Hkey.
    destruct (t !! curr) as [n |] eqn:Hn.
    + destruct (Hk _ _ Hn) as (n'' & Hn'' & Hkn & _).
      rewrite Hi in Hn''. inversion Hn''; subst n''.
      rewrite (search_siblings_here _ k _ _ n) in H by congruence.
      by inversion H.
    + rewrite search_siblings_unfold, Hn in H. done.
Qed.

(** What the loop over the left-hand side leaves of the old array, and
    which nodes it leaves without successor: old ones, and the one it
    ends on. *)
Lemma add_production_loop_reflected bound rest : ∀ k t curr t' curr' w,
  tree_inv bound t → 0 < bound →
  Forall (λ k, k ≠ XKB_KEY_NoSymbol) (k :: rest) →
  chain_head t curr →
  add_production_loop (k :: rest) t curr = Some (t', curr', w) →
  fits_u32 (length t') →
  reflected t t' ∧ (succ_inj t → succ_inj t') ∧
  (∀ i n', t' !! i = Some n' → successor n' = 0 → i ≠ curr' →
           i < length t ∧ (i = curr → keysym n' ≠ k)).
Proof.
  induction rest as [| k' rest' IH];
    intros k t curr t' curr' w Hinv Hb Hks Hhead H Hfit;
    rewrite add_production_loop_cons in H;
    apply Forall_cons in Hks as [Hk Hks];
    (destruct (search_siblings (S (length t)) k t curr)
       as [[t1 curr1] |] eqn:Hsearch; [| done]);
    cbn [mbind option_bind] in H.
  - inversion H; subst t1 curr1 w. clear H.
    destruct (search_siblings_reflected _ _ _ _ _ _ Hsearch Hfit)
      as [Hr Hi].
    split; [done |]. split; [done |].
    intros i n' Hi' _ Hne. by eapply search_siblings_others.
  - destruct (descend t1 curr1 k') as [[[t2 curr2] w2] |] eqn:Hd; [| done].
    cbn [mbind option_bind] in H.
    destruct (add_production_loop (k' :: rest') t2 curr2)
      as [[[t3 curr3] w3] |] eqn:Hrec; [| done].
    cbn [mbind option_bind] in H. inversion H; subst t3 curr3 w. clear H.
    pose proof (add_production_loop_length _ _ _ _ _ _ Hrec) as Hlen3.
    pose proof (descend_length _ _ _ _ _ _ Hd) as Hlen2.
    pose proof (search_siblings_length _ _ _ _ _ _ Hsearch) as Hlen1.
    assert (0 < length t) as Hpos.
    { destruct (inv_root _ _ Hinv) as (r & Hr & _).
      by eapply lookup_lt_Some. }
    assert (fits_u32 (length t2)) as Hfit2
      by (unfold fits_u32 in *; lia).
    assert (fits_u32 (length t1)) as Hfit1
      by (unfold fits_u32 in *; lia).
    destruct (search_siblings_reflected _ _ _ _ _ _ Hsearch Hfit1)
      as [Hr1 Hi1].
    pose proof Hsearch as Hsearch'.
    eapply search_siblings_inv in Hsearch' as [Hinv1 (n1 & Hn1 & Hkey)];
      eauto; cycle 1.
    { intros i ni Hs _. by apply chain_head_no_sibling in Hs. }
    assert (curr1 ≠ 0) as Hcurr1.
    { intros ->. destruct (inv_root _ _ Hinv1) as (r & Hr & Hk0 & _).
      congruence. }
    destruct (descend_spec _ _ _ _ _ _ Hd Hfit2)
      as (_ & (n2 & Hn2 & Hs2 & Hnz2) & _ & _ & Hsh2).
    destruct (descend_reflected _ _ _ _ _ _ _ Hinv1 Hd Hfit2)
      as [Hr2 Hi2].
    apply Forall_cons in Hks as Hks'. destruct Hks' as [Hk' _].
    eapply descend_inv in Hd as [Hinv2 Hhead2]; [| done ..].
    destruct (IH k' t2 curr2 t' curr' w3 Hinv2 Hb Hks Hhead2 Hrec Hfit)
      as (Hr3 & Hi3 & Hl3).
    split; [| split].
    + eapply reflected_trans; [| done | | exact Hr3]; [lia |].
      eapply reflected_trans; eauto.
    + auto.
    + intros i n' Hi' Hleaf Hne.
      destruct (Hl3 i n' Hi' Hleaf Hne) as [Hlt2 Hk2].
      destruct (Hr3 i n' Hi' Hlt2) as (m2 & Hm2 & Hkm2 & _ & Hsm2 & _).
      specialize (Hsm2 ltac:(lia)).
      assert (i < length t1) as Hlt1.
      { destruct Hsh2 as [[-> _] | (E2 & El2 & Hnew2)]; [done |].
        destruct (decide (i = curr2)) as [-> | Hne2]; [| lia].
        rewrite Hnew2 in Hm2. inversion Hm2; subst m2.
        exfalso. by apply Hk2. }
      destruct (Hr2 i m2 Hm2 Hlt1) as (m1 & Hm1 & Hkm1 & _ & Hsm1 & _).
      assert (i ≠ curr1) as Hne1.
      { intros ->. rewrite Hn2 in Hm2. inversion Hm2; subst m2. lia. }
      destruct (search_siblings_others _ _ _ _ _ _ i m1 Hsearch Hfit1
                  Hm1 Hne1) as [Hlt Hkk].
      split; [done |]. intros E. rewrite <- Hkm2, <- Hkm1. by apply Hkk.
Qed.

(** ** Every result comes from a production *)

Lemma backed_mono ps c p : backed ps c → backed (ps ++ [p]) c.
Proof.
  intros H keys j n Hp Hj Hs Hj0.
  destruct (H keys j n Hp Hj Hs Hj0) as (p0 & Hin & Hrest).
  exists p0. split; [| done]. apply elem_of_app. by left.
Qed.

Lemma stores_kept c c' n n' p extra :
  stores c n p → utf8 n' = utf8 n → ks n' = ks n →
  utf8 n < length (compose_utf8 c) →
  compose_utf8 c' = compose_utf8 c ++ extra →
  stores c' n' p.
Proof.
  intros [Hk Hu] Eu Ek Hlt Hblob. split; [congruence |].
  destruct (has_string p); [| congruence].
  destruct Hu as [Hnz Hs]. split; [congruence |].
  rewrite Eu, Hblob, drop_app_le by lia. by apply c_string_app.
Qed.

Lemma links_kept_insert_back (t : list node) e ne x :
  t !! e = Some ne → keysym x = keysym ne → next x = next ne →
  successor x = successor ne → links_kept (<[e := x]> t) t.
Proof.
  intros He Hk Hn Hs i n Hi. upd_cases Hi.
  - exists ne. by rewrite Hk, Hn, Hs.
  - exists n. done.
Qed.

(** [add_production] keeps the two facts that tie a table to the
    productions it was given. *)
Lemma add_production_backed ps c p c' w :
  built c → succ_inj (compose_tree c) → backed ps c →
  valid_lhs p → add_production c p = Some (c', w) → fits c' →
  succ_inj (compose_tree c') ∧ backed (ps ++ [p]) c'.
Proof.
  intros Hb Hinj Hback [Hne Hks] H [Hfit_t Hfit_b].
  destruct (built_inv _ Hb) as [Hinv Hhead Hlast].
  assert (0 < length (compose_utf8 c)) as Hpos
    by (by eapply lookup_lt_Some).
  unfold add_production in H.
  destruct (add_production_loop (lhs p) (compose_tree c) 0)
    as [[[t curr] w0] |] eqn:Hloop; [| done].
  cbn [mbind option_bind] in H.
  destruct (t !! curr) as [nd |] eqn:Hnd; [| done].
  cbn [mbind option_bind] in H.
  assert (length t = length (compose_tree c')) as Hlen.
  { destruct (negb (Nat.eqb (successor nd) 0)); [by inversion H |].
    destruct (negb (Nat.eqb (utf8 nd) 0) || negb (N.eqb (ks nd) 0));
      [by inversion H |].
    destruct (has_string p); inversion H; simpl;
      by rewrite length_insert. }
  rewrite <- Hlen in Hfit_t.
  destruct (add_production_loop_spec _ _ _ _ _ _ Hne Hloop Hfit_t)
    as (_ & Hpath & _ & _).
  destruct (add_production_loop_fresh _ _ _ _ _ _ _ Hinv Hpos Hks Hne
              (chain_head_root _) Hloop Hfit_t) as (_ & Hsh).
  destruct (add_production_loop_inv _ _ _ _ _ _ _ Hinv Hpos Hks Hne
              (chain_head_root _) Hloop Hfit_t) as (Hinv1 & Hcurr & _).
  destruct (lhs p) as [| k rest] eqn:Hlhs; [done |].
  destruct (add_production_loop_reflected _ _ _ _ _ _ _ _ Hinv Hpos Hks
              (chain_head_root _) Hloop Hfit_t) as (Hr & Hi & Hl).
  specialize (Hi Hinj).
  assert (c = {| compose_utf8 := compose_utf8 c;
                 compose_tree := compose_tree c |}) as Hc by (by destruct c).
  destruct (Nat.eqb (successor nd) 0) eqn:Hsucc; simpl in H; cycle 1.
  { inversion H; subst c' w. clear H. simpl.
    destruct Hsh as [[-> ->] | (_ & n & Hn & Hs & _)].
    - split; [done |]. rewrite <- Hc. by apply backed_mono.
    - rewrite Hnd in Hn. inversion Hn; subst n.
      rewrite Hs in Hsucc. done. }
  apply Nat.eqb_eq in Hsucc.
  destruct (negb (Nat.eqb (utf8 nd) 0) || negb (N.eqb (ks nd) 0))
    eqn:Hdata.
  { inversion H; subst c' w. clear H. simpl.
    destruct Hsh as [[-> ->] | (_ & n & Hn & _ & Hu & Hk0)].
    - split; [done |]. rewrite <- Hc. by apply backed_mono.
    - rewrite Hnd in Hn. inversion Hn; subst n.
      rewrite Hu, Hk0 in Hdata. done. }
  apply orb_false_iff in Hdata as [Hu Hk0].
  apply negb_false_iff, Nat.eqb_eq in Hu.
  apply negb_false_iff, N.eqb_eq in Hk0.
  set (nd1 := if has_string p
              then set_utf8 nd (u32 (length (compose_utf8 c))) else nd).
  set (nd2 := if has_keysym p then set_ks nd1 (prod_keysym p) else nd1).
  assert (compose_tree c' = <[curr := nd2]> t ∧
          compose_utf8 c' =
            (if has_string p
             then compose_utf8 c ++ strlen_prefix (prod_string p) ++ [x00]
             else compose_utf8 c)) as [Ht Hblob].
  { unfold nd2, nd1. destruct (has_string p); by inversion H. }
  assert (keysym nd2 = keysym nd ∧ next nd2 = next nd ∧
          successor nd2 = successor nd) as (E1 & E2 & E3).
  { unfold nd2, nd1. by destruct (has_keysym p), (has_string p). }
  assert (∃ extra, compose_utf8 c' = compose_utf8 c ++ extra)
    as [extra Hextra].
  { rewrite Hblob. destruct (has_string p); [eauto |].
    exists []. by rewrite app_nil_r. }
  rewrite Ht. split; [by eapply succ_inj_insert |].
  intros keys j n' Hp Hj Hleaf Hj0. rewrite Ht in Hp, Hj.
  assert (trie_path t keys 0 j) as Hp1.
  { eapply trie_path_kept; [| exact Hp].
    by eapply links_kept_insert_back. }
  destruct (decide (j = curr)) as [-> | Hjc].
  - exists p. split; [apply elem_of_app; right; by left |].
    split.
    { rewrite Hlhs.
      eapply trie_path_unique; [exact Hinv1 | exact Hi | | exact Hp1].
      exact Hpath. }
    rewrite list_lookup_insert_eq in Hj by (by eapply lookup_lt_Some).
    inversion Hj; subst n'. split.
    + unfold nd2, nd1. by destruct (has_keysym p), (has_string p).
    + destruct (has_string p) eqn:Hstr.
      * assert (u32 (length (compose_utf8 c)) = length (compose_utf8 c))
          as Hu32.
        { apply u32_small. rewrite Hblob in Hfit_b.
          unfold fits_u32 in Hfit_b. rewrite !length_app in Hfit_b.
          simpl in Hfit_b. lia. }
        assert (utf8 nd2 = length (compose_utf8 c)) as ->.
        { unfold nd2, nd1. by destruct (has_keysym p). }
        split; [lia |]. rewrite Hblob, drop_app_length.
        change (strlen_prefix (prod_string p) ++ [x00])
          with (strlen_prefix (prod_string p) ++ x00 :: []).
        apply c_string_strlen_prefix.
      * unfold nd2, nd1. by destruct (has_keysym p).
  - rewrite list_lookup_insert_ne in Hj by done.
    destruct (Hl j n' Hj Hleaf Hjc) as [Hlt _].
    destruct (Hr j n' Hj Hlt) as (m & Hm & Hkm & _ & Hsm & Hdm).
    assert (successor m = 0) as Hm0.
    { rewrite Hsm; [done |]. rewrite Hleaf.
      destruct (inv_root _ _ Hinv) as (r & Hroot & _).
      by eapply lookup_lt_Some. }
    destruct (Hdm Hleaf) as [Hum Hkm0].
    assert (trie_path (compose_tree c) keys 0 j) as Hp0
      by (by eapply trie_path_reflected).
    destruct (Hback keys j m Hp0 Hm Hm0 Hj0) as (p0 & Hin & Hl0 & Hst).
    exists p0. split; [apply elem_of_app; by left |]. split; [done |].
    apply (stores_kept c c' m n' p0 extra);
      [done | congruence | congruence | | done].
    by eapply (inv_offset _ _ Hinv).
Qed.

Lemma built_from_backed ps c :
  built_from ps c →
  built c ∧ succ_inj (compose_tree c) ∧ backed ps c.
Proof.
  induction 1 as [| ps c p c' w _ (Hb & Hinj & Hback) Hp Hadd Hfit].
  - split; [apply built_new |]. split.
    + intros [| i] j ni nj Hi Hj Hs; simpl in Hi; [| done].
      by inversion Hi; subst.
    + intros keys j n Hp Hj Hs Hj0.
      destruct j as [| j]; [done |]. done.
  - split; [by eapply built_add |].
    by eapply add_production_backed.
Qed.

(** ** From a composed sequence back to its path *)

Section ComposedPaths.

Variable is_modifier : xkb_keysym_t → bool.

Lemma composes_path state keys state' :
  composes is_modifier state keys state' →
  Forall (λ k, is_modifier k = false) keys →
  ∀ n, compose_tree (compose state) !! context state = Some n →
    compose state' = compose state ∧
    trie_path (compose_tree (compose state)) keys (successor n)
      (context state') ∧
    context state' ≠ 0 ∧
    ∃ n', compose_tree (compose state) !! context state' = Some n' ∧
          successor n' = 0.
Proof.
  induction 1 as [state k state1 Hfeed Hstatus
                 | state k state1 keys state' Hfeed Hstatus _ IH];
    intros Hmod n Hn; apply Forall_cons in Hmod as [Hm Hmod].
  - destruct (get_status_cases _ _ Hstatus ltac:(by right))
      as (Hctx & _ & n1 & Hn1 & _ & Hleaf).
    destruct (feed_cases _ _ _ _ Hfeed)
      as [[Hmk _] | (_ & n0 & j & nj & Hn0 & Hloop & Hnj & ->)];
      [congruence |].
    simpl in *. rewrite Hn in Hn0. inversion Hn0; subst n0.
    destruct (N.eqb (keysym nj) k) eqn:Hkey; simpl in *; [| done].
    apply N.eqb_eq in Hkey.
    split; [done |]. split; [| split; [done |]].
    + apply trie_path_last. by eapply feed_loop_found.
    + exists n1. split; [done | by apply Hleaf].
  - destruct (get_status_cases _ _ Hstatus ltac:(by left))
      as (Hctx & _ & n1 & Hn1 & Hint & _).
    destruct (feed_cases _ _ _ _ Hfeed)
      as [[Hmk _] | (_ & n0 & j & nj & Hn0 & Hloop & Hnj & ->)];
      [congruence |].
    simpl in *. rewrite Hn in Hn0. inversion Hn0; subst n0.
    destruct (N.eqb (keysym nj) k) eqn:Hkey; simpl in *; [| done].
    apply N.eqb_eq in Hkey.
    destruct (IH Hmod n1 Hn1) as (Hc & Hp & Hnz & Hend).
    split; [done |]. split; [| done].
    eapply trie_path_more; [| exact Hn1 | by apply Hint | exact Hp].
    by eapply feed_loop_found.
Qed.

End ComposedPaths.

(** What the accessors give on a node that holds the right-hand side of
    a production. *)
Lemma stores_results (to_utf8 : xkb_keysym_t → nat → list byte * Z)
    c prev j n p size :
  compose_tree c !! j = Some n → stores c n p →
  xkb_compose_state_get_one_sym (State c prev j) =
    Some (if has_keysym p then prod_keysym p else XKB_KEY_NoSymbol) ∧
  (has_string p = true →
   xkb_compose_state_get_utf8 to_utf8 (State c prev j) size =
     Some (snprintf_s size (strlen_prefix (prod_string p)))) ∧
  (has_string p = false → has_keysym p = true →
   prod_keysym p ≠ XKB_KEY_NoSymbol →
   xkb_compose_state_get_utf8 to_utf8 (State c prev j) size =
     Some (to_utf8 (prod_keysym p) size)).
Proof.
  intros Hn [Hk Hu].
  unfold xkb_compose_state_get_one_sym, xkb_compose_state_get_utf8.
  simpl. rewrite Hn. simpl. split; [by rewrite Hk |]. split.
  - intros Hstr. rewrite Hstr in Hu. destruct Hu as [Hu Hs].
    apply Nat.eqb_neq in Hu. rewrite Hu. simpl. by rewrite Hs.
  - intros Hstr Hkey Hnz. rewrite Hstr in Hu. rewrite Hkey in Hk.
    rewrite Hu, Hk. simpl. apply N.eqb_neq in Hnz.
    unfold XKB_KEY_NoSymbol in Hnz. by rewrite Hnz.
Qed.

(** X20.  Nothing composes that was not added: over a table grown from
    the empty one by [add_production], a sequence of keysyms, none a
    modifier, that gives COMPOSING after each keysym but the last and
    COMPOSED after the last is the left-hand side of one of the
    productions given, and [get_one_sym] and [get_utf8] return the keysym
    and the string of that production. *)
Theorem composed_sequence_was_added
    (is_modifier : xkb_keysym_t → bool)
    (to_utf8 : xkb_keysym_t → nat → list byte * Z)
    (ps : list production) (c : xkb_compose)
    (keys : list xkb_keysym_t) (state : xkb_compose_state) (size : nat) :
  built_from ps c →
  Forall (λ k, is_modifier k = false) keys →
  composes is_modifier (xkb_compose_state_new c) keys state →
  ∃ p, p ∈ ps ∧ lhs p = keys ∧
    xkb_compose_state_get_one_sym state =
      Some (if has_keysym p then prod_keysym p else XKB_KEY_NoSymbol) ∧
    (has_string p = true →
     xkb_compose_state_get_utf8 to_utf8 state size =
       Some (snprintf_s size (strlen_prefix (prod_string p)))) ∧
    (has_string p = false → has_keysym p = true →
     prod_keysym p ≠ XKB_KEY_NoSymbol →
     xkb_compose_state_get_utf8 to_utf8 state size =
       Some (to_utf8 (prod_keysym p) size)).
Proof.
  intros Hfrom Hmod Hrun.
  destruct (built_from_backed _ _ Hfrom) as (Hb & Hinj & Hback).
  destruct (built_inv _ Hb) as [Hinv _ _].
  destruct (inv_root _ _ Hinv) as (r & Hr & _ & Hrs & _).
  destruct (composes_path _ _ _ _ Hrun Hmod r Hr)
    as (Hc & Hp & Hnz & n' & Hn' & Hleaf).
  destruct state as [c0 prev j]. simpl in *. subst c0. rewrite Hrs in Hp.
  destruct (Hback keys _ n' Hp Hn' Hleaf Hnz) as (p & Hin & Hl & Hst).
  exists p. split; [done |]. split; [done |].
  by apply (stores_results to_utf8 c prev j n').
Qed.

Lemma composed_sequence_was_added_witness :
  built_from [production_A_x; production_B_y] table_A_x_B_y ∧
  composes only_shift (xkb_compose_state_new table_A_x_B_y) [66%N]
    (State table_A_x_B_y 0 2) ∧
  ∃ p, p ∈ [production_A_x; production_B_y] ∧ lhs p = [66%N] ∧
    xkb_compose_state_get_one_sym (State table_A_x_B_y 0 2) =
      Some (if has_keysym p then prod_keysym p else XKB_KEY_NoSymbol) ∧
    (has_string p = true →
     xkb_compose_state_get_utf8 latin1_to_utf8 (State table_A_x_B_y 0 2) 8 =
       Some (snprintf_s 8 (strlen_prefix (prod_string p)))) ∧
    (has_string p = false → has_keysym p = true →
     prod_keysym p ≠ XKB_KEY_NoSymbol →
     xkb_compose_state_get_utf8 latin1_to_utf8 (State table_A_x_B_y 0 2) 8 =
       Some (latin1_to_utf8 (prod_keysym p) 8)).
Proof.
  assert (built_from [production_A_x; production_B_y] table_A_x_B_y)
    as Hfrom.
  { apply (built_from_add [production_A_x] table_A_x production_B_y
             table_A_x_B_y []).
    - apply (built_from_add [] xkb_compose_new production_A_x table_A_x []).
      + apply built_from_new.
      + split; [done | by repeat constructor].
      + reflexivity.
      + split; vm_compute; by intros.
    - split; [done | by repeat constructor].
    - reflexivity.
    - split; vm_compute; by intros. }
  assert (composes only_shift (xkb_compose_state_new table_A_x_B_y) [66%N]
            (State table_A_x_B_y 0 2)) as Hrun.
  { by apply composes_last. }
  split; [exact Hfrom |]. split; [exact Hrun |].
  apply (composed_sequence_was_added only_shift latin1_to_utf8
           [production_A_x; production_B_y] table_A_x_B_y [66%N]
           (State table_A_x_B_y 0 2) 8).
  - exact Hfrom.
  - by repeat constructor.
  - exact Hrun.
Defined.

Section Compiled.

Variable open_file : string → option scanner.
Variable is_modifier : xkb_keysym_t → bool.
Variable to_utf8 : xkb_keysym_t → nat → list byte * Z.

(** X21.  On a table that [xkb_compose_new_from_buffer] has returned,
    whatever the buffer and the files it includes held, no operation of
    the state machine fails: in every state a client can reach, [feed],
    [get_status], [get_one_sym] and [get_utf8] are defined.  The lexer
    hands over no [NoSymbol] on a left-hand side, and the table fits
    32-bit indices. *)
Theorem compiled_table_never_fails (fuel : nat) (buffer : scanner)
    (format flags : Z) (c : xkb_compose) (state : xkb_compose_state)
    (k : xkb_keysym_t) (size : nat) :
  (∀ path s, open_file path = Some s → Forall lexer_token s) →
  Forall lexer_token buffer →
  xkb_compose_new_from_buffer open_file fuel buffer format flags
    = Some (Some c) →
  fits c →
  reachable is_modifier c state →
  is_Some (xkb_compose_state_feed is_modifier state k) ∧
  is_Some (xkb_compose_state_get_status state) ∧
  is_Some (xkb_compose_state_get_one_sym state) ∧
  is_Some (xkb_compose_state_get_utf8 to_utf8 state size).
Proof.
  intros Hfiles Htoks Hnew Hfit Hr.
  pose proof (new_from_buffer_built open_file Hfiles _ _ _ _ _ Htoks Hnew
                Hfit) as Hb.
  destruct (reachable_valid _ _ _ Hb Hr) as [<- Hv].
  split; [| by apply accessors_defined].
  destruct (feed_total is_modifier state k Hb Hv) as (state' & Hf & _).
  by exists state'.
Qed.

End Compiled.

Lemma compiled_table_never_fails_witness :
  xkb_compose_new_from_buffer no_files 20 (file_tokens [production_AB_f])
    1 0 = Some (Some table_AB_f) ∧
  is_Some (xkb_compose_state_feed only_shift (State table_AB_f 0 1) 66%N) ∧
  is_Some (xkb_compose_state_get_status (State table_AB_f 0 1)) ∧
  is_Some (xkb_compose_state_get_one_sym (State table_AB_f 0 1)) ∧
  is_Some (xkb_compose_state_get_utf8 latin1_to_utf8
             (State table_AB_f 0 1) 8).
Proof.
  assert (xkb_compose_new_from_buffer no_files 20
            (file_tokens [production_AB_f]) 1 0 = Some (Some table_AB_f))
    as Hnew by (by vm_compute).
  split; [exact Hnew |].
  apply (compiled_table_never_fails no_files only_shift latin1_to_utf8 20
           (file_tokens [production_AB_f]) 1 0 table_AB_f).
  - intros path s H. done.
  - by repeat constructor.
  - exact Hnew.
  - split; vm_compute; by intros.
  - exact reachable_after_A.
Defined.

(** ** From a file to the sequences that compose *)

Lemma add_productions_grows : ∀ ps c c' w,
  add_productions c ps = Some (c', w) → grown c c'.
Proof.
  induction ps as [| p ps IH]; intros c c' w H; simpl in H.
  - inversion H; subst. apply grown_refl.
  - destruct (add_production c p) as [[c1 w1] |] eqn:Hadd; [| done].
    cbn [mbind option_bind] in H.
    destruct (add_productions c1 ps) as [[c2 w2] |] eqn:Hrest; [| done].
    cbn [mbind option_bind] in H. inversion H; subst.
    eapply grown_trans; [by eapply add_production_grows | by eapply IH].
Qed.

Lemma add_productions_built_from : ∀ ps qs c c' w,
  built_from qs c → Forall valid_lhs ps →
  add_productions c ps = Some (c', w) → fits c' →
  built_from (qs ++ ps) c'.
Proof.
  induction ps as [| p ps IH]; intros qs c c' w Hfrom Hv H Hfit;
    simpl in H.
  - inversion H; subst. by rewrite app_nil_r.
  - apply Forall_cons in Hv as [Hp Hv].
    destruct (add_production c p) as [[c1 w1] |] eqn:Hadd; [| done].
    cbn [mbind option_bind] in H.
    destruct (add_productions c1 ps) as [[c2 w2] |] eqn:Hrest; [| done].
    cbn [mbind option_bind] in H. inversion H; subst c2 w.
    rewrite cons_middle, app_assoc.
    eapply IH; [| done | exact Hrest | done].
    eapply built_from_add; eauto.
    eapply fits_grown; [by eapply add_productions_grows | done].
Qed.

Lemma well_formed_valid_lhs p : well_formed p → real_keysyms p → valid_lhs p.
Proof.
  intros ((Hlen & _) & _) [Hks _]. split; [| done].
  unfold len in Hlen. destruct (lhs p); [simpl in Hlen; lia | done].
Qed.

Lemma line_tokens_length p : len p + 2 ≤ length (line_tokens p).
Proof.
  unfold line_tokens, len. rewrite !length_app, length_fmap.
  destruct (has_string p), (has_keysym p); simpl; lia.
Qed.

(** A file with room for all its lines: every production is added. *)
Lemma add_productions_total : ∀ ps c,
  built c → Forall well_formed ps → Forall real_keysyms ps →
  room c (file_tokens ps) →
  ∃ c' w, add_productions c ps = Some (c', w) ∧ fits c'.
Proof.
  induction ps as [| p ps IH]; intros c Hb Hwf Hreal [Hroom_t Hroom_b].
  - exists c, []. split; [done |].
    split; [eapply fits_u32_le; [| exact Hroom_t]
           | eapply fits_u32_le; [| exact Hroom_b]]; lia.
  - apply Forall_cons in Hwf as [Hp Hwf].
    apply Forall_cons in Hreal as [Hr Hreal].
    pose proof (well_formed_valid_lhs _ Hp Hr) as Hv.
    pose proof (line_tokens_length p) as Hline.
    destruct Hp as ((Hlen1 & Hlen2) & Hsome & Hstr).
    unfold file_tokens in Hroom_t, Hroom_b.
    rewrite fmap_cons in Hroom_t, Hroom_b. simpl in Hroom_t, Hroom_b.
    rewrite length_app in Hroom_t, Hroom_b.
    fold (file_tokens ps) in Hroom_t, Hroom_b.
    set (p' := {| lhs := lhs p; prod_keysym := prod_keysym p;
                  prod_string :=
                    if has_string p then prod_string p else [];
                  has_keysym := has_keysym p;
                  has_string := has_string p |}).
    assert (add_production c p = add_production c p') as Hext.
    { apply add_production_ext; try done.
      intros E. simpl. by rewrite E. }
    assert (length (prod_string p') ≤ 255) as Hstr'.
    { simpl. destruct (has_string p); [| simpl; lia].
      by destruct (Hstr eq_refl) as (_ & _ & ?). }
    unfold MAX_LHS_LEN in Hlen2.
    destruct (add_production_total c p')
      as (c1 & w1 & Hadd & Hfit1 & Hlen_t & Hlen_b).
    { by apply built_inv. }
    { done. }
    { eapply fits_u32_le; [| exact Hroom_t]. unfold len in *. simpl. lia. }
    { eapply fits_u32_le; [| exact Hroom_b]. lia. }
    rewrite <- Hext in Hadd.
    destruct (IH c1) as (c' & w & Hrest & Hfit); [| done | done | |].
    { by eapply built_add. }
    { unfold len in *. simpl in Hlen_t.
      split; [eapply fits_u32_le; [| exact Hroom_t]
             | eapply fits_u32_le; [| exact Hroom_b]]; lia. }
    exists c', (w1 ++ w). split; [| done].
    simpl. rewrite Hadd. cbn [mbind option_bind]. by rewrite Hrest.
Qed.

Section Quiet.

Variable is_modifier : xkb_keysym_t → bool.

(** What a production added without a message leaves of a sequence that
    composes to a result. *)
Lemma add_production_frame c q c' keys prev j n p0 :
  built c → valid_lhs q → add_production c q = Some (c', []) → fits c' →
  composes is_modifier (xkb_compose_state_new c) keys (State c prev j) →
  compose_tree c !! j = Some n → stores c n p0 →
  utf8 n ≠ 0 ∨ ks n ≠ XKB_KEY_NoSymbol →
  composes is_modifier (xkb_compose_state_new c') keys (State c' prev j) ∧
  ∃ n', compose_tree c' !! j = Some n' ∧ stores c' n' p0 ∧
        (utf8 n' ≠ 0 ∨ ks n' ≠ XKB_KEY_NoSymbol).
Proof.
  intros Hb Hq Hadd Hfit Hrun Hn Hst Hdata.
  destruct (built_inv _ Hb) as [Htree Hhead Hlast].
  assert (built c') as Hb' by (by eapply built_add).
  destruct (built_inv _ Hb') as [Htree' _ _].
  destruct (add_production_kept _ _ _ _ Hq Hadd Hfit)
    as (Hk & Hl & extra & Hblob).
  specialize (Hl ltac:(apply not_elem_of_nil)).
  destruct (inv_root _ _ Htree) as (r & Hr & _ & Hrs & _).
  destruct (inv_root _ _ Htree') as (r' & Hr' & _ & Hrs' & _).
  destruct (Hl _ _ Hn Hdata) as (n' & Hn' & Hu' & Hk' & Hs').
  assert (successor n = 0) as Hsn.
  { destruct (decide (successor n = 0)) as [| Hnz]; [done |].
    destruct (inv_internal _ _ Htree _ _ Hn Hnz) as [Hu0 Hk0].
    destruct Hdata; done. }
  destruct (composes_kept is_modifier _ c c' Htree' Hk _ _ _ Hrun eq_refl
              r r' Hr Hr' ltac:(congruence)) as [Hrun' _].
  { intros ne' Hne'. simpl in Hne'. rewrite Hn' in Hne'.
    inversion Hne'; subst ne'. congruence. }
  split; [exact Hrun' |]. exists n'. split; [done |]. split.
  - apply (stores_kept c c' n n' p0 extra); [done | done | done | | done].
    by eapply (inv_offset _ _ Htree).
  - by rewrite Hu', Hk'.
Qed.

(** Productions added without a message: each of them composes, and so
    does what composed before. *)
Lemma add_productions_quiet : ∀ ps c c',
  built c → Forall valid_lhs ps → Forall real_keysyms ps →
  Forall (λ p, has_string p = true ∨ has_keysym p = true) ps →
  add_productions c ps = Some (c', []) → fits c' →
  (∀ p, p ∈ ps → Forall (λ k, is_modifier k = false) (lhs p) →
     ∃ prev j n,
       composes is_modifier (xkb_compose_state_new c') (lhs p)
         (State c' prev j) ∧
       compose_tree c' !! j = Some n ∧ stores c' n p) ∧
  (∀ keys prev j n p0,
     composes is_modifier (xkb_compose_state_new c) keys (State c prev j) →
     compose_tree c !! j = Some n → stores c n p0 →
     utf8 n ≠ 0 ∨ ks n ≠ XKB_KEY_NoSymbol →
     composes is_modifier (xkb_compose_state_new c') keys
       (State c' prev j) ∧
     ∃ n', compose_tree c' !! j = Some n' ∧ stores c' n' p0 ∧
           (utf8 n' ≠ 0 ∨ ks n' ≠ XKB_KEY_NoSymbol)).
Proof.
  induction ps as [| p ps IH]; intros c c' Hb Hv Hreal Hsome H Hfit;
    simpl in H.
  - inversion H; subst c'. split.
    + intros p Hin. by apply elem_of_nil in Hin.
    + intros keys prev j n p0 Hrun Hn Hst Hdata. eauto.
  - apply Forall_cons in Hv as [Hp Hv].
    apply Forall_cons in Hreal as [[_ Hrhs] Hreal].
    apply Forall_cons in Hsome as [Hsp Hsome].
    destruct (add_production c p) as [[c1 w1] |] eqn:Hadd; [| done].
    cbn [mbind option_bind] in H.
    destruct (add_productions c1 ps) as [[c2 w2] |] eqn:Hrest; [| done].
    cbn [mbind option_bind] in H. inversion H as [[Hc Hw]]. subst c2.
    apply app_eq_nil in Hw as [-> ->].
    assert (fits c1) as Hfit1.
    { eapply fits_grown; [by eapply add_productions_grows | done]. }
    assert (built c1) as Hb1 by (by eapply built_add).
    destruct (IH c1 c' Hb1 Hv Hreal Hsome Hrest Hfit) as [Hall Hframe].
    split.
    + intros p1 Hin Hmod. apply elem_of_cons in Hin as [-> | Hin];
        [| by apply Hall].
      pose proof (built_inv _ Hb) as Hinv.
      destruct (built_inv _ Hb1) as [Hinv1 _ _].
      destruct (add_production_stored _ _ _ _ Hinv Hp Hadd Hfit1
                  ltac:(apply not_elem_of_nil) ltac:(apply not_elem_of_nil))
        as (curr & nd & Hpath & Hnd & Hsucc & Hks & Hutf8 & Hblob).
      destruct (inv_root _ _ Hinv1) as (r & Hr & _ & Hrs & _).
      destruct Hp as [_ Hkeys].
      destruct (composes_along_path is_modifier _ c1 (lhs p) 0 curr Hinv1
                  Hpath Hmod Hkeys 0 0 r nd Hr Hrs Hnd Hsucc)
        as [prev' Hrun].
      pose proof (lookup_lt_Some _ _ _ (inv_blob_head _ Hinv)) as Hpos.
      assert (stores c1 nd p) as Hst.
      { split; [done |]. destruct (has_string p).
        - rewrite Hutf8, Hblob. split; [lia |].
          rewrite drop_app_length.
          change (strlen_prefix (prod_string p) ++ [x00])
            with (strlen_prefix (prod_string p) ++ x00 :: []).
          apply c_string_strlen_prefix.
        - done. }
      destruct (Hframe (lhs p) prev' curr nd p Hrun Hnd Hst)
        as (Hrun' & n' & Hn' & Hst' & _).
      { destruct Hsp as [E | E].
        - left. rewrite Hutf8, E. lia.
        - right. rewrite Hks, E. by apply Hrhs. }
      eauto 10.
    + intros keys prev j n p0 Hrun Hn Hst Hdata.
      destruct (add_production_frame c p c1 keys prev j n p0 Hb Hp Hadd
                  Hfit1 Hrun Hn Hst Hdata)
        as (Hrun1 & n1 & Hn1 & Hst1 & Hdata1).
      by eapply Hframe.
Qed.

End Quiet.

Section CompiledFiles.

Variable open_file : string → option scanner.
Variable is_modifier : xkb_keysym_t → bool.
Variable to_utf8 : xkb_keysym_t → nat → list byte * Z.

(** The table a file of well-formed lines with room is compiled to. *)
Lemma compile_well_formed ps :
  Forall well_formed ps → Forall real_keysyms ps →
  room xkb_compose_new (file_tokens ps) →
  ∃ c w st,
    add_productions xkb_compose_new ps = Some (c, w) ∧ fits c ∧
    built_from ps c ∧
    parse_returns open_file L_initial
      (parse_entry xkb_compose_new (file_tokens ps) []) 0 (true, st) ∧
    ps_compose st = c ∧ ps_log st = w.
Proof.
  intros Hwf Hreal Hroom.
  destruct (add_productions_total ps xkb_compose_new built_new Hwf Hreal
              Hroom) as (c & w & Hadd & Hfit).
  assert (Forall valid_lhs ps) as Hv.
  { apply Forall_forall. intros p Hin.
    apply well_formed_valid_lhs; eapply Forall_forall; eauto. }
  destruct (parse_lines open_file 0 ps
              (parse_entry xkb_compose_new (file_tokens ps) []) c w
              Hwf eq_refl Hadd) as (st & Hrun & H1 & H2 & _).
  exists c, w, st. split; [done |]. split; [done |].
  split; [| done].
  apply (add_productions_built_from ps [] xkb_compose_new c w);
    [apply built_from_new | done | done | done].
Qed.

(** X22.  From the file to the state machine: a file of well-formed
    lines, with room for them in 32-bit indices, is compiled by
    [xkb_compose_new_from_buffer], and over the table returned a sequence
    without modifiers composes only if it is the left-hand side of a line
    of the file; [get_one_sym] and [get_utf8] then return the keysym and
    the string of such a line (the conversion of the keysym when the line
    has no string). *)
Theorem well_formed_file_composes_its_lines_only (ps : list production) :
  Forall well_formed ps → Forall real_keysyms ps →
  room xkb_compose_new (file_tokens ps) →
  ∃ fuel c,
    xkb_compose_new_from_buffer open_file fuel (file_tokens ps)
      XKB_COMPOSE_FORMAT_TEXT_V1 XKB_COMPOSE_COMPILE_NO_FLAGS
      = Some (Some c) ∧
    ∀ keys state size,
      Forall (λ k, is_modifier k = false) keys →
      composes is_modifier (xkb_compose_state_new c) keys state →
      ∃ p, p ∈ ps ∧ lhs p = keys ∧
        xkb_compose_state_get_one_sym state =
          Some (if has_keysym p then prod_keysym p
                else XKB_KEY_NoSymbol) ∧
        xkb_compose_state_get_utf8 to_utf8 state size =
          Some (if has_string p then snprintf_s size (prod_string p)
                else to_utf8 (prod_keysym p) size).
Proof.
  intros Hwf Hreal Hroom.
  destruct (compile_well_formed ps Hwf Hreal Hroom)
    as (c & w & st & _ & _ & Hfrom & [fuel Hrun] & Hc & _).
  exists fuel, c. split.
  { unfold xkb_compose_new_from_buffer, parse_string, parse. simpl.
    rewrite Hrun. by rewrite Hc. }
  intros keys state size Hmod Hkeys.
  destruct (built_from_backed _ _ Hfrom) as (Hb & Hinj & Hback).
  destruct (built_inv _ Hb) as [Hinv _ _].
  destruct (inv_root _ _ Hinv) as (r & Hr & _ & Hrs & _).
  destruct (composes_path _ _ _ _ Hkeys Hmod r Hr)
    as (Hcs & Hp & Hnz & n' & Hn' & Hleaf).
  destruct state as [c0 prev j]. simpl in *. subst c0. rewrite Hrs in Hp.
  destruct (Hback keys _ n' Hp Hn' Hleaf Hnz) as (p & Hin & Hl & Hst).
  exists p. split; [done |]. split; [done |].
  destruct (stores_results to_utf8 c prev j n' p size Hn' Hst)
    as (Hsym & Hstr & Hkey).
  split; [done |].
  eapply Forall_forall in Hwf; [| exact Hin].
  eapply Forall_forall in Hreal; [| exact Hin].
  destruct Hwf as (_ & Hsome & Hwstr). destruct Hreal as [_ Hrhs].
  destruct (has_string p) eqn:E.
  - destruct (Hwstr eq_refl) as (_ & Hnul & _).
    rewrite (Hstr eq_refl). by rewrite strlen_prefix_no_nul.
  - destruct Hsome as [? | Hk]; [done |]. by apply Hkey; [| | apply Hrhs].
Qed.

(** X23.  When [parse] reads a file of well-formed lines and logs
    nothing, every line is in the table: the keysyms of its left-hand
    side, none a modifier, compose from a fresh state, and [get_one_sym]
    and [get_utf8] return the keysym and the string of that line (the
    conversion of the keysym when the line has no string). *)
Theorem quiet_file_composes_every_line (ps : list production)
    (fuel : nat) (ok : bool) (st : parse_state) (p : production)
    (size : nat) :
  Forall well_formed ps → Forall real_keysyms ps →
  room xkb_compose_new (file_tokens ps) →
  parse open_file fuel xkb_compose_new (file_tokens ps) [] 0
    = Some (ok, st) →
  ps_log st = [] →
  p ∈ ps → Forall (λ k, is_modifier k = false) (lhs p) →
  ∃ state,
    composes is_modifier (xkb_compose_state_new (ps_compose st)) (lhs p)
      state ∧
    xkb_compose_state_get_one_sym state =
      Some (if has_keysym p then prod_keysym p else XKB_KEY_NoSymbol) ∧
    xkb_compose_state_get_utf8 to_utf8 state size =
      Some (if has_string p then snprintf_s size (prod_string p)
            else to_utf8 (prod_keysym p) size).
Proof.
  intros Hwf Hreal Hroom Hparse Hlog Hin Hmod.
  destruct (compile_well_formed ps Hwf Hreal Hroom)
    as (c & w & st' & Hadd & Hfit & _ & Hrun & Hc & Hw).
  assert ((ok, st) = (true, st')) as E.
  { eapply parse_returns_unique; [| exact Hrun]. by exists fuel. }
  inversion E; subst ok st'. rewrite Hlog in Hw. subst w. rewrite Hc.
  assert (Forall valid_lhs ps) as Hv.
  { apply Forall_forall. intros q Hq.
    apply well_formed_valid_lhs; eapply Forall_forall; eauto. }
  assert (Forall (λ q, has_string q = true ∨ has_keysym q = true) ps)
    as Hsome.
  { apply Forall_forall. intros q Hq.
    eapply Forall_forall in Hwf; [| exact Hq]. by destruct Hwf as (_ & ? & _). }
  destruct (add_productions_quiet is_modifier ps xkb_compose_new c
              built_new Hv Hreal Hsome Hadd Hfit) as [Hall _].
  destruct (Hall p Hin Hmod) as (prev & j & n & Hkeys & Hn & Hst).
  exists (State c prev j). split; [done |].
  destruct (stores_results to_utf8 c prev j n p size Hn Hst)
    as (Hsym & Hstr & Hkey).
  split; [done |].
  eapply Forall_forall in Hwf; [| exact Hin].
  eapply Forall_forall in Hreal; [| exact Hin].
  destruct Hwf as (_ & Hsp & Hwstr). destruct Hreal as [_ Hrhs].
  destruct (has_string p) eqn:E1.
  - destruct (Hwstr eq_refl) as (_ & Hnul & _).
    rewrite (Hstr eq_refl). by rewrite strlen_prefix_no_nul.
  - destruct Hsp as [? | Hk]; [done |]. by apply Hkey; [| | apply Hrhs].
Qed.

End CompiledFiles.

Lemma well_formed_production_B_y : well_formed production_B_y.
Proof.
  split; [unfold len, MAX_LHS_LEN; simpl; lia |].
  split; [by right | done].
Qed.

Lemma two_lines_well_formed :
  Forall well_formed [production_A_x; production_B_y] ∧
  Forall real_keysyms [production_A_x; production_B_y] ∧
  room xkb_compose_new (file_tokens [production_A_x; production_B_y]).
Proof.
  split; [| split].
  - apply Forall_cons. split; [exact well_formed_production_A_x |].
    apply Forall_cons. split; [exact well_formed_production_B_y |].
    constructor.
  - apply Forall_cons. split; [split; [by repeat constructor | done] |].
    apply Forall_cons. split; [split; [by repeat constructor | done] |].
    constructor.
  - split; vm_compute; by intros.
Qed.

Lemma well_formed_file_composes_its_lines_only_witness :
  ∃ fuel c,
    xkb_compose_new_from_buffer no_files fuel
      (file_tokens [production_A_x; production_B_y])
      XKB_COMPOSE_FORMAT_TEXT_V1 XKB_COMPOSE_COMPILE_NO_FLAGS
      = Some (Some c) ∧
    ∀ keys state size,
      Forall (λ k, only_shift k = false) keys →
      composes only_shift (xkb_compose_state_new c) keys state →
      ∃ p, p ∈ [production_A_x; production_B_y] ∧ lhs p = keys ∧
        xkb_compose_state_get_one_sym state =
          Some (if has_keysym p then prod_keysym p
                else XKB_KEY_NoSymbol) ∧
        xkb_compose_state_get_utf8 latin1_to_utf8 state size =
          Some (if has_string p then snprintf_s size (prod_string p)
                else latin1_to_utf8 (prod_keysym p) size).
Proof.
  destruct two_lines_well_formed as (Hwf & Hreal & Hroom).
  exact (well_formed_file_composes_its_lines_only no_files only_shift
           latin1_to_utf8 [production_A_x; production_B_y] Hwf Hreal Hroom).
Defined.

Lemma quiet_file_composes_every_line_witness :
  ∃ st,
    parse no_files 40 xkb_compose_new
      (file_tokens [production_A_x; production_B_y]) [] 0
      = Some (true, st) ∧
    ps_log st = [] ∧
    ∃ state,
      composes only_shift (xkb_compose_state_new (ps_compose st)) [66%N]
        state ∧
      xkb_compose_state_get_one_sym state = Some 121%N ∧
      xkb_compose_state_get_utf8 latin1_to_utf8 state 8 =
        Some (latin1_to_utf8 121%N 8).
Proof.
  destruct two_lines_well_formed as (Hwf & Hreal & Hroom).
  eexists. split; [by vm_compute |]. split; [reflexivity |].
  eapply (quiet_file_composes_every_line no_files only_shift latin1_to_utf8
            [production_A_x; production_B_y] 40 true _ production_B_y 8
            Hwf Hreal Hroom).
  - by vm_compute.
  - reflexivity.
  - apply elem_of_cons. right. by left.
  - by repeat constructor.
Defined.

(** ** What an override takes away *)

Lemma built_built_from c : built c → ∃ ps, built_from ps c.
Proof.
  induction 1 as [| c p c' w _ [ps IH] Hp Hadd Hfit].
  - exists []. apply built_from_new.
  - exists (ps ++ [p]). by eapply built_from_add.
Qed.

Lemma built_succ_inj c : built c → succ_inj (compose_tree c).
Proof.
  intros Hb. destruct (built_built_from c Hb) as [ps Hfrom].
  by destruct (built_from_backed _ _ Hfrom) as (_ & Hinj & _).
Qed.

(** The search gives no old node a successor. *)
Lemma search_siblings_successor fuel k t curr t' curr' a na na' :
  search_siblings fuel k t curr = Some (t', curr') →
  fits_u32 (length t') →
  t !! a = Some na → t' !! a = Some na' → successor na' = successor na.
Proof.
  intros H Hfit Ha Ha'.
  destruct (search_siblings_shape _ _ _ _ _ _ H Hfit)
    as [-> | (e & ne & He & Hn & ->)]; [congruence |].
  pose proof (lookup_lt_Some _ _ _ Ha) as Hlt.
  snoc_cases Ha'; [| congruence | lia]. by simplify_eq.
Qed.

(** An old node that the loop gives a successor lies on the path of the
    left-hand side, before its end. *)
Lemma add_production_loop_prefix bound rest : ∀ k t curr t' curr' w a na na',
  tree_inv bound t → 0 < bound →
  Forall (λ k, k ≠ XKB_KEY_NoSymbol) (k :: rest) →
  chain_head t curr →
  add_production_loop (k :: rest) t curr = Some (t', curr', w) →
  fits_u32 (length t') →
  t !! a = Some na → successor na = 0 →
  t' !! a = Some na' → successor na' ≠ 0 →
  ∃ front back,
    k :: rest = front ++ back ∧ back ≠ [] ∧ trie_path t' front curr a.
Proof.
  induction rest as [| k' rest' IH];
    intros k t curr t' curr' w a na na' Hinv Hb Hks Hhead H Hfit
           Ha Hsa Ha' Hsa';
    rewrite add_production_loop_cons in H;
    apply Forall_cons in Hks as [Hk Hks];
    (destruct (search_siblings (S (length t)) k t curr)
       as [[t1 curr1] |] eqn:Hsearch; [| done]);
    cbn [mbind option_bind] in H.
  - inversion H; subst t1 curr1 w. clear H. exfalso.
    rewrite (search_siblings_successor _ _ _ _ _ _ _ _ _ Hsearch Hfit
               Ha Ha') in Hsa'. done.
  - destruct (descend t1 curr1 k') as [[[t2 curr2] w2] |] eqn:Hd; [| done].
    cbn [mbind option_bind] in H.
    destruct (add_production_loop (k' :: rest') t2 curr2)
      as [[[t3 curr3] w3] |] eqn:Hrec; [| done].
    cbn [mbind option_bind] in H. inversion H; subst t3 curr3 w. clear H.
    pose proof (add_production_loop_length _ _ _ _ _ _ Hrec) as Hlen3.
    pose proof (descend_length _ _ _ _ _ _ Hd) as Hlen2.
    pose proof (search_siblings_length _ _ _ _ _ _ Hsearch) as Hlen1.
    assert (fits_u32 (length t2)) as Hfit2
      by (unfold fits_u32 in *; lia).
    assert (fits_u32 (length t1)) as Hfit1
      by (unfold fits_u32 in *; lia).
    destruct (search_siblings_spec _ _ _ _ _ _ Hsearch Hfit1)
      as (Hk1 & _ & Hc1 & _).
    pose proof Hsearch as Hsearch'.
    eapply search_siblings_inv in Hsearch' as [Hinv1 (n1 & Hn1 & Hkey)];
      eauto; cycle 1.
    { intros i ni Hs _. by apply chain_head_no_sibling in Hs. }
    assert (curr1 ≠ 0) as Hcurr1.
    { intros ->. destruct (inv_root _ _ Hinv1) as (r & Hr & Hk0 & _).
      congruence. }
    destruct (descend_spec _ _ _ _ _ _ Hd Hfit2)
      as (Hk2 & (n2 & Hn2 & Hs2 & Hnz2) & _ & _ & _).
    destruct (descend_shape _ _ _ _ _ _ Hd Hfit2)
      as (nd & Hnd & Hshape).
    apply Forall_cons in Hks as Hks'. destruct Hks' as [Hk' _].
    pose proof Hd as Hd'.
    eapply descend_inv in Hd' as [Hinv2 Hhead2]; [| done ..].
    destruct (add_production_loop_spec (k' :: rest') _ _ _ _ _
                ltac:(done) Hrec Hfit) as (Hk3 & _ & _ & _).
    assert (chain_to t' k curr curr1) as Hchain.
    { eapply chain_to_kept; [| exact Hc1].
      eauto using links_kept_trans. }
    destruct (Hk3 curr1 n2 Hn2) as (n3 & Hn3 & _ & _ & Hs3).
    specialize (Hs3 ltac:(lia)).
    destruct (Hk1 a na Ha) as (na1 & Ha1 & _).
    pose proof (search_siblings_successor _ _ _ _ _ _ _ _ _ Hsearch Hfit1
                  Ha Ha1) as Hsa1.
    destruct (Hk2 a na1 Ha1) as (na2 & Ha2 & _).
    destruct (decide (a = curr1)) as [-> | Hne].
    + exists [k], (k' :: rest'). split; [done |]. split; [done |].
      by apply trie_path_last.
    + assert (successor na2 = 0) as Hsa2.
      { destruct Hshape as [[_ ->] | (_ & ndc & _ & _ & ->)];
          [congruence |].
        pose proof (lookup_lt_Some _ _ _ Ha1) as Hlt.
        snoc_cases Ha2; [done | congruence | lia]. }
      destruct (IH k' t2 curr2 t' curr' w3 a na2 na' Hinv2 Hb Hks Hhead2
                  Hrec Hfit Ha2 Hsa2 Ha' Hsa')
        as (front & back & E & Hback & Hpath).
      exists (k :: front), back. split; [by rewrite E |].
      split; [done |].
      eapply trie_path_more; [exact Hchain | exact Hn3 | lia |].
      by rewrite Hs3, Hs2.
Qed.

(** A node that holds a result keeps it, and stays without successor,
    unless the sequence that leads to it is the beginning of the
    left-hand side added. *)
Lemma add_production_leaf_kept c q c' w keys j n :
  built c → valid_lhs q → add_production c q = Some (c', w) → fits c' →
  trie_path (compose_tree c) keys 0 j → compose_tree c !! j = Some n →
  utf8 n ≠ 0 ∨ ks n ≠ XKB_KEY_NoSymbol →
  (∀ rest, rest ≠ [] → lhs q ≠ keys ++ rest) →
  ∃ n', compose_tree c' !! j = Some n' ∧ utf8 n' = utf8 n ∧
        ks n' = ks n ∧ successor n' = 0.
Proof.
  intros Hb [Hne Hks] H [Hfit_t Hfit_b] Hpath Hn Hdata Hnot.
  pose proof (built_succ_inj c Hb) as Hinj.
  destruct (built_inv _ Hb) as [Hinv Hhead Hlast].
  assert (0 < length (compose_utf8 c)) as Hpos
    by (by eapply lookup_lt_Some).
  assert (successor n = 0) as Hsn.
  { destruct (decide (successor n = 0)) as [| Hnz]; [done |].
    destruct (inv_internal _ _ Hinv _ _ Hn Hnz) as [Hu0 Hk0].
    destruct Hdata; done. }
  unfold add_production in H.
  destruct (add_production_loop (lhs q) (compose_tree c) 0)
    as [[[t curr] w0] |] eqn:Hloop; [| done].
  cbn [mbind option_bind] in H.
  destruct (t !! curr) as [nd |] eqn:Hnd; [| done].
  cbn [mbind option_bind] in H.
  assert (length t = length (compose_tree c')) as Hlen.
  { destruct (negb (Nat.eqb (successor nd) 0)); [by inversion H |].
    destruct (negb (Nat.eqb (utf8 nd) 0) || negb (N.eqb (ks nd) 0));
      [by inversion H |].
    destruct (has_string q); inversion H; simpl;
      by rewrite length_insert. }
  rewrite <- Hlen in Hfit_t.
  destruct (add_production_loop_spec _ _ _ _ _ _ Hne Hloop Hfit_t)
    as (Hk & _ & _ & _).
  destruct (add_production_loop_inv _ _ _ _ _ _ _ Hinv Hpos Hks Hne
              (chain_head_root _) Hloop Hfit_t) as (Hinv1 & Hcurr & _).
  destruct (lhs q) as [| k rest] eqn:Hlhs; [done |].
  destruct (add_production_loop_reflected _ _ _ _ _ _ _ _ Hinv Hpos Hks
              (chain_head_root _) Hloop Hfit_t) as (Hr & Hi & _).
  specialize (Hi Hinj).
  destruct (Hk j n Hn) as (n1 & Hn1 & _).
  assert (successor n1 = 0) as Hs1.
  { destruct (decide (successor n1 = 0)) as [| Hnz]; [done |]. exfalso.
    destruct (add_production_loop_prefix _ _ _ _ _ _ _ _ j n n1 Hinv Hpos
                Hks (chain_head_root _) Hloop Hfit_t Hn Hsn Hn1 Hnz)
      as (front & back & E & Hback & Hfront).
    assert (keys = front) as <-.
    { eapply trie_path_unique; [exact Hinv1 | exact Hi | | exact Hfront].
      by eapply trie_path_kept. }
    by apply (Hnot back). }
  destruct (Hr j n1 Hn1 ltac:(by eapply lookup_lt_Some))
    as (m & Hm & _ & _ & _ & Hd).
  rewrite Hn in Hm. inversion Hm; subst m.
  destruct (Hd Hs1) as [Hu1 Hk1].
  assert (∀ t', t' = t ∨
                (utf8 nd = 0 ∧ ks nd = XKB_KEY_NoSymbol ∧
                 ∃ x, t' = <[curr := x]> t) →
                ∃ n', t' !! j = Some n' ∧ utf8 n' = utf8 n ∧
                      ks n' = ks n ∧ successor n' = 0) as Hfinal.
  { intros t' [-> | (Hu & Hk0 & x & ->)]; [by exists n1 |].
    exists n1. split; [| done].
    rewrite list_lookup_insert_ne; [done |]. intros <-.
    rewrite Hnd in Hn1. inversion Hn1; subst nd.
    destruct Hdata; congruence. }
  destruct (negb (Nat.eqb (successor nd) 0)).
  { inversion H; subst c' w. simpl. apply Hfinal. by left. }
  destruct (negb (Nat.eqb (utf8 nd) 0) || negb (N.eqb (ks nd) 0))
    eqn:Hdata'.
  { inversion H; subst c' w. simpl. apply Hfinal. by left. }
  apply orb_false_iff in Hdata' as [Hu Hk0].
  apply negb_false_iff, Nat.eqb_eq in Hu.
  apply negb_false_iff, N.eqb_eq in Hk0.
  destruct (has_string q); inversion H; subst c' w; simpl;
    apply Hfinal; right; eauto.
Qed.

(** X26.  What an override takes away: a sequence that composes over a
    built table and ends on a node that holds a string or a keysym still
    composes after one more [add_production], ends on the same node, and
    has the same keysym and the same string, whatever the call reports,
    unless the sequence is a proper prefix of the left-hand side
    added. *)
Theorem override_loses_only_prefixes
    (is_modifier : xkb_keysym_t → bool)
    (to_utf8 : xkb_keysym_t → nat → list byte * Z)
    (c : xkb_compose) (q : production) (c' : xkb_compose)
    (w : list message) (keys : list xkb_keysym_t)
    (state : xkb_compose_state) (n : node) (size : nat) :
  built c → valid_lhs q → add_production c q = Some (c', w) → fits c' →
  Forall (λ k, is_modifier k = false) keys →
  composes is_modifier (xkb_compose_state_new c) keys state →
  compose_tree c !! context state = Some n →
  utf8 n ≠ 0 ∨ ks n ≠ XKB_KEY_NoSymbol →
  (∀ rest, rest ≠ [] → lhs q ≠ keys ++ rest) →
  ∃ state',
    composes is_modifier (xkb_compose_state_new c') keys state' ∧
    context state' = context state ∧
    xkb_compose_state_get_one_sym state' =
      xkb_compose_state_get_one_sym state ∧
    xkb_compose_state_get_utf8 to_utf8 state' size =
      xkb_compose_state_get_utf8 to_utf8 state size.
Proof.
  intros Hb Hq Hadd Hfit Hmod Hrun Hn Hdata Hnot.
  destruct (built_inv _ Hb) as [Htree Hhead Hlast].
  assert (built c') as Hb' by (by eapply built_add).
  destruct (built_inv _ Hb') as [Htree' _ _].
  destruct (add_production_kept _ _ _ _ Hq Hadd Hfit)
    as (Hk & _ & extra & Hblob).
  destruct (inv_root _ _ Htree) as (r & Hr & _ & Hrs & _).
  destruct (inv_root _ _ Htree') as (r' & Hr' & _ & Hrs' & _).
  destruct (composes_path _ _ _ _ Hrun Hmod r Hr)
    as (Hc & Hp & _ & _).
  simpl in Hc, Hp. rewrite Hrs in Hp.
  destruct (add_production_leaf_kept c q c' w keys _ n Hb Hq Hadd Hfit
              Hp Hn Hdata Hnot) as (n' & Hn' & Hu' & Hk' & Hs').
  destruct (composes_kept is_modifier _ c c' Htree' Hk _ _ _ Hrun eq_refl
              r r' Hr Hr' ltac:(congruence)) as [Hrun' _].
  { intros ne' Hne'. rewrite Hn' in Hne'. by inversion Hne'; subst ne'. }
  destruct state as [c0 prev ctx]. simpl in *. subst c0.
  exists (State c' prev ctx). split; [exact Hrun' |]. split; [done |].
  unfold xkb_compose_state_get_one_sym, xkb_compose_state_get_utf8.
  simpl. rewrite Hn, Hn'. simpl. rewrite Hu', Hk'. split; [done |].
  destruct (Nat.eqb (utf8 n) 0 && negb (N.eqb (ks n) 0));
    [done |].
  pose proof (inv_offset _ _ Htree _ _ Hn) as Hoff.
  destruct (blob_string_defined c ctx n
              (ComposeInv _ Htree Hhead Hlast) Hn) as [s Hs].
  rewrite Hblob, drop_app_le by lia.
  by rewrite (c_string_app _ _ _ Hs), Hs.
Qed.

Lemma built_table_A_x_B_y : built table_A_x_B_y.
Proof.
  apply (built_add table_A_x production_B_y table_A_x_B_y []).
  - exact built_table_A_x.
  - split; [done |]. by repeat constructor.
  - reflexivity.
  - split; unfold fits_u32; simpl; lia.
Qed.

Lemma override_loses_only_prefixes_witness :
  add_production table_A_x_B_y production_AC_z =
    Some (table_B_y_AC_z, [warn_prefix_override]) ∧
  composes only_shift (xkb_compose_state_new table_A_x_B_y) [66%N]
    (State table_A_x_B_y 0 2) ∧
  ∃ state',
    composes only_shift (xkb_compose_state_new table_B_y_AC_z) [66%N]
      state' ∧
    context state' = 2 ∧
    xkb_compose_state_get_one_sym state' = Some 121%N ∧
    xkb_compose_state_get_utf8 latin1_to_utf8 state' 8 =
      Some ([x79; x00], 1%Z).
Proof.
  assert (composes only_shift (xkb_compose_state_new table_A_x_B_y) [66%N]
            (State table_A_x_B_y 0 2)) as Hrun.
  { by apply composes_last. }
  split; [reflexivity |]. split; [exact Hrun |].
  apply (override_loses_only_prefixes only_shift latin1_to_utf8
           table_A_x_B_y production_AC_z table_B_y_AC_z
           [warn_prefix_override] [66%N] (State table_A_x_B_y 0 2)
           (Node 66%N 0 0 0 121%N) 8).
  - exact built_table_A_x_B_y.
  - split; [done | by repeat constructor].
  - reflexivity.
  - split; vm_compute; by intros.
  - by repeat constructor.
  - exact Hrun.
  - reflexivity.
  - by right.
  - intros rest _ E. by inversion E.
Defined.

(** ** The constructors *)

Lemma unknown_flags flags :
  flags ≠ 0%Z →
  negb (Z.eqb (Z.land flags (Z.lnot XKB_COMPOSE_COMPILE_NO_FLAGS)) 0) = true.
Proof.
  intros H. unfold XKB_COMPOSE_COMPILE_NO_FLAGS.
  change (Z.lnot 0) with (-1)%Z. rewrite Z.land_m1_r.
  apply negb_true_iff. by apply Z.eqb_neq.
Qed.

Section ConstructorFacts.

Variable open_file : string → option scanner.
Variable fopen : string → option FILE.
Variable get_xcomposefile_path : option string.
Variable get_home_xcompose_file_path : option string.
Variable get_locale_compose_file_path : option string.

Local Abbreviation new_from_locale :=
  (xkb_compose_new_from_locale open_file fopen get_xcomposefile_path
     get_home_xcompose_file_path get_locale_compose_file_path).

(** X15.  Every constructor returns NULL for flags other than 0, and
    the two that take a format return NULL for every format other than
    TEXT_V1; this is decided before anything is parsed, whatever the
    input. *)
Theorem constructors_reject_unknown (fuel : nat) (buffer : scanner)
    (file : FILE) (format flags : Z) :
  (flags ≠ 0%Z →
   xkb_compose_new_from_buffer open_file fuel buffer format flags
     = Some None ∧
   xkb_compose_new_from_file open_file fuel file format flags = Some None ∧
   new_from_locale fuel flags = Some None) ∧
  (format ≠ XKB_COMPOSE_FORMAT_TEXT_V1 →
   xkb_compose_new_from_buffer open_file fuel buffer format flags
     = Some None ∧
   xkb_compose_new_from_file open_file fuel file format flags = Some None).
Proof.
  unfold xkb_compose_new_from_buffer, xkb_compose_new_from_file,
    xkb_compose_new_from_locale, parse_file.
  split.
  - intros H. by rewrite (unknown_flags _ H).
  - intros H. apply Z.eqb_neq in H. rewrite H.
    by destruct (negb _).
Qed.

(** X16.  [xkb_compose_new_from_locale] compiles the first of the three
    candidate paths (XCOMPOSEFILE, the file in the home directory, the
    file of the locale) that can be opened, as
    [xkb_compose_new_from_file] does with format TEXT_V1, and returns
    NULL when none can be opened; a first file that fails to parse gives
    NULL, the later candidates are not tried. *)
Theorem new_from_locale_first_opened (fuel : nat) :
  new_from_locale fuel XKB_COMPOSE_COMPILE_NO_FLAGS =
  match first_opened fopen [get_xcomposefile_path; get_home_xcompose_file_path;
                      get_locale_compose_file_path] with
  | Some file =>
      xkb_compose_new_from_file open_file fuel file XKB_COMPOSE_FORMAT_TEXT_V1
        XKB_COMPOSE_COMPILE_NO_FLAGS
  | None => Some None
  end.
Proof.
  unfold xkb_compose_new_from_locale, xkb_compose_new_from_file.
  cbn [first_opened]. simpl Z.land. simpl Z.eqb. simpl negb. cbv iota.
  destruct (cpath ← get_xcomposefile_path; fopen cpath); [done |].
  destruct (path ← get_home_xcompose_file_path; fopen path); [done |].
  by destruct (path ← get_locale_compose_file_path; fopen path).
Qed.

End ConstructorFacts.

Lemma constructors_reject_unknown_witness :
  xkb_compose_new_from_buffer no_files 0 line_colon 1 2 = Some None ∧
  xkb_compose_new_from_file no_files 0 (Some line_colon) 1 2 = Some None ∧
  xkb_compose_new_from_locale no_files (λ _, None) None None None 0 2
    = Some None.
Proof.
  apply (proj1 (constructors_reject_unknown no_files (λ _, None) None
                  None None 0 line_colon (Some line_colon) 1 2)).
  done.
Defined.

(** ** The lexer *)

Section LexFacts.


Variable scanner_t : Type.
Variable peek : scanner_t → byte.
Variable next : scanner_t → byte * scanner_t.
Variable chr : scanner_t → byte → bool * scanner_t.
Variable eof : scanner_t → bool.
Variable eol : scanner_t → bool.
Variable buf_append : scanner_t → byte → bool * scanner_t.
Variable buf_appends : scanner_t → list byte → bool * scanner_t.
Variable hex : scanner_t → option byte * scanner_t.
Variable oct : scanner_t → option byte * scanner_t.
Variable new_token : scanner_t → scanner_t.
Variable reset_buf : scanner_t → scanner_t.
Variable buf : scanner_t → list byte.
Variable buf_pos : scanner_t → nat.
Variable is_space : byte → bool.
Variable is_alpha : byte → bool.
Variable is_alnum : byte → bool.
Variable xkb_keysym_from_name : list byte → xkb_keysym_t.
Variable is_valid_utf8 : list byte → nat → bool.
Variable secure_getenv_HOME : option (list byte).
Variable get_xlocaledir_path : list byte.

Local Abbreviation lex :=
  (Lexer.lex scanner_t peek next chr eof eol buf_append hex oct new_token
     reset_buf buf buf_pos is_space is_alpha is_alnum xkb_keysym_from_name
     is_valid_utf8).
Local Abbreviation lex_token :=
  (Lexer.lex_token scanner_t peek next chr eof eol buf_append hex oct
     new_token reset_buf buf buf_pos is_alpha is_alnum xkb_keysym_from_name
     is_valid_utf8).
Local Abbreviation string_literal :=
  (Lexer.string_literal scanner_t peek next chr eof eol buf_append hex oct).
Local Abbreviation string_escape :=
  (Lexer.string_escape scanner_t chr buf_append hex oct).
Local Abbreviation lex_include_string :=
  (Lexer.lex_include_string scanner_t peek next chr eof eol buf_append
     buf_appends new_token buf is_space secure_getenv_HOME
     get_xlocaledir_path).
Local Abbreviation valid :=
  (Lexer.lex_token_valid scanner_t buf buf_pos xkb_keysym_from_name
     is_valid_utf8).

(** X17.  The tokens of [lex], whatever the scanner: a keysym token of
    either side carries the keysym that [xkb_keysym_from_name] gives for
    the buffer, and never [NoSymbol]; a string token carries the string
    of the buffer, which has passed [is_valid_utf8]; [TOK_INCLUDE] is
    returned only when the buffer holds the word include; and [lex] never
    returns an include path. *)
Theorem lex_tokens_valid (fuel : nat) (s : scanner_t)
    (log : list Lexer.log_entry) (tok : rules_token) (s' : scanner_t)
    (log' : list Lexer.log_entry) :
  lex fuel s log = Some (tok, s', log') →
  lexer_token tok ∧ valid tok s'.
Proof.
  intros H. apply lex_sound in H as [Hv _]. split; [| done].
  destruct tok; try done. by destruct Hv.
Qed.

(** X18.  The errors of [lex], whatever the scanner: a call appends to
    the log warnings only, followed by exactly one error when it returns
    [TOK_ERROR] and by none when it returns any other token.  This is
    what lets [parse] leave a [TOK_ERROR] unreported. *)
Theorem lex_error_logged (fuel : nat) (s : scanner_t)
    (log : list Lexer.log_entry) (tok : rules_token) (s' : scanner_t)
    (log' : list Lexer.log_entry) :
  lex fuel s log = Some (tok, s', log') →
  ∃ ws es,
    log' = log ++ ws ++ es ∧ Lexer.warnings ws ∧
    (tok = TOK_ERROR → ∃ e, es = [Lexer.scanner_err e]) ∧
    (tok ≠ TOK_ERROR → es = []).
Proof.
  intros H. apply lex_sound in H as [_ (ws & es & -> & Hws & Hes)].
  exists ws, es. split; [done |]. split; [done |].
  split; [by intros -> | intros Hne; by destruct tok].
Qed.

(** X19.  [lex_include_string], whatever the scanner, returns the end of
    the line or an include path, which is the string of the buffer, and
    then logs nothing, or it returns [TOK_ERROR] and logs exactly one
    error. *)
Theorem lex_include_string_sound (fuel : nat)
    (locale_path : option (list byte)) (s : scanner_t)
    (log : list Lexer.log_entry) (tok : rules_token) (s' : scanner_t)
    (log' : list Lexer.log_entry) :
  lex_include_string fuel locale_path s log = Some (tok, s', log') →
  (tok = TOK_END_OF_LINE ∧ log' = log ∨
   tok = TOK_INCLUDE_STRING (String.string_of_list_byte (buf s')) ∧
   log' = log ∨
   tok = TOK_ERROR ∧ ∃ e, log' = log ++ [Lexer.scanner_err e]).
Proof.
  unfold Lexer.lex_include_string, Lexer.lex_fail. intros H.
  repeat case_match; simplify_eq; eauto.
Qed.

End LexFacts.

Lemma lex_line_A_x :
  ByteScanner.tokens 10 (ByteScanner.Scanner ByteScanner.line_A_x []) =
  [TOK_LHS_KEYSYM 65%N; TOK_COLON; TOK_RHS_KEYSYM 120%N; TOK_END_OF_LINE].
Proof. vm_compute. reflexivity. Qed.

Lemma lex_tokens_valid_witness :
  ∃ s', ByteScanner.run_lex 20
          (ByteScanner.Scanner ByteScanner.line_A_x []) []
        = Some (TOK_LHS_KEYSYM 65%N, s', []) ∧
        lexer_token (TOK_LHS_KEYSYM 65%N) ∧
        ByteScanner.buf s' = [x41].
Proof.
  eexists. split; [vm_compute; reflexivity |].
  destruct (lex_tokens_valid _ _ _ _ _ _ _ _ _ _ _ _ _ _ _ _
              _ _ _ _ _ _ _ _
              (eq_refl : ByteScanner.run_lex 20
                 (ByteScanner.Scanner ByteScanner.line_A_x []) []
               = Some (TOK_LHS_KEYSYM 65%N, _, []))) as [H1 H2].
  split; [exact H1 | reflexivity].
Defined.

Lemma lex_error_logged_witness :
  ∃ s' ws es,
    ByteScanner.run_lex 20
      (ByteScanner.Scanner ByteScanner.line_unknown_keysym []) []
    = Some (TOK_ERROR, s', [] ++ ws ++ es) ∧
    (TOK_ERROR = TOK_ERROR →
     ∃ e, es = [Lexer.scanner_err e]).
Proof.
  assert (∃ s', ByteScanner.run_lex 20
            (ByteScanner.Scanner ByteScanner.line_unknown_keysym []) []
          = Some (TOK_ERROR, s',
                  [Lexer.scanner_err Lexer.unrecognized_lhs_keysym]))
    as [s' Hrun].
  { eexists. vm_compute. reflexivity. }
  destruct (lex_error_logged _ _ _ _ _ _ _ _ _ _ _ _ _ _ _ _
              _ _ _ _ _ _ _ _ Hrun) as (ws & es & Hlog & _ & Herr & _).
  exists s', ws, es. split; [| exact Herr].
  rewrite Hrun. by rewrite <- Hlog.
Defined.

Lemma lex_include_string_sound_witness :
  ∃ s',
    ByteScanner.run_lex_include_string 20
      (ByteScanner.Scanner [x20; x22; x66; x22] []) []
    = Some (TOK_INCLUDE_STRING "f", s', []) ∧
    String.string_of_list_byte (ByteScanner.buf s') = "f"%string.
Proof.
  assert (∃ s', ByteScanner.run_lex_include_string 20
            (ByteScanner.Scanner [x20; x22; x66; x22] []) []
          = Some (TOK_INCLUDE_STRING "f", s', [])) as [s' Hrun].
  { eexists. vm_compute. reflexivity. }
  exists s'. split; [exact Hrun |].
  pose proof Hrun as Hsound.
  apply lex_include_string_sound in Hsound
    as [[Heq _] | [[Heq _] | [Heq _]]];
    [discriminate Heq | | discriminate Heq].
  by inversion Heq.
Defined.

(** ** Reference counts *)

Lemma users_app c l l' : Refs.users c (l ++ l') = Refs.users c l + Refs.users c l'.
Proof. induction l as [| x l IH]; simpl; [done |]. rewrite IH. lia. Qed.

Lemma users_insert c : ∀ l s x y,
  l !! s = Some x →
  Refs.users c (<[s := y]> l) + (if Refs.uses c x then 1 else 0) =
  Refs.users c l + (if Refs.uses c y then 1 else 0).
Proof.
  induction l as [| z l IH]; intros s x y Hs; [done |].
  destruct s as [| s]; simpl in *.
  - inversion Hs; subst z. lia.
  - specialize (IH s x y Hs). lia.
Qed.

Lemma users_found c : ∀ l s r,
  l !! s = Some (Some (r, c)) → 0 < Refs.users c l.
Proof.
  induction l as [| z l IH]; intros s r Hs; [done |].
  destruct s as [| s]; simpl in *.
  - inversion Hs; subst z. simpl. rewrite Nat.eqb_refl. lia.
  - specialize (IH s r Hs). lia.
Qed.

Lemma users_find c : ∀ l,
  0 < Refs.users c l → ∃ s r, l !! s = Some (Some (r, c)).
Proof.
  induction l as [| z l IH]; simpl; intros H; [lia |].
  destruct (Refs.uses c z) eqn:E.
  - destruct z as [[r c'] |]; [| done]. simpl in E.
    apply Nat.eqb_eq in E. subst c'. by exists 0, r.
  - destruct IH as (s & r & Hs); [lia |]. by exists (S s), r.
Qed.

Lemma mjoin_lookup_insert {A} (l : list (option A)) i j v :
  i < length l →
  mjoin (<[i := v]> l !! j) = if Nat.eqb j i then v else mjoin (l !! j).
Proof.
  intros Hi. destruct (Nat.eqb j i) eqn:E.
  - apply Nat.eqb_eq in E. subst j. by rewrite list_lookup_insert_eq.
  - apply Nat.eqb_neq in E. by rewrite list_lookup_insert_ne.
Qed.

Lemma mjoin_lookup_snoc {A} (l : list (option A)) j v :
  mjoin ((l ++ [Some v]) !! j) =
  if Nat.eqb j (length l) then Some v else mjoin (l !! j).
Proof.
  destruct (Nat.eqb j (length l)) eqn:E.
  - apply Nat.eqb_eq in E. subst j. rewrite lookup_app_r by lia.
    by rewrite Nat.sub_diag.
  - apply Nat.eqb_neq in E.
    destruct (decide (j < length l)) as [Hlt | Hge].
    + by rewrite lookup_app_l.
    + rewrite lookup_app_r by lia.
      destruct (j - length l) as [| d] eqn:Hd; [lia |].
      rewrite (lookup_ge_None_2 l j) by lia. by destruct d.
Qed.

Lemma mjoin_lookup_lt {A} (l : list (option A)) j v :
  mjoin (l !! j) = Some v → j < length l.
Proof.
  intros H. destruct (l !! j) eqn:E; [| done]. by eapply lookup_lt_Some.
Qed.

Lemma mjoin_lookup_Some {A} (l : list (option A)) j v :
  mjoin (l !! j) = Some v → l !! j = Some (Some v).
Proof. intros H. destruct (l !! j) as [[x |] |]; simpl in H; congruence. Qed.

(** A permitted call is defined, and leaves the counts equal to the
    references held. *)
Lemma counted_call h o a :
  Refs.counted h o → Refs.permitted h o a →
  ∃ h', Refs.run_call h a = Some h' ∧
        Refs.counted h' (Refs.holds_after h o a).
Proof.
  intros [Ht Hs] Hp. destruct a as [resolved calloc | c | [c |]
                                   | calloc c | s | [s |]];
    simpl in Hp |- *.
  - (* xkb_compose_new *)
    eexists. split; [done |]. unfold Refs.xkb_compose_new.
    destruct resolved, calloc; simpl; try done.
    split; [| done]. intros c. unfold Refs.load_table, Refs.upd. simpl.
    rewrite mjoin_lookup_snoc. specialize (Ht c).
    unfold Refs.load_table in Ht.
    destruct (Nat.eqb c (length (Refs.tables h))) eqn:E; [| done].
    apply Nat.eqb_eq in E. subst c.
    rewrite lookup_ge_None_2 in Ht by lia. simpl in Ht.
    destruct Ht as [_ ->]. split; [done | lia].
  - (* xkb_compose_ref *)
    destruct Hp as [Hown Hmax]. pose proof (Ht c) as Hc.
    unfold Refs.xkb_compose_ref.
    destruct (Refs.load_table h c) as [r |] eqn:Hr; [| lia].
    simpl. destruct (Z.eqb r Refs.INT_MAX) eqn:E.
    { apply Z.eqb_eq in E. congruence. }
    eexists. split; [done |]. split; [| done].
    intros c'. unfold Refs.load_table, Refs.store_table, Refs.upd. simpl.
    rewrite mjoin_lookup_insert by (by eapply mjoin_lookup_lt).
    specialize (Ht c'). unfold Refs.load_table in Ht.
    destruct (Nat.eqb c' c) eqn:E'; [| done].
    apply Nat.eqb_eq in E'. subst c'. lia.
  - (* xkb_compose_unref *)
    pose proof (Ht c) as Hc. unfold Refs.xkb_compose_unref.
    destruct (Refs.load_table h c) as [r |] eqn:Hr; [| lia].
    simpl. destruct Hc as [Hc Hpos].
    destruct (Z.eqb r Refs.INT_MIN) eqn:E.
    { apply Z.eqb_eq in E. unfold Refs.INT_MIN in E. lia. }
    destruct (Z.ltb 0 (r - 1)) eqn:E1;
      [apply Z.ltb_lt in E1 | apply Z.ltb_ge in E1];
      (eexists; split; [done |]; split; [| done]);
      intros c'; unfold Refs.load_table, Refs.store_table, Refs.upd;
      simpl; rewrite mjoin_lookup_insert by (by eapply mjoin_lookup_lt);
      specialize (Ht c'); unfold Refs.load_table in Ht;
      (destruct (Nat.eqb c' c) eqn:E'; [| done]);
      apply Nat.eqb_eq in E'; subst c'; lia.
  - (* xkb_compose_unref(NULL) *)
    by exists h.
  - (* xkb_compose_state_new *)
    destruct Hp as [Hown Hmax]. unfold Refs.xkb_compose_state_new.
    destruct calloc; simpl; [| by exists h].
    pose proof (Ht c) as Hc. unfold Refs.xkb_compose_ref.
    destruct (Refs.load_table h c) as [r |] eqn:Hr; [| lia].
    simpl. destruct (Z.eqb r Refs.INT_MAX) eqn:E.
    { apply Z.eqb_eq in E. specialize (Hmax eq_refl). congruence. }
    simpl. eexists. split; [done |]. split.
    + intros c'. unfold Refs.load_table. simpl.
      rewrite mjoin_lookup_insert by (by eapply mjoin_lookup_lt).
      rewrite users_app. simpl.
      specialize (Ht c'). unfold Refs.load_table in Ht.
      destruct (Nat.eqb c' c) eqn:E'.
      * apply Nat.eqb_eq in E'. subst c'. rewrite Nat.eqb_refl. lia.
      * rewrite Nat.eqb_sym, E'. simpl.
        by rewrite !Nat.add_0_r.
    + intros s. unfold Refs.load_state, Refs.upd. simpl.
      rewrite mjoin_lookup_snoc. specialize (Hs s).
      unfold Refs.load_state in Hs.
      destruct (Nat.eqb s (length (Refs.states h))); [| done].
      split; [done | lia].
  - (* xkb_compose_state_ref *)
    destruct Hp as [Hown Hmax]. pose proof (Hs s) as Hss.
    unfold Refs.xkb_compose_state_ref.
    destruct (Refs.load_state h s) as [[r c] |] eqn:Hr; [| lia].
    simpl. destruct (Z.eqb r Refs.INT_MAX) eqn:E.
    { apply Z.eqb_eq in E. subst r. by destruct (Hmax c). }
    eexists. split; [done |].
    pose proof (mjoin_lookup_lt _ _ _ Hr) as Hlt.
    pose proof (users_insert) as Hu.
    split.
    + intros c'. unfold Refs.load_table. simpl.
      specialize (Hu c' _ s _ (Some ((r + 1)%Z, c))
                    (mjoin_lookup_Some _ _ _ Hr)). simpl in Hu.
      specialize (Ht c'). unfold Refs.load_table in Ht.
      replace (Refs.users c' (<[s:=Some ((r + 1)%Z, c)]> (Refs.states h)))
        with (Refs.users c' (Refs.states h)) by lia.
      done.
    + intros s'. unfold Refs.load_state, Refs.store_state, Refs.upd.
      simpl. rewrite mjoin_lookup_insert by done.
      specialize (Hs s'). unfold Refs.load_state in Hs.
      destruct (Nat.eqb s' s) eqn:E'; [| done].
      apply Nat.eqb_eq in E'. subst s'. lia.
  - (* xkb_compose_state_unref *)
    pose proof (Hs s) as Hss. unfold Refs.xkb_compose_state_unref.
    destruct (Refs.load_state h s) as [[r c] |] eqn:Hr; [| lia].
    simpl. destruct Hss as [Hss Hpos].
    destruct (Z.eqb r Refs.INT_MIN) eqn:E.
    { apply Z.eqb_eq in E. unfold Refs.INT_MIN in E. lia. }
    pose proof (mjoin_lookup_lt _ _ _ Hr) as Hlt.
    pose proof (mjoin_lookup_Some _ _ _ Hr) as Hat.
    destruct (Z.ltb 0 (r - 1)) eqn:E1;
      [apply Z.ltb_lt in E1 | apply Z.ltb_ge in E1].
    + eexists. split; [done |]. split.
      * intros c'. unfold Refs.load_table. simpl.
        pose proof (users_insert c' _ s _ (Some ((r - 1)%Z, c)) Hat)
          as Hu. simpl in Hu.
        specialize (Ht c'). unfold Refs.load_table in Ht.
        replace (Refs.users c' (<[s:=Some ((r - 1)%Z, c)]> (Refs.states h)))
          with (Refs.users c' (Refs.states h)) by lia.
        done.
      * intros s'. unfold Refs.load_state, Refs.store_state, Refs.upd.
        simpl. rewrite mjoin_lookup_insert by done.
        specialize (Hs s'). unfold Refs.load_state in Hs.
        destruct (Nat.eqb s' s) eqn:E'; [| done].
        apply Nat.eqb_eq in E'. subst s'. lia.
    + pose proof (Ht c) as Hc. unfold Refs.xkb_compose_unref.
      unfold Refs.load_table in Hc |- *. simpl.
      pose proof (users_found c _ s r Hat) as Huse.
      destruct (mjoin (Refs.tables h !! c)) as [rc |] eqn:Hrc; [| lia].
      simpl. destruct Hc as [Hc Hcpos].
      destruct (Z.eqb rc Refs.INT_MIN) eqn:E2.
      { apply Z.eqb_eq in E2. unfold Refs.INT_MIN in E2. lia. }
      pose proof (mjoin_lookup_lt _ _ _ Hrc) as Hclt.
      assert (∀ c',
                Refs.users c'
                  (<[s := None]>
                     (<[s := Some ((r - 1)%Z, c)]> (Refs.states h))) +
                (if Nat.eqb c c' then 1 else 0) =
                Refs.users c' (Refs.states h)) as Hu.
      { intros c'. rewrite list_insert_insert_eq.
        pose proof (users_insert c' _ s _ None Hat) as Hu.
        simpl in Hu. lia. }
      destruct (Z.ltb 0 (rc - 1)) eqn:E3;
        [apply Z.ltb_lt in E3 | apply Z.ltb_ge in E3];
        simpl; (eexists; split; [done |]); split.
      * intros c'. unfold Refs.load_table. simpl.
        rewrite mjoin_lookup_insert by done.
        specialize (Ht c'). unfold Refs.load_table in Ht.
        specialize (Hu c'). rewrite Nat.eqb_sym in Hu.
        destruct (Nat.eqb c' c) eqn:E'.
        -- apply Nat.eqb_eq in E'. subst c'. lia.
        -- by replace (Refs.users c' _) with (Refs.users c' (Refs.states h))
             by lia.
      * intros s'. unfold Refs.load_state, Refs.upd. simpl.
        rewrite mjoin_lookup_insert
          by (by rewrite length_insert).
        rewrite mjoin_lookup_insert by done.
        specialize (Hs s'). unfold Refs.load_state in Hs.
        destruct (Nat.eqb s' s) eqn:E'; [| done].
        apply Nat.eqb_eq in E'. subst s'. lia.
      * intros c'. unfold Refs.load_table. simpl.
        rewrite mjoin_lookup_insert by done.
        specialize (Ht c'). unfold Refs.load_table in Ht.
        specialize (Hu c'). rewrite Nat.eqb_sym in Hu.
        destruct (Nat.eqb c' c) eqn:E'.
        -- apply Nat.eqb_eq in E'. subst c'. lia.
        -- by replace (Refs.users c' _) with (Refs.users c' (Refs.states h))
             by lia.
      * intros s'. unfold Refs.load_state, Refs.upd. simpl.
        rewrite mjoin_lookup_insert
          by (by rewrite length_insert).
        rewrite mjoin_lookup_insert by done.
        specialize (Hs s'). unfold Refs.load_state in Hs.
        destruct (Nat.eqb s' s) eqn:E'; [| done].
        apply Nat.eqb_eq in E'. subst s'. lia.
  - (* xkb_compose_state_unref(NULL) *)
    by exists h.
Qed.

Lemma session_counted h o : Refs.session h o → Refs.counted h o.
Proof.
  induction 1 as [| h o a h' _ IH Hp Hrun].
  - split; intros i; unfold Refs.load_table, Refs.load_state; simpl;
      by destruct i.
  - destruct (counted_call h o a IH Hp) as (h'' & Hrun' & Hc).
    congruence.
Qed.

(** X24.  Objects live as long as they are referred to.  In every heap
    that a client reaches from the empty one by calls the API permits
    (it duplicates and gives back only references it holds, and makes
    states only of tables it holds), no permitted call touches a freed
    object or overflows a count; a table the client holds has not been
    freed; and a state the client holds has not been freed, nor has the
    table that [xkb_compose_state_get_compose] returns for it, even when
    the client has given back all its own references to that table. *)
Theorem references_keep_objects_alive (h : Refs.heap) (o : Refs.holds) :
  Refs.session h o →
  (∀ a, Refs.permitted h o a → is_Some (Refs.run_call h a)) ∧
  (∀ c, 0 < Refs.own_table o c → is_Some (Refs.load_table h c)) ∧
  (∀ s, 0 < Refs.own_state o s →
     ∃ c, Refs.xkb_compose_state_get_compose h s = Some c ∧
          is_Some (Refs.load_table h c)).
Proof.
  intros Hsession. pose proof (session_counted _ _ Hsession) as Hc.
  split; [| split].
  - intros a Hp. destruct (counted_call h o a Hc Hp) as (h' & Hrun & _).
    by exists h'.
  - intros c Hown. destruct Hc as [Ht _]. specialize (Ht c).
    destruct (Refs.load_table h c); [by eauto | lia].
  - intros s Hown. destruct Hc as [Ht Hs]. specialize (Hs s).
    unfold Refs.xkb_compose_state_get_compose.
    destruct (Refs.load_state h s) as [[r c] |] eqn:Hr; [| lia].
    exists c. split; [done |]. specialize (Ht c).
    pose proof (users_found c _ s r (mjoin_lookup_Some _ _ _ Hr)).
    destruct (Refs.load_table h c); [by eauto | lia].
Qed.

(** X25.  Objects nothing refers to are freed.  In every heap that a
    client reaches by permitted calls, a state to which the client holds
    no reference has been freed, and so has a table to which it holds no
    reference and which is the table of no state it holds. *)
Theorem unreferenced_objects_are_freed (h : Refs.heap) (o : Refs.holds) :
  Refs.session h o →
  (∀ s, Refs.own_state o s = 0 → Refs.load_state h s = None) ∧
  (∀ c, Refs.own_table o c = 0 →
     (∀ s, 0 < Refs.own_state o s →
           Refs.xkb_compose_state_get_compose h s ≠ Some c) →
     Refs.load_table h c = None).
Proof.
  intros Hsession. destruct (session_counted _ _ Hsession) as [Ht Hs].
  split.
  - intros s Hown. specialize (Hs s).
    destruct (Refs.load_state h s) as [[r c] |]; [lia | done].
  - intros c Hown Hnone. specialize (Ht c).
    destruct (Refs.load_table h c) as [r |]; [| done]. exfalso.
    destruct (users_find c (Refs.states h)) as (s & r' & Hat); [lia |].
    specialize (Hs s). unfold Refs.load_state in Hs.
    rewrite Hat in Hs. simpl in Hs.
    apply (Hnone s); [lia |].
    unfold Refs.xkb_compose_state_get_compose, Refs.load_state.
    by rewrite Hat.
Qed.

Lemma session_state_only : Refs.session heap_state_only holds_state_only.
Proof.
  apply (Refs.session_call heap_table_state _ (Refs.Unref (Some 0)));
    [| simpl; unfold Refs.upd; simpl; lia | reflexivity].
  apply (Refs.session_call heap_table _ (Refs.StateNew true 0));
    [| split; [simpl; unfold Refs.upd; simpl; lia | done] | reflexivity].
  apply (Refs.session_call empty_heap no_holds (Refs.New true true));
    [apply Refs.session_start | done | reflexivity].
Qed.

Lemma session_freed : Refs.session heap_freed holds_nothing.
Proof.
  apply (Refs.session_call heap_state_only holds_state_only
           (Refs.StateUnref (Some 0)));
    [exact session_state_only | simpl; unfold Refs.upd; simpl; lia
     | reflexivity].
Qed.

Lemma references_keep_objects_alive_witness :
  Refs.own_table holds_state_only 0 = 0 ∧
  Refs.own_state holds_state_only 0 = 1 ∧
  (∀ a, Refs.permitted heap_state_only holds_state_only a →
        is_Some (Refs.run_call heap_state_only a)) ∧
  (∀ c, 0 < Refs.own_table holds_state_only c →
        is_Some (Refs.load_table heap_state_only c)) ∧
  (∀ s, 0 < Refs.own_state holds_state_only s →
     ∃ c, Refs.xkb_compose_state_get_compose heap_state_only s = Some c ∧
          is_Some (Refs.load_table heap_state_only c)).
Proof.
  split; [reflexivity |]. split; [reflexivity |].
  apply (references_keep_objects_alive heap_state_only holds_state_only).
  exact session_state_only.
Defined.

Lemma unreferenced_objects_are_freed_witness :
  Refs.own_table holds_nothing 0 = 0 ∧
  Refs.own_state holds_nothing 0 = 0 ∧
  (∀ s, Refs.own_state holds_nothing s = 0 →
        Refs.load_state heap_freed s = None) ∧
  (∀ c, Refs.own_table holds_nothing c = 0 →
     (∀ s, 0 < Refs.own_state holds_nothing s →
           Refs.xkb_compose_state_get_compose heap_freed s ≠ Some c) →
     Refs.load_table heap_freed c = None).
Proof.
  split; [reflexivity |]. split; [reflexivity |].
  apply (unreferenced_objects_are_freed heap_freed holds_nothing).
  exact session_freed.
Defined.
